(** * Call orchestration of the Forsta web messenger (src/app/views/call.js)

    A shallow embedding of the negotiation core of the call view: the early
    ICE candidate queue, the SDP bandwidth limiter, peer staleness, presenter
    selection, out-track replacement, join, peer removal and the per-address
    handshake queue, with the properties the design document states for them.
    After these come the incoming-call bookkeeping, the member roster, muting,
    track attachment, stream rendering, link reconciliation, signalling,
    leaving, device capture, the compose field and the message markup of
    src/app/util.js, with properties read off the code. *)

From Stdlib Require Import ZArith QArith Qround Qpower Lia Lqa Bool FunInd.
From Stdlib Require Import Strings.String Strings.Ascii.
From Stdlib Require Import Numbers.DecimalString Numbers.DecimalZ.
From Stdlib Require Import Numbers.DecimalN Numbers.DecimalPos.
From stdpp Require Import gmap strings list.

Local Open Scope Z_scope.

(** ** The Number type of JavaScript: IEEE 754 binary64 *)

Module Double.

(** A double: not a number, an infinity, a zero (both carry a sign), or
    [m * 2 ^ e] with a sign.  The doubles proper have [m] below [2 ^ 53] and
    [e] from [-1074] to [971], with [m] at least [2 ^ 52] unless [e] is
    [-1074] ([isDouble]). *)
Inductive Number :=
| NaN
| Infinity (negative : bool)
| Zero (negative : bool)
| Finite (negative : bool) (m : positive) (e : Z).

Definition pow2 (e : Z) : Q := (2 ^ e)%Q.

Definition isDouble (x : Number) : bool :=
  match x with
  | Finite _ m e =>
      (Z.pos m <? 2 ^ 53) && (-1074 <=? e) && (e <=? 971)
      && ((2 ^ 52 <=? Z.pos m) || (e =? -1074))
  | _ => true
  end.

Definition signed (negative : bool) (q : Q) : Q :=
  if negative then (- q)%Q else q.

(** The absolute value and the value of a double that is not NaN or
    infinite. *)
Definition magnitude (x : Number) : Q :=
  match x with
  | Finite _ m e => (inject_Z (Z.pos m) * pow2 e)%Q
  | _ => 0%Q
  end.

Definition toQ (x : Number) : Q :=
  match x with
  | Finite s _ _ => signed s (magnitude x)
  | _ => 0%Q
  end.

(** *** Rounding to the nearest double, ties to the even mantissa *)

(** The integer [L] with [2 ^ L <= q < 2 ^ (L + 1)], for [0 < q]. *)
Definition floorLog2 (q : Q) : Z :=
  let k := Z.log2 (Qnum q) - Z.log2 (Z.pos (Qden q)) in
  if Qle_bool (pow2 k) q then k else k - 1.

Definition roundHalfEven (x : Q) : Z :=
  let t := Qfloor x in
  match (x - inject_Z t ?= 1 # 2)%Q with
  | Lt => t
  | Gt => t + 1
  | Eq => if Z.even t then t else t + 1
  end.

(** The double nearest to a magnitude [q], with the sign given. *)
Definition roundQ (negative : bool) (q : Q) : Number :=
  if Qle_bool q 0 then Zero negative
  else
    let e := Z.max (floorLog2 q - 52) (-1074) in
    let m := roundHalfEven (q / pow2 e) in
    if m =? 0 then Zero negative
    else if m =? 2 ^ 53 then
      if 971 <=? e then Infinity negative
      else Finite negative (2 ^ 52)%positive (e + 1)
    else if 971 <? e then Infinity negative
    else Finite negative (Z.to_pos m) e.

Definition ofQ (q : Q) : Number :=
  if Qle_bool 0 q then roundQ false q else roundQ true (- q)%Q.

Definition ofZ (n : Z) : Number := ofQ (inject_Z n).

(** *** Arithmetic and comparison *)

Definition opp (x : Number) : Number :=
  match x with
  | NaN => NaN
  | Infinity s => Infinity (negb s)
  | Zero s => Zero (negb s)
  | Finite s m e => Finite (negb s) m e
  end.

Definition isNegative (x : Number) : bool :=
  match x with
  | NaN => false
  | Infinity s | Zero s | Finite s _ _ => s
  end.

(** [x + y]: of two numbers that are not NaN or infinite, the double nearest
    to the exact sum; an exact sum of zero is [+0] unless both are [-0]. *)
Definition add (x y : Number) : Number :=
  match x, y with
  | NaN, _ | _, NaN => NaN
  | Infinity sx, Infinity sy => if Bool.eqb sx sy then x else NaN
  | Infinity _, _ => x
  | _, Infinity _ => y
  | Zero sx, Zero sy => Zero (sx && sy)
  | _, _ =>
      let q := (toQ x + toQ y)%Q in
      if Qeq_bool q 0 then Zero false else ofQ q
  end.

(** [x - y] *)
Definition sub (x y : Number) : Number := add x (opp y).

(** [x * y] *)
Definition mul (x y : Number) : Number :=
  let s := xorb (isNegative x) (isNegative y) in
  match x, y with
  | NaN, _ | _, NaN => NaN
  | Infinity _, Zero _ | Zero _, Infinity _ => NaN
  | Infinity _, _ | _, Infinity _ => Infinity s
  | Zero _, _ | _, Zero _ => Zero s
  | Finite _ _ _, Finite _ _ _ => roundQ s (magnitude x * magnitude y)
  end.

(** [x / y] *)
Definition div (x y : Number) : Number :=
  let s := xorb (isNegative x) (isNegative y) in
  match x, y with
  | NaN, _ | _, NaN => NaN
  | Infinity _, Infinity _ => NaN
  | Infinity _, _ => Infinity s
  | _, Infinity _ => Zero s
  | Zero _, Zero _ => NaN
  | Zero _, Finite _ _ _ => Zero s
  | Finite _ _ _, Zero _ => Infinity s
  | Finite _ _ _, Finite _ _ _ => roundQ s (magnitude x / magnitude y)
  end.

(** [x < y] *)
Definition ltb (x y : Number) : bool :=
  match x, y with
  | NaN, _ | _, NaN => false
  | Infinity sx, Infinity sy => sx && negb sy
  | Infinity sx, _ => sx
  | _, Infinity sy => negb sy
  | _, _ => negb (Qle_bool (toQ y) (toQ x))
  end.

(** [x >= y] *)
Definition geb (x y : Number) : bool :=
  match x, y with
  | NaN, _ | _, NaN => false
  | _, _ => negb (ltb x y)
  end.

(** [ToBoolean(x)] *)
Definition truthy (x : Number) : bool :=
  match x with
  | NaN | Zero _ => false
  | _ => true
  end.

(** [Math.round(x)]: the nearest integer, halves toward plus infinity; a
    result of zero keeps the sign of [x]. *)
Definition Math_round (x : Number) : Number :=
  match x with
  | Finite s _ _ =>
      let f := Qfloor (toQ x + (1 # 2)) in
      if f =? 0 then Zero s else ofZ f
  | _ => x
  end.



(** *** Text of a number: [Number::toString] *)

Definition digits (n : Z) : string :=
  NilEmpty.string_of_uint (N.to_uint (Z.to_N n)).

Fixpoint zeros (n : nat) : string :=
  match n with
  | O => EmptyString
  | S n' => String "0" (zeros n')
  end.

Definition pow10 (n : Z) : Q := (10 ^ n)%Q.

Definition Number_eqb (x y : Number) : bool :=
  match x, y with
  | NaN, NaN => true
  | Infinity s, Infinity t | Zero s, Zero t => Bool.eqb s t
  | Finite s m e, Finite t m' e' => Bool.eqb s t && (m =? m')%positive && (e =? e')
  | _, _ => false
  end.

(** The integer [n] with [10 ^ (n - 1) <= q < 10 ^ n], for [0 < q]: the
    estimate from the binary exponent is out by one or two at most. *)
Definition decimalExponent (q : Q) : Z :=
  let est := floorLog2 q * 30103 / 100000 in
  let fits n := Qle_bool (pow10 (n - 1)) q && negb (Qle_bool (pow10 n) q) in
  if fits est then est
  else if fits (est + 1) then est + 1
  else if fits (est + 2) then est + 2
  else if fits (est - 1) then est - 1
  else est + 3.

(** The decimal [s * 10 ^ (n - k)] with [k] digits that denotes the double
    of magnitude [q], if one does: of the two decimals around [q] the valid
    one, the nearer one if both are, the even one if they are as near. *)
Definition decimalOf (x : Number) (q : Q) (n k : Z) : option (Z * Z * Z) :=
  let scale := pow10 (n - k) in
  let lo := Qfloor (q / scale) in
  let hi := lo + 1 in
  let valid s := Number_eqb (roundQ false (inject_Z s * scale)) x in
  let pick s := if s =? 10 ^ k then Some (n + 1, 1, 1) else Some (n, k, s) in
  match valid lo, valid hi with
  | true, true =>
      match (q - inject_Z lo * scale ?= inject_Z hi * scale - q)%Q with
      | Lt => pick lo
      | Gt => pick hi
      | Eq => if Z.even lo then pick lo else pick hi
      end
  | true, false => pick lo
  | false, true => pick hi
  | false, false => None
  end.

(** The shortest decimal: [k] goes up from [from] for [fuel] steps; a double
    has one of 17 digits at most. *)
Fixpoint shortestFrom (fuel : nat) (x : Number) (q : Q) (n from : Z)
  : Z * Z * Z :=
  match fuel with
  | O => (n, from, Qfloor (q / pow10 (n - from)))
  | S fuel' =>
      match decimalOf x q n from with
      | Some r => r
      | None => shortestFrom fuel' x q n (from + 1)
      end
  end.

Definition shortest (x : Number) : Z * Z * Z :=
  let q := magnitude x in
  shortestFrom 17 (Finite false
                     match x with Finite _ m _ => m | _ => 1%positive end
                     match x with Finite _ _ e => e | _ => 0 end)
               q (decimalExponent q) 1.

Definition format (n k s : Z) : string :=
  let ds := digits s in
  if (k <=? n) && (n <=? 21) then ds +:+ zeros (Z.to_nat (n - k))
  else if (0 <? n) && (n <=? 21) then
    String.substring 0 (Z.to_nat n) ds +:+ "."
    +:+ String.substring (Z.to_nat n) (Z.to_nat (k - n)) ds
  else if (-6 <? n) && (n <=? 0) then
    "0." +:+ zeros (Z.to_nat (- n)) +:+ ds
  else
    let e := n - 1 in
    let es := (if e <? 0 then "-" else "+") +:+ digits (Z.abs e) in
    if k =? 1 then ds +:+ "e" +:+ es
    else String.substring 0 1 ds +:+ "."
         +:+ String.substring 1 (Z.to_nat (k - 1)) ds +:+ "e" +:+ es.

(** An integer up to [2 ^ 53]. *)
Definition safeInteger (x : Number) : option Z :=
  match x with
  | Finite _ m e =>
      let q := magnitude x in
      if Qeq_bool (inject_Z (Qfloor q)) q && (Qfloor q <=? 2 ^ 53)
      then Some (Qfloor q) else None
  | _ => None
  end.

(** [String(x)] and [`${x}`].  An integer up to [2 ^ 53] is written with all
    its digits: no shorter decimal denotes it, every other integer of that
    size and every multiple of 10 next to it being a double of its own. *)
Definition toString (x : Number) : string :=
  match x with
  | NaN => "NaN"
  | Zero _ => "0"
  | Infinity s => (if s then "-" else "") +:+ "Infinity"
  | Finite s _ _ =>
      (if s then "-" else "")
      +:+ match safeInteger x with
          | Some n => digits n
          | None => let '(n, k, s) := shortest x in format n k s
          end
  end.

(** *** Number of a text: [Number(string)] *)

Definition code (c : ascii) : Z := Z.of_N (N_of_ascii c).

(** White space and line terminators among the characters below 256. *)
Definition isWhiteSpace (c : ascii) : bool :=
  let n := code c in
  ((9 <=? n) && (n <=? 13)) || (n =? 32) || (n =? 160).

Definition isDigit (c : ascii) : bool :=
  let n := code c in (48 <=? n) && (n <=? 57).

Fixpoint trimStart (s : string) : string :=
  match s with
  | EmptyString => EmptyString
  | String c rest => if isWhiteSpace c then trimStart rest else s
  end.

Fixpoint trimEnd (s : string) : string :=
  match s with
  | EmptyString => EmptyString
  | String c rest =>
      match trimEnd rest with
      | EmptyString => if isWhiteSpace c then EmptyString
                       else String c EmptyString
      | rest' => String c rest'
      end
  end.

(** The longest run of digits at the start of a text, and what follows. *)
Fixpoint digitRun (s : string) : string * string :=
  match s with
  | EmptyString => (EmptyString, EmptyString)
  | String c rest =>
      if isDigit c then
        let r := digitRun rest in (String c r.1, r.2)
      else (EmptyString, s)
  end.

Definition digitsValue (run : string) : Z :=
  match NilEmpty.uint_of_string run with
  | Some d => Z.of_N (N.of_uint d)
  | None => 0
  end.

(** An optional sign in front of a text: whether it is [-], and the rest. *)
Definition signOf (s : string) : bool * string :=
  match s with
  | String c r =>
      if Ascii.eqb c "+" then (false, r)
      else if Ascii.eqb c "-" then (true, r)
      else (false, s)
  | EmptyString => (false, s)
  end.

(** [ExponentPart], optional, up to the end of the text. *)
Definition exponentPart (s : string) : option Z :=
  match s with
  | EmptyString => Some 0
  | String c rest =>
      if Ascii.eqb c "e" || Ascii.eqb c "E" then
        let signed := signOf rest in
        let r := digitRun signed.2 in
        match r.1, r.2 with
        | String _ _, EmptyString =>
            Some (if signed.1 then - digitsValue r.1 else digitsValue r.1)
        | _, _ => None
        end
      else None
  end.

(** The fraction: the digits after a point, if there is a point. *)
Definition fractionPart (s : string) : string * string :=
  match s with
  | String c r => if Ascii.eqb c "." then digitRun r else (EmptyString, s)
  | EmptyString => (EmptyString, s)
  end.

(** [StrUnsignedDecimalLiteral]: [Infinity], or digits with an optional
    fraction and exponent; the value is rounded to the nearest double. *)
Definition StrUnsignedDecimalLiteral (negative : bool) (s : string) : Number :=
  if String.eqb s "Infinity" then Infinity negative
  else
    let int := digitRun s in
    let frac := fractionPart int.2 in
    match (int.1 +:+ frac.1)%string with
    | EmptyString => NaN
    | mantissa =>
        match exponentPart frac.2 with
        | None => NaN
        | Some ex =>
            roundQ negative
              (inject_Z (digitsValue mantissa)
               * pow10 (ex - Z.of_nat (String.length frac.1)))
        end
    end.

Definition StrDecimalLiteral (s : string) : Number :=
  let signed := signOf s in
  StrUnsignedDecimalLiteral signed.1 signed.2.

(** The value of a digit in a base up to 16, if it is one. *)
Definition digitIn (base : Z) (c : ascii) : option Z :=
  let n := code c in
  let v := if (48 <=? n) && (n <=? 57) then n - 48
           else if (97 <=? n) && (n <=? 102) then n - 87
           else if (65 <=? n) && (n <=? 70) then n - 55
           else 16 in
  if v <? base then Some v else None.

Fixpoint digitsIn (base acc : Z) (s : string) : option Z :=
  match s with
  | EmptyString => Some acc
  | String c rest =>
      match digitIn base c with
      | Some v => digitsIn base (acc * base + v) rest
      | None => None
      end
  end.

(** [NonDecimalIntegerLiteral]: [0x], [0o] and [0b] with digits after them;
    [None] when the text does not start like one. *)
Definition NonDecimalIntegerLiteral (s : string) : option Number :=
  match s with
  | String z (String p (String c rest)) =>
      let base :=
        if Ascii.eqb p "x" || Ascii.eqb p "X" then 16
        else if Ascii.eqb p "o" || Ascii.eqb p "O" then 8
        else if Ascii.eqb p "b" || Ascii.eqb p "B" then 2
        else 0 in
      if Ascii.eqb z "0" && negb (base =? 0) then
        Some match digitsIn base 0 (String c rest) with
             | Some n => ofZ n
             | None => NaN
             end
      else None
  | _ => None
  end.

(** [Number(s)] for a string. *)
Definition StringToNumber (s : string) : Number :=
  match trimEnd (trimStart s) with
  | EmptyString => Zero false
  | t =>
      match NonDecimalIntegerLiteral t with
      | Some x => x
      | None => StrDecimalLiteral t
      end
  end.

End Double.

(** ** Rounding to a double: validity, exactness, monotonicity *)

Module DoubleFacts.
Import Double.
Local Open Scope Q_scope.

Lemma pow2_pos e : 0 < pow2 e.
Proof. apply Qpower_0_lt. reflexivity. Qed.

Lemma pow2_add a b : pow2 (a + b) == pow2 a * pow2 b.
Proof. apply Qpower_plus. discriminate. Qed.

Lemma pow2_lt a b : (a < b)%Z -> pow2 a < pow2 b.
Proof. intros H. apply Qpower_lt_compat_l; [exact H | reflexivity]. Qed.

Lemma pow2_le a b : (a <= b)%Z -> pow2 a <= pow2 b.
Proof. intros H. apply Qpower_le_compat_l; [exact H | discriminate]. Qed.

Lemma pow2_lt_inv a b : pow2 a < pow2 b -> (a < b)%Z.
Proof. intros H. apply (Qpower_lt_compat_l_inv 2); [exact H | reflexivity]. Qed.

Lemma pow2_Z e : (0 <= e)%Z -> pow2 e == inject_Z (2 ^ e).
Proof. intros H. unfold pow2. rewrite (Zpower_Qpower 2 e H). reflexivity. Qed.

Lemma pow2_succ a : pow2 (a + 1) == 2 * pow2 a.
Proof. rewrite pow2_add. unfold pow2 at 2. simpl. lra. Qed.

Lemma pow2_opp a : pow2 a * pow2 (- a) == 1.
Proof.
  rewrite <- pow2_add. replace (a + - a)%Z with 0%Z by lia. reflexivity.
Qed.

Lemma div_pow2 q e : q / pow2 e == q * pow2 (- e).
Proof. unfold Qdiv, pow2. by rewrite Qpower_opp. Qed.

(** Exponents are unique. *)
Lemma pow2_unique q a b :
  pow2 a <= q < pow2 (a + 1) -> pow2 b <= q < pow2 (b + 1) -> a = b.
Proof.
  intros [Ha1 Ha2] [Hb1 Hb2].
  assert (H1 : (a < b + 1)%Z) by (apply pow2_lt_inv; lra).
  assert (H2 : (b < a + 1)%Z) by (apply pow2_lt_inv; lra).
  lia.
Qed.

Lemma Q_as_fraction q : q == inject_Z (Qnum q) / inject_Z (Z.pos (Qden q)).
Proof. destruct q as [a b]. unfold Qeq, Qdiv, Qmult, Qinv, inject_Z. simpl. lia. Qed.

Lemma floorLog2_spec q :
  0 < q -> pow2 (floorLog2 q) <= q < pow2 (floorLog2 q + 1).
Proof.
  intros Hq. unfold floorLog2.
  set (a := Qnum q). set (b := Z.pos (Qden q)).
  assert (Ha : (0 < a)%Z) by (destruct q as [n d]; unfold Qlt in Hq; simpl in *; lia).
  assert (Hb : (0 < b)%Z) by (unfold b; lia).
  pose proof (Z.log2_spec a Ha) as [La1 La2].
  pose proof (Z.log2_spec b Hb) as [Lb1 Lb2].
  pose proof (Z.log2_nonneg a) as Na. pose proof (Z.log2_nonneg b) as Nb.
  set (la := Z.log2 a) in *. set (lb := Z.log2 b) in *.
  assert (Qa1 : pow2 la <= inject_Z a).
  { rewrite pow2_Z by lia. rewrite <- Zle_Qle. exact La1. }
  assert (Qa2 : inject_Z a < pow2 (la + 1)).
  { rewrite pow2_Z by lia. rewrite <- Zlt_Qlt. replace (la + 1)%Z with (Z.succ la) by lia. exact La2. }
  assert (Qb1 : pow2 lb <= inject_Z b).
  { rewrite pow2_Z by lia. rewrite <- Zle_Qle. exact Lb1. }
  assert (Qb2 : inject_Z b < pow2 (lb + 1)).
  { rewrite pow2_Z by lia. rewrite <- Zlt_Qlt. replace (lb + 1)%Z with (Z.succ lb) by lia. exact Lb2. }
  assert (HB : 0 < inject_Z b) by (rewrite Zlt_Qlt in Hb; exact Hb).
  assert (Hq' : q * inject_Z b == inject_Z a).
  { rewrite (Q_as_fraction q) at 1. fold a b. field. lra. }
  pose proof (pow2_pos (la - lb)) as Pk.
  pose proof (pow2_pos lb) as Plb.
  assert (E1 : pow2 (la - lb + 1) * pow2 lb == pow2 (la + 1)).
  { rewrite <- pow2_add. by replace (la - lb + 1 + lb)%Z with (la + 1)%Z by lia. }
  assert (E2 : pow2 (la - lb - 1) * pow2 (lb + 1) == pow2 la).
  { rewrite <- pow2_add. by replace (la - lb - 1 + (lb + 1))%Z with la by lia. }
  pose proof (pow2_pos (la - lb + 1)) as Pk1.
  pose proof (pow2_pos (la - lb - 1)) as Pk2.
  assert (Up : q < pow2 (la - lb + 1)).
  { apply Qnot_le_lt. intros Hle.
    assert (H : pow2 (la - lb + 1) * pow2 lb <= q * inject_Z b).
    { apply Qmult_le_compat_nonneg; split; lra. }
    rewrite E1, Hq' in H. lra. }
  assert (Lo : pow2 (la - lb - 1) <= q).
  { apply Qnot_lt_le. intros Hlt.
    assert (H1 : q * inject_Z b <= pow2 (la - lb - 1) * inject_Z b)
      by (apply Qmult_le_compat_r; lra).
    assert (H2 : pow2 (la - lb - 1) * inject_Z b
                 < pow2 (la - lb - 1) * pow2 (lb + 1))
      by (apply Qmult_lt_l; lra).
    rewrite E2 in H2. rewrite Hq' in H1. lra. }
  destruct (Qle_bool (pow2 (la - lb)) q) eqn:E.
  - apply Qle_bool_iff in E. split; [exact E | exact Up].
  - assert (q < pow2 (la - lb)).
    { apply Qnot_le_lt. intros H. apply Qle_bool_iff in H. congruence. }
    replace (la - lb - 1 + 1)%Z with (la - lb)%Z by lia. split; [exact Lo | done].
Qed.

Lemma floorLog2_unique q a :
  pow2 a <= q < pow2 (a + 1) -> floorLog2 q = a.
Proof.
  intros H. assert (Hq : 0 < q) by (pose proof (pow2_pos a); lra).
  exact (pow2_unique q _ _ (floorLog2_spec q Hq) H).
Qed.


(** *** Rounding to the nearest integer *)

Lemma roundHalfEven_comp x y : x == y -> roundHalfEven x = roundHalfEven y.
Proof.
  intros H. unfold roundHalfEven. rewrite (Qfloor_comp _ _ H).
  assert (E : (x - inject_Z (Qfloor y) ?= 1 # 2)
              = (y - inject_Z (Qfloor y) ?= 1 # 2)) by (by rewrite H).
  by rewrite E.
Qed.

Lemma roundHalfEven_Z z : roundHalfEven (inject_Z z) = z.
Proof.
  unfold roundHalfEven. rewrite Qfloor_Z.
  assert (E : (inject_Z z - inject_Z z ?= 1 # 2) = Lt).
  { rewrite <- Qlt_alt. lra. }
  by rewrite E.
Qed.

Lemma roundHalfEven_floor x :
  (Qfloor x <= roundHalfEven x <= Qfloor x + 1)%Z.
Proof.
  unfold roundHalfEven.
  destruct (x - inject_Z (Qfloor x) ?= 1 # 2); [destruct (Z.even _)|..]; lia.
Qed.

Lemma roundHalfEven_lower x z : inject_Z z <= x -> (z <= roundHalfEven x)%Z.
Proof.
  intros H. pose proof (roundHalfEven_floor x).
  apply Qfloor_resp_le in H. rewrite Qfloor_Z in H. lia.
Qed.

Lemma roundHalfEven_upper x z : x <= inject_Z z -> (roundHalfEven x <= z)%Z.
Proof.
  intros H. pose proof (Qfloor_resp_le _ _ H) as Hf. rewrite Qfloor_Z in Hf.
  destruct (Z.eq_dec (Qfloor x) z) as [E|E].
  - assert (Hx : x == inject_Z z).
    { pose proof (Qfloor_le x) as Hl. rewrite E in Hl. lra. }
    rewrite (roundHalfEven_comp _ _ Hx), roundHalfEven_Z. lia.
  - pose proof (roundHalfEven_floor x). lia.
Qed.

Lemma roundHalfEven_mono x y : x <= y -> (roundHalfEven x <= roundHalfEven y)%Z.
Proof.
  intros H. pose proof (Qfloor_resp_le _ _ H) as Hf.
  pose proof (roundHalfEven_floor x) as Hx.
  pose proof (roundHalfEven_floor y) as Hy.
  destruct (Z.eq_dec (Qfloor x) (Qfloor y)) as [E|E]; [|lia].
  unfold roundHalfEven in *. rewrite E in *.
  destruct (x - inject_Z (Qfloor y) ?= 1 # 2) eqn:Ex;
    destruct (y - inject_Z (Qfloor y) ?= 1 # 2) eqn:Ey;
    try lia; try (destruct (Z.even (Qfloor y)); lia);
    repeat match goal with
      | C : (_ ?= _) = Eq |- _ => apply (proj2 (Qeq_alt _ _)) in C
      | C : (_ ?= _) = Lt |- _ => apply (proj2 (Qlt_alt _ _)) in C
      | C : (_ ?= _) = Gt |- _ => apply (proj2 (Qgt_alt _ _)) in C
      end; lra.
Qed.

(** *** The nearest double *)

Definition expo (q : Q) : Z := Z.max (floorLog2 q - 52) (-1074).
Definition mant (q : Q) : Z := roundHalfEven (q / pow2 (expo q)).

Lemma roundQ_unfold s q :
  0 < q ->
  roundQ s q
  = if (mant q =? 0)%Z then Zero s
    else if (mant q =? 2 ^ 53)%Z then
      if (971 <=? expo q)%Z then Infinity s
      else Finite s (2 ^ 52)%positive (expo q + 1)
    else if (971 <? expo q)%Z then Infinity s
    else Finite s (Z.to_pos (mant q)) (expo q).
Proof.
  intros Hq. unfold roundQ.
  destruct (Qle_bool q 0) eqn:E; [|reflexivity].
  apply Qle_bool_iff in E. lra.
Qed.

Lemma scaled_upper q : 0 < q -> q / pow2 (expo q) < pow2 53.
Proof.
  intros Hq. destruct (floorLog2_spec q Hq) as [_ Hu].
  rewrite div_pow2.
  assert (He : (floorLog2 q + 1 - expo q <= 53)%Z) by (unfold expo; lia).
  pose proof (pow2_pos (- expo q)) as Hp.
  assert (H : q * pow2 (- expo q) < pow2 (floorLog2 q + 1) * pow2 (- expo q))
    by (apply Qmult_lt_r; lra).
  rewrite <- pow2_add in H.
  apply (Qlt_le_trans _ _ _ H). apply pow2_le. lia.
Qed.

Lemma scaled_lower q :
  0 < q -> (-1074 <= floorLog2 q - 52)%Z -> pow2 52 <= q / pow2 (expo q).
Proof.
  intros Hq He. destruct (floorLog2_spec q Hq) as [Hl _].
  rewrite div_pow2.
  assert (Ee : expo q = (floorLog2 q - 52)%Z) by (unfold expo; lia).
  pose proof (pow2_pos (- expo q)) as Hp.
  assert (H : pow2 (floorLog2 q) * pow2 (- expo q) <= q * pow2 (- expo q))
    by (apply Qmult_le_compat_r; lra).
  rewrite <- pow2_add in H.
  replace (floorLog2 q + - expo q)%Z with 52%Z in H by lia. exact H.
Qed.

Lemma mant_bounds q :
  0 < q ->
  (0 <= mant q <= 2 ^ 53)%Z
  /\ ((-1074 <= floorLog2 q - 52)%Z -> (2 ^ 52 <= mant q)%Z).
Proof.
  intros Hq. unfold mant. split; [split|].
  - apply roundHalfEven_lower. pose proof (pow2_pos (expo q)).
    change (inject_Z 0) with 0. apply Qle_shift_div_l; [lra|].
    rewrite Qmult_0_l. lra.
  - apply roundHalfEven_upper. pose proof (scaled_upper q Hq) as H.
    rewrite (pow2_Z 53) in H by lia. lra.
  - intros He. apply roundHalfEven_lower. pose proof (scaled_lower q Hq He) as H.
    rewrite (pow2_Z 52) in H by lia. exact H.
Qed.


Lemma magnitude_pos s m e : 0 < magnitude (Finite s m e).
Proof.
  cbn [magnitude]. pose proof (pow2_pos e).
  assert (0 < inject_Z (Z.pos m))
    by (change 0 with (inject_Z 0); rewrite <- Zlt_Qlt; lia).
  by apply Qmult_lt_0_compat.
Qed.

(** A double is the nearest double to its own magnitude. *)
Lemma roundQ_exact s m e q :
  isDouble (Finite s m e) = true ->
  q == magnitude (Finite s m e) ->
  roundQ s q = Finite s m e.
Proof.
  intros Hd Hq. cbn [isDouble] in Hd.
  apply andb_true_iff in Hd as [Hd Hn].
  apply andb_true_iff in Hd as [Hd He2].
  apply andb_true_iff in Hd as [Hm He1].
  apply Z.ltb_lt in Hm. apply Z.leb_le in He1, He2.
  pose proof (magnitude_pos s m e) as Hpos.
  assert (Hq0 : 0 < q) by (rewrite Hq; exact Hpos).
  cbn [magnitude] in Hq.
  assert (Hm' : inject_Z (Z.pos m) < pow2 53).
  { rewrite pow2_Z by lia. by rewrite <- Zlt_Qlt. }
  pose proof (pow2_pos e) as Pe.
  assert (Hup : q < pow2 (53 + e)).
  { rewrite Hq, pow2_add. apply Qmult_lt_r; lra. }
  assert (Ee : expo q = e).
  { unfold expo. apply orb_true_iff in Hn as [Hn|Hn].
    - apply Z.leb_le in Hn.
      assert (Hlo : pow2 (52 + e) <= q).
      { rewrite Hq, pow2_add. apply Qmult_le_compat_r; [|lra].
        rewrite pow2_Z by lia. by rewrite <- Zle_Qle. }
      rewrite (floorLog2_unique q (52 + e)); [lia|].
      split; [exact Hlo|]. by replace (52 + e + 1)%Z with (53 + e)%Z by lia.
    - apply Z.eqb_eq in Hn. subst e.
      destruct (floorLog2_spec q Hq0) as [Hl _].
      assert ((floorLog2 q < 53 + -1074)%Z) by (apply pow2_lt_inv; lra).
      lia. }
  assert (Em : mant q = Z.pos m).
  { unfold mant. rewrite Ee.
    rewrite (roundHalfEven_comp _ (inject_Z (Z.pos m))).
    - apply roundHalfEven_Z.
    - rewrite Hq. field. lra. }
  rewrite (roundQ_unfold s q Hq0), Em, Ee.
  replace (Z.pos m =? 0)%Z with false by done.
  replace (Z.pos m =? 2 ^ 53)%Z with false by (symmetry; apply Z.eqb_neq; lia).
  replace (971 <? e)%Z with false by (symmetry; apply Z.ltb_ge; lia).
  reflexivity.
Qed.

Lemma Qle_bool_comp x y x' y' :
  x == x' -> y == y' -> Qle_bool x y = Qle_bool x' y'.
Proof.
  intros Hx Hy. destruct (Qle_bool x y) eqn:E, (Qle_bool x' y') eqn:E'; try done.
  - apply Qle_bool_iff in E. rewrite Hx, Hy in E. apply Qle_bool_iff in E. congruence.
  - apply Qle_bool_iff in E'. rewrite <- Hx, <- Hy in E'. apply Qle_bool_iff in E'. congruence.
Qed.

Lemma roundQ_comp s q q' : q == q' -> roundQ s q = roundQ s q'.
Proof.
  intros H. unfold roundQ. rewrite (Qle_bool_comp q 0 q' 0 H (Qeq_refl 0)).
  destruct (Qle_bool q' 0) eqn:E; [done|].
  assert (Hq : 0 < q').
  { apply Qnot_le_lt. intros Hle. apply Qle_bool_iff in Hle. congruence. }
  assert (El : floorLog2 q = floorLog2 q').
  { apply floorLog2_unique. rewrite H. by apply floorLog2_spec. }
  rewrite El.
  rewrite (roundHalfEven_comp (q / pow2 (Z.max (floorLog2 q' - 52) (-1074)))
                              (q' / pow2 (Z.max (floorLog2 q' - 52) (-1074))));
    [reflexivity|]. by rewrite H.
Qed.


(** *** The rounded magnitude grows with the magnitude *)

Definition raw (q : Q) : Q := inject_Z (mant q) * pow2 (expo q).

Lemma floorLog2_mono q q' : 0 < q -> q <= q' -> (floorLog2 q <= floorLog2 q')%Z.
Proof.
  intros Hq Hle.
  destruct (floorLog2_spec q Hq) as [H1 _].
  destruct (floorLog2_spec q') as [_ H2]; [lra|].
  assert (H : (floorLog2 q < floorLog2 q' + 1)%Z) by (apply pow2_lt_inv; lra).
  lia.
Qed.

Lemma raw_mono q q' : 0 < q -> q <= q' -> raw q <= raw q'.
Proof.
  intros Hq Hle. assert (Hq' : 0 < q') by lra.
  pose proof (floorLog2_mono q q' Hq Hle) as Hl.
  assert (He : (expo q <= expo q')%Z) by (unfold expo; lia).
  unfold raw.
  destruct (Z.eq_dec (expo q) (expo q')) as [E|E].
  - rewrite E. pose proof (pow2_pos (expo q')) as Hp.
    apply Qmult_le_compat_r; [|lra]. rewrite <- Zle_Qle.
    unfold mant. rewrite E. apply roundHalfEven_mono.
    apply Qmult_le_compat_r; [exact Hle|].
    apply Qlt_le_weak, Qinv_lt_0_compat, Hp.
  - destruct (mant_bounds q Hq) as [[_ Hu] _].
    destruct (mant_bounds q' Hq') as [_ Hlow].
    assert (Hm' : (2 ^ 52 <= mant q')%Z) by (apply Hlow; unfold expo in *; lia).
    pose proof (pow2_pos (expo q)) as Hp. pose proof (pow2_pos (expo q')) as Hp'.
    assert (H1 : inject_Z (mant q) * pow2 (expo q) <= pow2 53 * pow2 (expo q)).
    { apply Qmult_le_compat_r; [|lra]. rewrite pow2_Z by lia. by rewrite <- Zle_Qle. }
    assert (H2 : pow2 52 * pow2 (expo q') <= inject_Z (mant q') * pow2 (expo q')).
    { apply Qmult_le_compat_r; [|lra]. rewrite pow2_Z by lia. by rewrite <- Zle_Qle. }
    rewrite <- pow2_add in H1, H2.
    assert (H3 : pow2 (53 + expo q) <= pow2 (52 + expo q')) by (apply pow2_le; lia).
    lra.
Qed.

(** What rounding a positive magnitude gives, by its rounded value. *)
Lemma roundQ_raw s q :
  0 < q ->
  match roundQ s q with
  | NaN => False
  | Zero s' => s' = s /\ raw q == 0
  | Infinity s' => s' = s /\ pow2 1024 <= raw q
  | Finite s' m e =>
      s' = s /\ magnitude (Finite s' m e) == raw q /\ raw q < pow2 1024
  end.
Proof.
  intros Hq. rewrite (roundQ_unfold s q Hq). unfold raw.
  destruct (mant_bounds q Hq) as [[Hm0 Hm1] Hm2].
  pose proof (pow2_pos (expo q)) as Hp.
  destruct (mant q =? 0)%Z eqn:E0.
  - apply Z.eqb_eq in E0. rewrite E0. split; [done|].
    change (inject_Z 0) with 0. apply Qmult_0_l.
  - apply Z.eqb_neq in E0. destruct (mant q =? 2 ^ 53)%Z eqn:E1.
    + apply Z.eqb_eq in E1. rewrite E1.
      assert (Ev : inject_Z (2 ^ 53) * pow2 (expo q) == pow2 (53 + expo q)).
      { rewrite <- (pow2_Z 53) by lia. by rewrite <- pow2_add. }
      destruct (971 <=? expo q)%Z eqn:E2.
      * apply Z.leb_le in E2. split; [done|]. rewrite Ev. apply pow2_le. lia.
      * apply Z.leb_gt in E2. split; [done|]. split.
        -- cbn [magnitude]. rewrite Ev.
           change (inject_Z (Z.pos (2 ^ 52))) with (inject_Z (2 ^ 52)).
           rewrite <- (pow2_Z 52) by lia. rewrite <- pow2_add.
           by replace (52 + (expo q + 1))%Z with (53 + expo q)%Z by lia.
        -- rewrite Ev. apply pow2_lt. lia.
    + apply Z.eqb_neq in E1. destruct (971 <? expo q)%Z eqn:E2.
      * apply Z.ltb_lt in E2. split; [done|].
        assert (Hm' : (2 ^ 52 <= mant q)%Z) by (apply Hm2; unfold expo in *; lia).
        assert (H2 : pow2 52 * pow2 (expo q) <= inject_Z (mant q) * pow2 (expo q)).
        { apply Qmult_le_compat_r; [|lra]. rewrite pow2_Z by lia. by rewrite <- Zle_Qle. }
        rewrite <- pow2_add in H2.
        assert (pow2 1024 <= pow2 (52 + expo q)) by (apply pow2_le; lia). lra.
      * apply Z.ltb_ge in E2. split; [done|]. cbn [magnitude].
        rewrite Z2Pos.id by lia. split; [reflexivity|].
        assert (H1 : inject_Z (mant q) * pow2 (expo q) < pow2 53 * pow2 (expo q)).
        { apply Qmult_lt_r; [lra|]. rewrite pow2_Z by lia. rewrite <- Zlt_Qlt. lia. }
        rewrite <- pow2_add in H1.
        assert (pow2 (53 + expo q) <= pow2 1024) by (apply pow2_le; lia). lra.
Qed.

(** Against a positive double [c], a rounded magnitude compares as its
    rounded value does. *)
Lemma geb_roundQ q sc mc ec :
  0 < q -> magnitude (Finite sc mc ec) < pow2 1024 ->
  geb (roundQ false q) (Finite false mc ec)
  = Qle_bool (magnitude (Finite false mc ec)) (raw q).
Proof.
  intros Hq Hc. pose proof (roundQ_raw false q Hq) as H.
  pose proof (magnitude_pos false mc ec) as Hpos.
  change (magnitude (Finite sc mc ec)) with (magnitude (Finite false mc ec)) in Hc.
  set (c := Finite false mc ec) in *.
  assert (Ec : toQ c = magnitude c) by reflexivity.
  destruct (roundQ false q) as [|s'|s'|s' m e]; [done|..].
  - destruct H as [-> H]. unfold geb, ltb, c. fold c. cbn [negb].
    symmetry. apply Qle_bool_iff. lra.
  - destruct H as [-> H]. unfold geb, ltb, c. fold c. rewrite negb_involutive.
    rewrite Ec. cbn [toQ]. apply Qle_bool_comp; [reflexivity | by symmetry].
  - destruct H as (-> & Hm & _). unfold geb, ltb, c. fold c.
    rewrite negb_involutive. rewrite Ec. cbn [toQ signed].
    by apply Qle_bool_comp.
Qed.


Lemma raw_comp q q' : 0 < q -> q == q' -> raw q == raw q'.
Proof.
  intros Hq H. unfold raw, mant, expo.
  assert (El : floorLog2 q = floorLog2 q').
  { apply floorLog2_unique. rewrite H. apply floorLog2_spec. by rewrite <- H. }
  rewrite El.
  rewrite (roundHalfEven_comp (q / pow2 (Z.max (floorLog2 q' - 52) (-1074)))
                              (q' / pow2 (Z.max (floorLog2 q' - 52) (-1074))));
    [reflexivity|]. by rewrite H.
Qed.

(** *** Exceeding by a margin: [x - y >= c] for a positive double [c] *)

(** Where a number stands among the others: below every finite number,
    among them, or above them all. *)
Definition level (x : Number) : Z :=
  match x with
  | Infinity true => -1
  | Infinity false => 1
  | _ => 0
  end.

Definition isNaN (x : Number) : bool :=
  match x with NaN => true | _ => false end.

Lemma toQ_opp x : toQ (opp x) == - toQ x.
Proof. destruct x as [|s|s|s m e]; try reflexivity. destruct s; cbn; lra. Qed.

Lemma geb_negative_finite m e mc ec :
  geb (Finite true m e) (Finite false mc ec) = false.
Proof.
  unfold geb, ltb. apply negb_false_iff, negb_true_iff.
  apply not_true_iff_false. intros H. apply Qle_bool_iff in H.
  pose proof (magnitude_pos true m e) as Hm.
  pose proof (magnitude_pos false mc ec) as Hc.
  cbn [toQ signed] in H. lra.
Qed.

Lemma geb_zero s mc ec : geb (Zero s) (Finite false mc ec) = false.
Proof.
  unfold geb, ltb. apply negb_false_iff, negb_true_iff.
  apply not_true_iff_false. intros H. apply Qle_bool_iff in H.
  pose proof (magnitude_pos false mc ec) as Hc.
  cbn [toQ signed] in H. lra.
Qed.

Lemma geb_roundQ_negative q mc ec :
  geb (roundQ true q) (Finite false mc ec) = false.
Proof.
  unfold roundQ.
  repeat match goal with |- context [if ?b then _ else _] => destruct b end;
    try apply geb_zero; try apply geb_negative_finite; reflexivity.
Qed.

Section Margin.

Variables (mc : positive) (ec : Z).
Hypothesis c_below : magnitude (Finite false mc ec) < pow2 1024.

(** [x - y >= c] *)
Definition exceeds (x y : Number) : bool := geb (sub x y) (Finite false mc ec).

Lemma geb_ofQ d :
  ~ d == 0 ->
  geb (ofQ d) (Finite false mc ec) = true
  <-> 0 < d /\ magnitude (Finite false mc ec) <= raw d.
Proof.
  intros Hd. unfold ofQ. destruct (Qle_bool 0 d) eqn:E.
  - apply Qle_bool_iff in E. assert (Hd' : 0 < d).
    { apply Qnot_le_lt. intros H. apply Hd. lra. }
    rewrite (geb_roundQ d false mc ec Hd' c_below).
    rewrite Qle_bool_iff. tauto.
  - rewrite geb_roundQ_negative. split; [done|].
    intros [H _]. assert (Qle_bool 0 d = true) by (apply Qle_bool_iff; lra).
    congruence.
Qed.

(** Between two numbers that are not NaN or infinite. *)
Lemma exceeds_finite x y :
  level x = 0%Z -> level y = 0%Z -> isNaN x = false -> isNaN y = false ->
  exceeds x y = true
  <-> 0 < toQ x - toQ y /\ magnitude (Finite false mc ec) <= raw (toQ x - toQ y).
Proof.
  intros Lx Ly Nx Ny. unfold exceeds.
  assert (Hd : toQ x + toQ (opp y) == toQ x - toQ y) by (rewrite toQ_opp; lra).
  assert (Hconv : 0 < toQ x + toQ (opp y)
                  /\ magnitude (Finite false mc ec) <= raw (toQ x + toQ (opp y))
                  <-> 0 < toQ x - toQ y
                      /\ magnitude (Finite false mc ec) <= raw (toQ x - toQ y)).
  { split; intros [H1 H2]; (split; [lra|]).
    - by rewrite <- (raw_comp _ _ H1 Hd).
    - assert (H0 : 0 < toQ x + toQ (opp y)) by lra.
      by rewrite (raw_comp _ _ H0 Hd). }
  rewrite <- Hconv. clear Hconv Hd.
  assert (Hsum : forall a b, level a = 0%Z -> level b = 0%Z ->
            isNaN a = false -> isNaN b = false ->
            (exists sa sb, a = Zero sa /\ b = Zero sb)
            \/ add a b = if Qeq_bool (toQ a + toQ b) 0 then Zero false
                         else ofQ (toQ a + toQ b)).
  { intros a b La Lb Na Nb.
    destruct a as [|[]|sa|sa ma ea], b as [|[]|sb|sb mb eb]; try done;
      try (by right); left; eauto. }
  unfold sub.
  destruct (Hsum x (opp y)) as [(sa & sb & -> & Eb)|E];
    try done; try (by destruct y as [|[]| |]).
  - rewrite Eb. cbn [add]. rewrite geb_zero. cbn [toQ]. split; [done|].
    intros [H _]. lra.
  - rewrite E. destruct (Qeq_bool (toQ x + toQ (opp y)) 0) eqn:E0.
    + apply Qeq_bool_iff in E0. rewrite geb_zero. split; [done|].
      intros [H _]. lra.
    + apply geb_ofQ. intros H. apply Qeq_bool_iff in H. congruence.
Qed.

Lemma exceeds_spec x y :
  exceeds x y = true <->
  isNaN x = false /\ isNaN y = false
  /\ ((level y < level x)%Z
      \/ (level x = 0%Z /\ level y = 0%Z
          /\ 0 < toQ x - toQ y
          /\ magnitude (Finite false mc ec) <= raw (toQ x - toQ y))).
Proof.
  destruct (isNaN x) eqn:Nx.
  { destruct x; try done. split; [done | intros [? _]; done]. }
  destruct (isNaN y) eqn:Ny.
  { destruct y; try done. split; [|intros (_ & ? & _); done].
    unfold exceeds. by destruct x as [|[]| |]. }
  destruct (Z.eq_dec (level x) 0%Z) as [Lx|Lx],
    (Z.eq_dec (level y) 0%Z) as [Ly|Ly].
  - rewrite (exceeds_finite x y Lx Ly Nx Ny). rewrite Lx, Ly. intuition lia.
  - destruct y as [|[]| |]; try done; unfold exceeds;
      destruct x as [|[]| |]; try done; cbn; intuition (try done; try lia).
  - destruct x as [|[]| |]; try done; unfold exceeds;
      destruct y as [|[]| |]; try done; cbn; intuition (try done; try lia).
  - destruct x as [|[]| |], y as [|[]| |]; try done; unfold exceeds; cbn;
      intuition (try done; try lia).
Qed.

Lemma exceeds_irrefl x : exceeds x x = false.
Proof.
  apply not_true_iff_false. intros H. apply exceeds_spec in H.
  destruct H as (_ & _ & [H | (_ & _ & H & _)]); [lia | lra].
Qed.

Lemma exceeds_asym x y : exceeds x y = true -> exceeds y x = false.
Proof.
  intros H. apply not_true_iff_false. intros H'.
  apply exceeds_spec in H, H'.
  destruct H as (_ & _ & [H | (? & ? & H & _)]),
           H' as (_ & _ & [H' | (? & ? & H' & _)]); try lia; lra.
Qed.

Lemma exceeds_trans x y z :
  exceeds x y = true -> exceeds y z = true -> exceeds x z = true.
Proof.
  intros H H'. apply exceeds_spec in H, H'. apply exceeds_spec.
  destruct H as (Nx & Ny & H), H' as (_ & Nz & H').
  split; [done|]. split; [done|].
  destruct H as [H | (Lx & Ly & Hd & Hm)],
           H' as [H' | (Ly' & Lz & Hd' & Hm')]; try (left; lia).
  right. repeat split; try done; [lra|].
  apply (Qle_trans _ _ _ Hm). apply raw_mono; lra.
Qed.

End Margin.

End DoubleFacts.

(** ** Whole numbers as doubles *)

Module DoubleInt.
Import Double DoubleFacts.
Local Open Scope Q_scope.

(** *** Values that rounding leaves as they are *)

(** A magnitude below [2 ^ 1024] whose scaled value is an integer is a
    double. *)
Lemma roundQ_integral s q z :
  0 < q -> q < pow2 1024 -> q / pow2 (expo q) == inject_Z z ->
  exists m e, roundQ s q = Finite s m e /\ magnitude (Finite s m e) == q.
Proof.
  intros Hq Hu Hz.
  assert (Er : raw q == q).
  { unfold raw, mant. rewrite (roundHalfEven_comp _ _ Hz), roundHalfEven_Z.
    rewrite <- Hz. field. pose proof (pow2_pos (expo q)). lra. }
  pose proof (roundQ_raw s q Hq) as H.
  destruct (roundQ s q) as [|s'|s'|s' m e]; [done|..].
  - destruct H as [_ H]. lra.
  - destruct H as [_ H]. lra.
  - destruct H as (-> & H & _). exists m, e. split; [done|]. by rewrite H.
Qed.

Lemma floorLog2_Z n :
  (0 < n)%Z -> floorLog2 (inject_Z n) = Z.log2 n.
Proof.
  intros Hn. apply floorLog2_unique.
  pose proof (Z.log2_spec n Hn) as [H1 H2]. pose proof (Z.log2_nonneg n).
  rewrite !pow2_Z by lia. rewrite <- Zle_Qle, <- Zlt_Qlt.
  replace (Z.log2 n + 1)%Z with (Z.succ (Z.log2 n)) by lia. done.
Qed.

(** An integer up to [2 ^ 53] is a double. *)
Lemma roundQ_Z s n :
  (0 < n <= 2 ^ 53)%Z ->
  exists m e, roundQ s (inject_Z n) = Finite s m e
              /\ magnitude (Finite s m e) == inject_Z n.
Proof.
  intros [Hn Hu].
  assert (Hq : 0 < inject_Z n) by (change 0 with (inject_Z 0); by rewrite <- Zlt_Qlt).
  assert (Hl : (0 <= Z.log2 n <= 53)%Z).
  { split; [apply Z.log2_nonneg|].
    replace 53%Z with (Z.log2 (2 ^ 53)) by reflexivity. by apply Z.log2_le_mono. }
  assert (Ee : expo (inject_Z n) = (Z.log2 n - 52)%Z).
  { unfold expo. rewrite floorLog2_Z by done. lia. }
  destruct (Z.eq_dec (Z.log2 n) 53%Z) as [E53|E53].
  - assert (En : n = (2 ^ 53)%Z).
    { pose proof (Z.log2_spec n Hn) as [H1 _]. rewrite E53 in H1. lia. }
    apply (roundQ_integral s _ (2 ^ 52)); [done| |].
    + rewrite pow2_Z by lia. rewrite <- Zlt_Qlt. subst n. reflexivity.
    + rewrite Ee, E53. subst n. reflexivity.
  - apply (roundQ_integral s _ (n * 2 ^ (52 - Z.log2 n))); [done| |].
    + rewrite pow2_Z by lia. rewrite <- Zlt_Qlt.
      assert (2 ^ 53 < 2 ^ 1024)%Z by reflexivity. lia.
    + rewrite Ee, div_pow2. rewrite pow2_Z by lia.
      rewrite inject_Z_mult. by replace (- (Z.log2 n - 52))%Z with (52 - Z.log2 n)%Z by lia.
Qed.

Lemma ofZ_unfold n :
  ofZ n = if (0 <=? n)%Z then roundQ false (inject_Z n)
          else roundQ true (inject_Z (- n)).
Proof.
  unfold ofZ, ofQ. destruct (Qle_bool 0 (inject_Z n)) eqn:E.
  - apply Qle_bool_iff in E. change 0 with (inject_Z 0) in E.
    rewrite <- Zle_Qle in E. by replace (0 <=? n)%Z with true by (symmetry; lia).
  - assert (Hn : (n < 0)%Z).
    { apply Z.lt_nge. intros H. rewrite Zle_Qle in H.
      apply Qle_bool_iff in H. change (inject_Z 0) with 0 in H. congruence. }
    replace (0 <=? n)%Z with false by (symmetry; lia).
    apply roundQ_comp. by rewrite inject_Z_opp.
Qed.

(** The double of an integer up to [2 ^ 53], zero apart. *)
Lemma ofZ_exact n :
  n <> 0%Z -> (Z.abs n <= 2 ^ 53)%Z ->
  exists m e, ofZ n = Finite (n <? 0)%Z m e
              /\ magnitude (Finite (n <? 0)%Z m e) == inject_Z (Z.abs n)
              /\ toQ (ofZ n) == inject_Z n.
Proof.
  intros Hn Hu. rewrite ofZ_unfold.
  destruct (0 <=? n)%Z eqn:E.
  - apply Z.leb_le in E. replace (n <? 0)%Z with false by (symmetry; lia).
    destruct (roundQ_Z false n) as (m & e & Hr & Hm); [lia|].
    exists m, e. rewrite Hr. replace (Z.abs n) with n by lia.
    split; [done|]. split; [done|]. cbn [toQ signed]. exact Hm.
  - apply Z.leb_gt in E. replace (n <? 0)%Z with true by (symmetry; lia).
    destruct (roundQ_Z true (- n)) as (m & e & Hr & Hm); [lia|].
    exists m, e. rewrite Hr. replace (Z.abs n) with (- n)%Z by lia.
    split; [done|]. split; [done|]. cbn [toQ signed]. rewrite Hm.
    rewrite inject_Z_opp. lra.
Qed.


(** A double whose value is an integer is the double of that integer. *)
Lemma ofZ_of_value s m e n :
  isDouble (Finite s m e) = true -> toQ (Finite s m e) == inject_Z n ->
  ofZ n = Finite s m e.
Proof.
  intros Hd Hv. pose proof (magnitude_pos s m e) as Hp.
  rewrite ofZ_unfold. cbn [toQ] in Hv. destruct s; cbn [signed] in Hv.
  - assert (Hn : (n < 0)%Z).
    { rewrite Zlt_Qlt. change (inject_Z 0) with 0. lra. }
    replace (0 <=? n)%Z with false by (symmetry; lia).
    apply roundQ_exact; [done|]. rewrite inject_Z_opp. lra.
  - assert (Hn : (0 < n)%Z).
    { rewrite Zlt_Qlt. change (inject_Z 0) with 0. lra. }
    replace (0 <=? n)%Z with true by (symmetry; lia).
    apply roundQ_exact; [done|]. lra.
Qed.

End DoubleInt.

(** ** Writing a whole number and reading it back *)

Module DoubleText.
Import Double DoubleFacts DoubleInt.
Local Open Scope Q_scope.

(** *** The digits of an integer and their reading *)

Fixpoint allDigits (s : string) : bool :=
  match s with
  | EmptyString => true
  | String c rest => isDigit c && allDigits rest
  end.

Lemma string_of_uint_digits d : allDigits (NilEmpty.string_of_uint d) = true.
Proof. induction d; simpl; try done. Qed.

Lemma digits_allDigits n : allDigits (digits n) = true.
Proof. apply string_of_uint_digits. Qed.

Lemma digits_nonempty n : exists c r, digits n = String c r.
Proof.
  unfold digits. destruct (Z.to_N n) as [|p]; [by eexists _, _|].
  simpl N.to_uint. pose proof (DecimalPos.Unsigned.to_uint_nonnil p) as H.
  destruct (Pos.to_uint p); try done; simpl; by eexists _, _.
Qed.

Lemma digitsValue_digits n : (0 <= n)%Z -> digitsValue (digits n) = n.
Proof.
  intros Hn. unfold digitsValue, digits.
  rewrite NilEmpty.usu, DecimalN.Unsigned.of_to. lia.
Qed.

Lemma digit_not_space c : isDigit c = true -> isWhiteSpace c = false.
Proof. unfold isDigit, isWhiteSpace. lia. Qed.

Lemma digit_not c d : isDigit c = true -> isDigit d = false -> Ascii.eqb c d = false.
Proof.
  intros Hc Hd. apply not_true_iff_false. intros H.
  apply Ascii.eqb_eq in H. congruence.
Qed.

Lemma trimStart_digits c r : isDigit c = true -> trimStart (String c r) = String c r.
Proof. intros H. simpl. by rewrite (digit_not_space c H). Qed.

Lemma trimEnd_digits s : allDigits s = true -> trimEnd s = s.
Proof.
  induction s as [|c r IH]; [done|]. simpl. intros H.
  apply andb_true_iff in H as [Hc Hr]. rewrite (IH Hr).
  destruct r; [by rewrite (digit_not_space c Hc) | done].
Qed.

Lemma digitRun_digits s : allDigits s = true -> digitRun s = (s, EmptyString).
Proof.
  induction s as [|c r IH]; [done|]. simpl. intros H.
  apply andb_true_iff in H as [Hc Hr]. by rewrite Hc, (IH Hr).
Qed.

Lemma append_empty_end (a : string) : (a +:+ EmptyString)%string = a.
Proof.
  induction a as [|c a IH]; [done|].
  change (String c (a +:+ EmptyString)%string = String c a). by rewrite IH.
Qed.

(** An unsigned run of digits reads as the integer it writes. *)
Lemma StrUnsignedDecimalLiteral_digits s c r :
  allDigits (String c r) = true ->
  StrUnsignedDecimalLiteral s (String c r)
  = roundQ s (inject_Z (digitsValue (String c r))).
Proof.
  intros H. unfold StrUnsignedDecimalLiteral.
  assert (Hc : isDigit c = true) by (simpl in H; by apply andb_true_iff in H as [? _]).
  assert (Ei : String.eqb (String c r) "Infinity" = false).
  { simpl. by rewrite (digit_not c "I" Hc). }
  rewrite Ei, (digitRun_digits _ H). cbn [fst snd fractionPart].
  rewrite append_empty_end. cbn [exponentPart String.length].
  apply roundQ_comp. change (pow10 (0 - Z.of_nat 0)) with 1. apply Qmult_1_r.
Qed.

Lemma NonDecimalIntegerLiteral_digits s :
  allDigits s = true -> NonDecimalIntegerLiteral s = None.
Proof.
  destruct s as [|z [|p [|c r]]]; try done. simpl. intros H.
  apply andb_true_iff in H as [_ H]. apply andb_true_iff in H as [Hp _].
  rewrite !(digit_not p _ Hp) by done. simpl. by rewrite andb_false_r.
Qed.

Lemma StringToNumber_digits n :
  (0 <= n)%Z -> StringToNumber (digits n) = roundQ false (inject_Z n).
Proof.
  intros Hn. pose proof (digits_allDigits n) as Ha.
  destruct (digits_nonempty n) as (c & r & E).
  unfold StringToNumber. rewrite E in *.
  assert (Hc : isDigit c = true) by (simpl in Ha; by apply andb_true_iff in Ha as [? _]).
  rewrite (trimStart_digits c r Hc), (trimEnd_digits _ Ha).
  rewrite (NonDecimalIntegerLiteral_digits _ Ha).
  unfold StrDecimalLiteral, signOf.
  rewrite (digit_not c "+" Hc), (digit_not c "-" Hc) by done. cbn [fst snd].
  rewrite (StrUnsignedDecimalLiteral_digits false c r Ha).
  by rewrite <- E, digitsValue_digits.
Qed.

Lemma StringToNumber_minus_digits n :
  (0 <= n)%Z ->
  StringToNumber (String "-" (digits n)) = roundQ true (inject_Z n).
Proof.
  intros Hn. pose proof (digits_allDigits n) as Ha.
  destruct (digits_nonempty n) as (c & r & E).
  unfold StringToNumber. rewrite E in *.
  assert (Hc : isDigit c = true) by (simpl in Ha; by apply andb_true_iff in Ha as [? _]).
  change (trimStart (String "-" (String c r))) with (String "-" (String c r)).
  assert (Et : trimEnd (String "-" (String c r)) = String "-" (String c r)).
  { change (trimEnd (String "-" (String c r)))
      with (match trimEnd (String c r) with
            | EmptyString => if isWhiteSpace "-" then EmptyString
                             else String "-" EmptyString
            | rest' => String "-" rest'
            end).
    by rewrite (trimEnd_digits _ Ha). }
  rewrite Et.
  assert (En : NonDecimalIntegerLiteral (String "-" (String c r)) = None)
    by (by destruct r).
  rewrite En. unfold StrDecimalLiteral, signOf.
  change (Ascii.eqb "-" "+") with false. change (Ascii.eqb "-" "-") with true.
  cbn [fst snd]. rewrite (StrUnsignedDecimalLiteral_digits true c r Ha).
  by rewrite <- E, digitsValue_digits.
Qed.


(** *** The characters of the text of a number *)

(** No carriage return and no colon. *)
Fixpoint plainText (s : string) : bool :=
  match s with
  | EmptyString => true
  | String c rest =>
      negb (Ascii.eqb c (ascii_of_nat 13)) && negb (Ascii.eqb c ":")
      && plainText rest
  end.

Lemma plainText_app a b :
  plainText a = true -> plainText b = true -> plainText (a +:+ b) = true.
Proof.
  intros Ha Hb. induction a as [|c a IH]; [done|].
  change (plainText (String c (a +:+ b)) = true). simpl in *.
  apply andb_true_iff in Ha as [Hc Ha]. by rewrite Hc, IH.
Qed.

Lemma plainText_substring s : forall n m,
  plainText s = true -> plainText (String.substring n m s) = true.
Proof.
  induction s as [|c s IH]; intros n m H.
  - by destruct n, m.
  - simpl in H. apply andb_true_iff in H as [Hc Hs].
    destruct n as [|n]; [destruct m as [|m]; [done|]|]; simpl.
    + by rewrite Hc, IH.
    + by apply IH.
Qed.

Lemma plainText_allDigits s : allDigits s = true -> plainText s = true.
Proof.
  induction s as [|c s IH]; [done|]. simpl. intros H.
  apply andb_true_iff in H as [Hc Hs].
  rewrite (digit_not c _ Hc), (digit_not c ":" Hc), IH by done. done.
Qed.

Lemma plainText_digits n : plainText (digits n) = true.
Proof. apply plainText_allDigits, digits_allDigits. Qed.

Lemma plainText_zeros n : plainText (zeros n) = true.
Proof. induction n; [done|]. simpl. by rewrite IHn. Qed.

Lemma plainText_format n k s : plainText (format n k s) = true.
Proof.
  unfold format.
  repeat match goal with |- context [if ?b then _ else _] => destruct b end;
    repeat first
      [ apply plainText_app
      | apply plainText_substring
      | apply plainText_digits
      | apply plainText_zeros
      | reflexivity ].
Qed.

Lemma toString_plain x : plainText (toString x) = true.
Proof.
  destruct x as [|s|s|s m e]; try done.
  - by destruct s.
  - unfold toString. apply plainText_app; [by destruct s|].
    destruct (safeInteger _); [apply plainText_digits|].
    destruct (shortest _) as [[n k] d]. apply plainText_format.
Qed.

End DoubleText.

(** ** Rounding to a whole number, and what is read from its text *)

Module DoubleRound.
Import Double DoubleFacts DoubleInt DoubleText.
Local Open Scope Q_scope.

(** *** [Math.round], division by 1024 and the text of the result *)







(** The text of an integer up to [2 ^ 53]. *)
Lemma toString_ofZ n :
  n <> 0%Z -> (Z.abs n <= 2 ^ 53)%Z ->
  toString (ofZ n)
  = ((if (n <? 0)%Z then "-" else "") +:+ digits (Z.abs n))%string.
Proof.
  intros Hn Hu. destruct (ofZ_exact n Hn Hu) as (m & e & -> & Hm & _).
  unfold toString, safeInteger.
  rewrite (Qfloor_comp _ _ Hm), Qfloor_Z.
  assert (E1 : Qeq_bool (inject_Z (Z.abs n)) (magnitude (Finite (n <? 0)%Z m e)) = true)
    by (apply Qeq_bool_iff; by symmetry).
  rewrite E1. by replace (Z.abs n <=? 2 ^ 53)%Z with true by (symmetry; lia).
Qed.

(** Reading the text of an integer up to [2 ^ 53] gives the integer back. *)
Lemma StringToNumber_toString_ofZ n :
  n <> 0%Z -> (Z.abs n <= 2 ^ 53)%Z ->
  StringToNumber (toString (ofZ n)) = ofZ n.
Proof.
  intros Hn Hu. rewrite (toString_ofZ n Hn Hu), ofZ_unfold.
  destruct (n <? 0)%Z eqn:E.
  - apply Z.ltb_lt in E. replace (0 <=? n)%Z with false by (symmetry; lia).
    change (("-" +:+ digits (Z.abs n))%string) with (String "-" (digits (Z.abs n))).
    rewrite StringToNumber_minus_digits by lia.
    by replace (Z.abs n) with (- n)%Z by lia.
  - apply Z.ltb_ge in E. replace (0 <=? n)%Z with true by (symmetry; lia).
    change (("" +:+ digits (Z.abs n))%string) with (digits (Z.abs n)).
    rewrite StringToNumber_digits by lia.
    by replace (Z.abs n) with n by lia.
Qed.


(** [Math.round] leaves the double of an integer as it is. *)
Lemma Math_round_ofZ n :
  n <> 0%Z -> (Z.abs n <= 2 ^ 53)%Z -> Math_round (ofZ n) = ofZ n.
Proof.
  intros Hn Hu. destruct (ofZ_exact n Hn Hu) as (m & e & E & _ & Hv).
  rewrite E in *. unfold Math_round.
  assert (Ef : Qfloor (toQ (Finite (n <? 0)%Z m e) + (1 # 2)) = n).
  { rewrite <- (Qfloor_Z n) at 2. apply Z.le_antisymm.
    - assert (H : toQ (Finite (n <? 0)%Z m e) + (1 # 2) < inject_Z (n + 1)).
      { rewrite inject_Z_plus. change (inject_Z 1) with 1. lra. }
      pose proof (Qfloor_le (toQ (Finite (n <? 0)%Z m e) + (1 # 2))) as Hl.
      rewrite Qfloor_Z. apply Z.lt_succ_r. rewrite Zlt_Qlt.
      replace (Z.succ n) with (n + 1)%Z by lia. lra.
    - apply Qfloor_resp_le. lra. }
  rewrite Ef. by replace (n =? 0)%Z with false by (symmetry; lia).
Qed.






End DoubleRound.

(** ** BandwidthShaper: [limitSDPBandwidth] *)

Module SDP.

(** [{type, sdp}] as given to and returned in an [RTCSessionDescription]. *)
Record RTCSessionDescription := {
  type : string;
  sdp : string
}.

Definition CR : ascii := ascii_of_nat 13.
Definition LF : ascii := ascii_of_nat 10.
Definition CRLF : string := String CR (String LF EmptyString).

(** Puts a character in front of the first piece. *)
Definition consHead (c : ascii) (pieces : list string) : list string :=
  match pieces with
  | [] => [String c EmptyString]
  | x :: rest => String c x :: rest
  end.

(** [s.split(/\r\n/)] *)
Function splitCRLF (s : string) {struct s} : list string :=
  match s with
  | EmptyString => [EmptyString]
  | String c rest =>
      match rest with
      | String c2 rest2 =>
          if Ascii.eqb c CR && Ascii.eqb c2 LF
          then EmptyString :: splitCRLF rest2
          else consHead c (splitCRLF rest)
      | EmptyString => consHead c (splitCRLF rest)
      end
  end.

(** [lines.join('\r\n')] *)
Fixpoint joinCRLF (lines : list string) : string :=
  match lines with
  | [] => EmptyString
  | x :: rest =>
      match rest with
      | [] => x
      | _ => x +:+ CRLF +:+ joinCRLF rest
      end
  end.

(** [line.split(':')] *)
Fixpoint splitColon (s : string) : list string :=
  match s with
  | EmptyString => [EmptyString]
  | String c rest =>
      if Ascii.eqb c ":" then EmptyString :: splitColon rest
      else consHead c (splitColon rest)
  end.

(** [line.startsWith(p)] *)
Fixpoint startsWith (p line : string) : bool :=
  match p with
  | EmptyString => true
  | String a p' =>
      match line with
      | EmptyString => false
      | String b line' => Ascii.eqb a b && startsWith p' line'
      end
  end.

(** A number is a double; the ceiling the function receives is a number or
    [undefined] ([None]). *)
Definition JSNumber := Double.Number.

(** [Number(v)] for [v] a string or [undefined]. *)
Definition Number_ (v : option string) : JSNumber :=
  match v with
  | None => Double.NaN
  | Some s => Double.StringToNumber s
  end.

(** [`${n}`] *)
Definition numToString (n : JSNumber) : string := Double.toString n.

(** [if (bandwidth)], [!bandwidth] *)
Definition truthy (n : option JSNumber) : bool :=
  match n with
  | Some x => Double.truthy x
  | None => false
  end.

(** [a < b], with [b] possibly [undefined]. *)
Definition lessThan (a : JSNumber) (b : option JSNumber) : bool :=
  match b with
  | Some y => Double.ltb a y
  | None => false
  end.

Definition times (a : JSNumber) (k : Z) : JSNumber :=
  Double.mul a (Double.ofZ k).

(** [sdp.splice(i, 1)] and [sdp.splice(i, 0, x)] *)
Definition spliceOut (i : nat) (l : list string) : list string :=
  take i l ++ drop (S i) l.

Definition spliceIn (i : nat) (x : string) (l : list string) : list string :=
  take i l ++ x :: drop i l.

(** The bitrate a [b=] line declares, in bits per second:
    [Number(line.split(':')[1]) * adjust]. *)
Definition declaredBps (line : string) : JSNumber :=
  let adjust := if startsWith "b=AS" line then 1024 else 1 in
  times (Number_ (splitColon line !! 1%nat)) adjust.

(** [if (!bandwidth || bps < bandwidth) bandwidth = bps] *)
Definition lowerOf (bandwidth : option JSNumber) (bps : JSNumber)
  : option JSNumber :=
  if negb (truthy bandwidth) || lessThan bps bandwidth then Some bps
  else bandwidth.

(** The variables of the first loop: the array of lines, the offset of the
    video section and the ceiling. *)
Record ScanState := {
  st_sdp : list string;
  st_videoOffset : option nat;
  st_bandwidth : option JSNumber
}.

(** The first loop, from index [i] on: [fuel] bounds the number of turns (the
    array never grows and [i] grows at every turn, so its length is enough).
    [videoOffset] is absent until the video section is met; it is then a
    positive number, hence truthy. *)
Fixpoint scanLoop (fuel : nat) (sdp : list string) (i : nat)
    (videoOffset : option nat) (bandwidth : option JSNumber) : ScanState :=
  match fuel with
  | O => {| st_sdp := sdp; st_videoOffset := videoOffset;
            st_bandwidth := bandwidth |}
  | S fuel' =>
      match sdp !! i with
      | None => {| st_sdp := sdp; st_videoOffset := videoOffset;
                   st_bandwidth := bandwidth |}
      | Some line =>
          match videoOffset with
          | Some _ =>
              if startsWith "b=" line then
                let bps := declaredBps line in
                scanLoop fuel' (spliceOut i sdp) (S i) videoOffset
                         (lowerOf bandwidth bps)
              else if startsWith "m=" line then
                {| st_sdp := sdp; st_videoOffset := videoOffset;
                   st_bandwidth := bandwidth |}
              else scanLoop fuel' sdp (S i) videoOffset bandwidth
          | None =>
              if startsWith "m=video" line
              then scanLoop fuel' sdp (S i) (Some (S i)) bandwidth
              else scanLoop fuel' sdp (S i) videoOffset bandwidth
          end
      end
  end.

(** The two lines the function writes: [`b=TIAS:${bps}`] and [`b=AS:${kbps}`]. *)
Definition tiasLine (bps : JSNumber) : string := "b=TIAS:" +:+ numToString bps.
Definition asLine (kbps : JSNumber) : string := "b=AS:" +:+ numToString kbps.

(** The second loop, from index [i] on. *)
Fixpoint insertLoop (fuel : nat) (sdp : list string) (i : nat)
    (bps kbps : JSNumber) : list string :=
  match fuel with
  | O => sdp
  | S fuel' =>
      match sdp !! i with
      | None => sdp
      | Some line =>
          if startsWith "c=IN" line then
            spliceIn (i + 2) (asLine kbps) (spliceIn (i + 1) (tiasLine bps) sdp)
          else insertLoop fuel' sdp (S i) bps kbps
      end
  end.

(** [Math.round(bandwidth)] and [Math.round(bandwidth / 1024)] *)
Definition roundBps (b : JSNumber) : JSNumber := Double.Math_round b.

Definition roundDiv1024 (b : JSNumber) : JSNumber :=
  Double.Math_round (Double.div b (Double.ofZ 1024)).

(** The function on the array of lines. *)
Definition limitLines (lines : list string) (bandwidth : option JSNumber)
  : list string :=
  let scanned := scanLoop (length lines) lines 0 None bandwidth in
  let sdp1 := st_sdp scanned in
  match st_bandwidth scanned with
  | Some b =>
      if truthy (st_bandwidth scanned) then
        let bps := roundBps b in
        let kbps := roundDiv1024 b in
        match st_videoOffset scanned with
        | Some v => insertLoop (length sdp1) sdp1 v bps kbps
        | None => sdp1         (* [undefined < sdp.length] is false *)
        end
      else sdp1
  | None => sdp1
  end.

Definition limitSDPBandwidth (desc : RTCSessionDescription)
    (bandwidth : option JSNumber) : RTCSessionDescription :=
  {| type := type desc;
     sdp := joinCRLF (limitLines (splitCRLF (sdp desc)) bandwidth) |}.

(** *** What a description declares for its video section *)

(** The lines after the first [m=video] line up to the next [m=] line. *)
Fixpoint untilNextMedia (lines : list string) : list string :=
  match lines with
  | [] => []
  | l :: rest => if startsWith "m=" l then [] else l :: untilNextMedia rest
  end.

Fixpoint videoSection (lines : list string) : list string :=
  match lines with
  | [] => []
  | l :: rest =>
      if startsWith "m=video" l then untilNextMedia rest
      else videoSection rest
  end.

(** The numbers of the [b=TIAS:] lines (bits per second) and of the [b=AS:]
    lines (kilobits per second) of the video section, in order. *)
Definition valuesOf (prefix : string) (section : list string) : list JSNumber :=
  map (fun l => Number_ (splitColon l !! 1%nat))
      (List.filter (startsWith prefix) section).

Definition tiasValues (desc : RTCSessionDescription) : list JSNumber :=
  valuesOf "b=TIAS:" (videoSection (splitCRLF (sdp desc))).

Definition asValues (desc : RTCSessionDescription) : list JSNumber :=
  valuesOf "b=AS:" (videoSection (splitCRLF (sdp desc))).

(** The effective values: those of the first line of each kind. *)
Definition effectiveTIAS (desc : RTCSessionDescription) : option JSNumber :=
  head (tiasValues desc).


Definition describe (lines : list string) : RTCSessionDescription :=
  {| type := "offer"; sdp := joinCRLF lines |}.

(** *** The loops as functions of the lines still ahead *)

Definition keep (line : string) (r : ScanState) : ScanState :=
  {| st_sdp := line :: st_sdp r; st_videoOffset := st_videoOffset r;
     st_bandwidth := st_bandwidth r |}.

(** The first loop seen from position [i]: [rest] holds the lines from [i]
    on, the lines before [i] are no longer read.  [st_sdp] of the result is
    what the lines from [i] on have become.  Removing a [b=] line moves the
    next line into its place, and the index then steps over that line
    unread. *)
Function scanRest (i : nat) (videoOffset : option nat)
    (bandwidth : option JSNumber) (rest : list string) {struct rest}
  : ScanState :=
  match rest with
  | [] => {| st_sdp := []; st_videoOffset := videoOffset;
             st_bandwidth := bandwidth |}
  | line :: tl =>
      match videoOffset with
      | Some _ =>
          if startsWith "b=" line then
            match tl with
            | [] => {| st_sdp := []; st_videoOffset := videoOffset;
                       st_bandwidth := lowerOf bandwidth (declaredBps line) |}
            | unread :: tl' =>
                keep unread
                  (scanRest (S i) videoOffset
                            (lowerOf bandwidth (declaredBps line)) tl')
            end
          else if startsWith "m=" line then
            {| st_sdp := rest; st_videoOffset := videoOffset;
               st_bandwidth := bandwidth |}
          else keep line (scanRest (S i) videoOffset bandwidth tl)
      | None =>
          if startsWith "m=video" line
          then keep line (scanRest (S i) (Some (S i)) bandwidth tl)
          else keep line (scanRest (S i) None bandwidth tl)
      end
  end.

(** The second loop seen from a position: the two lines go in right after the
    first [c=IN] line ahead, if there is one. *)
Fixpoint insertAfterConnection (bps kbps : JSNumber) (rest : list string)
  : list string :=
  match rest with
  | [] => []
  | line :: tl =>
      if startsWith "c=IN" line then line :: tiasLine bps :: asLine kbps :: tl
      else line :: insertAfterConnection bps kbps tl
  end.

(** The lines before the position put back in front. *)
Definition behind (done : list string) (r : ScanState) : ScanState :=
  {| st_sdp := done ++ st_sdp r; st_videoOffset := st_videoOffset r;
     st_bandwidth := st_bandwidth r |}.

(** A line is free of the separator. *)
Fixpoint noCRLF (s : string) : bool :=
  match s with
  | EmptyString => true
  | String c rest =>
      match rest with
      | String c2 _ => negb (Ascii.eqb c CR && Ascii.eqb c2 LF) && noCRLF rest
      | EmptyString => true
      end
  end.

(** [g] applied to the lines after the first [m=video] line. *)
Fixpoint applyAtVideo (g : list string -> list string) (lines : list string)
  : list string :=
  match lines with
  | [] => []
  | l :: tl =>
      if startsWith "m=video" l then l :: g tl
      else l :: applyAtVideo g tl
  end.

(** The lines after the first [m=video] line. *)
Fixpoint afterVideo (lines : list string) : option (list string) :=
  match lines with
  | [] => None
  | l :: tl => if startsWith "m=video" l then Some tl else afterVideo tl
  end.

(** The value [videoOffset] takes when the scan starts at index [i]. *)
Fixpoint offsetOfVideo (i : nat) (lines : list string) : option nat :=
  match lines with
  | [] => None
  | l :: tl =>
      if startsWith "m=video" l then Some (S i) else offsetOfVideo (S i) tl
  end.


(** A line that is not a bitrate line. *)
Definition noBitrate (l : string) : Prop := startsWith "b=" l = false.

(** A line free of the line separator. *)
Definition clean (l : string) : Prop := noCRLF l = true.

(** An offer with an audio and a video section and no [b=] line. *)
Definition plainOffer : RTCSessionDescription :=
  describe ["v=0"; "o=- 4611731400430051336 2 IN IP4 127.0.0.1"; "s=-";
            "t=0 0"; "a=group:BUNDLE 0 1";
            "m=audio 9 UDP/TLS/RTP/SAVPF 111"; "c=IN IP4 0.0.0.0";
            "a=mid:0"; "a=rtpmap:111 opus/48000/2";
            "m=video 9 UDP/TLS/RTP/SAVPF 96"; "c=IN IP4 0.0.0.0";
            "a=mid:1"; "a=rtpmap:96 VP8/90000"; ""].

(** A line that neither declares a bitrate nor starts a media section. *)
Definition plainLine (l : string) : Prop :=
  startsWith "b=" l = false /\ startsWith "m=" l = false.

(** The shape of the lines of a description whose video section declares one
    bitrate: lines before the video section, the [m=video] line, lines up to
    the first [c=IN] line, lines up to the [b=] line, and lines after it none
    of which is a [b=] line. *)
Definition declaring (pre : list string) (mv : string) (upToC : list string)
    (cl : string) (upToB : list string) (bl : string) (after : list string)
  : list string :=
  pre ++ mv :: upToC ++ cl :: upToB ++ bl :: after.

Definition limitedAs (pre : list string) (mv : string) (upToC : list string)
    (cl : string) (upToB : list string) (b : JSNumber) (after : list string)
  : list string :=
  pre ++ mv :: upToC ++ cl :: tiasLine (roundBps b) :: asLine (roundDiv1024 b)
  :: upToB ++ after.

(** An offer whose video section declares 500000 bits per second, and one
    whose video section declares 0. *)
Definition offer500k : RTCSessionDescription :=
  describe ["v=0"; "o=- 4611731400430051336 2 IN IP4 127.0.0.1"; "s=-";
            "t=0 0"; "m=audio 9 UDP/TLS/RTP/SAVPF 111"; "c=IN IP4 0.0.0.0";
            "a=mid:0"; "m=video 9 UDP/TLS/RTP/SAVPF 96"; "c=IN IP4 0.0.0.0";
            "b=TIAS:500000"; "a=mid:1"; "a=rtpmap:96 VP8/90000"; ""].

Definition offerZero : RTCSessionDescription :=
  describe ["v=0"; "o=- 4611731400430051336 2 IN IP4 127.0.0.1"; "s=-";
            "t=0 0"; "m=video 9 UDP/TLS/RTP/SAVPF 96"; "c=IN IP4 0.0.0.0";
            "b=AS:0"; "a=mid:1"; "a=rtpmap:96 VP8/90000"; ""].

(** *** Splitting and joining lines *)

Lemma noCRLF_two c c2 r :
  noCRLF (String c (String c2 r))
  = negb (Ascii.eqb c CR && Ascii.eqb c2 LF) && noCRLF (String c2 r).
Proof. reflexivity. Qed.

Lemma splitCRLF_nonempty s : splitCRLF s <> [].
Proof.
  functional induction (splitCRLF s); try done.
  by destruct (splitCRLF (String c2 rest2)).
Qed.

Lemma joinCRLF_consHead c x xs :
  joinCRLF (consHead c (x :: xs)) = String c (joinCRLF (x :: xs)).
Proof. simpl. by destruct xs. Qed.

Lemma joinCRLF_splitCRLF s : joinCRLF (splitCRLF s) = s.
Proof.
  functional induction (splitCRLF s).
  - done.
  - apply andb_true_iff in e1 as [Hc Hc2].
    apply Ascii.eqb_eq in Hc, Hc2. subst c c2.
    pose proof (splitCRLF_nonempty rest2) as Hne.
    simpl. destruct (splitCRLF rest2) as [|x xs] eqn:E; [done|].
    rewrite <- E in *. by rewrite IHl.
  - pose proof (splitCRLF_nonempty (String c2 rest2)) as Hne.
    destruct (splitCRLF (String c2 rest2)) as [|x xs] eqn:E; [done|].
    rewrite joinCRLF_consHead. by rewrite IHl.
  - done.
Qed.

(** The first piece is empty or starts like the text. *)
Lemma splitCRLF_head s c x pieces :
  splitCRLF s = String c x :: pieces -> exists r, s = String c r.
Proof.
  functional induction (splitCRLF s); try done.
  - destruct (splitCRLF (String c2 rest2)) as [|y ys]; simpl;
      intros [= -> _ _]; eauto.
  - simpl. intros [= -> _ _]. eauto.
Qed.

Lemma splitCRLF_pieces_clean s : Forall (fun l => noCRLF l = true) (splitCRLF s).
Proof.
  functional induction (splitCRLF s).
  - by repeat constructor.
  - by constructor.
  - destruct (splitCRLF (String c2 rest2)) as [|y ys] eqn:E; simpl.
    + by repeat constructor.
    + inversion IHl as [|? ? Hy Hys]; subst. constructor; [|done].
      destruct y as [|c3 y']; [done|].
      apply splitCRLF_head in E as [r [= <- _]].
      by rewrite noCRLF_two, e1, Hy.
  - simpl. by repeat constructor.
Qed.

Lemma splitCRLF_clean_line l : noCRLF l = true -> splitCRLF l = [l].
Proof.
  functional induction (splitCRLF l); try done.
  - rewrite noCRLF_two, e1. done.
  - rewrite noCRLF_two, e1. intros H. by rewrite (IHl0 H).
Qed.

Lemma splitCRLF_line_then l s :
  noCRLF l = true -> splitCRLF (l +:+ CRLF +:+ s) = l :: splitCRLF s.
Proof.
  induction l as [|c l IH]; [done|].
  intros H. change (String c l +:+ CRLF +:+ s) with (String c (l +:+ CRLF +:+ s)).
  destruct l as [|c2 l'].
  - simpl. rewrite andb_false_r. reflexivity.
  - rewrite noCRLF_two in H. apply andb_true_iff in H as [Hcc Hl].
    apply negb_true_iff in Hcc.
    change (String c2 l' +:+ CRLF +:+ s)
      with (String c2 (l' +:+ CRLF +:+ s)) in *.
    rewrite splitCRLF_equation. rewrite Hcc.
    rewrite (IH Hl). done.
Qed.

Lemma splitCRLF_joinCRLF lines :
  lines <> [] -> Forall (fun l => noCRLF l = true) lines ->
  splitCRLF (joinCRLF lines) = lines.
Proof.
  induction lines as [|x rest IH]; [done|]. intros _ Hall.
  inversion Hall as [|? ? Hx Hrest]; subst.
  destruct rest as [|y rest'].
  - simpl. by apply splitCRLF_clean_line.
  - change (joinCRLF (x :: y :: rest'))
      with (x +:+ CRLF +:+ joinCRLF (y :: rest')).
    rewrite splitCRLF_line_then by done. f_equal. by apply IH.
Qed.

(** *** Numbers and their text *)

Lemma append_String c p s : String c p +:+ s = String c (p +:+ s).
Proof. reflexivity. Qed.

Lemma append_empty s : EmptyString +:+ s = s.
Proof. reflexivity. Qed.

Lemma noCRLF_cons c s :
  Ascii.eqb c CR = false -> noCRLF s = true -> noCRLF (String c s) = true.
Proof.
  intros Hc Hs. destruct s as [|c2 r]; [done|].
  by rewrite noCRLF_two, Hc, Hs.
Qed.

Lemma splitColon_cons c s :
  Ascii.eqb c ":" = false -> splitColon s = [s] ->
  splitColon (String c s) = [String c s].
Proof. intros Hc Hs. simpl. by rewrite Hc, Hs. Qed.

Lemma plainText_line s :
  DoubleText.plainText s = true -> noCRLF s = true /\ splitColon s = [s].
Proof.
  induction s as [|c s IH]; [done|]. simpl DoubleText.plainText. intros H.
  apply andb_true_iff in H as [H Hs]. apply andb_true_iff in H as [H1 H2].
  apply negb_true_iff in H1, H2. destruct (IH Hs) as [I1 I2].
  split; [by apply noCRLF_cons | by apply splitColon_cons].
Qed.

Lemma numToString_plain n :
  noCRLF (numToString n) = true
  /\ splitColon (numToString n) = [numToString n].
Proof. apply plainText_line, DoubleText.toString_plain. Qed.

(** The number a line written for [n] declares when it is read. *)
Definition reread (n : JSNumber) : JSNumber := Number_ (Some (numToString n)).

Lemma tiasLine_clean bps : noCRLF (tiasLine bps) = true.
Proof.
  unfold tiasLine. rewrite !append_String, append_empty.
  repeat (apply noCRLF_cons; [done|]). apply numToString_plain.
Qed.

Lemma asLine_clean kbps : noCRLF (asLine kbps) = true.
Proof.
  unfold asLine. rewrite !append_String, append_empty.
  repeat (apply noCRLF_cons; [done|]). apply numToString_plain.
Qed.


Lemma declaredBps_asLine kbps :
  declaredBps (asLine kbps) = times (reread kbps) 1024.
Proof.
  unfold declaredBps, asLine, reread. rewrite !append_String, append_empty.
  cbn -[Number_ numToString times].
  destruct (numToString_plain kbps) as [_ ->].
  reflexivity.
Qed.

(** *** The loops and their description by recursion on the lines *)

Lemma lookup_at (done : list string) x rest :
  (done ++ x :: rest) !! length done = Some x.
Proof. by apply list_lookup_middle. Qed.

Lemma spliceOut_at (done : list string) x rest :
  spliceOut (length done) (done ++ x :: rest) = done ++ rest.
Proof.
  unfold spliceOut. rewrite take_app_length. f_equal.
  rewrite cons_middle, app_assoc.
  rewrite drop_app_length'; [done|]. rewrite length_app. simpl. lia.
Qed.

Lemma spliceIn_at (done : list string) x rest :
  spliceIn (length done) x (done ++ rest) = done ++ x :: rest.
Proof. unfold spliceIn. by rewrite take_app_length, drop_app_length. Qed.

Lemma snoc_length (done : list string) x : length (done ++ [x]) = S (length done).
Proof. rewrite length_app. simpl. lia. Qed.

Lemma behind_keep done line r :
  behind (done ++ [line]) r = behind done (keep line r).
Proof. unfold behind, keep. simpl. by rewrite <- app_assoc. Qed.

Lemma scanLoop_past_end fuel (sdp : list string) i vo bw :
  (length sdp <= i)%nat ->
  scanLoop fuel sdp i vo bw
  = {| st_sdp := sdp; st_videoOffset := vo; st_bandwidth := bw |}.
Proof.
  intros H. destruct fuel; [done|]. simpl.
  by rewrite lookup_ge_None_2.
Qed.

(** The loop, given as many turns as there are lines ahead, does what
    [scanRest] describes: it does not stop for lack of fuel. *)
Lemma scanLoop_scanRest i vo bw rest :
  forall done fuel,
    i = length done -> (length rest <= fuel)%nat ->
    scanLoop fuel (done ++ rest) i vo bw = behind done (scanRest i vo bw rest).
Proof.
  functional induction (scanRest i vo bw rest); intros done fuel Hi Hfuel;
    subst i.
  - apply scanLoop_past_end. rewrite app_nil_r. lia.
  - destruct fuel as [|fuel]; [simpl in Hfuel; lia|].
    cbn [scanLoop]. rewrite lookup_at, e1, spliceOut_at.
    apply scanLoop_past_end. rewrite app_nil_r. lia.
  - destruct fuel as [|fuel]; [simpl in Hfuel; lia|].
    cbn [scanLoop]. rewrite lookup_at, e1, spliceOut_at.
    rewrite (cons_middle unread done tl'), app_assoc.
    rewrite (IHs (done ++ [unread]) fuel);
      [|by rewrite snoc_length | simpl in Hfuel; lia].
    apply behind_keep.
  - destruct fuel as [|fuel]; [simpl in Hfuel; lia|].
    cbn [scanLoop]. by rewrite lookup_at, e1, e2.
  - destruct fuel as [|fuel]; [simpl in Hfuel; lia|].
    cbn [scanLoop]. rewrite lookup_at, e1, e2.
    rewrite (cons_middle line done tl), app_assoc.
    rewrite (IHs (done ++ [line]) fuel);
      [|by rewrite snoc_length | simpl in Hfuel; lia].
    apply behind_keep.
  - destruct fuel as [|fuel]; [simpl in Hfuel; lia|].
    cbn [scanLoop]. rewrite lookup_at, e1.
    rewrite (cons_middle line done tl), app_assoc.
    rewrite (IHs (done ++ [line]) fuel);
      [|by rewrite snoc_length | simpl in Hfuel; lia].
    apply behind_keep.
  - destruct fuel as [|fuel]; [simpl in Hfuel; lia|].
    cbn [scanLoop]. rewrite lookup_at, e1.
    rewrite (cons_middle line done tl), app_assoc.
    rewrite (IHs (done ++ [line]) fuel);
      [|by rewrite snoc_length | simpl in Hfuel; lia].
    apply behind_keep.
Qed.

Lemma insertLoop_insertAfterConnection bps kbps rest :
  forall done fuel i,
    i = length done -> (length rest <= fuel)%nat ->
    insertLoop fuel (done ++ rest) i bps kbps
    = done ++ insertAfterConnection bps kbps rest.
Proof.
  induction rest as [|line tl IH]; intros done fuel i Hi Hfuel; subst i.
  - destruct fuel; [done|]. simpl.
    rewrite lookup_ge_None_2; [done|]. rewrite app_nil_r. lia.
  - destruct fuel as [|fuel]; [simpl in Hfuel; lia|].
    cbn [insertLoop insertAfterConnection]. rewrite lookup_at.
    destruct (startsWith "c=IN" line) eqn:E.
    + rewrite (cons_middle line done tl), app_assoc.
      replace (length done + 1)%nat with (length (done ++ [line]))
        by (rewrite snoc_length; lia).
      rewrite spliceIn_at.
      rewrite (cons_middle (tiasLine bps) (done ++ [line]) tl), app_assoc.
      replace (length done + 2)%nat
        with (length ((done ++ [line]) ++ [tiasLine bps]))
        by (rewrite !snoc_length; lia).
      rewrite spliceIn_at. by rewrite <- !app_assoc.
    + rewrite (cons_middle line done tl), app_assoc.
      rewrite (IH (done ++ [line]) fuel);
        [|by rewrite snoc_length | simpl in Hfuel; lia].
      by rewrite <- app_assoc.
Qed.

(** Fuel beyond the number of lines changes nothing: the loops end by
    themselves. *)
Lemma scanLoop_enough_fuel fuel (sdp : list string) vo bw :
  (length sdp <= fuel)%nat ->
  scanLoop fuel sdp 0 vo bw = scanLoop (length sdp) sdp 0 vo bw.
Proof.
  intros H.
  pose proof (scanLoop_scanRest 0 vo bw sdp [] fuel eq_refl H) as H1.
  pose proof (scanLoop_scanRest 0 vo bw sdp [] (length sdp) eq_refl (le_n _))
    as H2.
  rewrite app_nil_l in H1, H2. by rewrite H1, H2.
Qed.

Lemma insertLoop_enough_fuel fuel (sdp : list string) i bps kbps :
  (i <= length sdp)%nat -> (length sdp <= fuel)%nat ->
  insertLoop fuel sdp i bps kbps = insertLoop (length sdp) sdp i bps kbps.
Proof.
  intros Hi H. rewrite <- (take_drop i sdp) at 1 3.
  rewrite !(insertLoop_insertAfterConnection _ _ (drop i sdp) (take i sdp));
    try done; rewrite ?length_take, ?length_drop; lia.
Qed.

(** The function on lines, without indices and fuel. *)
Lemma limitLines_spec lines bandwidth :
  limitLines lines bandwidth
  = let scanned := scanRest 0 None bandwidth lines in
    match st_bandwidth scanned, st_videoOffset scanned with
    | Some b, Some v =>
        if truthy (Some b)
        then take v (st_sdp scanned)
             ++ insertAfterConnection (roundBps b) (roundDiv1024 b)
                  (drop v (st_sdp scanned))
        else st_sdp scanned
    | _, _ => st_sdp scanned
    end.
Proof.
  unfold limitLines.
  pose proof (scanLoop_scanRest 0 None bandwidth lines [] (length lines)
                eq_refl (le_n _)) as Hscan.
  rewrite app_nil_l in Hscan. rewrite Hscan.
  unfold behind. simpl.
  destruct (st_bandwidth _) as [b|]; [|done].
  unfold truthy. destruct (Double.truthy b); [|by destruct (st_videoOffset _)].
  destruct (st_videoOffset _) as [v|]; [|done].
  set (out := st_sdp _).
  destruct (decide (v <= length out)%nat) as [Hv|Hv].
  - rewrite <- (take_drop v out) at 1 2.
    rewrite (insertLoop_insertAfterConnection _ _ (drop v out) (take v out));
      [done| |].
    + rewrite length_take. lia.
    + rewrite length_drop, length_app, length_take, length_drop. lia.
  - rewrite take_ge, drop_ge by lia. simpl. rewrite app_nil_r.
    destruct (length out) eqn:E; [done|]. simpl.
    rewrite lookup_ge_None_2; [done|lia].
Qed.

(** *** One pass and two passes over a description without [b=] lines *)

Lemma startsWith_clash a p b q l :
  Ascii.eqb a b = false ->
  startsWith (String a p) l = true -> startsWith (String b q) l = false.
Proof.
  intros Hab. destruct l as [|c l']; [done|]. simpl.
  destruct (Ascii.eqb_spec a c) as [<-|]; [|done]. by rewrite Ascii.eqb_sym, Hab.
Qed.

Lemma startsWith_longer p q l :
  startsWith p l = false -> startsWith (p +:+ q) l = false.
Proof.
  revert l. induction p as [|a p IH]; intros l; [done|].
  rewrite append_String. destruct l as [|c l']; [done|]. simpl.
  destruct (Ascii.eqb a c); [apply IH | done].
Qed.

Lemma video_is_media l :
  startsWith "m=video" l = true -> startsWith "m=" l = true.
Proof.
  intros H. destruct (startsWith "m=" l) eqn:E; [done|].
  pose proof (startsWith_longer "m=" "video" l E) as H'.
  change ("m=" +:+ "video") with "m=video" in H'. congruence.
Qed.

Lemma tiasLine_starts bps :
  startsWith "b=" (tiasLine bps) = true
  /\ startsWith "m=" (tiasLine bps) = false
  /\ startsWith "b=TIAS:" (tiasLine bps) = true
  /\ startsWith "b=AS:" (tiasLine bps) = false.
Proof. unfold tiasLine. rewrite !append_String, append_empty. done. Qed.

Lemma asLine_starts kbps :
  startsWith "b=" (asLine kbps) = true
  /\ startsWith "m=" (asLine kbps) = false
  /\ startsWith "b=TIAS:" (asLine kbps) = false
  /\ startsWith "b=AS:" (asLine kbps) = true.
Proof. unfold asLine. rewrite !append_String, append_empty. done. Qed.

Lemma scanRest_noBitrate rest : forall i v bw,
  Forall noBitrate rest ->
  scanRest i (Some v) bw rest
  = {| st_sdp := rest; st_videoOffset := Some v; st_bandwidth := bw |}.
Proof.
  induction rest as [|l tl IH]; intros i v bw Hall; [done|].
  inversion Hall as [|? ? Hl Htl]; subst. unfold noBitrate in Hl.
  rewrite scanRest_equation, Hl.
  destruct (startsWith "m=" l); [done|]. by rewrite IH.
Qed.







Lemma scanRest_applyAtVideo (g g' : list string -> list string)
    (h : list string -> option JSNumber) bw lines :
  forall i,
    (forall tl j v, Forall noBitrate tl ->
       scanRest j (Some v) bw (g tl)
       = {| st_sdp := g' tl; st_videoOffset := Some v;
            st_bandwidth := h tl |}) ->
    Forall noBitrate lines ->
    scanRest i None bw (applyAtVideo g lines)
    = {| st_sdp := applyAtVideo g' lines;
         st_videoOffset := offsetOfVideo i lines;
         st_bandwidth := match afterVideo lines with
                         | Some tl => h tl
                         | None => bw
                         end |}.
Proof.
  intros i Hg. revert i.
  induction lines as [|l tl IH]; intros i Hall; [done|].
  inversion Hall as [|? ? Hl Htl]; subst.
  cbn [applyAtVideo offsetOfVideo afterVideo].
  destruct (startsWith "m=video" l) eqn:Ev.
  - rewrite scanRest_equation, Ev. by rewrite Hg.
  - rewrite scanRest_equation, Ev. by rewrite IH.
Qed.

Lemma applyAtVideo_id lines : applyAtVideo (fun tl => tl) lines = lines.
Proof.
  induction lines as [|l tl IH]; [done|]. cbn [applyAtVideo].
  destruct (startsWith "m=video" l); by rewrite ?IH.
Qed.

Lemma applyAtVideo_no_video g lines i :
  offsetOfVideo i lines = None -> applyAtVideo g lines = lines.
Proof.
  revert i. induction lines as [|l tl IH]; intros i; [done|].
  cbn [applyAtVideo offsetOfVideo].
  destruct (startsWith "m=video" l); [done|]. intros H. by rewrite (IH _ H).
Qed.

(** Splitting at the video offset and applying [h] to what follows. *)
Lemma applyAtVideo_at_offset g h lines : forall i v,
  offsetOfVideo i lines = Some v ->
  take (v - i) (applyAtVideo g lines) ++ h (drop (v - i) (applyAtVideo g lines))
  = applyAtVideo (fun tl => h (g tl)) lines.
Proof.
  induction lines as [|l tl IH]; intros i v; [done|].
  cbn [applyAtVideo offsetOfVideo].
  destruct (startsWith "m=video" l).
  - intros [= <-]. replace (S i - i)%nat with 1%nat by lia. done.
  - intros H. pose proof (IH _ _ H) as IH'.
    assert (Hv : (S i <= v)%nat).
    { clear -H. revert i H. induction tl as [|x tl IHtl]; intros i; [done|].
      cbn [offsetOfVideo]. destruct (startsWith "m=video" x).
      - intros [= <-]. lia.
      - intros H. apply IHtl in H. lia. }
    replace (v - i)%nat with (S (v - S i)) by lia.
    cbn [take drop app]. by rewrite IH'.
Qed.

Lemma scanRest_no_bitrate_lines bw lines i :
  Forall noBitrate lines ->
  scanRest i None bw lines
  = {| st_sdp := lines; st_videoOffset := offsetOfVideo i lines;
       st_bandwidth := bw |}.
Proof.
  intros Hall.
  pose proof (scanRest_applyAtVideo (fun tl => tl) (fun tl => tl)
                (fun _ => bw) bw lines i) as H.
  rewrite !applyAtVideo_id in H. rewrite H; [|intros; by apply scanRest_noBitrate|done].
  by destruct (afterVideo lines).
Qed.

(** One pass over lines without [b=] lines, and a second pass over the
    result, with a ceiling that applies. *)
Lemma limitLines_first_pass b lines :
  truthy (Some b) = true -> Forall noBitrate lines ->
  limitLines lines (Some b)
  = applyAtVideo (insertAfterConnection (roundBps b) (roundDiv1024 b)) lines.
Proof.
  intros Hb Hall. rewrite limitLines_spec.
  rewrite scanRest_no_bitrate_lines by done.
  cbn [st_sdp st_videoOffset st_bandwidth]. rewrite Hb.
  destruct (offsetOfVideo 0 lines) as [v|] eqn:Ev.
  - pose proof (applyAtVideo_at_offset (fun tl => tl)
                  (insertAfterConnection (roundBps b) (roundDiv1024 b))
                  lines 0 v Ev) as H.
    by rewrite Nat.sub_0_r, applyAtVideo_id in H.
  - by rewrite (applyAtVideo_no_video _ _ _ Ev).
Qed.


Lemma limitLines_no_ceiling bw lines :
  truthy bw = false -> Forall noBitrate lines -> limitLines lines bw = lines.
Proof.
  intros Hb Hall. rewrite limitLines_spec.
  rewrite scanRest_no_bitrate_lines by done.
  cbn [st_sdp st_videoOffset st_bandwidth].
  destruct bw as [b|]; [|done]. rewrite Hb.
  by destruct (offsetOfVideo 0 lines).
Qed.

(** *** The declared values after one and after two passes *)



Lemma valuesOf_cons p x section :
  valuesOf p (x :: section)
  = if startsWith p x
    then Number_ (splitColon x !! 1%nat) :: valuesOf p section
    else valuesOf p section.
Proof. unfold valuesOf. simpl. by destruct (startsWith p x). Qed.

Lemma insertAfterConnection_clean b k tl :
  Forall clean tl -> Forall clean (insertAfterConnection b k tl).
Proof.
  induction tl as [|x tl IH]; [done|]. intros Hall.
  inversion Hall; subst. cbn [insertAfterConnection].
  destruct (startsWith "c=IN" x).
  - repeat constructor; auto; [apply tiasLine_clean | apply asLine_clean].
  - constructor; auto.
Qed.


Lemma applyAtVideo_clean g lines :
  (forall tl, Forall clean tl -> Forall clean (g tl)) ->
  Forall clean lines -> Forall clean (applyAtVideo g lines).
Proof.
  intros Hg. induction lines as [|l tl IH]; [done|]. intros Hall.
  inversion Hall; subst. cbn [applyAtVideo].
  destruct (startsWith "m=video" l); constructor; auto.
Qed.

Lemma applyAtVideo_nonempty g lines : lines <> [] -> applyAtVideo g lines <> [].
Proof.
  destruct lines as [|l tl]; [done|]. intros _. cbn [applyAtVideo].
  by destruct (startsWith "m=video" l).
Qed.


Lemma splitCRLF_limited (g : list string -> list string) lines :
  (forall tl, Forall clean tl -> Forall clean (g tl)) ->
  lines <> [] -> Forall clean lines ->
  splitCRLF (joinCRLF (applyAtVideo g lines)) = applyAtVideo g lines.
Proof.
  intros Hg Hne Hclean. apply splitCRLF_joinCRLF.
  - by apply applyAtVideo_nonempty.
  - by apply applyAtVideo_clean.
Qed.





(** A ceiling with a fraction: 2000000.6 bits per second. *)
Definition fractionalCeiling : JSNumber := Number_ (Some "2000000.6").


(** *** A declared bitrate below the ceiling *)

Lemma scanRest_seek pre : forall i bw rest,
  Forall (fun l => startsWith "m=video" l = false) pre ->
  scanRest i None bw (pre ++ rest)
  = behind pre (scanRest (i + length pre) None bw rest).
Proof.
  induction pre as [|l pre IH]; intros i bw rest Hall.
  - rewrite Nat.add_0_r. unfold behind. simpl. by destruct (scanRest _ _ _ _).
  - inversion Hall as [|? ? Hl Hpre]; subst.
    rewrite <- app_comm_cons, scanRest_equation, Hl, IH by done.
    replace (i + length (l :: pre))%nat with (S i + length pre)%nat
      by (simpl; lia).
    done.
Qed.

Lemma scanRest_plain seg : forall i v bw rest,
  Forall plainLine seg ->
  scanRest i (Some v) bw (seg ++ rest)
  = behind seg (scanRest (i + length seg) (Some v) bw rest).
Proof.
  induction seg as [|l seg IH]; intros i v bw rest Hall.
  - rewrite Nat.add_0_r. unfold behind. simpl. by destruct (scanRest _ _ _ _).
  - inversion Hall as [|? ? [Hb Hm] Hseg]; subst.
    rewrite <- app_comm_cons, scanRest_equation, Hb, Hm, IH by done.
    replace (i + length (l :: seg))%nat with (S i + length seg)%nat
      by (simpl; lia).
    done.
Qed.

Lemma middle_assoc (a : list string) c b rest :
  a ++ c :: b ++ rest = (a ++ c :: b) ++ rest.
Proof. by rewrite <- app_assoc. Qed.

Lemma insertAfterConnection_at b k seg cl rest :
  Forall (fun l => startsWith "c=IN" l = false) seg ->
  startsWith "c=IN" cl = true ->
  insertAfterConnection b k (seg ++ cl :: rest)
  = seg ++ cl :: tiasLine b :: asLine k :: rest.
Proof.
  intros Hseg Hcl.
  induction seg as [|l seg IH]; cbn [app insertAfterConnection].
  - by rewrite Hcl.
  - inversion Hseg as [|? ? Hl Hs]; subst. by rewrite Hl, IH.
Qed.

Lemma untilNextMedia_plain seg rest :
  Forall plainLine seg ->
  untilNextMedia (seg ++ rest) = seg ++ untilNextMedia rest.
Proof.
  induction seg as [|l seg IH]; [done|]. intros Hall.
  inversion Hall as [|? ? [Hb Hm] Hs]; subst.
  rewrite <- app_comm_cons. cbn [untilNextMedia]. by rewrite Hm, IH.
Qed.

Lemma videoSection_at pre mv rest :
  Forall (fun l => startsWith "m=video" l = false) pre ->
  startsWith "m=video" mv = true ->
  videoSection (pre ++ mv :: rest) = untilNextMedia rest.
Proof.
  intros Hpre Hmv. induction pre as [|l pre IH]; cbn [app videoSection].
  - by rewrite Hmv.
  - inversion Hpre as [|? ? Hl Hp]; subst. by rewrite Hl, IH.
Qed.

Lemma valuesOf_none p section :
  Forall (fun l => startsWith p l = false) section -> valuesOf p section = [].
Proof.
  induction section as [|l s IH]; [done|]. intros Hall.
  inversion Hall as [|? ? Hl Hs]; subst. by rewrite valuesOf_cons, Hl, IH.
Qed.

Lemma valuesOf_app p s1 s2 :
  valuesOf p (s1 ++ s2) = valuesOf p s1 ++ valuesOf p s2.
Proof. unfold valuesOf. by rewrite List.filter_app, map_app. Qed.

Lemma untilNextMedia_noBitrate rest :
  Forall noBitrate rest -> Forall noBitrate (untilNextMedia rest).
Proof.
  induction rest as [|l rest IH]; [done|]. intros Hall.
  inversion Hall; subst. cbn [untilNextMedia].
  destruct (startsWith "m=" l); [done|]. constructor; auto.
Qed.

Lemma noBitrate_no_prefix q section :
  Forall noBitrate section ->
  Forall (fun l => startsWith ("b=" +:+ q) l = false) section.
Proof.
  intros H. eapply Forall_impl; [exact H|].
  intros l Hl. by apply startsWith_longer.
Qed.

(** With a declared bitrate [b] that is not 0 and is below the ceiling (or
    with no ceiling), the [b=] line is replaced by the two lines for [b],
    right after the [c=IN] line: the ceiling is not written. *)
(** The number the first loop holds once it has weighed the bitrate of a
    [b=] line: [if (!bandwidth || bps < bandwidth) bandwidth = bps]. *)
Definition weighed (bandwidth : option JSNumber) (bps : JSNumber) : JSNumber :=
  match lowerOf bandwidth bps with
  | Some r => r
  | None => bps
  end.

Lemma lowerOf_weighed bandwidth bps :
  lowerOf bandwidth bps = Some (weighed bandwidth bps).
Proof.
  unfold weighed, lowerOf.
  destruct (negb (truthy bandwidth) || lessThan bps bandwidth) eqn:E; [done|].
  by destruct bandwidth.
Qed.


Lemma weighed_no_ceiling bandwidth b :
  truthy bandwidth = false -> weighed bandwidth b = b.
Proof. intros Hc. unfold weighed, lowerOf. by rewrite Hc. Qed.

(** The first [b=] line of the video section is removed and its value is
    weighed against the ceiling; the line that follows it is stepped over,
    whatever it holds.  What is then written is the weighed number, rounded,
    or nothing when that number is 0 or NaN. *)
Lemma limitLines_first_bitrate_line
    pre mv upToC cl upToB bl after (bandwidth : option JSNumber) :
  Forall (fun l => startsWith "m=video" l = false) pre ->
  startsWith "m=video" mv = true ->
  Forall plainLine upToC ->
  Forall (fun l => startsWith "c=IN" l = false) upToC ->
  startsWith "c=IN" cl = true ->
  Forall plainLine upToB ->
  startsWith "b=" bl = true ->
  Forall noBitrate (drop 1 after) ->
  limitLines (declaring pre mv upToC cl upToB bl after) bandwidth
  = if Double.truthy (weighed bandwidth (declaredBps bl))
    then limitedAs pre mv upToC cl upToB (weighed bandwidth (declaredBps bl))
           after
    else pre ++ mv :: upToC ++ cl :: upToB ++ after.
Proof.
  intros Hpre Hmv HupToC HnoC Hcl HupToB Hbl Hafter.
  set (r := weighed bandwidth (declaredBps bl)).
  assert (Hclp : plainLine cl).
  { split; [by apply (startsWith_clash "c" "=IN" "b" "=" cl)
           | by apply (startsWith_clash "c" "=IN" "m" "=" cl)]. }
  assert (Hscan : scanRest 0 None bandwidth
                    (declaring pre mv upToC cl upToB bl after)
                  = {| st_sdp := pre ++ mv :: upToC ++ cl :: upToB ++ after;
                       st_videoOffset := Some (S (length pre));
                       st_bandwidth := Some r |}).
  { unfold declaring. rewrite scanRest_seek by done.
    rewrite scanRest_equation, Hmv. simpl Nat.add.
    rewrite (middle_assoc upToC cl upToB (bl :: after)).
    rewrite scanRest_plain
      by (apply Forall_app; split; [done|by constructor]).
    rewrite scanRest_equation, Hbl, lowerOf_weighed. fold r.
    destruct after as [|x after'].
    - unfold behind, keep. cbn [st_sdp st_videoOffset st_bandwidth].
      by rewrite !app_nil_r.
    - cbn [drop] in Hafter. rewrite scanRest_noBitrate by done.
      unfold behind, keep. cbn [st_sdp st_videoOffset st_bandwidth].
      by rewrite <- middle_assoc. }
  rewrite limitLines_spec, Hscan. cbn [st_sdp st_videoOffset st_bandwidth].
  cbn [truthy]. destruct (Double.truthy r); [|done].
  rewrite (cons_middle mv pre), app_assoc.
  replace (S (length pre)) with (length (pre ++ [mv]))
    by (rewrite length_app; simpl; lia).
  rewrite take_app_length, drop_app_length.
  rewrite insertAfterConnection_at by done.
  unfold limitedAs. by rewrite <- app_assoc.
Qed.

Lemma field_tiasLine b : Number_ (splitColon (tiasLine b) !! 1%nat) = reread b.
Proof.
  unfold tiasLine, reread. rewrite !append_String, append_empty.
  cbn -[Number_ numToString].
  destruct (numToString_plain b) as [_ ->]. reflexivity.
Qed.

Lemma field_asLine k : Number_ (splitColon (asLine k) !! 1%nat) = reread k.
Proof.
  unfold asLine, reread. rewrite !append_String, append_empty.
  cbn -[Number_ numToString].
  destruct (numToString_plain k) as [_ ->]. reflexivity.
Qed.

(** A whole number of magnitude [2 ^ 53] at most is written with all its
    digits and read back as it was; rounding leaves it as it is. *)
Lemma reread_whole (n : Z) :
  Z.abs n <= 2 ^ 53 -> n <> 0 ->
  roundBps (Double.ofZ n) = Double.ofZ n
  /\ reread (Double.ofZ n) = Double.ofZ n.
Proof.
  intros Hn H0. split.
  - by apply DoubleRound.Math_round_ofZ.
  - unfold reread, Number_, numToString.
    by apply DoubleRound.StringToNumber_toString_ofZ.
Qed.

Lemma plain_noBitrate seg : Forall plainLine seg -> Forall noBitrate seg.
Proof. intros H. eapply Forall_impl; [exact H|]. by intros l [Hb _]. Qed.

Lemma valuesOf_tias_none seg :
  Forall noBitrate seg -> valuesOf "b=TIAS:" seg = [].
Proof.
  intros H. apply valuesOf_none. by apply (noBitrate_no_prefix "TIAS:").
Qed.

Lemma valuesOf_as_none seg :
  Forall noBitrate seg -> valuesOf "b=AS:" seg = [].
Proof.
  intros H. apply valuesOf_none. by apply (noBitrate_no_prefix "AS:").
Qed.

(** The values the video section of the limited lines declares: what is
    read from the two lines written for [b]. *)
Lemma limitedAs_values pre mv upToC cl upToB b after :
  Forall (fun l => startsWith "m=video" l = false) pre ->
  startsWith "m=video" mv = true ->
  Forall plainLine upToC ->
  startsWith "c=IN" cl = true ->
  Forall plainLine upToB ->
  Forall noBitrate after ->
  let section := videoSection (limitedAs pre mv upToC cl upToB b after) in
  valuesOf "b=TIAS:" section = [reread (roundBps b)]
  /\ valuesOf "b=AS:" section = [reread (roundDiv1024 b)].
Proof.
  intros Hpre Hmv HupToC Hcl HupToB Hafter section.
  assert (Hsec : section
                 = upToC ++ [cl; tiasLine (roundBps b);
                             asLine (roundDiv1024 b)]
                   ++ upToB ++ untilNextMedia after).
  { unfold section, limitedAs. rewrite videoSection_at by done.
    rewrite untilNextMedia_plain by done.
    cbn [untilNextMedia app].
    destruct (tiasLine_starts (roundBps b)) as (_ & -> & _).
    destruct (asLine_starts (roundDiv1024 b)) as (_ & -> & _).
    rewrite (startsWith_clash "c" "=IN" "m" "=" cl) by done.
    by rewrite untilNextMedia_plain. }
  rewrite Hsec, !valuesOf_app.
  destruct (tiasLine_starts (roundBps b)) as (_ & _ & Htt & Hta).
  destruct (asLine_starts (roundDiv1024 b)) as (_ & _ & Hat & Haa).
  rewrite !(valuesOf_tias_none upToC), !(valuesOf_as_none upToC),
    !(valuesOf_tias_none upToB), !(valuesOf_as_none upToB),
    !(valuesOf_tias_none (untilNextMedia after)),
    !(valuesOf_as_none (untilNextMedia after))
    by (first [ by apply plain_noBitrate | by apply untilNextMedia_noBitrate ]).
  rewrite !valuesOf_cons, Htt, Hta, Hat, Haa.
  rewrite (startsWith_clash "c" "=IN" "b" "=TIAS:" cl) by done.
  rewrite (startsWith_clash "c" "=IN" "b" "=AS:" cl) by done.
  by rewrite field_tiasLine, field_asLine.
Qed.

Lemma limitedAs_clean pre mv upToC cl upToB bl b after :
  Forall clean (declaring pre mv upToC cl upToB bl after) ->
  Forall clean (limitedAs pre mv upToC cl upToB b after).
Proof.
  rewrite !List.Forall_forall. intros Hclean l Hin.
  assert (Hcases : In l (declaring pre mv upToC cl upToB bl after)
                   \/ tiasLine (roundBps b) = l
                   \/ asLine (roundDiv1024 b) = l).
  { unfold limitedAs, declaring in *.
    repeat (rewrite ?in_app_iff in *; cbn [In] in * ). tauto. }
  destruct Hcases as [H|[<-| <-]];
    [by apply Hclean | apply tiasLine_clean | apply asLine_clean].
Qed.

(** The description that comes out when the video section declares one
    bitrate, and the values it declares: those of the weighed number when it
    is not 0 or NaN. *)
Lemma limitSDPBandwidth_one_declared
    ty pre mv upToC cl upToB bl after (bandwidth : option JSNumber) :
  Forall (fun l => startsWith "m=video" l = false) pre ->
  startsWith "m=video" mv = true ->
  Forall plainLine upToC ->
  Forall (fun l => startsWith "c=IN" l = false) upToC ->
  startsWith "c=IN" cl = true ->
  Forall plainLine upToB ->
  startsWith "b=" bl = true ->
  Forall noBitrate after ->
  Forall clean (declaring pre mv upToC cl upToB bl after) ->
  Double.truthy (weighed bandwidth (declaredBps bl)) = true ->
  let r := weighed bandwidth (declaredBps bl) in
  let out := limitSDPBandwidth
               {| type := ty;
                  sdp := joinCRLF (declaring pre mv upToC cl upToB bl after) |}
               bandwidth in
  out = {| type := ty;
           sdp := joinCRLF (limitedAs pre mv upToC cl upToB r after) |}
  /\ tiasValues out = [reread (roundBps r)]
  /\ asValues out = [reread (roundDiv1024 r)].
Proof.
  intros Hpre Hmv HupToC HnoC Hcl HupToB Hbl Hafter Hclean Htr r out.
  assert (Hout : out = {| type := ty;
                          sdp := joinCRLF (limitedAs pre mv upToC cl upToB r
                                             after) |}).
  { unfold out, limitSDPBandwidth. cbn [type sdp].
    rewrite splitCRLF_joinCRLF; [|by destruct pre|done].
    rewrite limitLines_first_bitrate_line; try done.
    - by rewrite Htr.
    - by apply Forall_drop. }
  assert (Hlines : splitCRLF (sdp out) = limitedAs pre mv upToC cl upToB r after).
  { rewrite Hout. cbn [sdp]. apply splitCRLF_joinCRLF.
    - unfold limitedAs. by destruct pre.
    - by apply (limitedAs_clean pre mv upToC cl upToB bl r after). }
  destruct (limitedAs_values pre mv upToC cl upToB r after) as [Ht Ha];
    try done.
  unfold tiasValues, asValues. by rewrite Hlines, Ht, Ha.
Qed.

(** A declared video bitrate that is not 0 and is below the ceiling is the
    one the output declares: the [b=] line is replaced by a [b=TIAS] line with
    the declared value, rounded, and a [b=AS] line with its rounded kilobits,
    after the [c=IN] line of the video section. *)
Lemma limitSDPBandwidth_keeps_lower_declared
    ty pre mv upToC cl upToB bl after (ceiling : JSNumber) :
  Forall (fun l => startsWith "m=video" l = false) pre ->
  startsWith "m=video" mv = true ->
  Forall plainLine upToC ->
  Forall (fun l => startsWith "c=IN" l = false) upToC ->
  startsWith "c=IN" cl = true ->
  Forall plainLine upToB ->
  startsWith "b=" bl = true ->
  Forall noBitrate after ->
  Forall clean (declaring pre mv upToC cl upToB bl after) ->
  Double.truthy (declaredBps bl) = true ->
  Double.ltb (declaredBps bl) ceiling = true ->
  let b := declaredBps bl in
  let out := limitSDPBandwidth
               {| type := ty;
                  sdp := joinCRLF (declaring pre mv upToC cl upToB bl after) |}
               (Some ceiling) in
  out = {| type := ty;
           sdp := joinCRLF (limitedAs pre mv upToC cl upToB b after) |}
  /\ tiasValues out = [reread (roundBps b)]
  /\ asValues out = [reread (roundDiv1024 b)]
  /\ effectiveTIAS out = Some (reread (roundBps b)).
Proof.
  intros Hpre Hmv HupToC HnoC Hcl HupToB Hbl Hafter Hclean Hb0 Hlt b out.
  assert (Hw : weighed (Some ceiling) (declaredBps bl) = b).
  { unfold weighed, lowerOf. cbn [lessThan]. rewrite Hlt.
    by rewrite orb_true_r. }
  destruct (limitSDPBandwidth_one_declared ty pre mv upToC cl upToB bl after
              (Some ceiling)) as (Ho & Ht & Ha); try done.
  { by rewrite Hw. }
  rewrite Hw in Ho, Ht, Ha. fold out in Ho, Ht, Ha.
  unfold effectiveTIAS. by rewrite Ht.
Qed.

(** The example of the design document: 500000 declared, ceiling 2000000. *)
Example limitSDPBandwidth_500k_under_2M :
  limitSDPBandwidth offer500k (Some (Double.ofZ 2000000))
  = describe ["v=0"; "o=- 4611731400430051336 2 IN IP4 127.0.0.1"; "s=-";
              "t=0 0"; "m=audio 9 UDP/TLS/RTP/SAVPF 111"; "c=IN IP4 0.0.0.0";
              "a=mid:0"; "m=video 9 UDP/TLS/RTP/SAVPF 96"; "c=IN IP4 0.0.0.0";
              "b=TIAS:500000"; "b=AS:488"; "a=mid:1"; "a=rtpmap:96 VP8/90000";
              ""]
  /\ effectiveTIAS (limitSDPBandwidth offer500k (Some (Double.ofZ 2000000)))
     = Some (Double.ofZ 500000).
Proof. split; vm_compute; reflexivity. Qed.

(** C3 at a declared bitrate of 0.  The video section declares [b=AS:0], that
    is 0 bits per second, below the ceiling of 2000000.  The loop takes 0 as
    the bandwidth and removes the line; [if (bandwidth)] then takes 0 for "no
    ceiling" and writes nothing: the output declares no video bitrate at all,
    where a declared 0 was to be kept. *)
Theorem limitSDPBandwidth_drops_declared_zero :
  asValues offerZero = [Double.Zero false]
  /\ limitSDPBandwidth offerZero (Some (Double.ofZ 2000000))
     = describe ["v=0"; "o=- 4611731400430051336 2 IN IP4 127.0.0.1"; "s=-";
                 "t=0 0"; "m=video 9 UDP/TLS/RTP/SAVPF 96";
                 "c=IN IP4 0.0.0.0"; "a=mid:1"; "a=rtpmap:96 VP8/90000"; ""]
  /\ tiasValues (limitSDPBandwidth offerZero (Some (Double.ofZ 2000000))) = []
  /\ asValues (limitSDPBandwidth offerZero (Some (Double.ofZ 2000000))) = []
  /\ effectiveTIAS (limitSDPBandwidth offerZero (Some (Double.ofZ 2000000)))
     = None.
Proof. repeat split; vm_compute; reflexivity. Qed.

(** *** Further properties of [limitSDPBandwidth] *)

Lemma unchanged_lines desc bandwidth :
  limitLines (splitCRLF (sdp desc)) bandwidth = splitCRLF (sdp desc) ->
  limitSDPBandwidth desc bandwidth = desc.
Proof.
  intros H. unfold limitSDPBandwidth. rewrite H, joinCRLF_splitCRLF.
  by destruct desc.
Qed.

(** X1 ([limitSDPBandwidth]).  A description with no [m=video] line comes
    back as it went in, type and text, whatever the ceiling: the [b=] lines
    of the other media sections are neither read nor removed, and nothing is
    written. *)
Theorem limitSDPBandwidth_without_video_section
    (desc : RTCSessionDescription) (bandwidth : option JSNumber) :
  Forall (fun l => startsWith "m=video" l = false) (splitCRLF (sdp desc)) ->
  limitSDPBandwidth desc bandwidth = desc.
Proof.
  intros Hno. apply unchanged_lines.
  rewrite limitLines_spec.
  pose proof (scanRest_seek (splitCRLF (sdp desc)) 0 bandwidth [] Hno) as H.
  rewrite app_nil_r in H. rewrite H.
  rewrite scanRest_equation. unfold behind.
  cbn [st_sdp st_videoOffset st_bandwidth]. rewrite app_nil_r.
  by destruct bandwidth.
Qed.

(** An offer with an audio section only, which declares a bitrate. *)
Definition audioOnlyOffer : RTCSessionDescription :=
  describe ["v=0"; "s=-"; "m=audio 9 UDP/TLS/RTP/SAVPF 111";
            "c=IN IP4 0.0.0.0"; "b=AS:64"; "a=mid:0"; ""].

Lemma limitSDPBandwidth_without_video_section_witness :
  limitSDPBandwidth audioOnlyOffer (Some (Double.ofZ 2000000))
  = audioOnlyOffer.
Proof.
  apply (limitSDPBandwidth_without_video_section audioOnlyOffer
           (Some (Double.ofZ 2000000))).
  vm_compute. repeat constructor.
Defined.

(** X2 ([limitSDPBandwidth]).  Without a ceiling ([undefined], [NaN] or 0)
    a description that has no [b=] line comes back as it went in, type and
    text. *)
Theorem limitSDPBandwidth_without_ceiling
    (desc : RTCSessionDescription) (bandwidth : option JSNumber) :
  truthy bandwidth = false ->
  Forall noBitrate (splitCRLF (sdp desc)) ->
  limitSDPBandwidth desc bandwidth = desc.
Proof.
  intros Hb Hall. apply unchanged_lines. by apply limitLines_no_ceiling.
Qed.

Lemma limitSDPBandwidth_without_ceiling_witness :
  limitSDPBandwidth plainOffer None = plainOffer
  /\ limitSDPBandwidth plainOffer (Some (Double.Zero false)) = plainOffer
  /\ limitSDPBandwidth plainOffer (Some Double.NaN) = plainOffer.
Proof.
  split; [|split].
  - apply (limitSDPBandwidth_without_ceiling plainOffer None); [reflexivity|].
    vm_compute. repeat constructor.
  - apply (limitSDPBandwidth_without_ceiling plainOffer
             (Some (Double.Zero false))); [reflexivity|].
    vm_compute. repeat constructor.
  - apply (limitSDPBandwidth_without_ceiling plainOffer (Some Double.NaN));
      [reflexivity|].
    vm_compute. repeat constructor.
Defined.

Lemma applyAtVideo_at g pre mv rest :
  Forall (fun l => startsWith "m=video" l = false) pre ->
  startsWith "m=video" mv = true ->
  applyAtVideo g (pre ++ mv :: rest) = pre ++ mv :: g rest.
Proof.
  intros Hpre Hmv. induction pre as [|l pre IH]; cbn [app applyAtVideo].
  - by rewrite Hmv.
  - inversion Hpre as [|? ? Hl Hp]; subst. by rewrite Hl, IH.
Qed.

Lemma untilNextMedia_stops seg rest :
  Exists (fun l => startsWith "m=" l = true) seg ->
  untilNextMedia (seg ++ rest) = untilNextMedia seg.
Proof.
  induction seg as [|l seg IH]; intros H; [by inversion H|].
  rewrite <- app_comm_cons. cbn [untilNextMedia].
  destruct (startsWith "m=" l) eqn:E; [done|].
  inversion H as [? ? Hl|? ? Hs]; subst; [congruence|]. by rewrite IH.
Qed.

(** X3 ([limitSDPBandwidth]).  With a ceiling other than 0 and NaN, whole or
    fractional, and no [b=] line in the description, the lines
    [b=TIAS:<Math.round(ceiling)>] and [b=AS:<Math.round(ceiling / 1024)>]
    are written right after the first [c=IN] line that follows the [m=video]
    line, and nothing else changes.  When that [c=IN] line belongs to the
    video section, the section then declares what is read from these two
    lines, which for a whole ceiling of magnitude [2 ^ 53] at most is exactly
    the ceiling; when another [m=] line comes first, the two lines land in
    that later section and the video section declares nothing. *)
Theorem limitSDPBandwidth_writes_ceiling_after_connection_line
    (desc : RTCSessionDescription) pre mv upToC cl after (ceiling : JSNumber) :
  splitCRLF (sdp desc) = pre ++ mv :: upToC ++ cl :: after ->
  Forall noBitrate (splitCRLF (sdp desc)) ->
  Forall (fun l => startsWith "m=video" l = false) pre ->
  startsWith "m=video" mv = true ->
  Forall (fun l => startsWith "c=IN" l = false) upToC ->
  startsWith "c=IN" cl = true ->
  Double.truthy ceiling = true ->
  let out := limitSDPBandwidth desc (Some ceiling) in
  type out = type desc
  /\ splitCRLF (sdp out)
     = pre ++ mv :: upToC
       ++ cl :: tiasLine (roundBps ceiling) :: asLine (roundDiv1024 ceiling)
       :: after
  /\ (Forall (fun l => startsWith "m=" l = false) upToC ->
      tiasValues out = [reread (roundBps ceiling)]
      /\ asValues out = [reread (roundDiv1024 ceiling)]
      /\ (forall n : Z, ceiling = Double.ofZ n -> Z.abs n <= 2 ^ 53 ->
          tiasLine (roundBps ceiling) = tiasLine ceiling
          /\ tiasValues out = [ceiling]))
  /\ (Exists (fun l => startsWith "m=" l = true) upToC ->
      tiasValues out = [] /\ asValues out = []).
Proof.
  intros Hshape Hall Hpre Hmv HnoC Hcl Hc out.
  set (r := roundBps ceiling). set (k := roundDiv1024 ceiling).
  assert (Htr : truthy (Some ceiling) = true) by done.
  pose proof (splitCRLF_pieces_clean (sdp desc)) as Hclean.
  assert (Hlines : splitCRLF (sdp out)
                   = pre ++ mv :: upToC ++ cl :: tiasLine r :: asLine k
                       :: after).
  { unfold out, limitSDPBandwidth. cbn [sdp].
    rewrite limitLines_first_pass by done.
    rewrite splitCRLF_limited;
      [| intros tl; apply insertAfterConnection_clean
       | apply splitCRLF_nonempty | done].
    rewrite Hshape, applyAtVideo_at by done.
    by rewrite insertAfterConnection_at. }
  split; [done|]. split; [done|].
  rewrite Hshape in Hall.
  apply Forall_app in Hall as [_ Hall].
  inversion Hall as [|? ? _ Hall1]; subst.
  apply Forall_app in Hall1 as [HupToC Hall2].
  inversion Hall2 as [|? ? Hclb Hafter]; subst.
  unfold tiasValues, asValues. rewrite Hlines, videoSection_at by done.
  destruct (tiasLine_starts r) as (_ & Htm & Htt & Hta).
  destruct (asLine_starts k) as (_ & Ham & Hat & Haa).
  split.
  - intros HnoM.
    assert (Hplain : Forall plainLine upToC).
    { apply Forall_and. by split. }
    rewrite untilNextMedia_plain by done.
    cbn [untilNextMedia]. rewrite Htm, Ham.
    rewrite (startsWith_clash "c" "=IN" "m" "=" cl) by done.
    rewrite !valuesOf_app, !valuesOf_cons, Htt, Hta, Hat, Haa.
    rewrite (startsWith_clash "c" "=IN" "b" "=TIAS:" cl) by done.
    rewrite (startsWith_clash "c" "=IN" "b" "=AS:" cl) by done.
    rewrite !(valuesOf_tias_none upToC), !(valuesOf_as_none upToC),
      !(valuesOf_tias_none (untilNextMedia after)),
      !(valuesOf_as_none (untilNextMedia after))
      by (first [ done | by apply untilNextMedia_noBitrate ]).
    rewrite field_tiasLine, field_asLine.
    split; [done|]. split; [done|].
    intros n -> Hn.
    assert (H0 : n <> 0).
    { intros ->. by vm_compute in Hc. }
    destruct (reread_whole n Hn H0) as [Er Eq].
    unfold r. rewrite Er, Eq. done.
  - intros HM. rewrite untilNextMedia_stops by done.
    rewrite valuesOf_tias_none, valuesOf_as_none
      by (by apply untilNextMedia_noBitrate).
    done.
Qed.

Lemma limitSDPBandwidth_writes_ceiling_after_connection_line_witness :
  tiasValues (limitSDPBandwidth plainOffer (Some (Double.ofZ 2000000)))
  = [Double.ofZ 2000000]
  /\ asValues (limitSDPBandwidth plainOffer (Some (Double.ofZ 2000000)))
     = [Double.ofZ 1953]
  /\ tiasValues (limitSDPBandwidth plainOffer (Some fractionalCeiling))
     = [Double.ofZ 2000001].
Proof.
  split; [|split].
  - destruct (limitSDPBandwidth_writes_ceiling_after_connection_line
                plainOffer
                ["v=0"; "o=- 4611731400430051336 2 IN IP4 127.0.0.1"; "s=-";
                 "t=0 0"; "a=group:BUNDLE 0 1";
                 "m=audio 9 UDP/TLS/RTP/SAVPF 111"; "c=IN IP4 0.0.0.0";
                 "a=mid:0"; "a=rtpmap:111 opus/48000/2"]
                "m=video 9 UDP/TLS/RTP/SAVPF 96" [] "c=IN IP4 0.0.0.0"
                ["a=mid:1"; "a=rtpmap:96 VP8/90000"; ""]
                (Double.ofZ 2000000))
      as (_ & _ & Hvalues & _);
      [ reflexivity | vm_compute; repeat constructor
      | vm_compute; repeat constructor | reflexivity | constructor
      | reflexivity | reflexivity |].
    destruct (Hvalues (List.Forall_nil _)) as (_ & _ & Hwhole).
    apply (Hwhole 2000000); [reflexivity|]. vm_compute. discriminate.
  - destruct (limitSDPBandwidth_writes_ceiling_after_connection_line
                plainOffer
                ["v=0"; "o=- 4611731400430051336 2 IN IP4 127.0.0.1"; "s=-";
                 "t=0 0"; "a=group:BUNDLE 0 1";
                 "m=audio 9 UDP/TLS/RTP/SAVPF 111"; "c=IN IP4 0.0.0.0";
                 "a=mid:0"; "a=rtpmap:111 opus/48000/2"]
                "m=video 9 UDP/TLS/RTP/SAVPF 96" [] "c=IN IP4 0.0.0.0"
                ["a=mid:1"; "a=rtpmap:96 VP8/90000"; ""]
                (Double.ofZ 2000000))
      as (_ & _ & Hvalues & _);
      [ reflexivity | vm_compute; repeat constructor
      | vm_compute; repeat constructor | reflexivity | constructor
      | reflexivity | reflexivity |].
    destruct (Hvalues (List.Forall_nil _)) as (_ & Has & _).
    refine (eq_trans Has _). vm_compute. reflexivity.
  - destruct (limitSDPBandwidth_writes_ceiling_after_connection_line
                plainOffer
                ["v=0"; "o=- 4611731400430051336 2 IN IP4 127.0.0.1"; "s=-";
                 "t=0 0"; "a=group:BUNDLE 0 1";
                 "m=audio 9 UDP/TLS/RTP/SAVPF 111"; "c=IN IP4 0.0.0.0";
                 "a=mid:0"; "a=rtpmap:111 opus/48000/2"]
                "m=video 9 UDP/TLS/RTP/SAVPF 96" [] "c=IN IP4 0.0.0.0"
                ["a=mid:1"; "a=rtpmap:96 VP8/90000"; ""]
                fractionalCeiling)
      as (_ & _ & Hvalues & _);
      [ reflexivity | vm_compute; repeat constructor
      | vm_compute; repeat constructor | reflexivity | constructor
      | reflexivity | reflexivity |].
    destruct (Hvalues (List.Forall_nil _)) as (Htias & _).
    refine (eq_trans Htias _). vm_compute. reflexivity.
Defined.







End SDP.

(** ** CandidateQueue: [_earlyICECandidates], [enqueueEarlyICECandidates],
       [drainEarlyICECandidates] *)

Module CandidateQueue.

(** An ICE candidate init dictionary as received in [ev.data.icecandidates];
    the queue never inspects it. *)
Record ICECandidate := {
  candidate : string;
  sdpMid : string;
  sdpMLineIndex : Z
}.

(** The queue is [new F.util.DefaultMap(Array)], keyed by peer id. *)
Abbreviation EarlyICECandidates := (gmap string (list ICECandidate)).

(** Modelled from the spec: [F.util.DefaultMap] is not part of the sources
    at hand.  It is a [Map] whose [get] creates the entry with the factory
    ([Array], the empty array) when the key is missing ("created lazily on
    first early arrival"); [has] and [delete] are those of [Map]. *)
Definition DefaultMap_get (m : EarlyICECandidates) (k : string)
  : list ICECandidate * EarlyICECandidates :=
  match m !! k with
  | Some bucket => (bucket, m)
  | None => ([], <[k := []]> m)
  end.

Definition DefaultMap_has (m : EarlyICECandidates) (k : string) : bool :=
  bool_decide (is_Some (m !! k)).

Definition DefaultMap_delete (m : EarlyICECandidates) (k : string)
  : EarlyICECandidates := delete k m.

(** [bucket.push.apply(bucket, icecandidates)] mutates the array stored in
    the map: the entry of [peerId] becomes the bucket followed by the new
    candidates. *)
Definition enqueueEarlyICECandidates (m : EarlyICECandidates)
    (peerId : string) (icecandidates : list ICECandidate)
  : EarlyICECandidates :=
  let '(bucket, m1) := DefaultMap_get m peerId in
  <[peerId := bucket ++ icecandidates]> m1.

(** The result is [None] for the bare [return] (undefined). *)
Definition drainEarlyICECandidates (m : EarlyICECandidates) (peerId : string)
  : option (list ICECandidate) * EarlyICECandidates :=
  if negb (DefaultMap_has m peerId) then (None, m)
  else
    let '(bucket, m1) := DefaultMap_get m peerId in
    (Some bucket, DefaultMap_delete m1 peerId).

(** A history of [enqueueEarlyICECandidates] calls, oldest first. *)
Definition Call := (string * list ICECandidate)%type.

Definition enqueueAll (m : EarlyICECandidates) (calls : list Call)
  : EarlyICECandidates :=
  fold_left (fun acc c => enqueueEarlyICECandidates acc c.1 c.2) calls m.

(** What was enqueued for one peer id, in arrival order. *)
Fixpoint arrivedFor (peerId : string) (calls : list Call) : list ICECandidate :=
  match calls with
  | [] => []
  | c :: rest =>
      if decide (c.1 = peerId) then c.2 ++ arrivedFor peerId rest
      else arrivedFor peerId rest
  end.

Definition calledFor (peerId : string) (calls : list Call) : bool :=
  existsb (fun c => bool_decide (c.1 = peerId)) calls.

Lemma enqueue_lookup_same m peerId cs :
  enqueueEarlyICECandidates m peerId cs !! peerId
  = Some (default [] (m !! peerId) ++ cs).
Proof.
  unfold enqueueEarlyICECandidates, DefaultMap_get.
  destruct (m !! peerId) as [b|] eqn:E; simpl; by rewrite lookup_insert_eq.
Qed.

Lemma enqueue_lookup_other m peerId other cs :
  other ≠ peerId ->
  enqueueEarlyICECandidates m other cs !! peerId = m !! peerId.
Proof.
  intros Hne. unfold enqueueEarlyICECandidates, DefaultMap_get.
  destruct (m !! other) as [b|] eqn:E; simpl;
    rewrite ?lookup_insert_ne; auto.
Qed.

Lemma arrivedFor_not_called peerId calls :
  calledFor peerId calls = false -> arrivedFor peerId calls = [].
Proof.
  induction calls as [|[k cs] rest IH]; simpl; [done|].
  intros H. apply orb_false_iff in H as [Hk Hrest].
  apply bool_decide_eq_false in Hk. simpl in Hk.
  destruct (decide (k = peerId)); [done|auto].
Qed.

(** The bucket of a peer id after a history: what it held before followed by
    everything that arrived for it; it exists as soon as one call named it. *)
Lemma enqueueAll_lookup calls : forall m peerId,
  enqueueAll m calls !! peerId =
    if calledFor peerId calls
    then Some (default [] (m !! peerId) ++ arrivedFor peerId calls)
    else m !! peerId.
Proof.
  induction calls as [|[k cs] rest IH]; intros m peerId; simpl; [done|].
  unfold enqueueAll in *. simpl. rewrite IH. clear IH.
  destruct (decide (k = peerId)) as [->|Hne].
  - rewrite bool_decide_eq_true_2 by done. simpl.
    rewrite enqueue_lookup_same. simpl.
    destruct (calledFor peerId rest) eqn:Hrest.
    + by rewrite <- app_assoc.
    + by rewrite (arrivedFor_not_called _ _ Hrest), app_nil_r.
  - rewrite bool_decide_eq_false_2 by done. simpl.
    by rewrite enqueue_lookup_other.
Qed.

Lemma drain_spec m peerId :
  drainEarlyICECandidates m peerId = (m !! peerId, delete peerId m).
Proof.
  unfold drainEarlyICECandidates, DefaultMap_has, DefaultMap_get,
    DefaultMap_delete.
  destruct (m !! peerId) as [b|] eqn:E.
  - rewrite bool_decide_eq_true_2 by eauto. done.
  - rewrite bool_decide_eq_false_2 by (intros [? ?]; congruence). simpl.
    f_equal. symmetry. by apply delete_id.
Qed.

(** C2.  Starting from a queue with no entry for [peerId], after any history
    of enqueue calls (for this and for other peer ids), one drain returns
    exactly the candidates enqueued for [peerId] in arrival order and nothing
    of any other id (it signals empty only when no call named [peerId]),
    leaves no entry for [peerId] and the other entries as they were, and a
    second drain right after signals empty. *)
Theorem drain_returns_arrivals_in_order
    (m0 : EarlyICECandidates) (calls : list Call) (peerId : string) :
  m0 !! peerId = None ->
  let m := enqueueAll m0 calls in
  let drained := (drainEarlyICECandidates m peerId).1 in
  let m1 := (drainEarlyICECandidates m peerId).2 in
  (calledFor peerId calls = true -> drained = Some (arrivedFor peerId calls))
  /\ (calledFor peerId calls = false -> drained = None)
  /\ m1 !! peerId = None
  /\ DefaultMap_has m1 peerId = false
  /\ (forall other, other ≠ peerId -> m1 !! other = m !! other)
  /\ drainEarlyICECandidates m1 peerId = (None, m1).
Proof.
  intros Hfresh. simpl. rewrite drain_spec.
  rewrite enqueueAll_lookup, Hfresh. simpl.
  assert (Hgone : delete peerId (enqueueAll m0 calls) !! peerId = None)
    by apply lookup_delete_eq.
  split; [by intros ->|]. split; [by intros ->|].
  repeat split; auto.
  - unfold DefaultMap_has. apply bool_decide_eq_false_2.
    rewrite Hgone. by intros [? ?].
  - intros other Hne. by rewrite lookup_delete_ne.
  - rewrite drain_spec, Hgone. f_equal. by apply delete_id.
Qed.

(** Two peers' candidates arriving interleaved. *)
Definition c1 : ICECandidate :=
  {| candidate := "candidate:1 1 udp 2122260223 192.0.2.1 50000 typ host";
     sdpMid := "0"; sdpMLineIndex := 0 |}.
Definition c2 : ICECandidate :=
  {| candidate := "candidate:2 1 udp 1686052607 198.51.100.7 50001 typ srflx";
     sdpMid := "0"; sdpMLineIndex := 0 |}.
Definition c3 : ICECandidate :=
  {| candidate := "candidate:3 1 udp 41885439 203.0.113.9 50002 typ relay";
     sdpMid := "1"; sdpMLineIndex := 1 |}.
Definition interleaved : list Call :=
  [("peerA", [c1]); ("peerB", [c3]); ("peerA", [c2; c3])].

Lemma drain_returns_arrivals_in_order_witness :
  (drainEarlyICECandidates (enqueueAll ∅ interleaved) "peerA").1
  = Some [c1; c2; c3].
Proof.
  apply (drain_returns_arrivals_in_order ∅ interleaved "peerA"); reflexivity.
Defined.

End CandidateQueue.

(** ** PeerLink: [ForstaRTCPeerConnection.isConnected], [isStale] and the
       stale filter of [peerCheck] *)

Module PeerLink.

Inductive RTCIceConnectionState :=
| ice_new | ice_checking | ice_connected | ice_completed
| ice_failed | ice_disconnected | ice_closed.

(** The part of a peer connection the staleness test reads: the transport's
    ICE state and the two [_meta] time stamps (milliseconds of [Date.now()]),
    which are absent ([undefined]) until they are set. *)
Record ForstaRTCPeerConnection := {
  iceConnectionState : RTCIceConnectionState;
  meta_added : option Z;
  meta_connected : option Z
}.

Definition isConnected (p : ForstaRTCPeerConnection) : bool :=
  match iceConnectionState p with
  | ice_connected | ice_completed => true
  | _ => false
  end.

(** [lastConnected ? .. : ..]: [undefined] and [0] are falsy. *)
Definition truthy (v : option Z) : bool :=
  match v with
  | Some t => negb (t =? 0)
  | None => false
  end.

(** [now - v > limit]; with [v] undefined the difference is NaN and the
    comparison is false. *)
Definition elapsedOver (now : Z) (v : option Z) (limit : Z) : bool :=
  match v with
  | Some t => limit <? now - t
  | None => false
  end.

(** [now] is the value of [Date.now()] read inside [isStale]. *)
Definition isStale (p : ForstaRTCPeerConnection) (now : Z) : bool :=
  if isConnected p then false
  else
    let lastConnected := meta_connected p in
    if truthy lastConnected then elapsedOver now lastConnected 30000
    else elapsedOver now (meta_added p) 30000.

(** [peers.filter(x => x.isStale())] in [peerCheck]: the links whose removal
    is scheduled. *)
Definition stalePeers (peers : list ForstaRTCPeerConnection) (now : Z)
  : list ForstaRTCPeerConnection :=
  filter (fun x => isStale x now = true) peers.

(** [addPeer]: a fresh connection (ICE state new) is registered and stamped. *)
Definition addPeer (now : Z) : ForstaRTCPeerConnection :=
  {| iceConnectionState := ice_new;
     meta_added := Some now;
     meta_connected := None |}.

(** The transport moves the ICE state to [s]; when the view's
    [iceconnectionstatechange] listener is bound it stamps [connected] if
    the new state counts as connected. *)
Definition iceConnectionStateChange (bound : bool) (s : RTCIceConnectionState)
    (now : Z) (p : ForstaRTCPeerConnection) : ForstaRTCPeerConnection :=
  let p1 := {| iceConnectionState := s;
               meta_added := meta_added p;
               meta_connected := meta_connected p |} in
  if bound && isConnected p1
  then {| iceConnectionState := s;
          meta_added := meta_added p;
          meta_connected := Some now |}
  else p1.

(** The life of a link registered at [t0], with a clock that does not run
    backwards: [Lifetime t0 t p] says that [p] is what the link looks like
    at some moment whose last event happened at [t]. *)
Inductive Lifetime (t0 : Z) : Z -> ForstaRTCPeerConnection -> Prop :=
| born : 0 < t0 -> Lifetime t0 t0 (addPeer t0)
| changed t p bound s now :
    Lifetime t0 t p -> t <= now ->
    Lifetime t0 now (iceConnectionStateChange bound s now p).

(** "The later of connected-at (if ever set) or added-at". *)
Definition lastProgress (p : ForstaRTCPeerConnection) : option Z :=
  match meta_connected p, meta_added p with
  | Some c, Some a => Some (Z.max c a)
  | Some c, None => Some c
  | None, a => a
  end.

Lemma Lifetime_stamps t0 t p :
  Lifetime t0 t p ->
  0 < t0 <= t /\ meta_added p = Some t0 /\
  (meta_connected p = None \/
   exists c, meta_connected p = Some c /\ t0 <= c <= t).
Proof.
  induction 1 as [Hpos | t p bound s now Hlife IH Hle].
  - simpl. repeat split; auto; lia.
  - destruct IH as (Ht & Hadd & Hconn).
    unfold iceConnectionStateChange.
    destruct (bound && _); simpl; repeat split; auto; try lia.
    + right. exists now. split; auto. lia.
    + destruct Hconn as [Hn | (c & Hc & Hr)]; [by left|].
      right. exists c. split; auto. lia.
Qed.

(** C5.  For a link at any moment of its life, [isStale] at time [now] holds
    exactly when the ICE state is neither connected nor completed and more
    than 30000 ms separate [now] from the later of connected-at (if set) and
    added-at.  Hence a link that never connected and is not connected is
    picked by the stale filter of the reconciliation pass 31 s after its
    creation, and is not picked 29 s after it. *)
Theorem isStale_iff_30s_since_last_progress
    (t0 t : Z) (p : ForstaRTCPeerConnection) (now : Z) :
  Lifetime t0 t p ->
  (isStale p now = true <->
     isConnected p = false /\
     exists last, lastProgress p = Some last /\ 30000 < now - last)
  /\ (meta_connected p = None -> isConnected p = false ->
      stalePeers [p] (t0 + 31000) = [p] /\ stalePeers [p] (t0 + 29000) = []).
Proof.
  intros Hlife.
  destruct (Lifetime_stamps _ _ _ Hlife) as (Ht & Hadd & Hconn).
  split.
  - unfold isStale, lastProgress. rewrite Hadd.
    destruct (isConnected p) eqn:Ec.
    { split; [discriminate | intros [? _]; discriminate]. }
    destruct Hconn as [-> | (c & -> & Hc)]; simpl.
    + rewrite Z.ltb_lt. split.
      * intros H. split; auto. exists t0. auto.
      * intros (_ & last & [= <-] & H). exact H.
    + assert (Hc0 : (c =? 0) = false) by (apply Z.eqb_neq; lia).
      rewrite Hc0. simpl. rewrite Z.ltb_lt. split.
      * intros H. split; auto. exists (Z.max c t0). split; auto. lia.
      * intros (_ & last & [= <-] & H). lia.
  - intros Hnever Hnot.
    assert (H31 : isStale p (t0 + 31000) = true).
    { unfold isStale. rewrite Hnot, Hnever, Hadd. simpl.
      apply Z.ltb_lt. lia. }
    assert (H29 : isStale p (t0 + 29000) = false).
    { unfold isStale. rewrite Hnot, Hnever, Hadd. simpl.
      apply Z.ltb_ge. lia. }
    unfold stalePeers. split.
    + rewrite filter_cons_True by done. done.
    + rewrite filter_cons_False by congruence. done.
Qed.

(** A link registered at time 1000 whose transport went to checking and
    then failed, never connecting. *)
Definition failedLink : ForstaRTCPeerConnection :=
  iceConnectionStateChange true ice_failed 9000
    (iceConnectionStateChange true ice_checking 1500 (addPeer 1000)).

Lemma isStale_iff_30s_since_last_progress_witness :
  stalePeers [failedLink] (1000 + 31000) = [failedLink]
  /\ stalePeers [failedLink] (1000 + 29000) = [].
Proof.
  assert (Hlife : Lifetime 1000 9000 failedLink).
  { unfold failedLink. apply changed with (t := 1500); [|lia].
    apply changed with (t := 1000); [|lia]. apply born. lia. }
  destruct (isStale_iff_30s_since_last_progress 1000 9000 failedLink 40000
              Hlife) as [_ H].
  apply H; reflexivity.
Defined.

(** At exactly 30 s the link is not yet stale; one millisecond later it is. *)
Example isStale_at_30s :
  isStale failedLink (1000 + 30000) = false
  /\ isStale failedLink (1000 + 30001) = true.
Proof. split; reflexivity. Qed.

End PeerLink.
(** ** PresenterSelector: [getMostPresentableMemberView], [checkSoundLevels] *)

Module Presenter.

(** A member view as the selector sees it.  Views are objects compared by
    identity ([===]); [oid] is that identity.  [soundRMS] is a number, that
    is a double. *)
Record CallMemberView := {
  oid : nat;
  addr : string;
  soundRMS : Double.Number;
  isPinned : bool
}.

Definition same (a b : CallMemberView) : bool := Nat.eqb (oid a) (oid b).

Record CallView := {
  outView : CallMemberView;
  (** [Array.from(this.memberViews.values())]: insertion order, the local
      member's view included. *)
  getMemberViews : list CallMemberView;
  _presenting : option CallMemberView;
  _lastPresenterSwitch : option Z
}.

(** [new Set(array)]: insertion order, an object kept once. *)
Fixpoint SetFrom (l : list CallMemberView) : list CallMemberView :=
  match l with
  | [] => []
  | v :: rest => v :: List.filter (fun x => negb (same x v)) (SetFrom rest)
  end.

Definition Set_delete (s : list CallMemberView) (v : CallMemberView)
  : list CallMemberView :=
  List.filter (fun x => negb (same x v)) s.

(** The members left after [memberViews.delete(this.outView)]. *)
Definition remoteViews (cv : CallView) : list CallMemberView :=
  Set_delete (SetFrom (getMemberViews cv)) (outView cv).

(** The number the literal [0.01] denotes: the double nearest to one
    hundredth, [5764607523034235 * 2 ^ -59]. *)
Definition margin : Double.Number :=
  Double.Finite false 5764607523034235 (-59).

(** [view.soundRMS - loudest.soundRMS >= 0.01]: the difference is the
    double nearest to the exact one. *)
Definition louderByMargin (view loudest : CallMemberView) : bool :=
  Double.geb (Double.sub (soundRMS view) (soundRMS loudest)) margin.

(** One turn of the loop body:
    [if (!loudest || view.soundRMS - loudest.soundRMS >= 0.01) loudest = view]. *)
Definition challenge (loudest : option CallMemberView) (view : CallMemberView)
  : option CallMemberView :=
  match loudest with
  | None => Some view
  | Some l => if louderByMargin view l then Some view else loudest
  end.

(** [this._presenting !== this.outView ? this._presenting : null] *)
Definition incumbent (cv : CallView) : option CallMemberView :=
  match _presenting cv with
  | Some p => if same p (outView cv) then None else Some p
  | None => None
  end.

(** The result is an option because [loudest] may be [null] in the source's
    typing; with a member to visit it never is. *)
Definition getMostPresentableMemberView (cv : CallView)
  : option CallMemberView :=
  let memberViews := remoteViews cv in
  match memberViews with
  | [] => Some (outView cv)
  | [v] => Some v
  | _ => fold_left challenge memberViews (incumbent cv)
  end.

Definition sameOpt (a b : option CallMemberView) : bool :=
  match a, b with
  | Some x, Some y => same x y
  | None, None => true
  | _, _ => false
  end.

(** [checkSoundLevels] at time [now]; [selectPresenter] makes the chosen view
    the presenter. *)
Definition checkSoundLevels (cv : CallView) (now : Z) : CallView :=
  match _presenting cv with
  | None => cv
  | Some p =>
      let recent :=
        match _lastPresenterSwitch cv with
        | Some t => negb (t =? 0)%Z && (now - t <? 2000)%Z
        | None => false
        end in
      if isPinned p || recent then cv
      else
        let memberView := getMostPresentableMemberView cv in
        if sameOpt (_presenting cv) memberView then cv
        else {| outView := outView cv;
                getMemberViews := getMemberViews cv;
                _presenting := memberView;
                _lastPresenterSwitch := Some now |}
  end.

(** [v] does not reach [m]'s loudness plus the margin:
    [v.soundRMS - m.soundRMS >= 0.01] is false. *)
Definition within (m v : CallMemberView) : Prop := louderByMargin v m = false.

(** [m] is ahead of [v] by the margin or more:
    [m.soundRMS - v.soundRMS >= 0.01] is true. *)
Definition ahead (m v : CallMemberView) : Prop := louderByMargin m v = true.

(** The loudness a decimal literal denotes. *)
Definition rms (literal : string) : Double.Number :=
  Double.StringToNumber literal.

Lemma margin_literal : rms "0.01" = margin.
Proof. vm_compute. reflexivity. Qed.

Lemma margin_below : (Double.magnitude margin < Double.pow2 1024)%Q.
Proof. vm_compute. reflexivity. Qed.

Lemma louder_irrefl v : louderByMargin v v = false.
Proof. apply (DoubleFacts.exceeds_irrefl _ _ margin_below). Qed.

Lemma louder_asym m v : ahead m v -> within m v.
Proof. apply (DoubleFacts.exceeds_asym _ _ margin_below). Qed.

Lemma louder_trans a b c : ahead a b -> ahead b c -> ahead a c.
Proof. apply (DoubleFacts.exceeds_trans _ _ margin_below). Qed.

Lemma challenge_cases loudest view :
  challenge loudest view = Some view
  \/ exists l, loudest = Some l /\ challenge loudest view = Some l
               /\ within l view.
Proof.
  destruct loudest as [l|]; simpl; [|by left].
  destruct (louderByMargin view l) eqn:E; [by left|].
  right. by exists l.
Qed.

(** The running choice stays or gives way to a member ahead of it. *)
Lemma challenge_grows l view r :
  challenge (Some l) view = Some r -> r = l \/ ahead r l.
Proof.
  simpl. destruct (louderByMargin view l) eqn:E; intros [= <-];
    [by right | by left].
Qed.

Lemma fold_challenge_some views : forall loudest,
  (views <> [] \/ loudest <> None) ->
  exists r, fold_left challenge views loudest = Some r.
Proof.
  induction views as [|v rest IH]; intros loudest H; cbn [fold_left].
  - destruct H as [H|H]; [done|]. destruct loudest; [eauto|done].
  - apply IH. right.
    destruct (challenge_cases loudest v) as [->|(l & _ & -> & _)]; done.
Qed.

Lemma fold_challenge_grows views : forall l r,
  fold_left challenge views (Some l) = Some r -> r = l \/ ahead r l.
Proof.
  induction views as [|v rest IH]; intros l r; cbn [fold_left].
  - intros [= <-]. by left.
  - destruct (challenge (Some l) v) as [l'|] eqn:E.
    + intros H. apply IH in H. apply challenge_grows in E.
      destruct H as [->|H], E as [->|E]; auto.
      right. by apply (louder_trans r l' l).
    + simpl in E. destruct (louderByMargin v l); discriminate.
Qed.

(** A member that does not reach the running choice by the margin does not
    reach a later choice either. *)
Lemma within_carried l r v :
  within l v -> r = l \/ ahead r l -> within r v.
Proof.
  intros Hw [->|Ha]; [done|]. unfold within in *.
  destruct (louderByMargin v r) eqn:E; [|done].
  pose proof (louder_trans v r l E Ha) as Hv. unfold ahead in Hv. congruence.
Qed.

(** The result comes from the visited members or is the starting choice, and
    no visited member is ahead of it by the margin. *)
Lemma fold_challenge_result views : forall loudest r,
  fold_left challenge views loudest = Some r ->
  (In r views \/ loudest = Some r) /\ Forall (within r) views.
Proof.
  induction views as [|v rest IH]; intros loudest r; cbn [fold_left].
  - intros ->. split; [by right | constructor].
  - intros H. pose proof (IH _ _ H) as [Hin Hall].
    split.
    + destruct Hin as [Hin|Hin]; [by left; right|].
      destruct (challenge_cases loudest v) as [E|(l & El & E & _)];
        rewrite E in Hin; injection Hin as <-; [by left; left|by right].
    + constructor; [|exact Hall].
      destruct (challenge_cases loudest v) as [E|(l & El & E & Hw)];
        rewrite E in H; apply fold_challenge_grows in H.
      * destruct H as [->|H]; [apply louder_irrefl | by apply louder_asym].
      * by apply (within_carried l).
Qed.

(** An incumbent that no member reaches by the margin keeps its place. *)
Lemma fold_challenge_keeps views : forall p,
  Forall (within p) views ->
  fold_left challenge views (Some p) = Some p.
Proof.
  induction views as [|v rest IH]; intros p Hall; simpl; [done|].
  inversion Hall as [|? ? Hv Hrest]; subst.
  unfold within in Hv. rewrite Hv. by apply IH.
Qed.

(** A member ahead of every other one by the margin is chosen. *)
Lemma fold_challenge_dominant m views : forall loudest,
  Forall (fun v => v = m \/ ahead m v) views ->
  (loudest = None \/ loudest = Some m \/
   exists x, loudest = Some x /\ ahead m x) ->
  (In m views \/ loudest = Some m) ->
  fold_left challenge views loudest = Some m.
Proof.
  induction views as [|v rest IH]; intros loudest Hall Hl Hm;
    cbn [fold_left].
  - destruct Hm as [[]|Hm]. exact Hm.
  - inversion Hall as [|? ? Hv Hrest]; subst.
    apply IH; [exact Hrest| |].
    + destruct (challenge_cases loudest v) as [E|(l & El & E & Hw)];
        rewrite E.
      * destruct Hv as [->|Hv]; [by right; left|]. right; right; eauto.
      * rewrite El in Hl.
        destruct Hl as [Hl|[Hl|(x & Hl & Hx)]];
          [done | by right; left | right; right; eauto].
    + destruct Hm as [[Hm | Hin] | Hm]; subst.
      * right. destruct loudest as [l|]; simpl; [|done].
        destruct Hl as [Hl|[Hl|(x & Hl & Hx)]]; [done| |].
        -- injection Hl as ->. by destruct (louderByMargin _ _).
        -- injection Hl as <-. unfold ahead in Hx. by rewrite Hx.
      * by left.
      * right. simpl.
        destruct (louderByMargin v m) eqn:E; [|done].
        destruct Hv as [->|Hv]; [done|].
        apply louder_asym in Hv. unfold within in Hv. congruence.
Qed.

(** Member order decides between members that are not apart by the margin:
    a member ahead of the incumbent and of every member visited before it,
    which no member visited after it reaches by the margin, is the result. *)
Lemma fold_challenge_first before r after : forall loudest,
  Forall (ahead r) before ->
  (loudest = None \/ loudest = Some r \/
   exists x, loudest = Some x /\ ahead r x) ->
  Forall (within r) after ->
  fold_left challenge (before ++ r :: after) loudest = Some r.
Proof.
  induction before as [|v before IH]; intros loudest Hb Hl Ha.
  - cbn [app fold_left].
    assert (E : challenge loudest r = Some r).
    { destruct Hl as [->|[->|(x & -> & Hx)]]; simpl; [done| |].
      - by destruct (louderByMargin r r).
      - unfold ahead in Hx. by rewrite Hx. }
    rewrite E. by apply fold_challenge_keeps.
  - inversion Hb as [|? ? Hv Hrest]; subst.
    rewrite <- app_comm_cons. cbn [fold_left].
    apply IH; [exact Hrest| |exact Ha].
    destruct (challenge_cases loudest v) as [E|(l & El & E & Hw)]; rewrite E.
    + right; right; eauto.
    + rewrite El in Hl.
      destruct Hl as [Hl|[Hl|(x & Hl & Hx)]];
        [done | by right; left | right; right; eauto].
Qed.

Lemma remote_not_out cv r : In r (remoteViews cv) -> same r (outView cv) = false.
Proof.
  unfold remoteViews, Set_delete. intros H.
  apply List.filter_In in H as [_ H]. by apply negb_true_iff.
Qed.

Lemma incumbent_not_out cv r : incumbent cv = Some r -> same r (outView cv) = false.
Proof.
  unfold incumbent. destruct (_presenting cv) as [p|]; [|done].
  destruct (same p (outView cv)) eqn:E; [done|]. by intros [= <-].
Qed.

Lemma getMost_two_or_more cv :
  (2 <= length (remoteViews cv))%nat ->
  getMostPresentableMemberView cv
  = fold_left challenge (remoteViews cv) (incumbent cv).
Proof.
  unfold getMostPresentableMemberView.
  destruct (remoteViews cv) as [|v1 [|v2 rest]]; simpl; [lia|lia|done].
Qed.

(** Three views used to try the selector: the local one and two remote
    ones, all equally loud; the local one is presenting. *)
Definition localView : CallMemberView :=
  {| oid := 0; addr := "me.1"; soundRMS := rms "0.1"; isPinned := false |}.
Definition aliceView : CallMemberView :=
  {| oid := 1; addr := "alice.1"; soundRMS := rms "0.1"; isPinned := false |}.
Definition bobView : CallMemberView :=
  {| oid := 2; addr := "bob.1"; soundRMS := rms "0.1"; isPinned := false |}.
Definition quietCall : CallView :=
  {| outView := localView;
     getMemberViews := [localView; aliceView; bobView];
     _presenting := Some localView;
     _lastPresenterSwitch := None |}.

(** The same call with the two remote members in the other order. *)
Definition quietCallBobFirst : CallView :=
  {| outView := localView;
     getMemberViews := [localView; bobView; aliceView];
     _presenting := Some localView;
     _lastPresenterSwitch := None |}.

(** Remote members with loudness 0.10, 0.12 and 0.50. *)
Definition v010 : CallMemberView :=
  {| oid := 1; addr := "alice.1"; soundRMS := rms "0.10"; isPinned := false |}.
Definition v012 : CallMemberView :=
  {| oid := 2; addr := "bob.1"; soundRMS := rms "0.12"; isPinned := false |}.
Definition v050 : CallMemberView :=
  {| oid := 3; addr := "carol.1"; soundRMS := rms "0.50"; isPinned := false |}.
Definition loudCall : CallView :=
  {| outView := localView;
     getMemberViews := [localView; v010; v012; v050];
     _presenting := Some v010;
     _lastPresenterSwitch := None |}.

(** C6, as stated, fails: with two remote members, nobody pinned, all
    loudness values equal and the local member presenting, the previously
    selected member does not remain presenter; the first remote member is
    returned and [checkSoundLevels] switches to it. *)
Lemma local_presenter_does_not_remain :
  ~ (forall cv p now,
       (2 <= length (remoteViews cv))%nat ->
       _presenting cv = Some p -> isPinned p = false ->
       _lastPresenterSwitch cv = None ->
       (forall v w, In v (getMemberViews cv) -> In w (getMemberViews cv) ->
                    within v w) ->
       getMostPresentableMemberView cv = Some p
       /\ _presenting (checkSoundLevels cv now) = Some p).
Proof.
  intros H.
  destruct (H quietCall localView 0%Z) as [Hsel _];
    [simpl; lia | reflexivity | reflexivity | reflexivity | | ].
  - intros v w Hv Hw. simpl in Hv, Hw. unfold within.
    destruct Hv as [<-|[<-|[<-|[]]]], Hw as [<-|[<-|[<-|[]]]];
      vm_compute; reflexivity.
  - vm_compute in Hsel. discriminate.
Qed.

(** C6, amended.  With no remote member the local member is returned; with
    exactly one remote member, that member.  With two or more the result is
    never the local member, also when the local member is presenting: the
    incumbent is the presenter if it is not the local member, otherwise
    nobody, so that the first remote member in member order takes the place;
    each remote member in turn displaces the running choice when
    [view.soundRMS - loudest.soundRMS >= 0.01] holds in double arithmetic.
    The result is the incumbent or a remote member, and no remote member is
    louder than it by the margin; an incumbent that is not the local member
    and that no remote member beats by the margin remains; member order
    decides otherwise: a remote member ahead by the margin of the incumbent
    and of every remote member before it, which no remote member after it
    beats by the margin, is returned, so without an incumbent the first
    remote member is returned unless a later one beats it by the margin; a
    remote member ahead of all others by the margin is chosen, so with remote
    loudness 0.10, 0.12 and 0.50, in any member order and with any of them
    (or the local member, or nobody) presenting, the 0.50 member is
    returned. *)
Theorem presenter_selection (cv : CallView) :
  (remoteViews cv = [] ->
     getMostPresentableMemberView cv = Some (outView cv))
  /\ (forall v, remoteViews cv = [v] ->
        getMostPresentableMemberView cv = Some v)
  /\ ((2 <= length (remoteViews cv))%nat ->
      (exists r, getMostPresentableMemberView cv = Some r
                 /\ same r (outView cv) = false
                 /\ (In r (remoteViews cv) \/ incumbent cv = Some r)
                 /\ Forall (within r) (remoteViews cv))
      /\ (forall p, incumbent cv = Some p ->
            Forall (within p) (remoteViews cv) ->
            getMostPresentableMemberView cv = Some p)
      /\ (forall before r after,
            remoteViews cv = before ++ r :: after ->
            Forall (ahead r) before ->
            (incumbent cv = None \/ incumbent cv = Some r \/
             exists x, incumbent cv = Some x /\ ahead r x) ->
            Forall (within r) after ->
            getMostPresentableMemberView cv = Some r)
      /\ (forall first rest,
            remoteViews cv = first :: rest ->
            incumbent cv = None ->
            getMostPresentableMemberView cv
            = fold_left challenge rest (Some first)
            /\ (Forall (within first) rest ->
                getMostPresentableMemberView cv = Some first))
      /\ (forall m, In m (remoteViews cv) ->
            Forall (fun v => v = m \/ ahead m v) (remoteViews cv) ->
            (incumbent cv = None \/ incumbent cv = Some m \/
             exists x, incumbent cv = Some x /\ ahead m x) ->
            getMostPresentableMemberView cv = Some m)
      /\ (forall a b c,
            Permutation (remoteViews cv) [a; b; c] ->
            soundRMS a = rms "0.10" -> soundRMS b = rms "0.12" ->
            soundRMS c = rms "0.50" ->
            (incumbent cv = None \/ incumbent cv = Some a \/
             incumbent cv = Some b \/ incumbent cv = Some c) ->
            getMostPresentableMemberView cv = Some c)).
Proof.
  split; [|split].
  - unfold getMostPresentableMemberView. by intros ->.
  - unfold getMostPresentableMemberView. by intros v ->.
  - intros Htwo. rewrite (getMost_two_or_more _ Htwo).
    assert (Hdom : forall m, In m (remoteViews cv) ->
              Forall (fun v => v = m \/ ahead m v) (remoteViews cv) ->
              (incumbent cv = None \/ incumbent cv = Some m \/
               exists x, incumbent cv = Some x /\ ahead m x) ->
              fold_left challenge (remoteViews cv) (incumbent cv) = Some m).
    { intros m Hin Hall Hinc. apply fold_challenge_dominant; auto. }
    split; [|split; [|split; [|split; [|split]]]].
    + destruct (fold_challenge_some (remoteViews cv) (incumbent cv))
        as [r Hr].
      { left. intros E. rewrite E in Htwo. simpl in Htwo. lia. }
      exists r. split; [exact Hr|].
      destruct (fold_challenge_result _ _ _ Hr) as [Hfrom Hall].
      repeat split; auto.
      destruct Hfrom as [Hin|Hinc];
        [by apply remote_not_out | by apply incumbent_not_out].
    + intros p -> Hall. by apply fold_challenge_keeps.
    + intros before r after -> Hb Hinc Ha.
      by apply fold_challenge_first.
    + intros first rest -> ->. split; [done|].
      intros Hrest. cbn [fold_left challenge].
      by apply fold_challenge_keeps.
    + exact Hdom.
    + intros a b c Hperm Ha Hb Hc Hinc.
      assert (Hca : ahead c a).
      { unfold ahead, louderByMargin. rewrite Ha, Hc. vm_compute. reflexivity. }
      assert (Hcb : ahead c b).
      { unfold ahead, louderByMargin. rewrite Hb, Hc. vm_compute. reflexivity. }
      apply Hdom.
      * apply (Permutation_in c (Permutation_sym Hperm)). simpl. auto.
      * apply (Permutation_Forall (Permutation_sym Hperm)).
        constructor; [by right|].
        constructor; [by right|].
        constructor; [by left | constructor].
      * destruct Hinc as [Hi|[Hi|[Hi|Hi]]]; auto;
          right; right; eexists; (split; [exact Hi|]); done.
Qed.

Lemma presenter_selection_witness :
  getMostPresentableMemberView loudCall = Some v050
  /\ getMostPresentableMemberView quietCall = Some aliceView
  /\ getMostPresentableMemberView quietCallBobFirst = Some bobView.
Proof.
  split; [|split].
  - destruct (presenter_selection loudCall) as (_ & _ & H).
    destruct H as (_ & _ & _ & _ & _ & H); [simpl; lia|].
    apply (H v010 v012 v050); [reflexivity | reflexivity | reflexivity
                              | reflexivity | right; left; reflexivity].
  - destruct (presenter_selection quietCall) as (_ & _ & H).
    destruct H as (_ & _ & _ & H & _); [simpl; lia|].
    destruct (H aliceView [bobView]) as [_ Hfirst];
      [reflexivity | reflexivity |].
    apply Hfirst. repeat constructor.
  - destruct (presenter_selection quietCallBobFirst) as (_ & _ & H).
    destruct H as (_ & _ & _ & H & _); [simpl; lia|].
    destruct (H bobView [aliceView]) as [_ Hfirst];
      [reflexivity | reflexivity |].
    apply Hfirst. repeat constructor.
Defined.

End Presenter.

(** ** Track replacement: [replaceMembersOutTrack] *)

Module OutTrack.

Inductive Kind := audio | video.

Definition Kind_eqb (a b : Kind) : bool :=
  match a, b with
  | audio, audio | video, video => true
  | _, _ => false
  end.

Inductive Direction := sendrecv | sendonly | recvonly | inactive.

Record MediaStreamTrack := {
  trackId : nat;
  kind : Kind
}.

(** A transceiver: [receiverTrackKind] is the value of
    [t.receiver && t.receiver.track && t.receiver.track.kind], absent when
    one link of the chain is missing. *)
Record RTCRtpTransceiver := {
  stopped : bool;
  receiverTrackKind : option Kind;
  direction : Direction;
  senderTrack : option MediaStreamTrack
}.

(** [peer.getTransceivers()], [view.getPeers()], [memberViews.values()]. *)
Definition Peer := list RTCRtpTransceiver.
Definition MemberView := list Peer.
Definition MemberViews := list MemberView.

(** [!t.stopped && recvTrackKind === track.kind] *)
Definition matching (track : MediaStreamTrack) (t : RTCRtpTransceiver) : bool :=
  negb (stopped t) &&
  match receiverTrackKind t with
  | Some k => Kind_eqb k (kind track)
  | None => false
  end.

(** The body of the innermost loop; [replaceTrack] is taken to succeed. *)
Definition replaceOn (track : MediaStreamTrack) (t : RTCRtpTransceiver)
  : RTCRtpTransceiver :=
  if matching track t
  then {| stopped := stopped t;
          receiverTrackKind := receiverTrackKind t;
          direction := sendrecv;
          senderTrack := Some track |}
  else t.

(** The transceiver loop of one peer: the transceivers after it and the
    [replaced] flag. *)
Fixpoint replaceTransceivers (track : MediaStreamTrack) (ts : Peer)
    (replaced : bool) : Peer * bool :=
  match ts with
  | [] => ([], replaced)
  | t :: rest =>
      let '(rest', replaced') :=
        replaceTransceivers track rest (replaced || matching track t) in
      (replaceOn track t :: rest', replaced')
  end.

Inductive Outcome := Returned | Thrown (message : string).

(** The peer loop of one member view.  At a peer without a replacement the
    error is thrown: the peers after it are left as they were. *)
Fixpoint replacePeers (track : MediaStreamTrack) (peers : list Peer)
  : list Peer * Outcome :=
  match peers with
  | [] => ([], Returned)
  | peer :: rest =>
      let '(peer', replaced) := replaceTransceivers track peer false in
      if replaced then
        let '(rest', out) := replacePeers track rest in
        (peer' :: rest', out)
      else
        (peer' :: rest,
         Thrown "No transceivers found to replace sender track on")
  end.

Fixpoint replaceMembersOutTrack (track : MediaStreamTrack)
    (memberViews : MemberViews) : MemberViews * Outcome :=
  match memberViews with
  | [] => ([], Returned)
  | view :: rest =>
      match replacePeers track view with
      | (view', Returned) =>
          let '(rest', out) := replaceMembersOutTrack track rest in
          (view' :: rest', out)
      | (view', Thrown e) => (view' :: rest, Thrown e)
      end
  end.

(** All matching transceivers of all peers of all members. *)
Definition allMatching (track : MediaStreamTrack) (memberViews : MemberViews)
  : list RTCRtpTransceiver :=
  List.filter (matching track) (concat (concat memberViews)).

(** Some peer of some member has no matching transceiver. *)
Definition peerWithoutMatch (track : MediaStreamTrack)
    (memberViews : MemberViews) : bool :=
  existsb (existsb (fun peer => negb (existsb (matching track) peer)))
          memberViews.

Definition isThrown (o : Outcome) : bool :=
  match o with Thrown _ => true | Returned => false end.

Lemma replaceTransceivers_spec track ts : forall replaced,
  replaceTransceivers track ts replaced
  = (map (replaceOn track) ts, replaced || existsb (matching track) ts).
Proof.
  induction ts as [|t rest IH]; intros replaced; simpl.
  - by rewrite orb_false_r.
  - rewrite IH. by rewrite orb_assoc.
Qed.

Lemma replacePeers_spec track peers :
  let '(peers', out) := replacePeers track peers in
  isThrown out = existsb (fun peer => negb (existsb (matching track) peer)) peers
  /\ (out = Returned -> peers' = map (map (replaceOn track)) peers).
Proof.
  induction peers as [|peer rest IH]; simpl; [done|].
  rewrite replaceTransceivers_spec. simpl.
  destruct (existsb (matching track) peer) eqn:E; simpl.
  - destruct (replacePeers track rest) as [rest' out].
    destruct IH as [IH1 IH2]. split; [done|].
    intros Hout. by rewrite IH2.
  - split; [done|]. discriminate.
Qed.

Lemma replaceMembersOutTrack_spec track memberViews :
  let '(memberViews', out) := replaceMembersOutTrack track memberViews in
  isThrown out = peerWithoutMatch track memberViews
  /\ (out = Returned ->
      memberViews' = map (map (map (replaceOn track))) memberViews).
Proof.
  unfold peerWithoutMatch.
  induction memberViews as [|view rest IH]; simpl; [done|].
  pose proof (replacePeers_spec track view) as Hv.
  destruct (replacePeers track view) as [view' [|e]].
  - destruct Hv as [Hv1 Hv2]. rewrite <- Hv1. simpl.
    destruct (replaceMembersOutTrack track rest) as [rest' out].
    destruct IH as [IH1 IH2]. split; [done|].
    intros Hout. by rewrite IH2, Hv2.
  - destruct Hv as [Hv1 _]. rewrite <- Hv1. simpl. split; [done|].
    discriminate.
Qed.

(** Sample data: a camera track, a peer that receives video and one that
    only receives audio. *)
Definition camera : MediaStreamTrack := {| trackId := 7; kind := video |}.
Definition videoReceiver : RTCRtpTransceiver :=
  {| stopped := false; receiverTrackKind := Some video;
     direction := recvonly; senderTrack := None |}.
Definition audioReceiver : RTCRtpTransceiver :=
  {| stopped := false; receiverTrackKind := Some audio;
     direction := sendrecv; senderTrack := None |}.

(** C7, as stated, fails in both directions.  With a first peer that has a
    matching transceiver and a second one that has none, a match exists
    across all peers and yet the error is thrown (after the first peer's
    sender was replaced); with no peer at all (only the local member's
    view, before anybody joined) there is no match and nothing is thrown. *)
Lemma throws_per_peer_not_across_all_peers :
  (allMatching camera [[]; [[videoReceiver]; [audioReceiver]]] <> []
   /\ replaceMembersOutTrack camera [[]; [[videoReceiver]; [audioReceiver]]]
      = ([[]; [[replaceOn camera videoReceiver]; [audioReceiver]]],
         Thrown "No transceivers found to replace sender track on"))
  /\ (allMatching camera [[]] = []
      /\ replaceMembersOutTrack camera [[]] = ([[]], Returned)).
Proof. repeat split; discriminate. Qed.

(** C7, amended.  The error is raised exactly when some peer of some member
    has no matching transceiver (not stopped, receiver track of the new
    track's kind).  When every peer has one, which includes the case of no
    peer at all, nothing is raised, every matching transceiver of every peer
    has the new track as its sender track and the direction send-receive,
    and the other transceivers are untouched. *)
Theorem replaceMembersOutTrack_throws_iff_peer_without_match
    (track : MediaStreamTrack) (memberViews : MemberViews) :
  (isThrown (replaceMembersOutTrack track memberViews).2 = true
     <-> exists view peer, In view memberViews /\ In peer view
                           /\ Forall (fun t => matching track t = false) peer)
  /\ (isThrown (replaceMembersOutTrack track memberViews).2 = false ->
      (replaceMembersOutTrack track memberViews).1
        = map (map (map (replaceOn track))) memberViews
      /\ (forall t, matching track t = true ->
            direction (replaceOn track t) = sendrecv
            /\ senderTrack (replaceOn track t) = Some track)
      /\ (forall t, matching track t = false -> replaceOn track t = t)).
Proof.
  pose proof (replaceMembersOutTrack_spec track memberViews) as H.
  destruct (replaceMembersOutTrack track memberViews) as [mv' out].
  destruct H as [Hthrown Hret]. simpl. rewrite Hthrown. split.
  - unfold peerWithoutMatch. rewrite existsb_exists. split.
    + intros (view & Hview & Hex). apply existsb_exists in Hex
        as (peer & Hpeer & Hnone).
      exists view, peer. repeat split; auto.
      apply negb_true_iff in Hnone.
      apply List.Forall_forall. intros t Ht.
      destruct (matching track t) eqn:E; [|done].
      assert (existsb (matching track) peer = true)
        by (apply existsb_exists; eauto). congruence.
    + intros (view & peer & Hview & Hpeer & Hnone).
      exists view. split; [done|]. apply existsb_exists.
      exists peer. split; [done|]. apply negb_true_iff.
      destruct (existsb (matching track) peer) eqn:E; [|done].
      apply existsb_exists in E as (t & Ht & Hm).
      rewrite List.Forall_forall in Hnone. specialize (Hnone t Ht).
      congruence.
  - intros Hno. split; [|split].
    + apply Hret. destruct out; [done|]. simpl in Hthrown. congruence.
    + intros t Ht. unfold replaceOn. by rewrite Ht.
    + intros t Ht. unfold replaceOn. by rewrite Ht.
Qed.

Lemma replaceMembersOutTrack_throws_iff_peer_without_match_witness :
  (replaceMembersOutTrack camera [[]; [[videoReceiver; audioReceiver]]]).1
  = [[]; [[replaceOn camera videoReceiver; audioReceiver]]].
Proof.
  destruct (replaceMembersOutTrack_throws_iff_peer_without_match
              camera [[]; [[videoReceiver; audioReceiver]]]) as [_ H].
  destruct H as [H _]; [reflexivity|]. exact H.
Defined.

End OutTrack.

(** ** CallSession: [join] and [setJoined] *)

Module Join.

Inductive Kind := audio | video.

Record MediaStreamTrack := {
  trackId : nat;
  kind : Kind;
  enabled : bool
}.

Definition isVideo (t : MediaStreamTrack) : bool :=
  match kind t with video => true | audio => false end.

(** What the call view does to the outside, in the order it does it. *)
Inductive Effect :=
| LogWarn (message : string)
| RemoveTrack (t : MediaStreamTrack)      (* outStream.removeTrack(t) *)
| StopTrack (t : MediaStreamTrack)        (* t.stop() *)
| UpdateOutView (tracks : list MediaStreamTrack)
| SendJoin (type : option string)         (* manager.sendJoin({type}) *)
| ClearIncoming.

Record CallView := {
  _joining : bool;
  joinType : option string;
  classAudioOnly : bool;                  (* $el has class audio-only *)
  classJoined : bool;                     (* $el has class joined *)
  _joined : option Z;
  outStream : list MediaStreamTrack;
  effects : list Effect                   (* oldest first *)
}.

Definition isJoined (cv : CallView) : bool := classJoined cv.

Definition emit (e : list Effect) (cv : CallView) : CallView :=
  {| _joining := _joining cv; joinType := joinType cv;
     classAudioOnly := classAudioOnly cv; classJoined := classJoined cv;
     _joined := _joined cv; outStream := outStream cv;
     effects := effects cv ++ e |}.

Definition set_joining (b : bool) (cv : CallView) : CallView :=
  {| _joining := b; joinType := joinType cv;
     classAudioOnly := classAudioOnly cv; classJoined := classJoined cv;
     _joined := _joined cv; outStream := outStream cv;
     effects := effects cv |}.

(** [this._joined = this._joined || Date.now()] *)
Definition orNow (v : option Z) (now : Z) : option Z :=
  match v with
  | Some t => if (t =? 0)%Z then Some now else Some t
  | None => Some now
  end.

(** [setJoined(true)] *)
Definition setJoined_true (now : Z) (cv : CallView) : CallView :=
  {| _joining := _joining cv; joinType := joinType cv;
     classAudioOnly := classAudioOnly cv; classJoined := true;
     _joined := orNow (_joined cv) now; outStream := outStream cv;
     effects := effects cv ++ [ClearIncoming] |}.

(** The loop over [outStream.getVideoTracks()]: each video track leaves the
    stream and is stopped. *)
Fixpoint stripVideo (videoTracks : list MediaStreamTrack) (cv : CallView)
  : CallView :=
  match videoTracks with
  | [] => cv
  | t :: rest =>
      let cv1 :=
        {| _joining := _joining cv; joinType := joinType cv;
           classAudioOnly := classAudioOnly cv; classJoined := classJoined cv;
           _joined := _joined cv;
           outStream := List.filter
                          (fun x => negb (Nat.eqb (trackId x) (trackId t)))
                          (outStream cv);
           effects := effects cv ++ [RemoveTrack t; StopTrack t] |} in
      stripVideo rest cv1
  end.

(** [type || 'video'] *)
Definition orVideo (type : option string) : string :=
  match type with
  | Some s => if String.eqb s "" then "video" else s
  | None => "video"
  end.

Definition isAudioType (type : option string) : bool :=
  match type with
  | Some s => String.eqb s "audio"
  | None => false
  end.

(** How a call of [join] stands after its synchronous part. *)
Inductive Progress :=
| Ignored                       (* returned at once: already joining *)
| AwaitingSend.                 (* suspended at [await sendJoin] *)

(** [join(options)] up to and including the call of [manager.sendJoin]. *)
Definition join_begin (type : option string) (cv : CallView)
  : CallView * Progress :=
  if _joining cv then
    (emit [LogWarn "Ignoring join request: already joining"] cv, Ignored)
  else
    let cv1 := set_joining true cv in
    let cv2 :=
      {| _joining := _joining cv1; joinType := Some (orVideo type);
         classAudioOnly := classAudioOnly cv1; classJoined := classJoined cv1;
         _joined := _joined cv1; outStream := outStream cv1;
         effects := effects cv1 |} in
    let cv3 :=
      if isAudioType type then
        let cv' :=
          {| _joining := _joining cv2; joinType := joinType cv2;
             classAudioOnly := true; classJoined := classJoined cv2;
             _joined := _joined cv2; outStream := outStream cv2;
             effects := effects cv2 |} in
        let cv'' := stripVideo (List.filter isVideo (outStream cv')) cv' in
        emit [UpdateOutView (outStream cv'')] cv''
      else cv2 in
    (emit [SendJoin type] cv3, AwaitingSend).

Inductive SendResult := Sent | SendFailed.

Inductive Outcome := Returned | Thrown.

(** The rest of [join] once the send has settled: the [try] body continues
    on success, and [finally] runs in both cases. *)
Definition join_resume (r : SendResult) (now : Z) (cv : CallView)
  : CallView * Outcome :=
  match r with
  | Sent => (set_joining false (setJoined_true now cv), Returned)
  | SendFailed => (set_joining false cv, Thrown)
  end.

(** A whole call of [join] with nothing else running while it waits. *)
Definition join (type : option string) (r : SendResult) (now : Z)
    (cv : CallView) : CallView * Outcome :=
  match join_begin type cv with
  | (cv1, Ignored) => (cv1, Returned)
  | (cv1, AwaitingSend) => join_resume r now cv1
  end.

Definition isSend (e : Effect) : bool :=
  match e with SendJoin _ => true | _ => false end.

Lemma stripVideo_spec vts : forall cv,
  _joining (stripVideo vts cv) = _joining cv
  /\ joinType (stripVideo vts cv) = joinType cv
  /\ classAudioOnly (stripVideo vts cv) = classAudioOnly cv
  /\ classJoined (stripVideo vts cv) = classJoined cv
  /\ _joined (stripVideo vts cv) = _joined cv
  /\ outStream (stripVideo vts cv)
     = List.filter (fun x => negb (existsb (fun t => Nat.eqb (trackId x) (trackId t)) vts))
                   (outStream cv)
  /\ effects (stripVideo vts cv)
     = effects cv ++ flat_map (fun t => [RemoveTrack t; StopTrack t]) vts.
Proof.
  induction vts as [|t rest IH]; intros cv; simpl.
  - repeat split; auto.
    + induction (outStream cv) as [|x l IHl]; simpl; [done|]. by f_equal.
    + by rewrite app_nil_r.
  - destruct (IH
      {| _joining := _joining cv; joinType := joinType cv;
         classAudioOnly := classAudioOnly cv; classJoined := classJoined cv;
         _joined := _joined cv;
         outStream := List.filter
                        (fun x => negb (Nat.eqb (trackId x) (trackId t)))
                        (outStream cv);
         effects := effects cv ++ [RemoveTrack t; StopTrack t] |})
      as (H1 & H2 & H3 & H4 & H5 & H6 & H7); simpl in *.
    repeat split; auto.
    + rewrite H6. clear.
      induction (outStream cv) as [|x l IHl]; simpl; [done|].
      destruct (Nat.eqb (trackId x) (trackId t)); simpl; [done|].
      destruct (existsb _ rest); simpl; [done|]. by f_equal.
    + rewrite H7. by rewrite <- app_assoc.
Qed.

Lemma strip_leaves_no_video (l : list MediaStreamTrack) :
  Forall (fun x => isVideo x = false)
    (List.filter
       (fun x => negb (existsb (fun t => Nat.eqb (trackId x) (trackId t))
                         (List.filter isVideo l))) l).
Proof.
  apply List.Forall_forall. intros x Hx.
  apply List.filter_In in Hx as [Hin Hkeep].
  destruct (isVideo x) eqn:E; [|done].
  apply negb_true_iff in Hkeep.
  assert (existsb (fun t => Nat.eqb (trackId x) (trackId t))
            (List.filter isVideo l) = true).
  { apply existsb_exists. exists x. split.
    - by apply List.filter_In.
    - apply Nat.eqb_refl. }
  congruence.
Qed.

Lemma strip_keeps_audio (l : list MediaStreamTrack) :
  NoDup (map trackId l) ->
  List.filter
    (fun x => negb (existsb (fun t => Nat.eqb (trackId x) (trackId t))
                      (List.filter isVideo l))) l
  = List.filter (fun x => negb (isVideo x)) l.
Proof.
  intros Hnd. apply List.filter_ext_in. intros x Hx. f_equal.
  destruct (isVideo x) eqn:E.
  - apply existsb_exists. exists x. split.
    + by apply List.filter_In.
    + apply Nat.eqb_refl.
  - destruct (existsb _ _) eqn:Ex; [|done].
    apply existsb_exists in Ex as (t & Ht & Hid).
    apply List.filter_In in Ht as [Ht Hv]. apply Nat.eqb_eq in Hid.
    assert (x = t); [|congruence].
    clear -Hnd Hx Ht Hid. induction l as [|y l IH]; [done|].
    simpl in Hnd. apply NoDup_cons in Hnd as [Hy Hnd].
    destruct Hx as [->|Hx], Ht as [->|Ht]; auto.
    + exfalso. apply Hy. rewrite Hid. apply list_elem_of_In.
      by apply in_map.
    + exfalso. apply Hy. rewrite <- Hid. apply list_elem_of_In.
      by apply in_map.
Qed.

Lemma strip_effects_no_send (l : list MediaStreamTrack) :
  forallb (fun e => negb (isSend e))
    (flat_map (fun t => [RemoveTrack t; StopTrack t]) l) = true.
Proof. induction l as [|t l IH]; simpl; auto. Qed.

(** A call that is joining, with a camera and a microphone. *)
Definition mic : MediaStreamTrack :=
  {| trackId := 1; kind := audio; enabled := true |}.
Definition cam : MediaStreamTrack :=
  {| trackId := 2; kind := video; enabled := true |}.
Definition idleCall : CallView :=
  {| _joining := false; joinType := None; classAudioOnly := false;
     classJoined := false; _joined := None; outStream := [mic; cam];
     effects := [] |}.
Definition busyCall : CallView := set_joining true idleCall.

(** C8.  While a join is in progress a second [join] returns at once: it
    sends nothing and changes nothing (it only logs a warning).  Otherwise
    the call sets the joining flag, and, for an audio-only join, first takes
    every video track out of the outgoing stream and stops it; then it sends
    the join announcement, the session not being marked joined by then.
    When the send settles, in whatever state the call view is by then, the
    joining flag is cleared in both cases; the session is marked joined
    only on success, hence after the announcement was sent, and on failure
    the error propagates with the joined state untouched. *)
Theorem join_guarded_and_flag_cleared
    (type : option string) (now : Z) (cv : CallView) :
  (_joining cv = true ->
     join_begin type cv
     = (emit [LogWarn "Ignoring join request: already joining"] cv, Ignored)
     /\ forall r, join type r now cv
        = (emit [LogWarn "Ignoring join request: already joining"] cv,
           Returned))
  /\ (_joining cv = false ->
      exists cv1 strip,
        join_begin type cv = (cv1, AwaitingSend)
        /\ _joining cv1 = true
        /\ classJoined cv1 = classJoined cv /\ _joined cv1 = _joined cv
        /\ effects cv1 = effects cv ++ strip ++ [SendJoin type]
        /\ forallb (fun e => negb (isSend e)) strip = true
        /\ (isAudioType type = false ->
              strip = [] /\ outStream cv1 = outStream cv)
        /\ (isAudioType type = true ->
              strip = flat_map (fun t => [RemoveTrack t; StopTrack t])
                        (List.filter isVideo (outStream cv))
                      ++ [UpdateOutView (outStream cv1)]
              /\ Forall (fun x => isVideo x = false) (outStream cv1)
              /\ (NoDup (map trackId (outStream cv)) ->
                  outStream cv1
                  = List.filter (fun x => negb (isVideo x)) (outStream cv))))
  /\ (forall waking r,
        _joining (join_resume r now waking).1 = false
        /\ (r = Sent ->
              (join_resume r now waking).2 = Returned
              /\ classJoined (join_resume r now waking).1 = true
              /\ effects (join_resume r now waking).1
                 = effects waking ++ [ClearIncoming])
        /\ (r = SendFailed ->
              (join_resume r now waking).2 = Thrown
              /\ classJoined (join_resume r now waking).1 = classJoined waking
              /\ _joined (join_resume r now waking).1 = _joined waking
              /\ effects (join_resume r now waking).1 = effects waking)).
Proof.
  split; [|split].
  - intros Hj. unfold join, join_begin. rewrite Hj. auto.
  - intros Hj. unfold join_begin. rewrite Hj.
    destruct (isAudioType type) eqn:Ea.
    + destruct (stripVideo_spec (List.filter isVideo (outStream cv))
        {| _joining := true; joinType := Some (orVideo type);
           classAudioOnly := true; classJoined := classJoined cv;
           _joined := _joined cv; outStream := outStream cv;
           effects := effects cv |})
        as (H1 & H2 & H3 & H4 & H5 & H6 & H7).
      simpl in *. eexists.
      exists (flat_map (fun t => [RemoveTrack t; StopTrack t])
                (List.filter isVideo (outStream cv))
              ++ [UpdateOutView
                    (List.filter
                       (fun x => negb (existsb
                          (fun t => Nat.eqb (trackId x) (trackId t))
                          (List.filter isVideo (outStream cv))))
                       (outStream cv))]).
      split; [reflexivity|]. simpl.
      rewrite H1, H4, H5, H6, H7.
      split; [done|]. split; [done|]. split; [done|].
      split; [by rewrite <- !app_assoc|].
      split.
      { rewrite forallb_app. simpl. rewrite andb_true_r.
        apply strip_effects_no_send. }
      split; [discriminate|]. intros _.
      split; [done|].
      split; [apply strip_leaves_no_video | apply strip_keeps_audio].
    + eexists. exists []. split; [reflexivity|]. simpl.
      split; [done|]. split; [done|]. split; [done|]. split; [done|].
      split; [done|]. split; [done|]. discriminate.
  - intros waking r. destruct r; simpl; repeat split; auto; discriminate.
Qed.

Lemma join_guarded_and_flag_cleared_witness :
  join_begin (Some "audio") busyCall
  = (emit [LogWarn "Ignoring join request: already joining"] busyCall,
     Ignored).
Proof.
  destruct (join_guarded_and_flag_cleared (Some "audio") 1000 busyCall)
    as [H _].
  destruct H as [H _]; [reflexivity|]. exact H.
Defined.

(** A second [join] arriving while the first waits for its send: it is
    ignored, and the first one completes and clears the flag. *)
Example join_twice :
  let '(cv1, p1) := join_begin (Some "video") idleCall in
  let '(cv2, p2) := join_begin (Some "audio") cv1 in
  p1 = AwaitingSend
  /\ p2 = Ignored
  /\ cv2 = emit [LogWarn "Ignoring join request: already joining"] cv1
  /\ _joining (join_resume Sent 1000 cv2).1 = false
  /\ classJoined (join_resume Sent 1000 cv2).1 = true.
Proof. repeat split. Qed.

(** An audio-only join of the idle call, sent successfully at time 1000. *)
Example join_audio_only :
  join (Some "audio") Sent 1000 idleCall
  = ({| _joining := false; joinType := Some "audio";
        classAudioOnly := true; classJoined := true; _joined := Some 1000%Z;
        outStream := [mic];
        effects := [RemoveTrack cam; StopTrack cam; UpdateOutView [mic];
                    SendJoin (Some "audio"); ClearIncoming] |},
     Returned).
Proof. reflexivity. Qed.

End Join.

(** ** MemberConnection: [removePeer], [removeStream], [unbindPeer] and the
       operations that remove links *)

Module Member.

(** Peer connections, media streams and tracks are objects; a reference is
    the object's identity. *)
Definition PeerRef := nat.
Definition StreamRef := nat.
Definition TrackRef := nat.

(** What the member view reads and writes of a peer connection object. *)
Record PeerConn := {
  connected : bool;                  (* isConnected() *)
  _viewListeners : bool;             (* listeners of bindPeer are bound *)
  receiverTracks : list TrackRef;    (* getReceivers() and their tracks *)
  closed : bool
}.

(** Calls to the outside, in order.  The removal of the map entry and the
    closing of the connection note which link was the streaming one and
    which stream was rendered at that very moment. *)
Inductive Event :=
| LogError_alreadyRemoved (p : PeerRef)
| LogWarn_stale (p : PeerRef)
| LogWarn_redundant (p : PeerRef)
| Trigger_streaming (on : bool)
| Trigger_audioonly (on : bool)
| Trigger_streamupdate (s : option StreamRef)
| SoundMeter_disconnect
| RemoveListeners (p : PeerRef)
| PeersDelete (id : string) (p : PeerRef) (streamingThen : option PeerRef)
| TrackStop (t : TrackRef)
| PeerClose (p : PeerRef) (streamingThen : option PeerRef)
            (streamThen : option StreamRef).

Record CallMemberView := {
  outgoing : bool;
  _peers : list (string * PeerRef);      (* a Map, in insertion order *)
  streamingPeer : option PeerRef;
  stream : option StreamRef;
  classStreaming : bool;                 (* $el has class streaming *)
  classAudioOnly : bool;                 (* $el has class audio-only *)
  soundMeter : option StreamRef;
  soundRMS : Q;
  soundDBV : Z;
  streamChanged : Z;
  videoEl : option (option StreamRef);   (* the element's srcObject, once rendered *)
  peerObjects : gmap PeerRef PeerConn;   (* the peer connection objects *)
  log : list Event                       (* oldest first *)
}.

Definition isStreaming (v : CallMemberView) : bool := classStreaming v.
Definition isAudioOnly (v : CallMemberView) : bool := classAudioOnly v.

Definition getPeers (v : CallMemberView) : list PeerRef := map snd (_peers v).

Definition sameRef (a : option PeerRef) (p : PeerRef) : bool :=
  match a with
  | Some q => Nat.eqb q p
  | None => false
  end.

(** Truthiness of an object reference that may be [null] or [undefined]. *)
Definition defined {A} (o : option A) : bool :=
  match o with
  | Some _ => true
  | None => false
  end.

Definition emit (e : list Event) (v : CallMemberView) : CallMemberView :=
  {| outgoing := outgoing v; _peers := _peers v;
     streamingPeer := streamingPeer v; stream := stream v;
     classStreaming := classStreaming v; classAudioOnly := classAudioOnly v;
     soundMeter := soundMeter v; soundRMS := soundRMS v;
     soundDBV := soundDBV v; streamChanged := streamChanged v;
     videoEl := videoEl v; peerObjects := peerObjects v;
     log := log v ++ e |}.

(** [removeStream()] at time [now]: each field is given the value the
    statements leave in it. *)
Definition removeStream (now : Z) (v : CallMemberView) : CallMemberView :=
  {| outgoing := outgoing v; _peers := _peers v;
     streamingPeer := None;
     stream := None;
     classStreaming := false;
     classAudioOnly := false;
     soundMeter := None;
     soundRMS := if defined (soundMeter v) then (-1)%Q else soundRMS v;
     soundDBV := if defined (soundMeter v) then (-100)%Z else soundDBV v;
     streamChanged := if defined (stream v) then now else streamChanged v;
     videoEl := match videoEl v with
                | Some _ => Some None
                | None => None
                end;
     peerObjects := peerObjects v;
     log := log v
            ++ (if isStreaming v then [Trigger_streaming false] else [])
            ++ (if isAudioOnly v then [Trigger_audioonly false] else [])
            ++ (if defined (soundMeter v) then [SoundMeter_disconnect] else [])
            ++ [Trigger_streamupdate None] |}.

Definition setPeerObjects (h : gmap PeerRef PeerConn) (e : list Event)
    (v : CallMemberView) : CallMemberView :=
  {| outgoing := outgoing v; _peers := _peers v;
     streamingPeer := streamingPeer v; stream := stream v;
     classStreaming := classStreaming v; classAudioOnly := classAudioOnly v;
     soundMeter := soundMeter v; soundRMS := soundRMS v;
     soundDBV := soundDBV v; streamChanged := streamChanged v;
     videoEl := videoEl v; peerObjects := h;
     log := log v ++ e |}.

Definition hasListeners (v : CallMemberView) (p : PeerRef) : bool :=
  match peerObjects v !! p with
  | Some o => _viewListeners o
  | None => false
  end.

(** [unbindPeer(peer)] *)
Definition unbindPeer (p : PeerRef) (v : CallMemberView) : CallMemberView :=
  if negb (hasListeners v p) then v
  else
    setPeerObjects
      (alter (fun o => {| connected := connected o; _viewListeners := false;
                          receiverTracks := receiverTracks o;
                          closed := closed o |}) p (peerObjects v))
      [RemoveListeners p] v.

(** [this._peers.delete(id)] *)
Definition peersDelete (id : string) (p : PeerRef) (v : CallMemberView)
  : CallMemberView :=
  {| outgoing := outgoing v;
     _peers := List.filter (fun e => negb (String.eqb e.1 id)) (_peers v);
     streamingPeer := streamingPeer v; stream := stream v;
     classStreaming := classStreaming v; classAudioOnly := classAudioOnly v;
     soundMeter := soundMeter v; soundRMS := soundRMS v;
     soundDBV := soundDBV v; streamChanged := streamChanged v;
     videoEl := videoEl v; peerObjects := peerObjects v;
     log := log v ++ [PeersDelete id p (streamingPeer v)] |}.

Definition receiversOf (v : CallMemberView) (p : PeerRef) : list TrackRef :=
  match peerObjects v !! p with
  | Some o => receiverTracks o
  | None => []
  end.

(** [for (const x of peer.getReceivers()) x.track.stop(); peer.close()] *)
Definition stopAndClose (p : PeerRef) (v : CallMemberView) : CallMemberView :=
  setPeerObjects
    (alter (fun o => {| connected := connected o;
                        _viewListeners := _viewListeners o;
                        receiverTracks := receiverTracks o;
                        closed := true |}) p (peerObjects v))
    (map TrackStop (receiversOf v p)
     ++ [PeerClose p (streamingPeer v) (stream v)]) v.

(** [removePeer(peer)] at time [now]. *)
Definition removePeer (p : PeerRef) (now : Z) (v : CallMemberView)
  : CallMemberView :=
  let entries := _peers v in
  match List.find (fun e => Nat.eqb e.2 p) entries with
  | None => emit [LogError_alreadyRemoved p] v
  | Some entry =>
      let v1 := if sameRef (streamingPeer v) p then removeStream now v else v in
      let v2 := unbindPeer p v1 in
      let id := entry.1 in
      let v3 := peersDelete id p v2 in
      stopAndClose p v3
  end.

Definition isConnected (v : CallMemberView) (p : PeerRef) : bool :=
  match peerObjects v !! p with
  | Some o => connected o
  | None => false
  end.

(** The action [peerCheck] schedules for a stale link. *)
Definition reapStale (p : PeerRef) (now : Z) (v : CallMemberView)
  : CallMemberView :=
  if negb (isConnected v p)
  then removePeer p now (emit [LogWarn_stale p] v)
  else v.

(** The action [peerCheck] schedules for a redundant connected link. *)
Definition reapRedundant (p : PeerRef) (now : Z) (v : CallMemberView)
  : CallMemberView :=
  if negb (sameRef (streamingPeer v) p)
  then removePeer p now (emit [LogWarn_redundant p] v)
  else v.

(** [remove()]: member removal closes every link of a remote member. *)
Definition remove (now : Z) (v : CallMemberView) : CallMemberView :=
  if negb (outgoing v)
  then fold_left (fun acc x => removePeer x now acc) (getPeers v) v
  else v.

(** A link is taken out of the map, or closed, only when it is not the
    streaming link at that moment. *)
Definition clearedFirst (e : Event) : Prop :=
  match e with
  | PeersDelete _ p streamingThen => streamingThen <> Some p
  | PeerClose p streamingThen _ => streamingThen <> Some p
  | _ => True
  end.

Lemma unbindPeer_view p v :
  _peers (unbindPeer p v) = _peers v
  /\ streamingPeer (unbindPeer p v) = streamingPeer v
  /\ stream (unbindPeer p v) = stream v
  /\ classStreaming (unbindPeer p v) = classStreaming v
  /\ videoEl (unbindPeer p v) = videoEl v
  /\ receiversOf (unbindPeer p v) p = receiversOf v p
  /\ log (unbindPeer p v)
     = log v ++ (if hasListeners v p then [RemoveListeners p] else []).
Proof.
  unfold unbindPeer. destruct (hasListeners v p) eqn:E; simpl.
  - repeat split; auto. unfold receiversOf. simpl.
    rewrite lookup_alter_eq. by destruct (peerObjects v !! p).
  - repeat split; auto. by rewrite app_nil_r.
Qed.

(** What [removePeer] adds to the log when the link is registered. *)
Lemma removePeer_registered p now v entry :
  List.find (fun e => Nat.eqb e.2 p) (_peers v) = Some entry ->
  let v1 := if sameRef (streamingPeer v) p then removeStream now v else v in
  streamingPeer (removePeer p now v) = streamingPeer v1
  /\ stream (removePeer p now v) = stream v1
  /\ classStreaming (removePeer p now v) = classStreaming v1
  /\ videoEl (removePeer p now v) = videoEl v1
  /\ _peers (removePeer p now v)
     = List.filter (fun e => negb (String.eqb e.1 entry.1)) (_peers v)
  /\ log (removePeer p now v)
     = log v1
       ++ (if hasListeners v p then [RemoveListeners p] else [])
       ++ [PeersDelete entry.1 p (streamingPeer v1)]
       ++ map TrackStop (receiversOf v p)
       ++ [PeerClose p (streamingPeer v1) (stream v1)].
Proof.
  intros Hfind. unfold removePeer. rewrite Hfind. simpl.
  set (v1 := if sameRef (streamingPeer v) p then removeStream now v else v).
  destruct (unbindPeer_view p v1) as (U1 & U2 & U3 & U4 & U5 & U6 & U7).
  assert (Hsame : hasListeners v1 p = hasListeners v p
                  /\ receiversOf v1 p = receiversOf v p
                  /\ _peers v1 = _peers v).
  { unfold v1. destruct (sameRef (streamingPeer v) p); auto. }
  destruct Hsame as (S1 & S2 & S3).
  unfold stopAndClose, peersDelete, receiversOf in *. simpl.
  rewrite U1, U2, U3, U4, U5, U7, S1, S3.
  repeat split; auto.
  unfold receiversOf in U6. rewrite U6, S2. by rewrite <- !app_assoc.
Qed.

Lemma sameRef_false a p : sameRef a p = false -> a <> Some p.
Proof.
  destruct a as [q|]; simpl; [|done].
  intros H [= ->]. by rewrite Nat.eqb_refl in H.
Qed.

Lemma trackStops_cleared_first (l : list TrackRef) :
  Forall clearedFirst (map TrackStop l).
Proof. induction l; simpl; constructor; simpl; auto. Qed.

(** Splits a log built with [++], [::] and conditionals into its events. *)
Ltac cleared :=
  repeat match goal with
    | |- Forall _ (map TrackStop _) => apply trackStops_cleared_first
    | |- Forall _ (_ ++ _) => apply Forall_app; split
    | |- Forall _ (_ :: _) => constructor
    | |- Forall _ [] => constructor
    | |- Forall _ (if ?c then _ else _) => destruct c
    end; simpl; auto; try discriminate.

Lemma removePeer_cleared_first p now v :
  Forall clearedFirst (log v) ->
  Forall clearedFirst (log (removePeer p now v)).
Proof.
  intros Hlog.
  destruct (List.find (fun e => Nat.eqb e.2 p) (_peers v)) as [entry|] eqn:Hf.
  - destruct (removePeer_registered p now v entry Hf)
      as (_ & _ & _ & _ & _ & ->).
    destruct (sameRef (streamingPeer v) p) eqn:Es.
    + simpl. cleared.
    + apply sameRef_false in Es. cleared.
  - unfold removePeer. rewrite Hf. simpl. cleared.
Qed.

(** A member with a streaming link "p1" (object 11) and a second connected
    link "p2" (object 12). *)
Definition liveLink : PeerConn :=
  {| connected := true; _viewListeners := true; receiverTracks := [31%nat; 32%nat];
     closed := false |}.
Definition member2 : CallMemberView :=
  {| outgoing := false; _peers := [("p1"%string, 11%nat); ("p2"%string, 12%nat)];
     streamingPeer := Some 11%nat; stream := Some 5%nat;
     classStreaming := true; classAudioOnly := false;
     soundMeter := Some 5%nat; soundRMS := 1 # 4; soundDBV := (-20)%Z;
     streamChanged := 100%Z; videoEl := Some (Some 5%nat);
     peerObjects := {[ 11%nat := liveLink; 12%nat := liveLink ]};
     log := [] |}.

(** C9.  [removePeer] on the registered streaming link first clears the
    rendered stream and the streaming binding ([removeStream], ending with
    the stream-update notification), and only then unbinds the listeners,
    takes the link out of the map, stops its receivers and closes it;
    afterwards the member has no stream, no streaming link and nothing
    rendered.  Every operation that removes links (reaping a stale link,
    reaping a redundant link, removing the member) goes through [removePeer]
    and therefore never takes out or closes a link that is the streaming
    link at that moment. *)
Theorem streaming_link_cleared_before_removal
    (p : PeerRef) (now : Z) (v : CallMemberView) :
  (forall entry,
     List.find (fun e => Nat.eqb e.2 p) (_peers v) = Some entry ->
     streamingPeer v = Some p ->
     streamingPeer (removePeer p now v) = None
     /\ stream (removePeer p now v) = None
     /\ isStreaming (removePeer p now v) = false
     /\ videoEl (removePeer p now v)
        = match videoEl v with Some _ => Some None | None => None end
     /\ log (removePeer p now v)
        = log (removeStream now v)
          ++ (if hasListeners v p then [RemoveListeners p] else [])
          ++ [PeersDelete entry.1 p None]
          ++ map TrackStop (receiversOf v p)
          ++ [PeerClose p None None]
     /\ exists before, log (removeStream now v)
                       = log v ++ before ++ [Trigger_streamupdate None])
  /\ (Forall clearedFirst (log v) ->
      Forall clearedFirst (log (removePeer p now v))
      /\ Forall clearedFirst (log (reapStale p now v))
      /\ Forall clearedFirst (log (reapRedundant p now v))
      /\ Forall clearedFirst (log (remove now v))).
Proof.
  split.
  - intros entry Hfind Hstream.
    destruct (removePeer_registered p now v entry Hfind)
      as (R1 & R2 & R3 & R4 & _ & R6).
    assert (Es : sameRef (streamingPeer v) p = true)
      by (rewrite Hstream; simpl; apply Nat.eqb_refl).
    rewrite Es in *. unfold isStreaming.
    rewrite R1, R2, R3, R4, R6. simpl. repeat split; auto.
    exists ((if isStreaming v then [Trigger_streaming false] else [])
            ++ (if isAudioOnly v then [Trigger_audioonly false] else [])
            ++ (if defined (soundMeter v) then [SoundMeter_disconnect]
                else [])).
    by rewrite <- !app_assoc.
  - intros Hlog. split; [|split; [|split]].
    + by apply removePeer_cleared_first.
    + unfold reapStale. destruct (negb (isConnected v p)); [|done].
      apply removePeer_cleared_first. simpl. cleared.
    + unfold reapRedundant.
      destruct (negb (sameRef (streamingPeer v) p)); [|done].
      apply removePeer_cleared_first. simpl. cleared.
    + unfold remove. destruct (negb (outgoing v)); [|done].
      generalize (getPeers v). intros l. revert v Hlog.
      induction l as [|x l IH]; intros v Hlog; simpl; [done|].
      apply IH. by apply removePeer_cleared_first.
Qed.

Lemma streaming_link_cleared_before_removal_witness :
  streamingPeer (removePeer 11%nat 2000 member2) = None
  /\ stream (removePeer 11%nat 2000 member2) = None.
Proof.
  destruct (streaming_link_cleared_before_removal 11%nat 2000 member2)
    as [H _].
  destruct (H ("p1"%string, 11%nat)) as (H1 & H2 & _);
    [reflexivity | reflexivity | ].
  split; [exact H1 | exact H2].
Defined.

Lemma find_unregistered p (entries : list (string * PeerRef)) :
  ~ In p (map snd entries) ->
  List.find (fun e => Nat.eqb e.2 p) entries = None.
Proof.
  induction entries as [|[k q] rest IH]; simpl; [done|].
  intros H. destruct (Nat.eqb q p) eqn:E.
  - apply Nat.eqb_eq in E. tauto.
  - apply IH. tauto.
Qed.

Lemma find_registered p (entries : list (string * PeerRef)) entry :
  List.find (fun e => Nat.eqb e.2 p) entries = Some entry ->
  In entry entries /\ entry.2 = p.
Proof.
  intros H. apply List.find_some in H as [Hin Heq].
  split; [done|]. by apply Nat.eqb_eq.
Qed.

(** Taking out the key under which [p] was found leaves no entry for [p]
    when no object is registered twice. *)
Lemma unregistered_after_delete p (entries : list (string * PeerRef)) entry :
  NoDup (map snd entries) ->
  In entry entries -> entry.2 = p ->
  ~ In p (map snd
            (List.filter (fun e => negb (String.eqb e.1 entry.1)) entries)).
Proof.
  induction entries as [|[k q] rest IH]; simpl; [done|].
  intros Hnd Hin Hp. apply NoDup_cons in Hnd as [Hq Hnd].
  destruct Hin as [<-|Hin]; simpl in *.
  - rewrite String.eqb_refl. simpl. subst q.
    intros Hin. apply Hq, list_elem_of_In.
    apply in_map_iff in Hin as (e & He & Hin).
    apply List.filter_In in Hin as [Hin _].
    apply in_map_iff. eauto.
  - destruct (negb (k =? entry.1)%string); simpl.
    + intros [Hqp|Hrest]; [|by apply IH].
      apply Hq, list_elem_of_In. subst q. rewrite <- Hp.
      by apply in_map.
    + by apply IH.
Qed.

(** C10.  [removePeer] with a connection that is not in the member's peer
    map only logs an error: the peer map, the streaming link, the rendered
    stream and every connection object are as before; no receiver is
    stopped and nothing is closed.  Hence, when no connection object is
    registered under two ids, removing the same peer a second time changes
    nothing but the log. *)
Theorem removePeer_absent_only_logs
    (p : PeerRef) (now later : Z) (v : CallMemberView) :
  (~ In p (getPeers v) ->
     removePeer p now v = emit [LogError_alreadyRemoved p] v)
  /\ (NoDup (getPeers v) ->
      removePeer p later (removePeer p now v)
      = emit [LogError_alreadyRemoved p] (removePeer p now v)).
Proof.
  assert (Habsent : forall w, ~ In p (getPeers w) ->
            removePeer p later w = emit [LogError_alreadyRemoved p] w
            /\ removePeer p now w = emit [LogError_alreadyRemoved p] w).
  { intros w Hw. unfold removePeer.
    by rewrite (find_unregistered _ _ Hw). }
  split.
  - intros H. by apply Habsent.
  - intros Hnd. apply Habsent.
    destruct (List.find (fun e => Nat.eqb e.2 p) (_peers v))
      as [entry|] eqn:Hf.
    + destruct (removePeer_registered p now v entry Hf)
        as (_ & _ & _ & _ & Hpeers & _).
      unfold getPeers. rewrite Hpeers.
      apply find_registered in Hf as [Hin Hp].
      by apply unregistered_after_delete.
    + unfold removePeer. rewrite Hf. unfold getPeers. simpl.
      intros Hin. apply in_map_iff in Hin as ([k q] & Hq & Hin).
      simpl in Hq. subst q.
      apply List.find_none with (x := (k, p)) in Hf; [|done].
      simpl in Hf. by rewrite Nat.eqb_refl in Hf.
Qed.

Lemma removePeer_absent_only_logs_witness :
  removePeer 11%nat 3000 (removePeer 11%nat 2000 member2)
  = emit [LogError_alreadyRemoved 11%nat] (removePeer 11%nat 2000 member2).
Proof.
  destruct (removePeer_absent_only_logs 11%nat 2000 3000 member2) as [_ H].
  apply H. unfold getPeers. simpl.
  apply NoDup_cons. split.
  - intros Hin. apply list_elem_of_In in Hin. simpl in Hin.
    destruct Hin as [Hin|[]]. discriminate.
  - apply NoDup_cons. split; [|apply NoDup_nil_2].
    intros Hin. apply list_elem_of_In in Hin. destruct Hin.
Defined.

(** *** Removing links one by one, and all of them *)

(** The connection object of [q] is closed and carries no listeners. *)
Definition closedAndUnbound (v : CallMemberView) (q : PeerRef) : Prop :=
  exists o, peerObjects v !! q = Some o
            /\ closed o = true /\ _viewListeners o = false.

Lemma removePeer_other_object (p q : PeerRef) now v :
  q <> p -> peerObjects (removePeer p now v) !! q = peerObjects v !! q.
Proof.
  intros Hne. unfold removePeer.
  destruct (List.find (fun e => Nat.eqb e.2 p) (_peers v)) as [entry|];
    [|done].
  set (v1 := if sameRef (streamingPeer v) p then removeStream now v else v).
  assert (H1 : peerObjects v1 = peerObjects v)
    by (unfold v1; by destruct (sameRef _ _)).
  clearbody v1.
  unfold stopAndClose, peersDelete, unbindPeer. simpl.
  destruct (hasListeners v1 p); simpl;
    rewrite ?lookup_alter_ne by done; by rewrite H1.
Qed.

Lemma removePeer_same_object (p : PeerRef) now v entry o :
  List.find (fun e => Nat.eqb e.2 p) (_peers v) = Some entry ->
  peerObjects v !! p = Some o ->
  closedAndUnbound (removePeer p now v) p.
Proof.
  intros Hf Ho. unfold removePeer. rewrite Hf.
  set (v1 := if sameRef (streamingPeer v) p then removeStream now v else v).
  assert (H1 : peerObjects v1 = peerObjects v)
    by (unfold v1; by destruct (sameRef _ _)).
  clearbody v1.
  unfold closedAndUnbound, stopAndClose, peersDelete, unbindPeer. simpl.
  destruct (hasListeners v1 p) eqn:E; simpl.
  - rewrite !lookup_alter_eq, H1, Ho. simpl. eauto.
  - rewrite lookup_alter_eq, H1, Ho. simpl.
    unfold hasListeners in E. rewrite H1, Ho in E. eauto.
Qed.

Lemma removePeer_keeps_closed (p q : PeerRef) now v :
  closedAndUnbound v q -> closedAndUnbound (removePeer p now v) q.
Proof.
  intros (o & Ho & Hc & Hl).
  destruct (decide (q = p)) as [->|Hne].
  - destruct (List.find (fun e => Nat.eqb e.2 p) (_peers v)) as [entry|] eqn:Hf.
    + by eapply removePeer_same_object.
    + unfold removePeer. rewrite Hf. exists o. done.
  - exists o. by rewrite removePeer_other_object.
Qed.

Lemma removePeer_keeps_object (p q : PeerRef) now v :
  is_Some (peerObjects v !! q) -> is_Some (peerObjects (removePeer p now v) !! q).
Proof.
  intros [o Ho].
  destruct (decide (q = p)) as [->|Hne].
  - destruct (List.find (fun e => Nat.eqb e.2 p) (_peers v)) as [entry|] eqn:Hf.
    + destruct (removePeer_same_object p now v entry o Hf Ho) as (o' & Ho' & _).
      eauto.
    + unfold removePeer. rewrite Hf. simpl. eauto.
  - rewrite removePeer_other_object by done. eauto.
Qed.

Lemma find_head (k : string) (p : PeerRef) rest :
  List.find (fun e : string * PeerRef => Nat.eqb e.2 p) ((k, p) :: rest)
  = Some (k, p).
Proof. simpl. by rewrite Nat.eqb_refl. Qed.

(** With keys filed once, deleting the key of an entry takes out that entry
    and no other. *)
Lemma delete_key (entries : list (string * PeerRef)) (entry : string * PeerRef) :
  NoDup (map fst entries) -> In entry entries ->
  forall e, In e (List.filter (fun e => negb (String.eqb e.1 entry.1)) entries)
            <-> In e entries /\ e <> entry.
Proof.
  intros Hnd Hin e. rewrite List.filter_In. split.
  - intros [He Hk]. split; [done|]. intros ->.
    by rewrite String.eqb_refl in Hk.
  - intros [He Hne]. split; [done|].
    apply negb_true_iff, String.eqb_neq. intros Hk. apply Hne.
    clear Hne. induction entries as [|x rest IH]; [done|].
    simpl in Hnd. apply NoDup_cons in Hnd as [Hx Hnd].
    destruct He as [->|He], Hin as [->|Hin]; try done.
    + exfalso. apply Hx, list_elem_of_In. rewrite Hk. by apply in_map.
    + exfalso. apply Hx, list_elem_of_In. rewrite <- Hk. by apply in_map.
    + by apply IH.
Qed.

Lemma delete_head_key (k : string) (p : PeerRef) rest :
  NoDup (map fst ((k, p) :: rest)) ->
  List.filter (fun e : string * PeerRef => negb (String.eqb e.1 k))
              ((k, p) :: rest) = rest.
Proof.
  simpl. intros Hnd. apply NoDup_cons in Hnd as [Hk _].
  rewrite String.eqb_refl. simpl.
  induction rest as [|[k' q] rest IH]; simpl; [done|].
  simpl in Hk. apply not_elem_of_cons in Hk as [Hne Hk].
  assert (E : String.eqb k' k = false)
    by (apply String.eqb_neq; congruence).
  rewrite E. simpl. by rewrite IH.
Qed.

Definition removeAll (now : Z) (peers : list PeerRef) (v : CallMemberView)
  : CallMemberView :=
  fold_left (fun acc x => removePeer x now acc) peers v.

Lemma removeAll_idle now peers : forall v,
  streamingPeer v = None -> stream v = None ->
  streamingPeer (removeAll now peers v) = None
  /\ stream (removeAll now peers v) = None.
Proof.
  induction peers as [|x rest IH]; intros v Hs Ht; simpl; [done|].
  apply IH.
  - destruct (List.find (fun e => Nat.eqb e.2 x) (_peers v)) as [entry|] eqn:Hf.
    + destruct (removePeer_registered x now v entry Hf) as (-> & _).
      rewrite Hs. done.
    + unfold removePeer. by rewrite Hf.
  - destruct (List.find (fun e => Nat.eqb e.2 x) (_peers v)) as [entry|] eqn:Hf.
    + destruct (removePeer_registered x now v entry Hf) as (_ & -> & _).
      rewrite Hs. done.
    + unfold removePeer. by rewrite Hf.
Qed.

Lemma removeAll_spec now entries : forall v,
  _peers v = entries -> NoDup (map fst entries) ->
  let v' := removeAll now (map snd entries) v in
  _peers v' = []
  /\ (forall q, closedAndUnbound v q -> closedAndUnbound v' q)
  /\ (forall q, In q (map snd entries) -> is_Some (peerObjects v !! q) ->
        closedAndUnbound v' q)
  /\ (forall q, In q (map snd entries) -> streamingPeer v = Some q ->
        streamingPeer v' = None /\ stream v' = None).
Proof.
  induction entries as [|[k x] rest IH]; intros v Hv Hnd; simpl.
  - repeat split; try done.
  - assert (Hf : List.find (fun e => Nat.eqb e.2 x) (_peers v) = Some (k, x))
      by (rewrite Hv; apply find_head).
    destruct (removePeer_registered x now v (k, x) Hf)
      as (R1 & R2 & _ & _ & R5 & _).
    simpl in R5. rewrite Hv, delete_head_key in R5 by done.
    assert (Hnd' : NoDup (map fst rest))
      by (simpl in Hnd; by apply NoDup_cons in Hnd as [_ ?]).
    destruct (IH (removePeer x now v) R5 Hnd') as (I1 & I2 & I3 & I4).
    split; [done|]. split; [|split].
    + intros q Hq. by apply I2, removePeer_keeps_closed.
    + intros q [<-|Hq] [o Ho].
      * apply I2. by eapply removePeer_same_object.
      * apply I3; [done|]. apply removePeer_keeps_object. eauto.
    + intros q Hq Hs.
      destruct (decide (q = x)) as [->|Hne].
      * apply removeAll_idle.
        -- rewrite R1, Hs. simpl. by rewrite Nat.eqb_refl.
        -- rewrite R2, Hs. simpl. by rewrite Nat.eqb_refl.
      * destruct Hq as [Hq|Hq]; [congruence|].
        apply (I4 q); [done|]. rewrite R1, Hs. simpl.
        assert (E : Nat.eqb q x = false) by (by apply Nat.eqb_neq).
        rewrite E. done.
Qed.

(** X18 ([CallMemberView.remove], [removePeer]).  Removing a remote member
    view closes every one of its links: the map of links ends up empty, every
    connection object that was registered is closed and rid of the view's
    listeners, and when one of them was the streaming link the view ends up
    with no streaming link and no stream.  The local member's view has its
    links left alone. *)
Theorem remove_closes_every_link (now : Z) (v : CallMemberView) :
  NoDup (map fst (_peers v)) ->
  (outgoing v = false ->
   _peers (remove now v) = []
   /\ (forall q, In q (getPeers v) -> is_Some (peerObjects v !! q) ->
         closedAndUnbound (remove now v) q)
   /\ (forall q, In q (getPeers v) -> streamingPeer v = Some q ->
         streamingPeer (remove now v) = None /\ stream (remove now v) = None))
  /\ (outgoing v = true -> remove now v = v).
Proof.
  intros Hnd. unfold remove. split.
  - intros ->. simpl.
    destruct (removeAll_spec now (_peers v) v eq_refl Hnd)
      as (H1 & _ & H3 & H4).
    done.
  - by intros ->.
Qed.

Lemma remove_closes_every_link_witness :
  _peers (remove 2000 member2) = []
  /\ closedAndUnbound (remove 2000 member2) 11%nat
  /\ closedAndUnbound (remove 2000 member2) 12%nat
  /\ streamingPeer (remove 2000 member2) = None.
Proof.
  destruct (remove_closes_every_link 2000 member2) as [H _].
  - simpl. apply NoDup_cons. split.
    + intros Hin. apply list_elem_of_In in Hin. simpl in Hin.
      destruct Hin as [Hin|[]]. discriminate.
    + apply NoDup_cons. split; [|apply NoDup_nil_2].
      intros Hin. apply list_elem_of_In in Hin. destruct Hin.
  - destruct (H eq_refl) as (H1 & H2 & H3).
    split; [exact H1|]. split; [|split].
    + apply H2; [by left | by eexists].
    + apply H2; [by right; left | by eexists].
    + apply (H3 11%nat); [by left | reflexivity].
Defined.

(** X19 ([removePeer], and through it the redundant-link action of
    [peerCheck]).  Removing a registered link that is not the streaming one
    leaves the streaming link, the stream, the streaming class and the video
    element as they are, takes exactly that link's entry out of the map and
    closes its connection; the other connection objects are not touched. *)
Theorem removePeer_spares_the_streaming_link
    (p : PeerRef) (now : Z) (v : CallMemberView) (entry : string * PeerRef) :
  NoDup (map fst (_peers v)) ->
  List.find (fun e => Nat.eqb e.2 p) (_peers v) = Some entry ->
  sameRef (streamingPeer v) p = false ->
  let v' := removePeer p now v in
  streamingPeer v' = streamingPeer v
  /\ stream v' = stream v
  /\ classStreaming v' = classStreaming v
  /\ videoEl v' = videoEl v
  /\ (forall e, In e (_peers v') <-> In e (_peers v) /\ e <> entry)
  /\ (forall q, q <> p -> peerObjects v' !! q = peerObjects v !! q)
  /\ (is_Some (peerObjects v !! p) -> closedAndUnbound v' p)
  /\ reapRedundant p now v
     = removePeer p now (emit [LogWarn_redundant p] v).
Proof.
  intros Hnd Hf Hs v'.
  destruct (removePeer_registered p now v entry Hf)
    as (R1 & R2 & R3 & R4 & R5 & _).
  rewrite Hs in *. unfold v'.
  split; [done|]. split; [done|]. split; [done|]. split; [done|].
  split; [|split; [|split]].
  - intros e. rewrite R5. apply delete_key; [done|].
    by apply find_registered in Hf as [? _].
  - intros q Hq. by apply removePeer_other_object.
  - intros [o Ho]. by eapply removePeer_same_object.
  - unfold reapRedundant. by rewrite Hs.
Qed.

Lemma removePeer_spares_the_streaming_link_witness :
  streamingPeer (removePeer 12%nat 2000 member2) = Some 11%nat
  /\ stream (removePeer 12%nat 2000 member2) = Some 5%nat
  /\ _peers (removePeer 12%nat 2000 member2) = [("p1"%string, 11%nat)].
Proof.
  destruct (removePeer_spares_the_streaming_link
              12%nat 2000 member2 ("p2"%string, 12%nat))
    as (H1 & H2 & _); [| reflexivity | reflexivity |].
  - simpl. apply NoDup_cons. split.
    + intros Hin. apply list_elem_of_In in Hin. simpl in Hin.
      destruct Hin as [Hin|[]]. discriminate.
    + apply NoDup_cons. split; [|apply NoDup_nil_2].
      intros Hin. apply list_elem_of_In in Hin. destruct Hin.
  - split; [exact H1|]. split; [exact H2|]. reflexivity.
Defined.

End Member.

(** ** Serialization of [establish] and [acceptOffer] *)

Module Handshake.

Inductive Operation := Establish | AcceptOffer.

Definition Operation_eqb (a b : Operation) : bool :=
  match a, b with
  | Establish, Establish | AcceptOffer, AcceptOffer => true
  | _, _ => false
  end.

(** The queue names of the two operations of the member view at [addr]:
    [`call-establish-${this.addr}`] and [`call-accept-offer-${this.addr}`]. *)
Definition queueKey (op : Operation) (addr : string) : string :=
  match op with
  | Establish => "call-establish-" +:+ addr
  | AcceptOffer => "call-accept-offer-" +:+ addr
  end.

(** One call of [establish()] or [acceptOffer(data)] on the view of [addr];
    [serial] tells calls apart. *)
Record Invocation := {
  serial : nat;
  op : Operation;
  addr : string
}.

Definition keyOf (i : Invocation) : string := queueKey (op i) (addr i).

Definition hasKey (k : string) (i : Invocation) : bool := String.eqb (keyOf i) k.

(** Modelled from the spec: [F.queueAsync(key, callback)] is not part of the
    sources at hand.  It is the keyed asynchronous queue of the design
    document: a callback queued under a key starts once every callback queued
    earlier under the same key has completed, so that the callbacks of one key
    run one at a time in arrival order, and callbacks of different keys do not
    wait for each other.  [waiting] holds the queued callbacks in arrival
    order, [running] those that have begun and not completed; [invoked] and
    [began] record the history. *)
Record Queues := {
  waiting : list Invocation;
  running : list Invocation;
  invoked : list Invocation;
  began : list Invocation
}.

Definition idle : Queues :=
  {| waiting := []; running := []; invoked := []; began := [] |}.

(** The oldest element with key [k], and the list without it. *)
Fixpoint takeFirst (k : string) (l : list Invocation)
  : option (Invocation * list Invocation) :=
  match l with
  | [] => None
  | i :: rest =>
      if hasKey k i then Some (i, rest)
      else match takeFirst k rest with
           | Some (j, rest') => Some (j, i :: rest')
           | None => None
           end
  end.

Fixpoint dropFirst (k : string) (l : list Invocation) : list Invocation :=
  match l with
  | [] => []
  | i :: rest => if hasKey k i then rest else i :: dropFirst k rest
  end.

(** What can happen: an operation is called, the queue of a key starts its
    next callback, the running callback of a key completes. *)
Inductive Event :=
| Invoke (i : Invocation)
| Begin (k : string)
| Complete (k : string).

Definition step (q : Queues) (e : Event) : Queues :=
  match e with
  | Invoke i =>
      {| waiting := waiting q ++ [i]; running := running q;
         invoked := invoked q ++ [i]; began := began q |}
  | Begin k =>
      if existsb (hasKey k) (running q) then q
      else match takeFirst k (waiting q) with
           | Some (i, rest) =>
               {| waiting := rest; running := running q ++ [i];
                  invoked := invoked q; began := began q ++ [i] |}
           | None => q
           end
  | Complete k =>
      {| waiting := waiting q; running := dropFirst k (running q);
         invoked := invoked q; began := began q |}
  end.

Definition run (events : list Event) : Queues := fold_left step events idle.

(** The handshake operations in flight for a member address, and those of one
    operation. *)
Definition inFlight (a : string) (q : Queues) : list Invocation :=
  List.filter (fun i => String.eqb (addr i) a) (running q).

Definition inFlightOf (o : Operation) (a : string) (q : Queues)
  : list Invocation :=
  List.filter (fun i => Operation_eqb (op i) o && String.eqb (addr i) a)
              (running q).

Lemma queueKey_inj o1 a1 o2 a2 :
  queueKey o1 a1 = queueKey o2 a2 -> o1 = o2 /\ a1 = a2.
Proof.
  destruct o1, o2; simpl; intros H; inversion H; auto.
Qed.

Lemma hasKey_queueKey o a i :
  hasKey (queueKey o a) i = Operation_eqb (op i) o && String.eqb (addr i) a.
Proof.
  unfold hasKey, keyOf.
  destruct (String.eqb_spec (queueKey (op i) (addr i)) (queueKey o a)) as [E|E].
  - apply queueKey_inj in E as [Ho Ha]. rewrite Ho, Ha.
    rewrite String.eqb_refl. by destruct o.
  - destruct (String.eqb_spec (addr i) a) as [Ha|Ha];
      [|by rewrite andb_false_r].
    rewrite Ha in E.
    destruct (op i), o; simpl; try done; by destruct E.
Qed.

Lemma takeFirst_some k l : forall i rest,
  takeFirst k l = Some (i, rest) ->
  hasKey k i = true
  /\ List.filter (hasKey k) l = i :: List.filter (hasKey k) rest
  /\ (forall k', k' <> k ->
        List.filter (hasKey k') l = List.filter (hasKey k') rest).
Proof.
  induction l as [|j l IH]; intros i rest; simpl; [done|].
  destruct (hasKey k j) eqn:E.
  - intros [= <- <-]. repeat split; auto.
    intros k' Hk'. unfold hasKey in *. apply String.eqb_eq in E.
    destruct (String.eqb_spec (keyOf j) k'); [congruence|done].
  - destruct (takeFirst k l) as [[j' rest']|]; [|done].
    intros [= <- <-]. destruct (IH _ _ eq_refl) as (H1 & H2 & H3).
    repeat split; auto.
    + simpl. by rewrite E.
    + intros k' Hk'. simpl. rewrite (H3 _ Hk'). done.
Qed.

Lemma dropFirst_subset k l i : In i (dropFirst k l) -> In i l.
Proof.
  induction l as [|j l IH]; simpl; [done|].
  destruct (hasKey k j); simpl; tauto.
Qed.

Lemma dropFirst_NoDup k l :
  NoDup (map keyOf l) -> NoDup (map keyOf (dropFirst k l)).
Proof.
  induction l as [|j l IH]; simpl; [done|].
  intros H. apply NoDup_cons in H as [Hj Hl].
  destruct (hasKey k j); [done|]. simpl. apply NoDup_cons. split; auto.
  intros Hin. apply Hj. apply list_elem_of_In in Hin.
  apply list_elem_of_In. apply in_map_iff in Hin as (x & Hx & Hin).
  apply in_map_iff. exists x. split; [done|]. by eapply dropFirst_subset.
Qed.

Lemma no_running_key k l :
  existsb (hasKey k) l = false -> ~ In k (map keyOf l).
Proof.
  intros H Hin. apply in_map_iff in Hin as (x & Hx & Hin).
  assert (existsb (hasKey k) l = true); [|congruence].
  apply existsb_exists. exists x. split; [done|].
  unfold hasKey. rewrite Hx. apply String.eqb_refl.
Qed.

(** The state of the queues after any history: no two running callbacks
    share a key, and under every key what was invoked is what began followed
    by what still waits. *)
Definition Serialized (q : Queues) : Prop :=
  NoDup (map keyOf (running q))
  /\ forall k, List.filter (hasKey k) (invoked q)
               = List.filter (hasKey k) (began q)
                 ++ List.filter (hasKey k) (waiting q).

Lemma step_Serialized q e : Serialized q -> Serialized (step q e).
Proof.
  intros [Hrun Hfifo]. destruct e as [i|k|k]; simpl.
  - split; [done|]. intros k. simpl.
    rewrite !List.filter_app, Hfifo. by rewrite <- app_assoc.
  - destruct (existsb (hasKey k) (running q)) eqn:Ebusy; [done|].
    destruct (takeFirst k (waiting q)) as [[i rest]|] eqn:Etake; [|done].
    destruct (takeFirst_some _ _ _ _ Etake) as (Hk & Hsame & Hother).
    split; simpl.
    + rewrite map_app. simpl. apply NoDup_app. split; [done|]. split.
      * intros x Hx Hxi. apply list_elem_of_In in Hx.
        apply list_elem_of_In in Hxi. simpl in Hxi.
        destruct Hxi as [<-|[]].
        apply (no_running_key k _ Ebusy).
        unfold hasKey in Hk. apply String.eqb_eq in Hk. by rewrite <- Hk.
      * apply NoDup_singleton.
    + intros k'. rewrite Hfifo, List.filter_app. simpl.
      destruct (String.eqb_spec k' k) as [->|Hne].
      * rewrite Hsame, Hk. by rewrite <- app_assoc.
      * rewrite (Hother _ Hne).
        destruct (hasKey k' i) eqn:E; [|by rewrite app_nil_r].
        unfold hasKey in *. apply String.eqb_eq in E, Hk. congruence.
  - split; [by apply dropFirst_NoDup | done].
Qed.

Lemma run_Serialized events : Serialized (run events).
Proof.
  unfold run.
  assert (H : Serialized idle) by (split; [apply NoDup_nil_2 | done]).
  revert H. generalize idle.
  induction events as [|e events IH]; intros q Hq; simpl; [done|].
  apply IH. by apply step_Serialized.
Qed.

Lemma at_most_one_per_key k l :
  NoDup (map keyOf l) -> (length (List.filter (hasKey k) l) <= 1)%nat.
Proof.
  induction l as [|i l IH]; simpl; [lia|].
  intros H. apply NoDup_cons in H as [Hi Hl].
  destruct (hasKey k i) eqn:E; [|auto]. simpl.
  assert (List.filter (hasKey k) l = []) as ->; [|simpl; lia].
  destruct (List.filter (hasKey k) l) as [|j rest] eqn:Ef; [done|].
  exfalso. apply Hi.
  assert (Hj : In j (List.filter (hasKey k) l)) by (rewrite Ef; by left).
  apply List.filter_In in Hj as [Hj Hkj].
  unfold hasKey in *. apply String.eqb_eq in E, Hkj.
  apply list_elem_of_In, in_map_iff. exists j. split; [congruence|done].
Qed.

(** An offer from alice.1 is being accepted when the reconciliation pass calls
    [establish] for the same member. *)
Definition acceptAlice : Invocation :=
  {| serial := 1; op := AcceptOffer; addr := "alice.1" |}.
Definition establishAlice : Invocation :=
  {| serial := 2; op := Establish; addr := "alice.1" |}.
Definition establishAgain : Invocation :=
  {| serial := 3; op := Establish; addr := "alice.1" |}.
Definition overlapping : list Event :=
  [Invoke acceptAlice; Begin (keyOf acceptAlice);
   Invoke establishAlice; Begin (keyOf establishAlice);
   Invoke establishAgain; Begin (keyOf establishAgain)].

(** C1, as stated, fails: [establish] and [acceptOffer] queue under different
    keys, so an [establish] begins while an [acceptOffer] for the same address
    is in flight, and two handshake operations of one address are in flight
    together. *)
Lemma establish_overlaps_acceptOffer :
  ~ (forall events a, (length (inFlight a (run events)) <= 1)%nat).
Proof.
  intros H. specialize (H overlapping "alice.1"). vm_compute in H. lia.
Qed.

(** C1, amended.  For every member address and each of the two operations,
    the invocations of that operation for that address are serialized: after
    any history at most one of them is in flight, none begins while one is in
    flight, and they begin in the order they were invoked (what was invoked is
    what began followed by what still waits).  The two operations of one
    address use different queue keys and do not wait for each other. *)
Theorem one_in_flight_per_operation_and_address
    (events : list Event) (o : Operation) (a : string) :
  let q := run events in
  let mine := fun i => Operation_eqb (op i) o && String.eqb (addr i) a in
  (length (inFlightOf o a q) <= 1)%nat
  /\ (inFlightOf o a q <> [] -> step q (Begin (queueKey o a)) = q)
  /\ List.filter mine (invoked q)
     = List.filter mine (began q) ++ List.filter mine (waiting q)
  /\ queueKey Establish a <> queueKey AcceptOffer a.
Proof.
  intros q mine. destruct (run_Serialized events) as [Hrun Hfifo].
  fold q in Hrun, Hfifo.
  assert (Hmine : forall l, List.filter mine l
                            = List.filter (hasKey (queueKey o a)) l).
  { intros l. apply List.filter_ext. intros i. unfold mine.
    by rewrite hasKey_queueKey. }
  unfold inFlightOf. fold mine. rewrite !Hmine.
  split; [by apply at_most_one_per_key|]. split; [|split].
  - intros Hbusy. simpl.
    destruct (existsb (hasKey (queueKey o a)) (running q)) eqn:E; [done|].
    exfalso. apply Hbusy.
    destruct (List.filter (hasKey (queueKey o a)) (running q))
      as [|i rest] eqn:Ef; [done|].
    assert (Hi : In i (List.filter (hasKey (queueKey o a)) (running q)))
      by (rewrite Ef; by left).
    apply List.filter_In in Hi as [Hi Hk].
    assert (existsb (hasKey (queueKey o a)) (running q) = true)
      by (apply existsb_exists; eauto).
    congruence.
  - apply Hfifo.
  - intros H. by apply queueKey_inj in H as [H _].
Qed.

Lemma one_in_flight_per_operation_and_address_witness :
  step (run overlapping) (Begin (queueKey Establish "alice.1"))
  = run overlapping.
Proof.
  destruct (one_in_flight_per_operation_and_address
              overlapping Establish "alice.1") as (_ & H & _).
  apply H. vm_compute. discriminate.
Defined.

End Handshake.

(** ** Incoming call requests: [addIncoming], [removeIncoming],
       [clearIncoming], [_updateIncoming], [onIncomingAcceptClick] *)

Module Incoming.

(** [ev.joinType]: a string, or [undefined]. *)
Definition JoinType := option string.

(** A [Set] of values compared by value: insertion order, each value once. *)
Definition Set_add `{EqDecision A} (x : A) (s : list A) : list A :=
  if bool_decide (x ∈ s) then s else s ++ [x].

Definition Set_delete `{EqDecision A} (x : A) (s : list A) : list A :=
  List.filter (fun y => negb (bool_decide (y = x))) s.

Definition Set_has `{EqDecision A} (x : A) (s : list A) : bool :=
  bool_decide (x ∈ s).

(** What the incoming-call bookkeeping reads and writes of the call view.
    A timer handle is a positive number, hence truthy; [timers] holds the
    timers set with [setTimeout] that have neither fired nor been cleared,
    each with the time at which it fires.  The status text, which
    [_updateIncoming] writes after an [await], is left out. *)
Record CallView := {
  _incoming : list string;
  _incomingTypes : list JoinType;
  _clearIncomingTimeout : option positive;
  classIncomingCall : bool;                (* $el has class incoming-call *)
  lastHandle : positive;
  timers : list (positive * Z)
}.

(** [initialize]: both sets empty, no timer. *)
Definition initial : CallView :=
  {| _incoming := []; _incomingTypes := []; _clearIncomingTimeout := None;
     classIncomingCall := false; lastHandle := 1%positive; timers := [] |}.

(** [clearTimeout(h)] *)
Definition clearTimeout (h : positive) (timers : list (positive * Z))
  : list (positive * Z) :=
  List.filter (fun t => negb (Pos.eqb t.1 h)) timers.

(** [this.$el.toggleClass('incoming-call', !!this._incoming.size)] *)
Definition _updateIncoming (cv : CallView) : CallView :=
  {| _incoming := _incoming cv; _incomingTypes := _incomingTypes cv;
     _clearIncomingTimeout := _clearIncomingTimeout cv;
     classIncomingCall := negb (length (_incoming cv) =? 0)%nat;
     lastHandle := lastHandle cv; timers := timers cv |}.

(** [if (this._clearIncomingTimeout) clearTimeout(this._clearIncomingTimeout)] *)
Definition clearPending (cv : CallView) : list (positive * Z) :=
  match _clearIncomingTimeout cv with
  | Some h => clearTimeout h (timers cv)
  | None => timers cv
  end.

(** [addIncoming(addr, type)] at time [now]. *)
Definition addIncoming (now : Z) (addr : string) (type : JoinType)
    (cv : CallView) : CallView :=
  let h := Pos.succ (lastHandle cv) in
  _updateIncoming
    {| _incoming := Set_add addr (_incoming cv);
       _incomingTypes := Set_add type (_incomingTypes cv);
       _clearIncomingTimeout := Some h;
       classIncomingCall := classIncomingCall cv;
       lastHandle := h;
       timers := clearPending cv ++ [(h, now + 45 * 1000)] |}.

(** [removeIncoming(addr)] *)
Definition removeIncoming (addr : string) (cv : CallView) : CallView :=
  let incoming := Set_delete addr (_incoming cv) in
  _updateIncoming
    (if (length incoming =? 0)%nat then
       {| _incoming := incoming; _incomingTypes := [];
          _clearIncomingTimeout := None;
          classIncomingCall := classIncomingCall cv;
          lastHandle := lastHandle cv; timers := clearPending cv |}
     else
       {| _incoming := incoming; _incomingTypes := _incomingTypes cv;
          _clearIncomingTimeout := _clearIncomingTimeout cv;
          classIncomingCall := classIncomingCall cv;
          lastHandle := lastHandle cv; timers := timers cv |}).

(** [clearIncoming()] *)
Definition clearIncoming (cv : CallView) : CallView :=
  _updateIncoming
    {| _incoming := []; _incomingTypes := []; _clearIncomingTimeout := None;
       classIncomingCall := classIncomingCall cv;
       lastHandle := lastHandle cv; timers := clearPending cv |}.

(** The timer with handle [h] fires: its callback is [clearIncoming].  A
    timer that was cleared does not fire. *)
Definition timerFires (h : positive) (cv : CallView) : CallView :=
  if existsb (fun t => Pos.eqb t.1 h) (timers cv) then
    clearIncoming
      {| _incoming := _incoming cv; _incomingTypes := _incomingTypes cv;
         _clearIncomingTimeout := _clearIncomingTimeout cv;
         classIncomingCall := classIncomingCall cv;
         lastHandle := lastHandle cv; timers := clearTimeout h (timers cv) |}
  else cv.

(** [this._incomingTypes.has('video') ? 'video' : 'audio']: the type
    announced by [_updateIncoming] and joined with by
    [onIncomingAcceptClick]. *)
Definition incomingType (cv : CallView) : string :=
  if Set_has (Some "video"%string) (_incomingTypes cv) then "video" else "audio".

(** What happens to the bookkeeping: [onPeerJoin] and [onPeerLeave] while not
    joined call [addIncoming] and [removeIncoming]; [setJoined],
    [onIncomingAcceptClick] and [onIncomingIgnoreClick] call
    [clearIncoming]. *)
Inductive Event :=
| AddIncoming (now : Z) (addr : string) (type : JoinType)
| RemoveIncoming (addr : string)
| ClearIncoming
| TimerFires (h : positive).

Definition step (cv : CallView) (e : Event) : CallView :=
  match e with
  | AddIncoming now addr type => addIncoming now addr type cv
  | RemoveIncoming addr => removeIncoming addr cv
  | ClearIncoming => clearIncoming cv
  | TimerFires h => timerFires h cv
  end.

Definition run (events : list Event) : CallView := fold_left step events initial.

(** The bookkeeping is consistent. *)
Record Consistent (cv : CallView) : Prop := {
  class_iff : classIncomingCall cv = negb (length (_incoming cv) =? 0)%nat;
  types_iff : _incomingTypes cv = [] <-> _incoming cv = [];
  timeout_iff : _clearIncomingTimeout cv = None <-> _incoming cv = [];
  one_timer : map fst (timers cv) = option_list (_clearIncomingTimeout cv)
}.

Lemma Set_add_nonempty `{EqDecision A} (x : A) s : Set_add x s <> [].
Proof.
  unfold Set_add. case_bool_decide as H.
  - intros ->. by apply not_elem_of_nil in H.
  - by destruct s.
Qed.

Lemma Set_add_has `{EqDecision A} (x y : A) s :
  Set_has x s = true -> Set_has x (Set_add y s) = true.
Proof.
  unfold Set_has, Set_add. intros H. apply bool_decide_eq_true in H.
  apply bool_decide_eq_true. case_bool_decide; [done|].
  apply elem_of_app. by left.
Qed.

Lemma Set_add_has_same `{EqDecision A} (x : A) s : Set_has x (Set_add x s) = true.
Proof.
  unfold Set_has, Set_add. apply bool_decide_eq_true.
  case_bool_decide; [done|]. apply elem_of_app. right. by apply list_elem_of_singleton.
Qed.

Lemma Set_add_elem `{EqDecision A} (x y : A) s : y ∈ s -> y ∈ Set_add x s.
Proof.
  unfold Set_add. intros H. case_bool_decide; [done|].
  apply elem_of_app. by left.
Qed.

Lemma Set_delete_elem `{EqDecision A} (x y : A) s :
  y ∈ s -> y <> x -> y ∈ Set_delete x s.
Proof.
  unfold Set_delete. intros H Hne. apply list_elem_of_In, filter_In.
  split; [by apply list_elem_of_In|].
  apply negb_true_iff, bool_decide_eq_false. done.
Qed.

Lemma length_zero {A} (l : list A) : (length l =? 0)%nat = true <-> l = [].
Proof. destruct l; simpl; split; done. Qed.

Lemma clearPending_consistent cv :
  map fst (timers cv) = option_list (_clearIncomingTimeout cv) ->
  clearPending cv = [].
Proof.
  unfold clearPending. destruct (_clearIncomingTimeout cv) as [h|]; simpl.
  - destruct (timers cv) as [|[h' d] rest]; [done|]. simpl.
    intros [= -> Hrest]. apply map_eq_nil in Hrest. subst rest.
    unfold clearTimeout. simpl. by rewrite Pos.eqb_refl.
  - intros H. by apply map_eq_nil in H.
Qed.

Lemma clearIncoming_consistent cv :
  map fst (timers cv) = option_list (_clearIncomingTimeout cv) ->
  Consistent (clearIncoming cv).
Proof.
  intros H. unfold clearIncoming, _updateIncoming. simpl.
  rewrite (clearPending_consistent cv H). by split.
Qed.

Lemma step_consistent cv e : Consistent cv -> Consistent (step cv e).
Proof.
  intros [Hc Hty Hto Ht]. destruct e as [now addr type|addr| |h]; simpl.
  - unfold addIncoming, _updateIncoming. simpl.
    rewrite (clearPending_consistent cv Ht).
    split; simpl; try done.
    + split; intros H; by apply Set_add_nonempty in H.
    + split; intros H; [done | by apply Set_add_nonempty in H].
  - unfold removeIncoming.
    destruct (length (Set_delete addr (_incoming cv)) =? 0)%nat eqn:E.
    + apply length_zero in E. unfold _updateIncoming. simpl.
      rewrite (clearPending_consistent cv Ht), E. by split.
    + assert (Hne : Set_delete addr (_incoming cv) <> []).
      { intros H. apply length_zero in H. congruence. }
      assert (Hin : _incoming cv <> []).
      { intros H. apply Hne. by rewrite H. }
      unfold _updateIncoming. split; simpl; try done.
      * split; intros H; [by apply Hty in H | done].
      * split; intros H; [by apply Hto in H | done].
  - by apply clearIncoming_consistent.
  - unfold timerFires.
    destruct (existsb _ (timers cv)) eqn:E; [|by split].
    apply existsb_exists in E as ([h' d] & Hin & Heq).
    apply Pos.eqb_eq in Heq. simpl in Heq. subst h'.
    destruct (_clearIncomingTimeout cv) as [h0|] eqn:E0; simpl in Ht.
    + destruct (timers cv) as [|[h1 d1] rest] eqn:Et; [done|].
      simpl in Ht. injection Ht as -> Hrest. apply map_eq_nil in Hrest.
      subst rest. apply list_elem_of_In, list_elem_of_singleton in Hin.
      injection Hin as -> ->.
      unfold clearIncoming, _updateIncoming, clearPending, clearTimeout.
      simpl. rewrite Pos.eqb_refl. simpl. by split.
    + apply map_eq_nil in Ht. rewrite Ht in Hin. done.
Qed.

Lemma run_snoc events e : run (events ++ [e]) = step (run events) e.
Proof. unfold run. by rewrite fold_left_app. Qed.

Lemma run_consistent events : Consistent (run events).
Proof.
  induction events as [|e events IH] using rev_ind.
  - by split.
  - rewrite run_snoc. by apply step_consistent.
Qed.

(** X6 ([addIncoming], [removeIncoming], [clearIncoming]).  After any
    sequence of incoming-call events from the initial state: the view carries
    the class [incoming-call] exactly when a request is pending; the set of
    announced types is empty exactly when no request is pending; and the
    expiry timer whose handle the view holds is the only one pending, with
    none held or pending when no request is. *)
Theorem incoming_bookkeeping_consistent (events : list Event) :
  let cv := run events in
  classIncomingCall cv = negb (length (_incoming cv) =? 0)%nat
  /\ (_incomingTypes cv = [] <-> _incoming cv = [])
  /\ (_clearIncomingTimeout cv = None <-> _incoming cv = [])
  /\ map fst (timers cv) = option_list (_clearIncomingTimeout cv).
Proof. intros cv. by destruct (run_consistent events). Qed.

(** X7 ([addIncoming]).  Every further request restarts the expiry for all
    of them: after [addIncoming] at time [now] the one pending timer fires at
    [now] + 45000 ms, whatever timer was pending before, and when it fires
    every pending request is dropped. *)
Theorem addIncoming_restarts_expiry (events : list Event) (now : Z)
    (addr : string) (type : JoinType) :
  let cv := addIncoming now addr type (run events) in
  exists h,
    timers cv = [(h, now + 45000)]
    /\ _clearIncomingTimeout cv = Some h
    /\ _incoming (timerFires h cv) = []
    /\ classIncomingCall (timerFires h cv) = false
    /\ timers (timerFires h cv) = [].
Proof.
  intros cv. destruct (run_consistent events) as [_ _ _ Ht].
  exists (Pos.succ (lastHandle (run events))).
  unfold cv, addIncoming, _updateIncoming, timerFires. simpl.
  rewrite (clearPending_consistent _ Ht). simpl.
  rewrite Pos.eqb_refl. simpl.
  unfold clearPending, clearTimeout. simpl. rewrite ?Pos.eqb_refl. done.
Qed.

(** X8 ([removeIncoming], [_updateIncoming], [onIncomingAcceptClick]).  The
    announced type is not recomputed when a request is withdrawn: once a
    video request has been added, the type stays [video] after that caller
    has withdrawn, as long as another request is pending. *)
Theorem video_type_outlives_its_request (cv : CallView) (t1 t2 : Z)
    (a b : string) (type : JoinType) :
  a <> b ->
  let cv' := removeIncoming a
               (addIncoming t2 b type
                  (addIncoming t1 a (Some "video"%string) cv)) in
  (b ∈ _incoming cv') /\ (a ∉ _incoming cv')
  /\ incomingType cv' = "video"%string.
Proof.
  intros Hab. cbv zeta.
  set (s1 := addIncoming t1 a (Some "video"%string) cv).
  set (s2 := addIncoming t2 b type s1).
  assert (Hb : b ∈ Set_delete a (_incoming s2)).
  { apply Set_delete_elem; [|done]. unfold s2, addIncoming. simpl.
    unfold Set_add. case_bool_decide; [done|].
    apply elem_of_app. right. by apply list_elem_of_singleton. }
  assert (Hv : Set_has (Some "video"%string) (_incomingTypes s2) = true).
  { unfold s2, s1, addIncoming. simpl. apply Set_add_has, Set_add_has_same. }
  assert (Hlen : (length (Set_delete a (_incoming s2)) =? 0)%nat = false).
  { destruct (Set_delete a (_incoming s2)); [by apply not_elem_of_nil in Hb|done]. }
  assert (Hcv : _incoming (removeIncoming a s2) = Set_delete a (_incoming s2)
                /\ _incomingTypes (removeIncoming a s2) = _incomingTypes s2).
  { unfold removeIncoming. by rewrite Hlen. }
  destruct Hcv as [Hi Hty]. unfold incomingType. rewrite Hi, Hty, Hv.
  split; [done|]. split; [|done].
  unfold Set_delete. intros Hin. apply list_elem_of_In, filter_In in Hin as [_ Hin].
  apply negb_true_iff, bool_decide_eq_false in Hin. done.
Qed.

Lemma video_type_outlives_its_request_witness :
  incomingType
    (removeIncoming "alice.1"
       (addIncoming 2000 "bob.1" (Some "audio"%string)
          (addIncoming 1000 "alice.1" (Some "video"%string) initial)))
  = "video"%string.
Proof.
  refine (proj2 (proj2 (video_type_outlives_its_request
                          initial 1000 2000 "alice.1" "bob.1"
                          (Some "audio"%string) _))).
  discriminate.
Defined.

End Incoming.

(** ** The member views of a call: [getMemberView], [findMemberViews],
       [addMemberView] *)

Module Roster.

(** [`${device}`] for an integer. *)
Definition numToString (n : Z) : string := NilEmpty.string_of_int (Z.to_int n).

(** [`${userId}.${device}`].  A device identifier is an integer, written in
    decimal. *)
Definition addrOf (userId : string) (device : Z) : string :=
  userId +:+ "." +:+ numToString device.

(** A member view as the call view makes and files it.  Views are objects;
    [viewId] is the identity of one. *)
Record CallMemberView := {
  viewId : nat;
  userId : string;
  device : Z;
  order : Z;                       (* the CSS order of the element *)
  outgoing : bool
}.

Record CallView := {
  members : list string;           (* manager.members, by id *)
  currentUser : string;            (* F.currentUser.id *)
  currentDevice : Z;               (* F.currentDevice *)
  memberViews : list (string * CallMemberView);   (* a Map, in insertion order *)
  created : nat                    (* views made so far *)
}.

Definition Map_get {V} (k : string) (m : list (string * V)) : option V :=
  option_map snd (List.find (fun e => String.eqb e.1 k) m).

Definition Map_has {V} (k : string) (m : list (string * V)) : bool :=
  existsb (fun e => String.eqb e.1 k) m.

(** [this.memberViews.get(addr)] *)
Definition getMemberView (userId : string) (device : Z) (cv : CallView)
  : option CallMemberView :=
  Map_get (addrOf userId device) (memberViews cv).

(** [Array.from(this.memberViews.values())] *)
Definition getMemberViews (cv : CallView) : list CallMemberView :=
  map snd (memberViews cv).

(** The values whose key [startsWith(userId)]. *)
Definition findMemberViews (userId : string) (cv : CallView)
  : list CallMemberView :=
  map snd (List.filter (fun e => SDP.startsWith userId e.1) (memberViews cv)).

(** [members.findIndex(x => x.id === userId)], counting from [i]. *)
Fixpoint findIndexFrom (i : Z) (members : list string) (userId : string) : Z :=
  match members with
  | [] => -1
  | m :: rest =>
      if String.eqb m userId then i else findIndexFrom (i + 1) rest userId
  end.

Definition findIndex (members : list string) (userId : string) : Z :=
  findIndexFrom 0 members userId.

(** The 32-bit integer operators: both operands go through [ToInt32], and so
    does the result. *)
Definition ToInt32 (z : Z) : Z := (z + 2 ^ 31) mod 2 ^ 32 - 2 ^ 31.

Definition shiftLeft (x n : Z) : Z :=
  ToInt32 (Z.shiftl (ToInt32 x) (Z.land n 31)).

Definition bitAnd (x y : Z) : Z := ToInt32 (Z.land (ToInt32 x) (ToInt32 y)).

(** [(index << 16) + (device & 0xffff)] *)
Definition orderOf (index device : Z) : Z :=
  shiftLeft index 16 + bitAnd device 65535.

Inductive Outcome (A : Type) :=
| Returned (a : A)
| Thrown.                          (* an assertion failed *)
Arguments Returned {A} a.
Arguments Thrown {A}.

(** [addMemberView(userId, device)].
    Modelled from the spec: [F.assert] is not under src/; a violated
    invariant is raised at once.  The assertions are the one on the address
    being free and those of [CallMemberView.initialize] on its options
    ([userId] and [device] truthy). *)
Definition addMemberView (userId : string) (device : Z) (cv : CallView)
  : Outcome (CallMemberView * CallView) :=
  let addr := addrOf userId device in
  if Map_has addr (memberViews cv) then Thrown
  else
    let order := orderOf (findIndex (members cv) userId) device in
    if String.eqb userId "" || (device =? 0) then Thrown
    else
      let view :=
        {| viewId := created cv; userId := userId; device := device;
           order := order;
           outgoing := String.eqb userId (currentUser cv)
                       && (device =? currentDevice cv) |} in
      Returned (view,
                {| members := members cv; currentUser := currentUser cv;
                   currentDevice := currentDevice cv;
                   memberViews := memberViews cv ++ [(addr, view)];
                   created := S (created cv) |}).

(** A text without a full stop. *)
Fixpoint noDot (s : string) : bool :=
  match s with
  | EmptyString => true
  | String c rest => negb (Ascii.eqb c ".") && noDot rest
  end.

Lemma uint_text_noDot d : noDot (NilEmpty.string_of_uint d) = true.
Proof. induction d; simpl; done. Qed.

Lemma numToString_noDot n : noDot (numToString n) = true.
Proof.
  unfold numToString.
  destruct (Z.to_int n) as [d|d]; simpl; apply uint_text_noDot.
Qed.

Lemma noDot_with_dot a b : noDot (a +:+ String "." b) = false.
Proof.
  induction a as [|c a IH]; [done|].
  rewrite SDP.append_String. simpl. rewrite IH. apply andb_false_r.
Qed.

Lemma dotted_inj u1 : forall u2 s1 s2,
  noDot s1 = true -> noDot s2 = true ->
  u1 +:+ "." +:+ s1 = u2 +:+ "." +:+ s2 -> u1 = u2 /\ s1 = s2.
Proof.
  induction u1 as [|c u1 IH]; intros [|c2 u2] s1 s2 H1 H2 Heq;
    rewrite ?SDP.append_String, ?SDP.append_empty in Heq.
  - by injection Heq.
  - injection Heq as _ Heq.
    rewrite Heq, noDot_with_dot in H1. done.
  - injection Heq as _ Heq.
    rewrite <- Heq, noDot_with_dot in H2. done.
  - injection Heq as -> Heq.
    destruct (IH _ _ _ H1 H2 Heq) as [-> ->]. done.
Qed.

Lemma numToString_inj a b : numToString a = numToString b -> a = b.
Proof.
  unfold numToString. intros H.
  apply (f_equal NilEmpty.int_of_string) in H.
  rewrite !NilEmpty.isi in H. injection H as H.
  apply (f_equal Z.of_int) in H. by rewrite !DecimalZ.of_to in H.
Qed.

(** Two members have the same address only when they are the same user and
    device. *)
Lemma addrOf_inj u1 d1 u2 d2 :
  addrOf u1 d1 = addrOf u2 d2 -> u1 = u2 /\ d1 = d2.
Proof.
  unfold addrOf. intros H.
  apply dotted_inj in H as [-> H]; try apply numToString_noDot.
  by apply numToString_inj in H as ->.
Qed.

Lemma Map_has_get {V} k (m : list (string * V)) :
  Map_has k m = false <-> Map_get k m = None.
Proof.
  unfold Map_has, Map_get. induction m as [|[k' v] m IH]; simpl; [done|].
  destruct (String.eqb k' k); simpl; [done|]. exact IH.
Qed.

Lemma Map_get_snoc_same {V} k (v : V) m :
  Map_has k m = false -> Map_get k (m ++ [(k, v)]) = Some v.
Proof.
  unfold Map_has, Map_get. induction m as [|[k' v'] m IH]; simpl.
  - by rewrite String.eqb_refl.
  - destruct (String.eqb k' k); simpl; [done|]. exact IH.
Qed.

Lemma Map_get_snoc_other {V} k k' (v : V) m :
  k' <> k -> Map_get k' (m ++ [(k, v)]) = Map_get k' m.
Proof.
  unfold Map_get. intros Hne. induction m as [|[k0 v0] m IH]; simpl.
  - apply String.eqb_neq in Hne. rewrite String.eqb_sym in Hne. by rewrite Hne.
  - destruct (String.eqb k0 k'); simpl; [done|]. exact IH.
Qed.

Lemma ToInt32_small z : - 2 ^ 31 <= z < 2 ^ 31 -> ToInt32 z = z.
Proof. intros H. unfold ToInt32. rewrite Z.mod_small; lia. Qed.

Lemma low16 d : bitAnd d 65535 = d mod 65536.
Proof.
  unfold bitAnd. rewrite (ToInt32_small 65535) by lia.
  change 65535 with (Z.ones 16). rewrite Z.land_ones by lia.
  assert (Hm : ToInt32 d mod 2 ^ 16 = d mod 2 ^ 16).
  { unfold ToInt32.
    replace (2 ^ 32) with (2 ^ 16 * 2 ^ 16) by lia.
    rewrite <- Zminus_mod_idemp_l.
    rewrite Z.rem_mul_r by lia.
    rewrite <- Zplus_mod_idemp_r.
    rewrite Z.mul_comm, Z_mod_mult, Z.add_0_r, Z.mod_mod by lia.
    rewrite Zminus_mod_idemp_l.
    replace (d + 2 ^ 31 - 2 ^ 31) with d by lia. done. }
  rewrite Hm. change (2 ^ 16) with 65536.
  apply ToInt32_small.
  pose proof (Z.mod_pos_bound d 65536). lia.
Qed.

Lemma shiftLeft16 i : - 32768 <= i < 32768 -> shiftLeft i 16 = i * 65536.
Proof.
  intros H. unfold shiftLeft. rewrite (ToInt32_small i) by lia.
  change (Z.land 16 31) with 16. rewrite Z.shiftl_mul_pow2 by lia.
  change (2 ^ 16) with 65536. apply ToInt32_small. lia.
Qed.

Lemma findIndexFrom_range members userId : forall i,
  findIndexFrom i members userId = -1
  \/ i <= findIndexFrom i members userId < i + Z.of_nat (length members).
Proof.
  induction members as [|m rest IH]; intros i; simpl; [by left|].
  destruct (String.eqb m userId); [right; lia|].
  destruct (IH (i + 1)) as [H|H]; [by left | right; lia].
Qed.

Lemma findIndex_range members userId :
  -1 <= findIndex members userId < Z.of_nat (length members).
Proof.
  unfold findIndex.
  destruct (findIndexFrom_range members userId 0) as [H|H]; lia.
Qed.

(** The members of a call with its local member's view filed, as
    [initialize] leaves it. *)
Definition smallCall : CallView :=
  {| members := ["me"; "alice"; "bob"]; currentUser := "me";
     currentDevice := 1;
     memberViews := [("me.1"%string,
                      {| viewId := 0; userId := "me"; device := 1;
                         order := 1; outgoing := true |})];
     created := 1 |}.

(** X9 ([addMemberView], [getMemberView]).  [addMemberView] raises when a
    view is filed under the address already (or the user id is empty or the
    device is 0) and then changes nothing; otherwise the new view is what
    [getMemberView] returns for that user and device from then on, the views
    of every other user and device are found as before, and the new view is
    the last of [getMemberViews]. *)
Theorem addMemberView_then_getMemberView (userId : string) (device : Z)
    (cv : CallView) :
  match addMemberView userId device cv with
  | Thrown =>
      getMemberView userId device cv <> None \/ userId = ""%string \/ device = 0
  | Returned (view, cv') =>
      getMemberView userId device cv = None
      /\ getMemberView userId device cv' = Some view
      /\ (forall u d, (u, d) <> (userId, device) ->
            getMemberView u d cv' = getMemberView u d cv)
      /\ getMemberViews cv' = getMemberViews cv ++ [view]
      /\ Roster.userId view = userId /\ Roster.device view = device
  end.
Proof.
  unfold addMemberView, getMemberView.
  destruct (Map_has (addrOf userId device) (memberViews cv)) eqn:Eh.
  - left. intros H. apply Map_has_get in H. congruence.
  - destruct (String.eqb userId "" || (device =? 0)) eqn:Ea.
    + right. apply orb_true_iff in Ea as [H|H].
      * left. by apply String.eqb_eq.
      * right. by apply Z.eqb_eq.
    + cbn [memberViews]. split; [by apply Map_has_get|].
      split; [by apply Map_get_snoc_same|].
      split; [|split; [|done]].
      * intros u d Hne. apply Map_get_snoc_other.
        intros H. apply addrOf_inj in H as [-> ->]. done.
      * unfold getMemberViews. cbn [memberViews]. by rewrite map_app.
Qed.

(** X10 ([addMemberView]).  In a call of at most 32768 members the order of
    a view sorts by the place of its user in the member list first and by
    the low 16 bits of its device second: a user who is not in the list
    (place -1) comes before everybody, and two devices of a user have the
    same order exactly when they agree on their low 16 bits. *)
Theorem order_sorts_by_member_then_device (members : list string)
    (u1 u2 : string) (d1 d2 : Z) :
  Z.of_nat (length members) <= 32768 ->
  let i1 := findIndex members u1 in
  let i2 := findIndex members u2 in
  (orderOf i1 d1 < orderOf i2 d2
   <-> i1 < i2 \/ (i1 = i2 /\ d1 mod 65536 < d2 mod 65536))
  /\ (orderOf i1 d1 = orderOf i2 d2
      <-> i1 = i2 /\ d1 mod 65536 = d2 mod 65536).
Proof.
  intros Hlen i1 i2.
  pose proof (findIndex_range members u1) as H1.
  pose proof (findIndex_range members u2) as H2.
  fold i1 in H1. fold i2 in H2.
  unfold orderOf. rewrite !low16, !shiftLeft16 by lia.
  pose proof (Z.mod_pos_bound d1 65536). pose proof (Z.mod_pos_bound d2 65536).
  lia.
Qed.

Lemma order_sorts_by_member_then_device_witness :
  orderOf (findIndex ["me"; "alice"; "bob"] "alice") 7
  < orderOf (findIndex ["me"; "alice"; "bob"] "bob") 2
  /\ orderOf (findIndex ["me"; "alice"; "bob"] "alice") 1
     = orderOf (findIndex ["me"; "alice"; "bob"] "alice") 65537.
Proof.
  destruct (order_sorts_by_member_then_device
              ["me"; "alice"; "bob"] "alice" "bob" 7 2) as [Hlt _];
    [simpl; lia|].
  destruct (order_sorts_by_member_then_device
              ["me"; "alice"; "bob"] "alice" "alice" 1 65537) as [_ Heq];
    [simpl; lia|].
  split.
  - apply Hlt. left. reflexivity.
  - apply Heq. split; reflexivity.
Defined.

Lemma startsWith_append p s : SDP.startsWith p (p +:+ s) = true.
Proof.
  induction p as [|c p IH]; [done|].
  rewrite SDP.append_String. simpl. by rewrite Ascii.eqb_refl.
Qed.

Lemma startsWith_same_length p u s :
  String.length u = String.length p ->
  SDP.startsWith p (u +:+ s) = true -> u = p.
Proof.
  revert u. induction p as [|c p IH]; intros [|c' u] Hlen; simpl in *; try done.
  intros H. apply andb_true_iff in H as [Hc H].
  apply Ascii.eqb_eq in Hc as ->. f_equal. apply IH; [lia | done].
Qed.

(** The entries of the map are filed under the address of their view. *)
Definition filedByAddress (cv : CallView) : Prop :=
  Forall (fun e => e.1 = addrOf (userId e.2) (device e.2)) (memberViews cv).

(** X11 ([findMemberViews]).  With every view filed under its address,
    [findMemberViews(userId)] returns every view of that user, whatever the
    device, in the order of filing; it returns nothing but them when all user
    ids have the length of [userId] (as the ids of one format do); a user
    whose id merely begins with [userId] is returned too. *)
Theorem findMemberViews_finds_views_of_user (userId : string) (cv : CallView) :
  filedByAddress cv ->
  (forall v, In v (getMemberViews cv) -> Roster.userId v = userId ->
     In v (findMemberViews userId cv))
  /\ (Forall (fun v => String.length (Roster.userId v) = String.length userId)
        (getMemberViews cv) ->
      findMemberViews userId cv
      = List.filter (fun v => String.eqb (Roster.userId v) userId)
          (getMemberViews cv)).
Proof.
  unfold filedByAddress, findMemberViews, getMemberViews. intros Hfiled.
  split.
  - intros v Hin Hu. apply in_map_iff in Hin as ([k v'] & Hv & Hin).
    simpl in Hv. subst v'. apply in_map_iff. exists (k, v). split; [done|].
    apply filter_In. split; [done|].
    rewrite List.Forall_forall in Hfiled. rewrite (Hfiled _ Hin). simpl.
    rewrite Hu. unfold addrOf. apply startsWith_append.
  - induction (memberViews cv) as [|[k v] m IH]; [done|]. intros Hlen.
    inversion Hfiled as [|? ? Hk Hm]; subst.
    inversion Hlen as [|? ? Hv Hrest]; subst. simpl in *.
    rewrite Hk. unfold addrOf at 1.
    destruct (String.eqb (Roster.userId v) userId) eqn:E.
    + apply String.eqb_eq in E. rewrite E at 1.
      rewrite startsWith_append. simpl. by rewrite IH.
    + destruct (SDP.startsWith userId _) eqn:Es; [|by apply IH].
      apply startsWith_same_length in Es; [|done].
      apply String.eqb_neq in E. done.
Qed.

Definition twoDevices : CallView :=
  {| members := ["me"; "alice"; "bob"]; currentUser := "me";
     currentDevice := 1;
     memberViews :=
       [("bob.1"%string, {| viewId := 1; userId := "bob"; device := 1;
                            order := 131073; outgoing := false |});
        ("abe.3"%string, {| viewId := 2; userId := "abe"; device := 3;
                            order := -65533; outgoing := false |});
        ("bob.2"%string, {| viewId := 3; userId := "bob"; device := 2;
                            order := 131074; outgoing := false |})];
     created := 4 |}.

Lemma findMemberViews_finds_views_of_user_witness :
  map viewId (findMemberViews "bob" twoDevices) = [1%nat; 3%nat].
Proof.
  destruct (findMemberViews_finds_views_of_user "bob" twoDevices) as [_ H].
  - repeat constructor.
  - rewrite H; [reflexivity|]. repeat constructor.
Defined.

End Roster.

(** ** A member leaves: [removeMemberView] and the presenter *)

Module Departure.

Import Presenter.

(** The call view as [removeMemberView] meets it: the views of
    [Presenter.CallView] are the values of [memberViews], each filed under
    its [addr]; [presenterView] tells whether the presenter pane exists
    ([_cleanup] drops it first); [removed] lists the views on which
    [remove()] was called, by identity. *)
Record State := {
  call : CallView;
  presenterView : bool;
  removed : list nat
}.

(** [this.memberViews.get(addr)] *)
Definition Map_get (a : string) (views : list CallMemberView)
  : option CallMemberView :=
  List.find (fun v => String.eqb (addr v) a) views.

(** [this.memberViews.delete(addr)] *)
Definition Map_delete (a : string) (views : list CallMemberView)
  : list CallMemberView :=
  List.filter (fun v => negb (String.eqb (addr v) a)) views.

Definition setPresenting (p : option CallMemberView) (cv : CallView)
  : CallView :=
  {| outView := outView cv; getMemberViews := getMemberViews cv;
     _presenting := p; _lastPresenterSwitch := _lastPresenterSwitch cv |}.

(** [selectPresenter(view)] up to its first [await]: nothing when [view] is
    the presenter already, else [view] becomes the presenter. *)
Definition selectPresenter (view : option CallMemberView) (cv : CallView)
  : CallView :=
  if sameOpt (_presenting cv) view then cv else setPresenting view cv.

Inductive Outcome :=
| Returned (s : State)
| Thrown.                          (* the assertion failed *)

(** [removeMemberView(view)].
    Modelled from the spec: [F.assert] is not under src/; a violated
    invariant is raised at once. *)
Definition removeMemberView (view : CallMemberView) (s : State) : Outcome :=
  let cv := call s in
  match Map_get (addr view) (getMemberViews cv) with
  | None => Thrown
  | Some filed =>
      if negb (same view filed) then Thrown
      else
        let cv1 :=
          {| outView := outView cv;
             getMemberViews := Map_delete (addr view) (getMemberViews cv);
             _presenting := _presenting cv;
             _lastPresenterSwitch := _lastPresenterSwitch cv |} in
        let cv2 :=
          if sameOpt (Some view) (_presenting cv1) then
            let cv' := setPresenting None cv1 in
            if presenterView s
            then selectPresenter (getMostPresentableMemberView cv') cv'
            else cv'
          else cv1 in
        Returned {| call := cv2; presenterView := presenterView s;
                    removed := removed s ++ [oid view] |}
  end.

(** An object has one address: views of the same identity are filed alike. *)
Definition oneAddress (view : CallMemberView) (cv : CallView) : Prop :=
  Forall (fun v => same v view = true -> addr v = addr view)
         (getMemberViews cv).

Lemma SetFrom_In l r : In r (SetFrom l) -> In r l.
Proof.
  induction l as [|v rest IH]; simpl; [done|].
  intros [->|H]; [by left|]. right. apply IH.
  by apply List.filter_In in H as [H _].
Qed.

Lemma remoteViews_In cv r : In r (remoteViews cv) -> In r (getMemberViews cv).
Proof.
  unfold remoteViews, Set_delete. intros H.
  apply List.filter_In in H as [H _]. by apply SetFrom_In.
Qed.

(** With no presenter the choice is the local view or a filed one. *)
Lemma getMost_without_presenter cv :
  _presenting cv = None ->
  exists p, getMostPresentableMemberView cv = Some p
            /\ (p = outView cv \/ In p (getMemberViews cv)).
Proof.
  intros Hp. unfold getMostPresentableMemberView.
  destruct (remoteViews cv) as [|v1 [|v2 rest]] eqn:E.
  - eauto.
  - exists v1. split; [done|]. right. apply remoteViews_In. rewrite E. by left.
  - assert (Hi : incumbent cv = None) by (unfold incumbent; by rewrite Hp).
    rewrite Hi.
    destruct (fold_challenge_some (v1 :: v2 :: rest) None) as [r Hr];
      [by left|].
    exists r. split; [done|]. right.
    apply fold_challenge_result in Hr as [[Hin|Hin] _]; [|done].
    apply remoteViews_In. by rewrite E.
Qed.

Lemma find_none_of {A} (f : A -> bool) (l : list A) :
  (forall x, In x l -> f x = false) -> List.find f l = None.
Proof.
  induction l as [|a l IH]; intros H; simpl; [done|].
  rewrite (H a) by (by left). apply IH. intros x Hx. apply H. by right.
Qed.

Lemma same_sym a b : same a b = same b a.
Proof. unfold same. apply Nat.eqb_sym. Qed.

(** X12 ([removeMemberView]).  Removing a filed remote view takes it out of
    the member views and calls its [remove()].  When it was the presenter
    and the presenter pane exists, the presenter becomes the local view or a
    view that is still filed, never the removed one; when it was not the
    presenter, the presenter stays. *)
Theorem removeMemberView_moves_presenter_on (view : CallMemberView)
    (s : State) :
  Map_get (addr view) (getMemberViews (call s)) = Some view ->
  same view (outView (call s)) = false ->
  oneAddress view (call s) ->
  exists s',
    removeMemberView view s = Returned s'
    /\ Map_get (addr view) (getMemberViews (call s')) = None
    /\ removed s' = removed s ++ [oid view]
    /\ (sameOpt (Some view) (_presenting (call s)) = false ->
        _presenting (call s') = _presenting (call s))
    /\ (sameOpt (Some view) (_presenting (call s)) = true ->
        if presenterView s then
          exists p, _presenting (call s') = Some p
                    /\ same p view = false
                    /\ (p = outView (call s)
                        \/ In p (getMemberViews (call s')))
        else _presenting (call s') = None).
Proof.
  intros Hget Hout Hone. unfold removeMemberView. rewrite Hget.
  assert (Hsame : same view view = true) by (unfold same; apply Nat.eqb_refl).
  rewrite Hsame. cbn [negb].
  assert (Hgone : Map_get (addr view)
                    (Map_delete (addr view) (getMemberViews (call s))) = None).
  { unfold Map_get, Map_delete. apply find_none_of. intros v Hin.
    apply List.filter_In in Hin as [_ Hin]. by apply negb_true_iff. }
  assert (Hrest : forall p,
             In p (Map_delete (addr view) (getMemberViews (call s))) ->
             same p view = false).
  { intros p Hin. apply List.filter_In in Hin as [Hin Ha].
    apply negb_true_iff, String.eqb_neq in Ha.
    destruct (same p view) eqn:E; [|done].
    unfold oneAddress in Hone. rewrite List.Forall_forall in Hone.
    by apply Hone in E. }
  eexists. split; [reflexivity|]. cbn [call removed _presenting].
  destruct (sameOpt (Some view) (_presenting (call s))) eqn:Ep.
  - set (cv' := setPresenting None _).
    destruct (getMost_without_presenter cv' eq_refl) as (p & Hp & Hin).
    destruct (presenterView s).
    + unfold selectPresenter. rewrite Hp. cbn [_presenting cv' setPresenting sameOpt].
      cbn [getMemberViews _presenting].
      split; [done|]. split; [done|]. split; [done|]. intros _.
      exists p. split; [done|]. cbn [outView getMemberViews cv' setPresenting] in Hin.
      destruct Hin as [->|Hin].
      * split; [by rewrite same_sym | by left].
      * split; [by apply Hrest | by right].
    + cbn [getMemberViews _presenting cv' setPresenting]. done.
  - cbn [getMemberViews _presenting]. done.
Qed.

(** A call of three with alice presenting. *)
Definition threeCall : State :=
  {| call := {| outView := localView;
                getMemberViews := [localView; aliceView; bobView];
                _presenting := Some aliceView;
                _lastPresenterSwitch := None |};
     presenterView := true; removed := [] |}.

Lemma removeMemberView_moves_presenter_on_witness :
  exists s', removeMemberView aliceView threeCall = Returned s'
             /\ option_map oid (_presenting (call s')) = Some (oid bobView).
Proof.
  destruct (removeMemberView_moves_presenter_on aliceView threeCall)
    as (s' & Hrun & _); [reflexivity | reflexivity | |].
  - repeat constructor; intros H; try reflexivity; discriminate H.
  - exists s'. split; [exact Hrun|].
    vm_compute in Hrun. injection Hrun as <-. reflexivity.
Defined.

End Departure.

(** ** Taking the outgoing track off: [removeMembersOutTrack] *)

Module Mute.

Import OutTrack.

(** [!t.stopped && t.sender && t.sender.track && t.sender.track.kind === kind] *)
Definition sending (k : Kind) (t : RTCRtpTransceiver) : bool :=
  negb (stopped t) &&
  match senderTrack t with
  | Some track => Kind_eqb (kind track) k
  | None => false
  end.

(** The body of the innermost loop; [replaceTrack(null)] is taken to
    succeed. *)
Definition removeOn (k : Kind) (t : RTCRtpTransceiver) : RTCRtpTransceiver :=
  if sending k t
  then {| stopped := stopped t;
          receiverTrackKind := receiverTrackKind t;
          direction := recvonly;
          senderTrack := None |}
  else t.

(** The loop over the transceivers of a peer, the loop over the peers of a
    member view and the loop over the member views. *)
Fixpoint removeTransceivers (k : Kind) (ts : Peer) : Peer :=
  match ts with
  | [] => []
  | t :: rest => removeOn k t :: removeTransceivers k rest
  end.

Fixpoint removePeers (k : Kind) (peers : list Peer) : list Peer :=
  match peers with
  | [] => []
  | peer :: rest => removeTransceivers k peer :: removePeers k rest
  end.

Fixpoint removeMembersOutTrack (k : Kind) (memberViews : MemberViews)
  : MemberViews :=
  match memberViews with
  | [] => []
  | view :: rest => removePeers k view :: removeMembersOutTrack k rest
  end.

(** All transceivers of all peers of all members. *)
Definition transceivers (memberViews : MemberViews) : list RTCRtpTransceiver :=
  concat (concat memberViews).

Lemma removeTransceivers_map k ts : removeTransceivers k ts = map (removeOn k) ts.
Proof. induction ts as [|t rest IH]; simpl; by rewrite ?IH. Qed.

Lemma removePeers_map k peers :
  removePeers k peers = map (map (removeOn k)) peers.
Proof.
  induction peers as [|p rest IH]; simpl; [done|].
  by rewrite IH, removeTransceivers_map.
Qed.

Lemma removeMembersOutTrack_map k memberViews :
  removeMembersOutTrack k memberViews
  = map (map (map (removeOn k))) memberViews.
Proof.
  induction memberViews as [|v rest IH]; simpl; [done|].
  by rewrite IH, removePeers_map.
Qed.

Lemma transceivers_map f memberViews :
  transceivers (map (map (map f)) memberViews) = map f (transceivers memberViews).
Proof.
  unfold transceivers.
  induction memberViews as [|v rest IH]; simpl; [done|].
  rewrite !concat_app, map_app. f_equal; [|exact IH].
  clear. induction v as [|p ps IH]; simpl; [done|]. by rewrite map_app, IH.
Qed.

Lemma Kind_eqb_eq a b : Kind_eqb a b = true <-> a = b.
Proof. destruct a, b; simpl; split; done. Qed.

Lemma sending_removeOn k k' t : sending k (removeOn k' t) = sending k t && negb (sending k' t).
Proof.
  unfold removeOn. destruct (sending k' t) eqn:E; simpl.
  - unfold sending. simpl. by rewrite !andb_false_r.
  - by rewrite andb_true_r.
Qed.

Lemma sending_one_kind k k' t :
  sending k t = true -> sending k' t = true -> k = k'.
Proof.
  unfold sending. destruct (stopped t); simpl; [done|].
  destruct (senderTrack t) as [track|]; [|done].
  intros H1 H2. apply Kind_eqb_eq in H1, H2. congruence.
Qed.

(** X13 ([removeMembersOutTrack]).  After [removeMembersOutTrack(kind)] no
    transceiver of any peer of any member that is not stopped has a sender
    track of that kind; each transceiver that had one is now [recvonly] with
    no sender track, and every other transceiver, the senders of the other
    kind among them, is as it was.  Doing it again changes nothing. *)
Theorem removeMembersOutTrack_leaves_no_sender_of_kind (k : Kind)
    (memberViews : MemberViews) :
  let after := removeMembersOutTrack k memberViews in
  Forall (fun t => sending k t = false) (transceivers after)
  /\ transceivers after
     = map (fun t => if sending k t
                     then {| stopped := stopped t;
                             receiverTrackKind := receiverTrackKind t;
                             direction := recvonly; senderTrack := None |}
                     else t) (transceivers memberViews)
  /\ (forall k', map (sending k') (transceivers after)
                 = map (fun t => sending k' t && negb (Kind_eqb k' k))
                       (transceivers memberViews))
  /\ removeMembersOutTrack k after = after.
Proof.
  intros after. unfold after.
  rewrite !removeMembersOutTrack_map, transceivers_map.
  split; [|split; [|split]].
  - apply Forall_map, Forall_true. intros t. simpl.
    rewrite sending_removeOn. by destruct (sending k t).
  - done.
  - intros k'. rewrite map_map. apply map_ext. intros t.
    rewrite sending_removeOn.
    destruct (sending k' t) eqn:E1; [|done]. simpl.
    destruct (sending k t) eqn:E2.
    + rewrite (sending_one_kind _ _ _ E1 E2).
      by destruct k.
    + destruct (Kind_eqb k' k) eqn:E3; [|done].
      apply Kind_eqb_eq in E3. congruence.
  - rewrite !map_map. apply map_ext. intros v.
    rewrite !map_map. apply map_ext. intros p.
    rewrite !map_map. apply map_ext. intros t.
    unfold removeOn at 1. rewrite sending_removeOn.
    by destruct (sending k t).
Qed.

Lemma matching_removeOn track k t :
  matching track (removeOn k t) = matching track t.
Proof. unfold removeOn. by destruct (sending k t). Qed.

Lemma existsb_map {A B} (f : B -> bool) (g : A -> B) l :
  existsb f (map g l) = existsb (fun x => f (g x)) l.
Proof. induction l as [|a l IH]; simpl; by rewrite ?IH. Qed.

Lemma existsb_ext' {A} (f g : A -> bool) l :
  (forall x, f x = g x) -> existsb f l = existsb g l.
Proof. intros H. induction l as [|a l IH]; simpl; by rewrite ?IH, ?H. Qed.

(** X14 ([removeMembersOutTrack], [replaceMembersOutTrack]; the two halves of
    [setVideoMuted]).  Taking the tracks of a kind off does not change which
    transceivers a later [replaceMembersOutTrack] of a track of that kind
    matches: it raises after the removal exactly when it would have raised
    before it, and when it does not raise, every transceiver that is not
    stopped and receives that kind sends the track again, [sendrecv]. *)
Theorem replace_after_remove_restores_sending (track : MediaStreamTrack)
    (memberViews : MemberViews) :
  let muted := removeMembersOutTrack (kind track) memberViews in
  isThrown (replaceMembersOutTrack track muted).2
  = isThrown (replaceMembersOutTrack track memberViews).2
  /\ ((replaceMembersOutTrack track muted).2 = Returned ->
      Forall (fun t => matching track t = true ->
                       senderTrack t = Some track /\ direction t = sendrecv)
             (transceivers (replaceMembersOutTrack track muted).1)
      /\ map (matching track)
             (transceivers (replaceMembersOutTrack track muted).1)
         = map (matching track) (transceivers memberViews)).
Proof.
  intros muted.
  pose proof (replaceMembersOutTrack_spec track muted) as Hm.
  pose proof (replaceMembersOutTrack_spec track memberViews) as Ho.
  destruct (replaceMembersOutTrack track muted) as [mv1 out1].
  destruct (replaceMembersOutTrack track memberViews) as [mv2 out2].
  destruct Hm as [Hm1 Hm2]. destruct Ho as [Ho1 _]. cbn [fst snd].
  assert (Hsame : peerWithoutMatch track muted
                  = peerWithoutMatch track memberViews).
  { unfold peerWithoutMatch, muted. rewrite removeMembersOutTrack_map.
    rewrite existsb_map. apply existsb_ext'. intros v.
    rewrite existsb_map. apply existsb_ext'. intros p.
    rewrite existsb_map. f_equal. apply existsb_ext'. intros t.
    apply matching_removeOn. }
  split; [by rewrite Hm1, Ho1, Hsame|].
  intros Hret. rewrite (Hm2 Hret). unfold muted.
  rewrite removeMembersOutTrack_map, !transceivers_map.
  split.
  - apply Forall_map, Forall_map, Forall_true. intros t. simpl.
    unfold replaceOn. rewrite matching_removeOn.
    destruct (matching track t) eqn:E; simpl; [done|].
    rewrite matching_removeOn, E. done.
  - rewrite !map_map. apply map_ext. intros t.
    unfold replaceOn. rewrite matching_removeOn.
    destruct (matching track t) eqn:E; [|by rewrite matching_removeOn].
    transitivity (matching track (removeOn (kind track) t));
      [reflexivity | by rewrite matching_removeOn].
Qed.

End Mute.

(** ** Attaching the outgoing tracks to a new link: [addTracksToPeer] *)

Module AttachTracks.

Import OutTrack.

(** A track of the outgoing stream; [enabled] is off while the kind is
    muted. *)
Record OutTrack := {
  track : MediaStreamTrack;
  enabled : bool
}.

(** What [addTracksToPeer] asks of the peer connection, in order. *)
Inductive Call :=
| SetTracksAdded                       (* setMeta('tracksAdded', true) *)
| AddTrack (t : MediaStreamTrack)      (* addTrack(track, outStream) *)
| AddTransceiver (k : Kind).           (* addTransceiver(kind, {direction: 'recvonly'}) *)

Record Peer := {
  tracksAdded : bool;                  (* getMeta('tracksAdded') *)
  transceivers : list RTCRtpTransceiver;
  calls : list Call
}.

Variant Outcome := Returned | Thrown.  (* an assertion failed *)

(** [!t.stopped && t.receiver && t.receiver.track &&
     t.receiver.track.kind === kind], for some transceiver. *)
Definition hasReceiver (k : Kind) (ts : list RTCRtpTransceiver) : bool :=
  existsb (fun t => negb (stopped t) &&
                    match receiverTrackKind t with
                    | Some k' => Kind_eqb k' k
                    | None => false
                    end) ts.

Definition has (k : Kind) (kinds : list Kind) : bool :=
  existsb (fun k' => Kind_eqb k' k) kinds.

(** [joinType !== 'audio'] *)
Definition notAudio (joinType : option string) : bool :=
  match joinType with
  | Some s => negb (String.eqb s "audio")
  | None => true
  end.

(** [requiredKinds], in the order of the [Set]. *)
Definition requiredKinds (joinType : option string) : list Kind :=
  audio :: (if notAudio joinType then [video] else []).

Section Browser.

(** What the browser makes of the transceivers of a connection when a track
    or a transceiver is added to it. *)
Variable addTrack :
  list RTCRtpTransceiver -> MediaStreamTrack -> list RTCRtpTransceiver.
Variable addTransceiver :
  list RTCRtpTransceiver -> Kind -> list RTCRtpTransceiver.

(** The loop over the tracks of the outgoing stream, with [addedKinds].  The
    track is added before its kind is checked. *)
Fixpoint attachLoop (tracks : list OutTrack) (addedKinds : list Kind)
    (peer : Peer) : Peer * list Kind * Outcome :=
  match tracks with
  | [] => (peer, addedKinds, Returned)
  | t :: rest =>
      if enabled t then
        let peer' :=
          {| tracksAdded := tracksAdded peer;
             transceivers := addTrack (transceivers peer) (track t);
             calls := calls peer ++ [AddTrack (track t)] |} in
        if has (kind (track t)) addedKinds then (peer', addedKinds, Thrown)
        else attachLoop rest (addedKinds ++ [kind (track t)]) peer'
      else attachLoop rest addedKinds peer
  end.

(** The loop over the required kinds. *)
Fixpoint requireLoop (kinds : list Kind) (addedKinds : list Kind)
    (peer : Peer) : Peer :=
  match kinds with
  | [] => peer
  | k :: rest =>
      if negb (has k addedKinds) && negb (hasReceiver k (transceivers peer))
      then requireLoop rest addedKinds
             {| tracksAdded := tracksAdded peer;
                transceivers := addTransceiver (transceivers peer) k;
                calls := calls peer ++ [AddTransceiver k] |}
      else requireLoop rest addedKinds peer
  end.

(** [addTracksToPeer(peer)] with the tracks of [callView.outStream] and
    [callView.joinType].
    Modelled from the spec: [F.assert] is not under src/; a violated
    invariant is raised at once. *)
Definition addTracksToPeer (tracks : list OutTrack) (joinType : option string)
    (peer : Peer) : Peer * Outcome :=
  if tracksAdded peer then (peer, Thrown)
  else
    let peer1 := {| tracksAdded := true; transceivers := transceivers peer;
                    calls := calls peer ++ [SetTracksAdded] |} in
    match attachLoop tracks [] peer1 with
    | (peer2, addedKinds, Returned) =>
        (requireLoop (requiredKinds joinType) addedKinds peer2, Returned)
    | (peer2, _, Thrown) => (peer2, Thrown)
    end.

(** The tracks handed to [addTrack]. *)
Definition attached (peer : Peer) : list MediaStreamTrack :=
  omap (fun c => match c with AddTrack t => Some t | _ => None end) (calls peer).

(** The kinds for which a recv-only transceiver was asked. *)
Definition receiveOnly (peer : Peer) : list Kind :=
  omap (fun c => match c with AddTransceiver k => Some k | _ => None end)
       (calls peer).

Lemma attachLoop_tracksAdded tracks : forall added peer,
  tracksAdded (attachLoop tracks added peer).1.1 = tracksAdded peer.
Proof.
  induction tracks as [|t rest IH]; intros added peer; simpl; [done|].
  destruct (enabled t); [|apply IH].
  destruct (has _ added); [done|]. by rewrite IH.
Qed.

Lemma requireLoop_tracksAdded kinds : forall added peer,
  tracksAdded (requireLoop kinds added peer) = tracksAdded peer.
Proof.
  induction kinds as [|k rest IH]; intros added peer; simpl; [done|].
  destruct (_ && _); by rewrite IH.
Qed.

(** X15 ([addTracksToPeer]).  The [tracksAdded] mark is set before anything
    is attached, so whatever the first call did, and whether it returned or
    raised, every later call for the same link raises at once and leaves the
    link as it is. *)
Theorem addTracksToPeer_only_once (tracks tracks' : list OutTrack)
    (joinType joinType' : option string) (peer : Peer) :
  let first := addTracksToPeer tracks joinType peer in
  tracksAdded first.1 = true
  /\ addTracksToPeer tracks' joinType' first.1 = (first.1, Thrown).
Proof.
  intros first.
  assert (H : tracksAdded first.1 = true).
  { unfold first, addTracksToPeer.
    destruct (tracksAdded peer) eqn:E; [done|].
    pose proof (attachLoop_tracksAdded tracks []
                  {| tracksAdded := true; transceivers := transceivers peer;
                     calls := calls peer ++ [SetTracksAdded] |}) as Ht.
    destruct (attachLoop tracks [] _) as [[peer2 added] [|]];
      cbn [fst snd] in *; [|done].
    by rewrite requireLoop_tracksAdded. }
  split; [done|]. unfold addTracksToPeer at 1. by rewrite H.
Qed.

Definition enabledTracks (tracks : list OutTrack) : list MediaStreamTrack :=
  map track (List.filter enabled tracks).

Lemma omap_snoc_track l t :
  omap (fun c => match c with AddTrack t => Some t | _ => None end)
       (l ++ [AddTrack t])
  = omap (fun c => match c with AddTrack t => Some t | _ => None end) l ++ [t].
Proof. by rewrite omap_app. Qed.

Lemma has_snoc k added k' : has k (added ++ [k']) = has k added || Kind_eqb k' k.
Proof. unfold has. rewrite existsb_app. simpl. by rewrite orb_false_r. Qed.

Lemma Kind_eqb_true a b : Kind_eqb a b = true <-> a = b.
Proof. destruct a, b; simpl; split; done. Qed.

Lemma has_In k kinds : has k kinds = true <-> In k kinds.
Proof.
  unfold has. rewrite existsb_exists. split.
  - intros (k' & Hin & H). apply Kind_eqb_true in H. by subst.
  - intros H. exists k. split; [done|]. by apply Kind_eqb_true.
Qed.

(** With enabled tracks of distinct kinds the loop attaches each of them, in
    order, and nothing else. *)
Lemma attachLoop_distinct tracks : forall added peer,
  NoDup (added ++ map kind (enabledTracks tracks)) ->
  (attachLoop tracks added peer).2 = Returned
  /\ (attachLoop tracks added peer).1.2
     = added ++ map kind (enabledTracks tracks)
  /\ attached (attachLoop tracks added peer).1.1
     = attached peer ++ enabledTracks tracks
  /\ receiveOnly (attachLoop tracks added peer).1.1 = receiveOnly peer.
Proof.
  unfold enabledTracks.
  induction tracks as [|t rest IH]; intros added peer Hnd; simpl in *.
  - by rewrite !app_nil_r.
  - destruct (enabled t) eqn:Et; simpl in *; [|by apply IH].
    assert (Hfresh : has (kind (track t)) added = false).
    { destruct (has (kind (track t)) added) eqn:E; [|done].
      apply has_In in E. apply NoDup_app in Hnd as (_ & Hd & _).
      exfalso. apply (Hd (kind (track t))); [by apply list_elem_of_In|].
      apply list_elem_of_here. }
    rewrite Hfresh.
    rewrite cons_middle, app_assoc in Hnd.
    destruct (IH (added ++ [kind (track t)])
                {| tracksAdded := tracksAdded peer;
                   transceivers := addTrack (transceivers peer) (track t);
                   calls := calls peer ++ [AddTrack (track t)] |} Hnd)
      as (H1 & H2 & H3 & H4).
    split; [done|]. split; [by rewrite H2, <- app_assoc|].
    split.
    + rewrite H3. unfold attached. simpl. rewrite omap_app. simpl.
      by rewrite <- app_assoc.
    + rewrite H4. unfold receiveOnly. simpl. rewrite omap_app. simpl.
      by rewrite app_nil_r.
Qed.

(** The loop over the required kinds attaches no track, and asks a
    recv-only transceiver only for a required kind that was not added. *)
Lemma requireLoop_spec kinds : forall added peer,
  attached (requireLoop kinds added peer) = attached peer
  /\ (forall k, In k (receiveOnly (requireLoop kinds added peer)) ->
        In k (receiveOnly peer) \/ (In k kinds /\ has k added = false)).
Proof.
  induction kinds as [|k0 rest IH]; intros added peer; simpl.
  - split; [done|]. auto.
  - destruct (negb (has k0 added) && _) eqn:E.
    + apply andb_true_iff in E as [E1 E2]. apply negb_true_iff in E1.
      destruct (IH added
                  {| tracksAdded := tracksAdded peer;
                     transceivers := addTransceiver (transceivers peer) k0;
                     calls := calls peer ++ [AddTransceiver k0] |})
        as [H1 H2].
      split.
      * rewrite H1. unfold attached. simpl. rewrite omap_app. simpl.
        by rewrite app_nil_r.
      * intros k Hk. apply H2 in Hk as [Hk|[Hk Hk']].
        -- unfold receiveOnly in Hk. simpl in Hk. rewrite omap_app in Hk.
           simpl in Hk. apply in_app_iff in Hk as [Hk|[<-|[]]]; [by left|].
           right. split; [by left | done].
        -- right. split; [by right | done].
    + destruct (IH added peer) as [H1 H2]. split; [done|].
      intros k Hk. apply H2 in Hk as [Hk|[Hk Hk']]; [by left|].
      right. split; [by right | done].
Qed.

(** X16 ([addTracksToPeer]).  For a link without the [tracksAdded] mark and
    an outgoing stream whose enabled tracks are of distinct kinds, the call
    returns and hands to [addTrack] exactly the enabled tracks, in the order
    of the stream: a disabled (muted) track is never attached.  A recv-only
    transceiver is asked only for a required kind of which no track was
    attached. *)
Theorem addTracksToPeer_attaches_enabled_tracks (tracks : list OutTrack)
    (joinType : option string) (peer : Peer) :
  tracksAdded peer = false ->
  NoDup (map kind (enabledTracks tracks)) ->
  let r := addTracksToPeer tracks joinType peer in
  r.2 = Returned
  /\ attached r.1 = attached peer ++ enabledTracks tracks
  /\ (forall k, In k (receiveOnly r.1) ->
        In k (receiveOnly peer)
        \/ (In k (requiredKinds joinType)
            /\ Forall (fun t => kind t <> k) (enabledTracks tracks))).
Proof.
  intros Hfresh Hnd. unfold addTracksToPeer. rewrite Hfresh.
  set (peer1 := {| tracksAdded := true; transceivers := transceivers peer;
                   calls := calls peer ++ [SetTracksAdded] |}).
  destruct (attachLoop_distinct tracks [] peer1 Hnd) as (H1 & H2 & H3 & H4).
  destruct (attachLoop tracks [] peer1) as [[peer2 added] out].
  simpl in H1, H2, H3, H4. subst out. cbn [fst snd].
  destruct (requireLoop_spec (requiredKinds joinType) added peer2) as [R1 R2].
  split; [done|]. split.
  - rewrite R1, H3. unfold attached, peer1. simpl. rewrite omap_app. simpl.
    by rewrite app_nil_r.
  - intros k Hk. apply R2 in Hk as [Hk|[Hk Hk']].
    + left. rewrite H4 in Hk. unfold receiveOnly, peer1 in Hk. simpl in Hk.
      rewrite omap_app in Hk. simpl in Hk. by rewrite app_nil_r in Hk.
    + right. split; [done|]. subst added.
      apply List.Forall_forall. intros t Ht Heq.
      assert (Hin : has k (map kind (enabledTracks tracks)) = true).
      { apply has_In, in_map_iff. eauto. }
      congruence.
Qed.

(** X17 ([addTracksToPeer]).  When the browser's [addTransceiver] gives the
    connection a receiver of the kind asked and takes none away, a call that
    returns leaves every required kind (audio always, video unless the call
    was joined as audio) either sent or receivable: an enabled outgoing track
    of the kind was attached, or the connection has a transceiver, not
    stopped, with a receiver track of the kind. *)
Theorem addTracksToPeer_covers_required_kinds (tracks : list OutTrack)
    (joinType : option string) (peer : Peer) :
  (forall ts k, hasReceiver k (addTransceiver ts k) = true) ->
  (forall ts k k', hasReceiver k' ts = true ->
                   hasReceiver k' (addTransceiver ts k) = true) ->
  let r := addTracksToPeer tracks joinType peer in
  r.2 = Returned ->
  Forall (fun k => In k (map kind (attached r.1))
                   \/ hasReceiver k (transceivers r.1) = true)
         (requiredKinds joinType).
Proof.
  intros Hgives Hkeeps r. unfold r, addTracksToPeer.
  destruct (tracksAdded peer); [done|].
  set (peer1 := {| tracksAdded := true; transceivers := transceivers peer;
                   calls := calls peer ++ [SetTracksAdded] |}).
  assert (Hadded : forall tracks added p,
            (forall k, has k added = true -> In k (map kind (attached p))) ->
            let a := attachLoop tracks added p in
            forall k, has k a.1.2 = true -> In k (map kind (attached a.1.1))).
  { clear. induction tracks as [|t rest IH]; intros added p Hinv; simpl;
      [done|].
    destruct (enabled t); [|by apply IH].
    destruct (has (kind (track t)) added) eqn:E; simpl.
    - intros k Hk. apply Hinv in Hk. unfold attached in *. simpl.
      rewrite omap_app, map_app. apply in_app_iff. by left.
    - apply IH. intros k Hk. rewrite has_snoc in Hk.
      unfold attached. simpl. rewrite omap_app, map_app. apply in_app_iff.
      apply orb_true_iff in Hk as [Hk|Hk].
      + left. by apply Hinv.
      + right. apply Kind_eqb_true in Hk. subst. by left. }
  pose proof (Hadded tracks [] peer1 (fun k H => ltac:(done))) as Ha.
  destruct (attachLoop tracks [] peer1) as [[peer2 added] [|]]; [|done].
  cbn [fst snd] in *. intros _.
  assert (Hreq : forall kinds p,
            let q := requireLoop kinds added p in
            attached q = attached p
            /\ (forall k, hasReceiver k (transceivers p) = true ->
                          hasReceiver k (transceivers q) = true)
            /\ Forall (fun k => has k added = true
                                \/ hasReceiver k (transceivers q) = true)
                      kinds).
  { clear -Hgives Hkeeps.
    induction kinds as [|k0 rest IH]; intros p; simpl; [done|].
    destruct (has k0 added) eqn:E1; simpl.
    - destruct (IH p) as (I1 & I2 & I3). split; [done|]. split; [done|].
      constructor; [by left | done].
    - destruct (hasReceiver k0 (transceivers p)) eqn:E2; simpl.
      + destruct (IH p) as (I1 & I2 & I3). split; [done|]. split; [done|].
        constructor; [right; by apply I2 | done].
      + destruct (IH {| tracksAdded := tracksAdded p;
                        transceivers := addTransceiver (transceivers p) k0;
                        calls := calls p ++ [AddTransceiver k0] |})
          as (I1 & I2 & I3). simpl in *.
        split.
        * rewrite I1. unfold attached. simpl. rewrite omap_app. simpl.
          by rewrite app_nil_r.
        * split; [intros k Hk; by apply I2, Hkeeps|].
          constructor; [right; by apply I2, Hgives | done]. }
  destruct (Hreq (requiredKinds joinType) peer2) as (Q1 & _ & Q3).
  rewrite Q1. eapply Forall_impl; [exact Q3|].
  intros k [Hk|Hk]; [left; by apply Ha | by right].
Qed.

End Browser.

(** A browser that appends a transceiver for every track or transceiver
    added. *)
Definition appendTrack (ts : list RTCRtpTransceiver) (t : MediaStreamTrack)
  : list RTCRtpTransceiver :=
  ts ++ [{| stopped := false; receiverTrackKind := Some (kind t);
            direction := sendrecv; senderTrack := Some t |}].

Definition appendTransceiver (ts : list RTCRtpTransceiver) (k : Kind)
  : list RTCRtpTransceiver :=
  ts ++ [{| stopped := false; receiverTrackKind := Some k;
            direction := recvonly; senderTrack := None |}].

(** A new link, and an outgoing stream with the camera muted. *)
Definition newPeer : Peer :=
  {| tracksAdded := false; transceivers := []; calls := [] |}.

Definition mutedCamera : list OutTrack :=
  [ {| track := {| trackId := 1; kind := audio |}; enabled := true |};
    {| track := {| trackId := 2; kind := video |}; enabled := false |} ].

Lemma addTracksToPeer_attaches_enabled_tracks_witness :
  attached (addTracksToPeer appendTrack appendTransceiver mutedCamera
              (Some "video"%string) newPeer).1
  = [{| trackId := 1; kind := audio |}].
Proof.
  refine (proj1 (proj2 (addTracksToPeer_attaches_enabled_tracks
                          appendTrack appendTransceiver mutedCamera
                          (Some "video"%string) newPeer _ _))).
  - reflexivity.
  - vm_compute. repeat constructor. intros H. inversion H.
Defined.

Lemma hasReceiver_append ts k :
  hasReceiver k (appendTransceiver ts k) = true.
Proof.
  unfold hasReceiver, appendTransceiver. rewrite existsb_app. simpl.
  destruct k; simpl; by rewrite orb_true_r.
Qed.

Lemma hasReceiver_kept ts k k' :
  hasReceiver k' ts = true -> hasReceiver k' (appendTransceiver ts k) = true.
Proof.
  unfold hasReceiver, appendTransceiver. rewrite existsb_app. by intros ->.
Qed.

Lemma addTracksToPeer_covers_required_kinds_witness :
  let r := addTracksToPeer appendTrack appendTransceiver mutedCamera
             (Some "video"%string) newPeer in
  In audio (map kind (attached r.1))
  /\ hasReceiver video (transceivers r.1) = true.
Proof.
  intros r.
  pose proof (addTracksToPeer_covers_required_kinds
                appendTrack appendTransceiver mutedCamera
                (Some "video"%string) newPeer
                hasReceiver_append hasReceiver_kept eq_refl) as H.
  split.
  - by left.
  - apply Forall_cons in H as [_ H]. apply Forall_cons in H as [[H|H] _].
    + vm_compute in H. destruct H as [H|[]]. discriminate H.
    + exact H.
Defined.

End AttachTracks.

(** ** Rendering a stream: [updateStream], [toggleSilenced], [bindPeer] *)

Module Rendering.

Import Member.

Inductive Kind := audio | video.

Record MediaStreamTrack := {
  kind : Kind;
  enabled : bool;
  muted : bool
}.

(** The member view of [Member] with what [updateStream] reads besides: the
    class [silenced], the tracks of each media stream, and the stream each
    peer connection carries in its meta data (made by its constructor).
    [silencedTriggers] lists the [silenced] notifications. *)
Record View := {
  member : CallMemberView;
  classSilenced : bool;
  tracksOf : gmap StreamRef (list MediaStreamTrack);
  metaStream : gmap PeerRef StreamRef;
  silencedTriggers : list bool
}.

Definition isSilenced (v : View) : bool := classSilenced v.

Definition isAudio (t : MediaStreamTrack) : bool :=
  match kind t with audio => true | video => false end.

Definition setEnabled (b : bool) (t : MediaStreamTrack) : MediaStreamTrack :=
  {| kind := kind t; enabled := b; muted := muted t |}.

(** The loop over [stream.getTracks()]: the tracks as the loop leaves them,
    [hasAudio] and [hasVideo]. *)
Fixpoint scanTracks (silenced : bool) (tracks : list MediaStreamTrack)
    (hasAudio hasVideo : bool) : list MediaStreamTrack * bool * bool :=
  match tracks with
  | [] => ([], hasAudio, hasVideo)
  | track :: rest =>
      let track1 :=
        if isAudio track && silenced then setEnabled false track else track in
      let hasAudio1 :=
        if isAudio track1 then enabled track1 && negb (muted track1)
        else hasAudio in
      let hasVideo1 :=
        if isAudio track1 then hasVideo
        else enabled track1 && negb (muted track1) in
      match scanTracks silenced rest hasAudio1 hasVideo1 with
      | (rest', a, v) => (track1 :: rest', a, v)
      end
  end.

Definition sameStream (a b : option StreamRef) : bool :=
  match a, b with
  | Some x, Some y => Nat.eqb x y
  | None, None => true
  | _, _ => false
  end.

(** [!peer || peer.isConnected()] *)
Definition linkUp (m : CallMemberView) (peer : option PeerRef) : bool :=
  match peer with
  | Some p => isConnected m p
  | None => true
  end.

(** [updateStream(stream, peer)] at time [now].  [null] and [undefined] are
    one value here (the callers pass a stream, or the view's own [stream]),
    and the sound meter is taken to have its audio context. *)
Definition updateStream (now : Z) (s : option StreamRef)
    (peer : option PeerRef) (v : View) : View :=
  let m := member v in
  let m1 :=
    {| outgoing := outgoing m; _peers := _peers m;
       streamingPeer := peer; stream := s;
       classStreaming := classStreaming m; classAudioOnly := classAudioOnly m;
       soundMeter := soundMeter m; soundRMS := soundRMS m;
       soundDBV := soundDBV m;
       streamChanged := if sameStream s (stream m) then streamChanged m
                        else now;
       videoEl := videoEl m; peerObjects := peerObjects m; log := log m |} in
  match s with
  | None =>
      {| member := removeStream now m1; classSilenced := classSilenced v;
         tracksOf := tracksOf v; metaStream := metaStream v;
         silencedTriggers := silencedTriggers v |}
  | Some sr =>
      match scanTracks (isSilenced v) (default [] (tracksOf v !! sr))
                       false false with
      | (tracks', hasAudio, hasVideo) =>
          let hasMedia := hasVideo || (hasAudio && negb (outgoing m)) in
          let keepsMeter :=
            match soundMeter m1 with
            | Some measured => Nat.eqb measured sr
            | None => false
            end in
          let disconnects :=
            if hasAudio
            then defined (soundMeter m1) && negb keepsMeter
            else defined (soundMeter m1) in
          let streaming :=
            if outgoing m then hasMedia else hasMedia && linkUp m peer in
          let audioOnly := hasAudio && negb hasVideo in
          {| member :=
               {| outgoing := outgoing m1; _peers := _peers m1;
                  streamingPeer := streamingPeer m1; stream := stream m1;
                  classStreaming := streaming;
                  classAudioOnly := audioOnly;
                  soundMeter := if hasAudio then Some sr else None;
                  soundRMS := (-1)%Q; soundDBV := (-100)%Z;
                  streamChanged := streamChanged m1;
                  videoEl := match videoEl m1 with
                             | Some _ => Some (if hasMedia then Some sr
                                               else None)
                             | None => None
                             end;
                  peerObjects := peerObjects m1;
                  log := log m1
                         ++ (if disconnects then [SoundMeter_disconnect]
                             else [])
                         ++ [Trigger_streamupdate (Some sr);
                             Trigger_audioonly audioOnly;
                             Trigger_streaming streaming] |};
             classSilenced := classSilenced v;
             tracksOf := <[sr := tracks']> (tracksOf v);
             metaStream := metaStream v;
             silencedTriggers := silencedTriggers v |}
      end
  end.

(** [toggleSilenced(silenced)]; the argument may be left out. *)
Definition toggleSilenced (arg : option bool) (v : View) : View :=
  let silenced :=
    match arg with
    | None => negb (isSilenced v)
    | Some b => b
    end in
  {| member := member v;
     classSilenced := silenced;
     tracksOf :=
       match stream (member v) with
       | Some sr =>
           match tracksOf v !! sr with
           | Some tracks =>
               <[sr := map (fun t => if isAudio t
                                     then setEnabled (negb silenced) t
                                     else t) tracks]> (tracksOf v)
           | None => tracksOf v
           end
       | None => tracksOf v
       end;
     metaStream := metaStream v;
     silencedTriggers := silencedTriggers v ++ [silenced] |}.

(** [bindPeer(id, peer)]: nothing when the listeners are on the connection
    already; else they are put on it and its stream is rendered. *)
Definition bindPeer (now : Z) (p : PeerRef) (v : View) : View :=
  if hasListeners (member v) p then v
  else
    let m := member v in
    let v1 :=
      {| member :=
           setPeerObjects
             (alter (fun o => {| connected := connected o;
                                 _viewListeners := true;
                                 receiverTracks := receiverTracks o;
                                 closed := closed o |}) p (peerObjects m))
             [] m;
         classSilenced := classSilenced v; tracksOf := tracksOf v;
         metaStream := metaStream v;
         silencedTriggers := silencedTriggers v |} in
    updateStream now (metaStream v !! p) (Some p) v1.

(** What the listeners of [bindPeer] do when the browser reports a new
    track, an ended track, or a track muted or unmuted of the link filed
    under [id]: by then the stream of the connection holds [tracks], and the
    listener calls [updateStream] with that stream and connection.  The
    listener first asserts that the link is still filed ([getPeer(id)]); when
    it is not, the assertion is raised and the view stays as it is. *)
Definition onTrackEvent (now : Z) (id : string) (p : PeerRef)
    (tracks : list MediaStreamTrack) (v : View) : View :=
  if existsb (fun e => String.eqb e.1 id) (_peers (member v)) then
    match metaStream v !! p with
    | Some sr =>
        updateStream now (Some sr) (Some p)
          {| member := member v; classSilenced := classSilenced v;
             tracksOf := <[sr := tracks]> (tracksOf v);
             metaStream := metaStream v;
             silencedTriggers := silencedTriggers v |}
    | None => v
    end
  else v.

Inductive Event :=
| UpdateStream (now : Z) (s : option StreamRef) (peer : option PeerRef)
| ToggleSilenced (arg : option bool)
| BindPeer (now : Z) (p : PeerRef)
| TrackEvent (now : Z) (id : string) (p : PeerRef)
             (tracks : list MediaStreamTrack).

Definition step (v : View) (e : Event) : View :=
  match e with
  | UpdateStream now s peer => updateStream now s peer v
  | ToggleSilenced arg => toggleSilenced arg v
  | BindPeer now p => bindPeer now p v
  | TrackEvent now id p tracks => onTrackEvent now id p tracks v
  end.

(** The tracks of the stream the view renders. *)
Definition renderedTracks (v : View) : list MediaStreamTrack :=
  match stream (member v) with
  | Some sr => default [] (tracksOf v !! sr)
  | None => []
  end.

(** Every audio track of the rendered stream is disabled. *)
Definition audioOff (v : View) : Prop :=
  Forall (fun t => isAudio t = true -> enabled t = false) (renderedTracks v).

(** The last track of a kind decides: enabled and not muted. *)
Definition live (audioKind : bool) (tracks : list MediaStreamTrack) : bool :=
  match last (List.filter (fun t => Bool.eqb (isAudio t) audioKind) tracks) with
  | Some t => enabled t && negb (muted t)
  | None => false
  end.

Definition silence (silenced : bool) (t : MediaStreamTrack) : MediaStreamTrack :=
  if isAudio t && silenced then setEnabled false t else t.

Lemma isAudio_silence silenced t : isAudio (silence silenced t) = isAudio t.
Proof. unfold silence. by destruct (isAudio t && silenced). Qed.

(** The loop, track by track. *)
Lemma scanTracks_spec silenced tracks : forall hasAudio hasVideo,
  scanTracks silenced tracks hasAudio hasVideo
  = (map (silence silenced) tracks,
     match last (List.filter (fun t => Bool.eqb (isAudio t) true)
                   (map (silence silenced) tracks)) with
     | Some t => enabled t && negb (muted t)
     | None => hasAudio
     end,
     match last (List.filter (fun t => Bool.eqb (isAudio t) false)
                   (map (silence silenced) tracks)) with
     | Some t => enabled t && negb (muted t)
     | None => hasVideo
     end).
Proof.
  induction tracks as [|t rest IH]; intros hasAudio hasVideo; [done|].
  cbn [scanTracks map]. fold (silence silenced t). rewrite IH.
  cbn [List.filter].
  destruct (isAudio (silence silenced t)) eqn:E; cbn [Bool.eqb].
  - destruct (List.filter (fun t => Bool.eqb (isAudio t) true)
                (map (silence silenced) rest)) as [|y l]; [done|].
    rewrite last_cons_cons, last_cons. by destruct (last l).
  - destruct (List.filter (fun t => Bool.eqb (isAudio t) false)
                (map (silence silenced) rest)) as [|y l]; [done|].
    rewrite last_cons_cons, last_cons. by destruct (last l).
Qed.

Lemma silence_audio_off tracks :
  Forall (fun t => isAudio t = true -> enabled t = false)
         (map (silence true) tracks).
Proof.
  apply Forall_map, Forall_true. intros t. unfold silence.
  rewrite andb_true_r. destruct (isAudio t) eqn:E; simpl; [done|].
  intros H. congruence.
Qed.

Lemma updateStream_rendered now sr peer v :
  stream (member (updateStream now (Some sr) peer v)) = Some sr
  /\ streamingPeer (member (updateStream now (Some sr) peer v)) = peer
  /\ classSilenced (updateStream now (Some sr) peer v) = classSilenced v
  /\ renderedTracks (updateStream now (Some sr) peer v)
     = map (silence (isSilenced v)) (default [] (tracksOf v !! sr)).
Proof.
  unfold updateStream, renderedTracks. rewrite scanTracks_spec.
  cbn [member stream streamingPeer classSilenced tracksOf].
  by rewrite lookup_insert_eq.
Qed.

Lemma updateStream_none now peer v :
  stream (member (updateStream now None peer v)) = None
  /\ streamingPeer (member (updateStream now None peer v)) = None
  /\ classStreaming (member (updateStream now None peer v)) = false
  /\ classAudioOnly (member (updateStream now None peer v)) = false
  /\ classSilenced (updateStream now None peer v) = classSilenced v.
Proof. done. Qed.

Lemma updateStream_audioOff now s peer v :
  classSilenced (updateStream now s peer v) = classSilenced v
  /\ (classSilenced v = true -> audioOff (updateStream now s peer v)).
Proof.
  destruct s as [sr|].
  - destruct (updateStream_rendered now sr peer v) as (_ & _ & Hc & Hr).
    split; [done|]. intros Hs. unfold audioOff. rewrite Hr.
    unfold isSilenced. rewrite Hs. apply silence_audio_off.
  - split; [done|]. intros _. unfold audioOff, renderedTracks.
    destruct (updateStream_none now peer v) as (-> & _). constructor.
Qed.

Lemma step_audioOff v e :
  (classSilenced v = true -> audioOff v) ->
  classSilenced (step v e) = true -> audioOff (step v e).
Proof.
  intros Hinv. destruct e as [now s peer|arg|now p|now id p tracks]; simpl.
  - destruct (updateStream_audioOff now s peer v) as [-> H]. exact H.
  - unfold toggleSilenced, audioOff, renderedTracks. cbn [classSilenced member tracksOf].
    intros Hs. rewrite Hs.
    destruct (stream (member v)) as [sr|]; [|constructor].
    destruct (tracksOf v !! sr) as [tracks|] eqn:Et.
    + rewrite lookup_insert_eq. simpl. apply Forall_map, Forall_true.
      intros t. destruct (isAudio t) eqn:E; simpl; [done|].
      intros H. congruence.
    + rewrite Et. constructor.
  - unfold bindPeer. destruct (hasListeners (member v) p); [exact Hinv|].
    match goal with |- context [updateStream now ?s ?q ?w] =>
      destruct (updateStream_audioOff now s q w) as [-> H] end.
    exact H.
  - unfold onTrackEvent.
    destruct (existsb _ (_peers (member v))); [|exact Hinv].
    destruct (metaStream v !! p) as [sr|]; [|exact Hinv].
    match goal with |- context [updateStream now ?s ?q ?w] =>
      destruct (updateStream_audioOff now s q w) as [-> H] end.
    exact H.
Qed.

(** X20 ([updateStream], [toggleSilenced], [bindPeer]).  A silenced member
    stays silent: from a view that renders nothing, after any sequence of
    stream updates, silence toggles, link bindings and track events, a view
    that carries the class [silenced] has every audio track of the stream it
    renders disabled. *)
Theorem silenced_view_has_no_enabled_audio (v0 : View) (events : list Event) :
  stream (member v0) = None ->
  let v := fold_left step events v0 in
  classSilenced v = true ->
  Forall (fun t => isAudio t = true -> enabled t = false) (renderedTracks v).
Proof.
  intros Hnone v. unfold v.
  induction events as [|e events IH] using rev_ind.
  - intros _. unfold renderedTracks. simpl. rewrite Hnone. constructor.
  - rewrite fold_left_app. simpl. by apply step_audioOff.
Qed.

(** X21 ([updateStream]).  After [updateStream] with a stream, the view
    renders that stream with that link as its streaming link.  What decides
    is the last track of each kind, enabled and not muted, after the audio
    tracks of a silenced view have been disabled: the class [audio-only] says
    that audio is live and video is not; the class [streaming] says that
    video is live, or audio on a remote member's view, and for a remote
    member also that no link was given or the link is connected.  Without a
    stream the view ends up with no stream, no streaming link and neither
    class, whatever link was given. *)
Theorem updateStream_classes (now : Z) (s : option StreamRef)
    (peer : option PeerRef) (v : View) :
  let v' := updateStream now s peer v in
  match s with
  | Some sr =>
      let tracks := map (silence (isSilenced v)) (default [] (tracksOf v !! sr)) in
      stream (member v') = Some sr
      /\ streamingPeer (member v') = peer
      /\ renderedTracks v' = tracks
      /\ classAudioOnly (member v') = live true tracks && negb (live false tracks)
      /\ classStreaming (member v')
         = (live false tracks || live true tracks && negb (outgoing (member v)))
           && (outgoing (member v) || linkUp (member v) peer)
  | None =>
      stream (member v') = None
      /\ streamingPeer (member v') = None
      /\ classAudioOnly (member v') = false
      /\ classStreaming (member v') = false
  end.
Proof.
  intros v'. destruct s as [sr|]; [|done].
  destruct (updateStream_rendered now sr peer v) as (H1 & H2 & _ & H4).
  fold v' in H1, H2, H4. cbv zeta.
  split; [done|]. split; [done|]. split; [done|].
  unfold v', updateStream. rewrite scanTracks_spec.
  cbn [member classAudioOnly classStreaming]. unfold live.
  split; [done|].
  destruct (outgoing (member v)); simpl; [by rewrite andb_true_r|done].
Qed.

(** X22 ([bindPeer]).  Binding a link that carries no listeners yet makes it
    the streaming link and its stream the rendered one at once, connected or
    not; on a remote member's view the class [streaming] is not set while the
    link is not connected.  Binding it once more changes nothing. *)
Theorem bindPeer_takes_over_the_stream (now later : Z) (p : PeerRef)
    (sr : StreamRef) (o : PeerConn) (v : View) :
  peerObjects (member v) !! p = Some o ->
  _viewListeners o = false ->
  metaStream v !! p = Some sr ->
  let v' := bindPeer now p v in
  streamingPeer (member v') = Some p
  /\ stream (member v') = Some sr
  /\ (outgoing (member v) = false -> connected o = false ->
      classStreaming (member v') = false)
  /\ bindPeer later p v' = v'.
Proof.
  intros Ho Hl Hs v'.
  assert (Hunbound : hasListeners (member v) p = false)
    by (unfold hasListeners; by rewrite Ho).
  unfold v', bindPeer. rewrite Hunbound, Hs.
  match goal with |- context [updateStream now (Some sr) (Some p) ?w] =>
    set (v1 := w) end.
  destruct (updateStream_rendered now sr (Some p) v1) as (H1 & H2 & _ & _).
  split; [done|]. split; [done|]. split.
  - intros Hout Hdown.
    pose proof (updateStream_classes now (Some sr) (Some p) v1) as Hc.
    cbv zeta in Hc. destruct Hc as (_ & _ & _ & _ & ->).
    assert (Ho1 : outgoing (member v1) = false) by exact Hout.
    assert (Hl1 : linkUp (member v1) (Some p) = false).
    { unfold linkUp, isConnected, v1.
      cbn [member setPeerObjects peerObjects].
      by rewrite lookup_alter_eq, Ho. }
    rewrite Ho1, Hl1. simpl. by rewrite andb_false_r.
  - assert (Hbound : hasListeners (member (updateStream now (Some sr) (Some p) v1)) p
                     = true).
    { unfold updateStream. rewrite scanTracks_spec.
      unfold hasListeners, v1. cbn [member setPeerObjects peerObjects].
      rewrite lookup_alter_eq, Ho. done. }
    by rewrite Hbound.
Qed.

(** A remote member's view, rendered, with one link that is being checked and
    whose stream holds a microphone track. *)
Definition waitingView : View :=
  {| member :=
       {| outgoing := false; _peers := [("p1"%string, 11%nat)];
          streamingPeer := None; stream := None;
          classStreaming := false; classAudioOnly := false;
          soundMeter := None; soundRMS := (-1)%Q; soundDBV := (-100)%Z;
          streamChanged := 100%Z; videoEl := Some None;
          peerObjects := {[ 11%nat := {| connected := false;
                                          _viewListeners := false;
                                          receiverTracks := [];
                                          closed := false |} ]};
          log := [] |};
     classSilenced := false;
     tracksOf := {[ 5%nat := [{| kind := audio; enabled := true;
                                  muted := false |}] ]};
     metaStream := {[ 11%nat := 5%nat ]};
     silencedTriggers := [] |}.

Lemma silenced_view_has_no_enabled_audio_witness :
  Forall (fun t => isAudio t = true -> enabled t = false)
    (renderedTracks
       (fold_left step [ToggleSilenced (Some true); BindPeer 200 11%nat]
          waitingView)).
Proof.
  exact (silenced_view_has_no_enabled_audio waitingView
           [ToggleSilenced (Some true); BindPeer 200 11%nat]
           eq_refl eq_refl).
Defined.

Lemma bindPeer_takes_over_the_stream_witness :
  streamingPeer (member (bindPeer 200 11%nat waitingView)) = Some 11%nat
  /\ classStreaming (member (bindPeer 200 11%nat waitingView)) = false.
Proof.
  destruct (bindPeer_takes_over_the_stream 200 300 11%nat 5%nat
              {| connected := false; _viewListeners := false;
                 receiverTracks := []; closed := false |} waitingView)
    as (H1 & _ & H3 & _); [reflexivity | reflexivity | reflexivity |].
  split; [exact H1 | by apply H3].
Defined.

End Rendering.

(** ** Reconciliation: [peerCheck] and [_schedPeerActionSoon] *)

Module Reconcile.

Import Member.
Import Rendering.

(** The callbacks [peerCheck] hands to [_schedPeerActionSoon]. *)
Inductive Action :=
| WhenNoPeers                     (* scheduled when the member has no link *)
| WhenStale (p : PeerRef)         (* scheduled for a stale link *)
| WhenRedundant (p : PeerRef).    (* scheduled for a redundant connected link *)

(** What a callback asks of the call view and of the member view. *)
Inductive Request :=
| RemoveMemberView                (* callView.removeMemberView(this) *)
| Establish.                      (* this.establish() *)

(** A timer handle is a positive number, hence truthy.  [scheduled] holds the
    timers that have not fired yet, oldest first; the delay of each is drawn
    at random between one and four seconds, so they may fire in any order. *)
Record State := {
  view : View;
  _peerActionTimeout : option positive;
  lastHandle : positive;
  scheduled : list (positive * Action);
  requests : list Request
}.

(** [_schedPeerActionSoon(callback)] *)
Definition _schedPeerActionSoon (a : Action) (s : State) : State :=
  let h := Pos.succ (lastHandle s) in
  {| view := view s; _peerActionTimeout := Some h; lastHandle := h;
     scheduled := scheduled s ++ [(h, a)]; requests := requests s |}.

Definition setView (v : View) (s : State) : State :=
  {| view := v; _peerActionTimeout := _peerActionTimeout s;
     lastHandle := lastHandle s; scheduled := scheduled s;
     requests := requests s |}.

(** [peerCheck()] at time [now]; [stale] is what [isStale()] answers for each
    link at that time.  The statistics it gathers first are left out, and
    nothing else is taken to run while it waits for them. *)
Definition peerCheck (now : Z) (stale : PeerRef -> bool) (s : State) : State :=
  let peers := getPeers (member (view s)) in
  if defined (_peerActionTimeout s) then s
  else if (length peers =? 0)%nat then _schedPeerActionSoon WhenNoPeers s
  else
    let s1 :=
      fold_left (fun acc p => _schedPeerActionSoon (WhenStale p) acc)
                (List.filter stale peers) s in
    let connected := List.filter (isConnected (member (view s))) peers in
    let s2 :=
      match last connected with
      | Some newest =>
          if negb (defined (streamingPeer (member (view s1))))
          then setView (updateStream now (metaStream (view s1) !! newest)
                          (Some newest) (view s1)) s1
          else s1
      | None => s1
      end in
    if (1 <? length connected)%nat then
      match List.find
              (fun p => negb (sameRef (streamingPeer (member (view s2))) p))
              connected with
      | Some p => _schedPeerActionSoon (WhenRedundant p) s2
      | None => s2
      end
    else s2.

Definition onMember (f : CallMemberView -> CallMemberView) (v : View) : View :=
  {| member := f (member v); classSilenced := classSilenced v;
     tracksOf := tracksOf v; metaStream := metaStream v;
     silencedTriggers := silencedTriggers v |}.

(** The body of a callback, at time [now]. *)
Definition runAction (now : Z) (a : Action) (s : State) : State :=
  match a with
  | WhenNoPeers =>
      if (length (getPeers (member (view s))) =? 0)%nat then
        {| view := view s; _peerActionTimeout := _peerActionTimeout s;
           lastHandle := lastHandle s; scheduled := scheduled s;
           requests :=
             requests s
             ++ [if 60000 <? now - streamChanged (member (view s))
                 then RemoveMemberView else Establish] |}
      else s
  | WhenStale p => setView (onMember (reapStale p now) (view s)) s
  | WhenRedundant p => setView (onMember (reapRedundant p now) (view s)) s
  end.

(** The timer with handle [h] fires at time [now]: the callback runs, and
    [finally] the view forgets the handle it holds, whichever it is. *)
Definition timerFires (now : Z) (h : positive) (s : State) : State :=
  match List.find (fun t => Pos.eqb t.1 h) (scheduled s) with
  | Some (_, a) =>
      let s1 :=
        runAction now a
          {| view := view s; _peerActionTimeout := _peerActionTimeout s;
             lastHandle := lastHandle s;
             scheduled := List.filter (fun t => negb (Pos.eqb t.1 h))
                                      (scheduled s);
             requests := requests s |} in
      {| view := view s1; _peerActionTimeout := None;
         lastHandle := lastHandle s1; scheduled := scheduled s1;
         requests := requests s1 |}
  | None => s
  end.

Lemma sched_fold (actions : list Action) : forall s,
  let s' := fold_left (fun acc a => _schedPeerActionSoon a acc) actions s in
  view s' = view s
  /\ requests s' = requests s
  /\ map snd (scheduled s') = map snd (scheduled s) ++ actions
  /\ (actions = [] -> s' = s).
Proof.
  induction actions as [|a rest IH]; intros s; simpl.
  - by rewrite app_nil_r.
  - destruct (IH (_schedPeerActionSoon a s)) as (H1 & H2 & H3 & _).
    split; [done|]. split; [done|]. split; [|done].
    rewrite H3. simpl. rewrite map_app. simpl. by rewrite <- app_assoc.
Qed.

Lemma fold_sched_map {A} (f : A -> Action) (l : list A) s :
  fold_left (fun acc p => _schedPeerActionSoon (f p) acc) l s
  = fold_left (fun acc a => _schedPeerActionSoon a acc) (map f l) s.
Proof. revert s. induction l as [|x l IH]; intros s; simpl; [done|]. apply IH. Qed.

Lemma last_in {A} (l : list A) x : last l = Some x -> In x l.
Proof.
  intros H. apply last_Some in H as [l' ->]. apply in_app_iff. right. by left.
Qed.

(** In a list without repetition, the first element is not the last one as
    soon as there are two. *)
Lemma find_not_last (c1 : PeerRef) rest newest :
  NoDup (c1 :: rest) -> last (c1 :: rest) = Some newest -> rest <> [] ->
  List.find (fun p => negb (sameRef (Some newest) p)) (c1 :: rest) = Some c1.
Proof.
  intros Hnd Hlast Hne. simpl.
  assert (Hdiff : newest <> c1).
  { intros ->. apply NoDup_cons in Hnd as [Hnot _]. apply Hnot.
    destruct rest as [|y rest]; [done|].
    rewrite last_cons_cons in Hlast.
    apply list_elem_of_In. by apply last_in. }
  apply Nat.eqb_neq in Hdiff. by rewrite Hdiff.
Qed.

Lemma NoDup_filter_list {A} (f : A -> bool) (l : list A) :
  NoDup l -> NoDup (List.filter f l).
Proof.
  induction l as [|x l IH]; simpl; [done|]. intros H.
  apply NoDup_cons in H as [Hx Hl].
  destruct (f x); [|by apply IH].
  apply NoDup_cons. split; [|by apply IH].
  intros Hin. apply Hx. apply list_elem_of_In in Hin.
  apply List.filter_In in Hin as [Hin _]. by apply list_elem_of_In.
Qed.

(** X23 ([peerCheck]).  With no action pending, no streaming link and at
    least one connected link, a pass binds the stream of the newest connected
    link (the last filed) and makes it the streaming link.  It schedules one
    removal for each stale link and, when two or more links are connected,
    one more for the oldest connected link and for no other: the link just
    bound is not scheduled. *)
Theorem peerCheck_binds_newest_and_reaps_oldest (now : Z)
    (stale : PeerRef -> bool) (s : State)
    (oldest newest : PeerRef) (others : list PeerRef) (sr : StreamRef) :
  _peerActionTimeout s = None ->
  streamingPeer (member (view s)) = None ->
  NoDup (getPeers (member (view s))) ->
  List.filter (isConnected (member (view s))) (getPeers (member (view s)))
  = oldest :: others ->
  last (oldest :: others) = Some newest ->
  metaStream (view s) !! newest = Some sr ->
  let s' := peerCheck now stale s in
  streamingPeer (member (view s')) = Some newest
  /\ stream (member (view s')) = Some sr
  /\ _peers (member (view s')) = _peers (member (view s))
  /\ map snd (scheduled s')
     = map snd (scheduled s)
       ++ map WhenStale (List.filter stale (getPeers (member (view s))))
       ++ (if (length others =? 0)%nat then [] else [WhenRedundant oldest])
  /\ requests s' = requests s.
Proof.
  intros Hidle Hnone Hnd Hconn Hlast Hmeta s'.
  unfold s', peerCheck. rewrite Hidle. cbn [defined].
  assert (Hpeers : (length (getPeers (member (view s))) =? 0)%nat = false).
  { destruct (getPeers (member (view s))); [done|done]. }
  rewrite Hpeers, Hconn, Hlast.
  rewrite fold_sched_map.
  set (stales := map WhenStale (List.filter stale (getPeers (member (view s))))).
  destruct (sched_fold stales s) as (S1 & S2 & S3 & _).
  set (s1 := fold_left _ stales s) in *.
  rewrite S1, Hnone, Hmeta. cbn [defined negb].
  destruct (updateStream_rendered now sr (Some newest) (view s))
    as (U1 & U2 & _ & _).
  assert (U3 : _peers (member (updateStream now (Some sr) (Some newest) (view s)))
               = _peers (member (view s))).
  { unfold updateStream. by destruct (scanTracks _ _ _ _) as [[? ?] ?]. }
  set (v2 := updateStream now (Some sr) (Some newest) (view s)) in *.
  destruct others as [|c2 rest].
  - cbn [length Nat.ltb Nat.leb Nat.eqb]. cbn [setView view scheduled requests].
    rewrite S3, app_nil_r. done.
  - assert (Hlen : (1 <? length (oldest :: c2 :: rest))%nat = true) by done.
    rewrite Hlen. cbn [setView view]. rewrite U2.
    rewrite (find_not_last oldest (c2 :: rest) newest); [|  | done | done].
    + cbn [_schedPeerActionSoon setView view scheduled requests].
      rewrite map_app, S3. simpl. rewrite <- app_assoc. done.
    + rewrite <- Hconn. by apply NoDup_filter_list.
Qed.


(** A remote member with two connected links and nothing rendered. *)
Definition twoLinks : State :=
  {| view :=
       {| member :=
            {| outgoing := false;
               _peers := [("p1"%string, 11%nat); ("p2"%string, 12%nat)];
               streamingPeer := None; stream := None;
               classStreaming := false; classAudioOnly := false;
               soundMeter := None; soundRMS := (-1)%Q; soundDBV := (-100)%Z;
               streamChanged := 100%Z; videoEl := Some None;
               peerObjects := {[ 11%nat := liveLink; 12%nat := liveLink ]};
               log := [] |};
          classSilenced := false;
          tracksOf := {[ 5%nat := []; 6%nat := [] ]};
          metaStream := {[ 11%nat := 5%nat; 12%nat := 6%nat ]};
          silencedTriggers := [] |};
     _peerActionTimeout := None; lastHandle := 1%positive;
     scheduled := []; requests := [] |}.

Lemma peerCheck_binds_newest_and_reaps_oldest_witness :
  streamingPeer (member (view (peerCheck 5000 (fun _ => false) twoLinks)))
  = Some 12%nat
  /\ map snd (scheduled (peerCheck 5000 (fun _ => false) twoLinks))
     = [WhenRedundant 11%nat].
Proof.
  destruct (peerCheck_binds_newest_and_reaps_oldest
              5000 (fun _ => false) twoLinks 11%nat 12%nat [12%nat] 6%nat)
    as (H1 & _ & _ & H4 & _);
    try reflexivity.
  - simpl. apply NoDup_cons. split.
    + intros Hin. apply list_elem_of_In in Hin. simpl in Hin.
      destruct Hin as [Hin|[]]. discriminate.
    + apply NoDup_cons. split; [|apply NoDup_nil_2].
      intros Hin. apply list_elem_of_In in Hin. destruct Hin.
  - split; [exact H1 | exact H4].
Defined.



End Reconcile.

(** ** Candidates on their way to a link: [onPeerICECandidates],
       [onPeerAcceptOffer], [handlePeerAcceptOffer] *)

Module Signalling.

Import CandidateQueue.

(** What the handlers read and write of a peer connection: whether its
    remote description is set, and the candidates handed to
    [addIceCandidate], in order. *)
Record Link := {
  remoteDescription : bool;
  added : list ICECandidate
}.

(** The call view: the class [joined], the links of every member view (the
    member views by address, the [_peers] of each by peer id), and the queue
    of early candidates. *)
Record CallView := {
  classJoined : bool;
  links : gmap string (gmap string Link);
  _earlyICECandidates : EarlyICECandidates
}.

(** A control message: whether its call id is that of the manager, the
    address of its sender and its [data.peerId] (empty when missing). *)
Record Message := {
  callIdMatches : bool;
  addr : string;
  peerId : string;
  icecandidates : list ICECandidate
}.

Definition isJoined (cv : CallView) : bool := classJoined cv.

(** [view && view.getPeer(peerId)] *)
Definition getPeer (cv : CallView) (a id : string) : option Link :=
  links cv !! a ≫= (fun peers => peers !! id).

Definition setPeer (a id : string) (l : Link) (cv : CallView) : CallView :=
  {| classJoined := classJoined cv;
     links := <[a := <[id := l]> (default ∅ (links cv !! a))]> (links cv);
     _earlyICECandidates := _earlyICECandidates cv |}.

Definition enqueue (id : string) (cs : list ICECandidate) (cv : CallView)
  : CallView :=
  {| classJoined := classJoined cv; links := links cv;
     _earlyICECandidates :=
       enqueueEarlyICECandidates (_earlyICECandidates cv) id cs |}.

Inductive Outcome := Returned | Thrown.   (* an assertion failed *)

(** [onPeerICECandidates(ev)]; the calls of [addIceCandidate] are taken to
    succeed.
    Modelled from the spec: [F.assert] is not under src/; a violated
    invariant is raised at once. *)
Definition onPeerICECandidates (ev : Message) (cv : CallView)
  : CallView * Outcome :=
  if negb (callIdMatches ev) then (cv, Thrown)
  else if String.eqb (peerId ev) "" then (cv, Thrown)
  else if negb (isJoined cv)
  then (enqueue (peerId ev) (icecandidates ev) cv, Returned)
  else
    match getPeer cv (addr ev) (peerId ev) with
    | Some peer =>
        if remoteDescription peer then
          (setPeer (addr ev) (peerId ev)
             {| remoteDescription := true;
                added := added peer ++ icecandidates ev |} cv,
           Returned)
        else (enqueue (peerId ev) (icecandidates ev) cv, Returned)
    | None => (enqueue (peerId ev) (icecandidates ev) cv, Returned)
    end.

(** [onPeerAcceptOffer(ev)] and the [handlePeerAcceptOffer(ev.data)] of the
    member view it finds, with the answer taken to be applied without error
    and nothing else running while it is.  The early candidates are drained
    once the remote description is set. *)
Definition onPeerAcceptOffer (ev : Message) (cv : CallView)
  : CallView * Outcome :=
  if negb (callIdMatches ev) then (cv, Thrown)
  else
    match links cv !! addr ev with
    | None => (cv, Returned)                (* not a member: logged *)
    | Some peers =>
        match peers !! peerId ev with
        | None => (cv, Returned)            (* an offer we rescinded: logged *)
        | Some peer =>
            let cv1 :=
              setPeer (addr ev) (peerId ev)
                {| remoteDescription := true; added := added peer |} cv in
            match drainEarlyICECandidates (_earlyICECandidates cv1)
                                          (peerId ev) with
            | (None, q) =>
                ({| classJoined := classJoined cv1; links := links cv1;
                    _earlyICECandidates := q |}, Returned)
            | (Some early, q) =>
                let cv2 := {| classJoined := classJoined cv1;
                              links := links cv1;
                              _earlyICECandidates := q |} in
                if (length early =? 0)%nat then (cv2, Thrown)
                else
                  (setPeer (addr ev) (peerId ev)
                     {| remoteDescription := true;
                        added := added peer ++ early |} cv2,
                   Returned)
            end
        end
    end.

(** A run of candidate messages; a handler that raises leaves the view as it
    was. *)
Definition deliver (events : list Message) (cv : CallView) : CallView :=
  fold_left (fun acc ev => (onPeerICECandidates ev acc).1) events cv.

Definition valid (ev : Message) : bool :=
  callIdMatches ev && negb (String.eqb (peerId ev) "").

(** The candidates of the messages that name [id], in arrival order, and
    whether a message names it. *)
Definition arrived (id : string) (events : list Message) : list ICECandidate :=
  concat (map icecandidates
            (List.filter (fun ev => valid ev && String.eqb (peerId ev) id)
                         events)).

Definition named (id : string) (events : list Message) : bool :=
  existsb (fun ev => valid ev && String.eqb (peerId ev) id) events.

Lemma getPeer_setPeer_same a id l cv : getPeer (setPeer a id l cv) a id = Some l.
Proof.
  unfold getPeer, setPeer. simpl. rewrite lookup_insert_eq. simpl.
  by rewrite lookup_insert_eq.
Qed.

Lemma getPeer_setPeer_other a id a' id' l cv :
  id' <> id -> getPeer (setPeer a' id' l cv) a id = getPeer cv a id.
Proof.
  intros Hne. unfold getPeer, setPeer. simpl.
  destruct (decide (a' = a)) as [->|Ha].
  - rewrite lookup_insert_eq. simpl. rewrite lookup_insert_ne by done.
    destruct (links cv !! a); simpl; [done|]. by rewrite lookup_empty.
  - by rewrite lookup_insert_ne.
Qed.

Lemma arrived_cons id ev events :
  arrived id (ev :: events)
  = (if valid ev && String.eqb (peerId ev) id then icecandidates ev else [])
    ++ arrived id events.
Proof.
  unfold arrived. simpl.
  by destruct (valid ev && String.eqb (peerId ev) id).
Qed.

Lemma arrived_unnamed id events : named id events = false -> arrived id events = [].
Proof.
  induction events as [|ev rest IH]; [done|].
  rewrite arrived_cons. cbn [named existsb]. fold (named id rest).
  intros H. apply orb_false_iff in H as [-> H]. by rewrite IH.
Qed.

(** While the link has no remote description, every candidate that names it
    goes to the queue. *)
Lemma deliver_before a id link events : forall cv,
  getPeer cv a id = Some link -> remoteDescription link = false ->
  Forall (fun ev => peerId ev = id -> addr ev = a) events ->
  let cv' := deliver events cv in
  getPeer cv' a id = Some link
  /\ classJoined cv' = classJoined cv
  /\ _earlyICECandidates cv' !! id
     = if named id events
       then Some (default [] (_earlyICECandidates cv !! id) ++ arrived id events)
       else _earlyICECandidates cv !! id.
Proof.
  induction events as [|ev rest IH]; intros cv Hlink Hrd Hall; [done|].
  inversion Hall as [|? ? Haddr Hrest]; subst.
  cbn [deliver fold_left]. fold (deliver rest (onPeerICECandidates ev cv).1).
  rewrite arrived_cons. cbn [named existsb]. fold (named id rest).
  assert (Hstep :
    getPeer (onPeerICECandidates ev cv).1 a id = Some link
    /\ classJoined (onPeerICECandidates ev cv).1 = classJoined cv
    /\ _earlyICECandidates (onPeerICECandidates ev cv).1 !! id
       = if valid ev && String.eqb (peerId ev) id
         then Some (default [] (_earlyICECandidates cv !! id)
                    ++ icecandidates ev)
         else _earlyICECandidates cv !! id).
  { unfold onPeerICECandidates, valid.
    destruct (callIdMatches ev); simpl; [|done].
    destruct (String.eqb (peerId ev) "") eqn:Ee; simpl; [done|].
    destruct (String.eqb (peerId ev) id) eqn:Ei.
    - apply String.eqb_eq in Ei. rewrite (Haddr Ei), Ei, Hlink, Hrd.
      destruct (isJoined cv); simpl; by rewrite enqueue_lookup_same.
    - apply String.eqb_neq in Ei.
      destruct (isJoined cv); simpl;
        [|by rewrite enqueue_lookup_other].
      destruct (getPeer cv (addr ev) (peerId ev)) as [peer|]; simpl;
        [|by rewrite enqueue_lookup_other].
      destruct (remoteDescription peer); simpl;
        [|by rewrite enqueue_lookup_other].
      by rewrite getPeer_setPeer_other. }
  destruct Hstep as (S1 & S2 & S3).
  destruct (IH _ S1 Hrd Hrest) as (I1 & I2 & I3).
  split; [done|]. split; [congruence|].
  rewrite I3, S3.
  destruct (valid ev && String.eqb (peerId ev) id); simpl.
  - destruct (named id rest) eqn:En; simpl; [by rewrite <- app_assoc|].
    by rewrite (arrived_unnamed _ _ En), app_nil_r.
  - done.
Qed.

(** Once the link has its remote description and the view is joined, every
    candidate that names it is handed to it. *)
Lemma deliver_after a id events : forall cv link,
  getPeer cv a id = Some link -> remoteDescription link = true ->
  classJoined cv = true ->
  Forall (fun ev => peerId ev = id -> addr ev = a) events ->
  let cv' := deliver events cv in
  (exists link', getPeer cv' a id = Some link'
                 /\ remoteDescription link' = true
                 /\ added link' = added link ++ arrived id events)
  /\ classJoined cv' = true
  /\ _earlyICECandidates cv' !! id = _earlyICECandidates cv !! id.
Proof.
  induction events as [|ev rest IH]; intros cv link Hlink Hrd Hj Hall.
  - cbn. split; [|done]. exists link. by rewrite app_nil_r.
  - inversion Hall as [|? ? Haddr Hrest]; subst.
    cbn [deliver fold_left]. fold (deliver rest (onPeerICECandidates ev cv).1).
    rewrite arrived_cons.
    assert (Hstep : exists link1,
      getPeer (onPeerICECandidates ev cv).1 a id = Some link1
      /\ remoteDescription link1 = true
      /\ added link1
         = added link
           ++ (if valid ev && String.eqb (peerId ev) id
               then icecandidates ev else [])
      /\ classJoined (onPeerICECandidates ev cv).1 = true
      /\ _earlyICECandidates (onPeerICECandidates ev cv).1 !! id
         = _earlyICECandidates cv !! id).
    { unfold onPeerICECandidates, valid, isJoined. rewrite Hj.
      destruct (callIdMatches ev); simpl;
        [|exists link; by rewrite app_nil_r].
      destruct (String.eqb (peerId ev) "") eqn:Ee; simpl;
        [exists link; by rewrite app_nil_r|].
      destruct (String.eqb (peerId ev) id) eqn:Ei.
      - apply String.eqb_eq in Ei. rewrite (Haddr Ei), Ei, Hlink, Hrd.
        eexists. cbn [fst]. rewrite getPeer_setPeer_same. done.
      - apply String.eqb_neq in Ei.
        destruct (getPeer cv (addr ev) (peerId ev)) as [peer|]; simpl.
        + destruct (remoteDescription peer); simpl.
          * exists link. rewrite getPeer_setPeer_other by done.
            by rewrite app_nil_r.
          * exists link. rewrite enqueue_lookup_other by done.
            by rewrite app_nil_r.
        + exists link. rewrite enqueue_lookup_other by done.
          by rewrite app_nil_r. }
    destruct Hstep as (link1 & S1 & S2 & S3 & S4 & S5).
    destruct (IH _ link1 S1 S2 S4 Hrest) as ((link' & I1 & I2 & I3) & I4 & I5).
    split; [|split; [done | congruence]].
    exists link'. split; [done|]. split; [done|].
    by rewrite I3, S3, <- app_assoc.
Qed.

Lemma drain_lookup (q : EarlyICECandidates) id :
  drainEarlyICECandidates q id = (q !! id, delete id q).
Proof. apply drain_spec. Qed.

(** X25 ([onPeerICECandidates], [handlePeerAcceptOffer]).  No candidate is
    lost or reordered on its way to a link: for a link that awaits its answer,
    in a joined call, the candidates that arrive before the answer are queued
    and those that arrive after it are handed over at once, so that after the
    answer and any further messages the link has been handed exactly the
    candidates that named it, in arrival order, and nothing is left in the
    queue for it.  (Messages for other links may come in between; an id names
    one link; the messages before the answer carry at least one candidate if
    there is any of them.) *)
Theorem candidates_reach_the_link_in_arrival_order
    (cv : CallView) (a id : string) (link : Link)
    (before after : list Message) :
  getPeer cv a id = Some link ->
  remoteDescription link = false ->
  _earlyICECandidates cv !! id = None ->
  classJoined cv = true ->
  Forall (fun ev => peerId ev = id -> addr ev = a) (before ++ after) ->
  (named id before = true -> arrived id before <> []) ->
  let answer := {| callIdMatches := true; addr := a; peerId := id;
                   icecandidates := [] |} in
  let cv1 := deliver before cv in
  let cv2 := (onPeerAcceptOffer answer cv1).1 in
  let cv3 := deliver after cv2 in
  (onPeerAcceptOffer answer cv1).2 = Returned
  /\ (exists link', getPeer cv3 a id = Some link'
                    /\ remoteDescription link' = true
                    /\ added link'
                       = added link ++ arrived id before ++ arrived id after)
  /\ _earlyICECandidates cv3 !! id = None.
Proof.
  intros Hlink Hrd Hq Hj Hall Hnonempty answer cv1 cv2 cv3.
  apply Forall_app in Hall as [Hb Ha].
  destruct (deliver_before a id link before cv Hlink Hrd Hb) as (B1 & B2 & B3).
  fold cv1 in B1, B2, B3. rewrite Hq in B3. simpl in B3.
  assert (Hlinks : exists peers, links cv1 !! a = Some peers
                                 /\ peers !! id = Some link).
  { unfold getPeer in B1. destruct (links cv1 !! a) as [peers|]; [|done].
    eauto. }
  destruct Hlinks as (peers & Hpeers & Hpeer).
  assert (Haccept :
    (onPeerAcceptOffer answer cv1).2 = Returned
    /\ getPeer cv2 a id
       = Some {| remoteDescription := true;
                 added := added link ++ arrived id before |}
    /\ classJoined cv2 = true
    /\ _earlyICECandidates cv2 !! id = None).
  { unfold cv2, onPeerAcceptOffer, answer. cbn [callIdMatches addr peerId negb].
    rewrite Hpeers, Hpeer, drain_lookup. cbn [setPeer _earlyICECandidates].
    rewrite B3.
    destruct (named id before) eqn:En.
    - specialize (Hnonempty eq_refl).
      destruct (arrived id before) as [|c cs] eqn:Ea'; [done|].
      cbn [length Nat.eqb fst snd].
      rewrite getPeer_setPeer_same. unfold setPeer.
      cbn [classJoined _earlyICECandidates].
      rewrite lookup_delete_eq. rewrite B2, Hj. done.
    - cbn [fst snd]. rewrite (arrived_unnamed _ _ En), app_nil_r.
      split; [done|]. unfold getPeer, setPeer.
      cbn [links classJoined _earlyICECandidates].
      rewrite lookup_insert_eq. cbn. rewrite Hpeers. cbn.
      rewrite lookup_insert_eq, lookup_delete_eq, B2, Hj. done. }
  destruct Haccept as (A1 & A2 & A3 & A4).
  destruct (deliver_after a id after cv2 _ A2 eq_refl A3 Ha)
    as ((link' & L1 & L2 & L3) & _ & L5).
  fold cv3 in L1, L5.
  split; [done|]. split.
  - exists link'. split; [done|]. split; [done|].
    rewrite L3. cbn [added]. by rewrite <- app_assoc.
  - by rewrite L5.
Qed.

(** X26 ([enqueueEarlyICECandidates], [handlePeerAcceptOffer]).  A
    candidates message without any candidate, arriving for a link that awaits
    its answer, files an empty bucket for the link; the answer then finds the
    bucket, and its assertion on the bucket's length is raised, after the
    remote description has been set and the bucket taken out of the queue. *)
Theorem empty_candidates_message_trips_the_answer
    (cv : CallView) (a id : string) (link : Link) :
  getPeer cv a id = Some link ->
  remoteDescription link = false ->
  _earlyICECandidates cv !! id = None ->
  id <> ""%string ->
  let empty := {| callIdMatches := true; addr := a; peerId := id;
                  icecandidates := [] |} in
  let cv1 := (onPeerICECandidates empty cv).1 in
  let answered := onPeerAcceptOffer empty cv1 in
  _earlyICECandidates cv1 !! id = Some []
  /\ answered.2 = Thrown
  /\ getPeer answered.1 a id
     = Some {| remoteDescription := true; added := added link |}
  /\ _earlyICECandidates answered.1 !! id = None.
Proof.
  intros Hlink Hrd Hq Hid empty cv1 answered.
  assert (Hb : Forall (fun ev => peerId ev = id -> addr ev = a) [empty])
    by (by constructor).
  destruct (deliver_before a id link [empty] cv Hlink Hrd Hb) as (B1 & B2 & B3).
  cbn [deliver fold_left] in B1, B2, B3. fold cv1 in B1, B2, B3.
  assert (Hnamed : named id [empty] = true).
  { unfold named, valid, empty. cbn. apply String.eqb_neq in Hid.
    by rewrite Hid, String.eqb_refl. }
  rewrite Hnamed, Hq in B3.
  assert (Ha : arrived id [empty] = []).
  { rewrite arrived_cons.
    by destruct (valid empty && String.eqb (peerId empty) id). }
  rewrite Ha in B3. cbn in B3.
  split; [done|].
  assert (Hlinks : exists peers, links cv1 !! a = Some peers
                                 /\ peers !! id = Some link).
  { unfold getPeer in B1. destruct (links cv1 !! a) as [peers|]; [|done].
    eauto. }
  destruct Hlinks as (peers & Hpeers & Hpeer).
  unfold answered, onPeerAcceptOffer, empty. cbn [callIdMatches addr peerId negb].
  rewrite Hpeers, Hpeer, drain_lookup. cbn [setPeer _earlyICECandidates].
  rewrite B3. cbn [length Nat.eqb fst snd].
  split; [done|]. unfold getPeer, setPeer. cbn [links _earlyICECandidates].
  rewrite lookup_insert_eq. cbn. rewrite Hpeers. cbn.
  by rewrite lookup_insert_eq, lookup_delete_eq.
Qed.

(** A joined call in which alice's link "p1" awaits its answer. *)
Definition awaiting : CallView :=
  {| classJoined := true;
     links := {[ "alice.1"%string
                 := {[ "p1"%string := {| remoteDescription := false;
                                         added := [] |} ]} ]};
     _earlyICECandidates := ∅ |}.

Definition from (id : string) (cs : list ICECandidate) : Message :=
  {| callIdMatches := true; addr := "alice.1"; peerId := id;
     icecandidates := cs |}.

Lemma candidates_reach_the_link_in_arrival_order_witness :
  exists link',
    getPeer
      (deliver [from "p1" [c3]]
         (onPeerAcceptOffer (from "p1" [])
            (deliver [from "p1" [c1]; from "p1" [c2]] awaiting)).1)
      "alice.1" "p1" = Some link'
    /\ added link' = [c1; c2; c3].
Proof.
  destruct (candidates_reach_the_link_in_arrival_order
              awaiting "alice.1" "p1"
              {| remoteDescription := false; added := [] |}
              [from "p1" [c1]; from "p1" [c2]] [from "p1" [c3]])
    as (_ & (link' & H1 & _ & H3) & _);
    try reflexivity.
  - repeat constructor.
  - intros _. discriminate.
  - exists link'. split; [exact H1 | exact H3].
Defined.

Lemma empty_candidates_message_trips_the_answer_witness :
  (onPeerAcceptOffer (from "p1" [])
     (onPeerICECandidates (from "p1" []) awaiting).1).2 = Thrown.
Proof.
  refine (proj1 (proj2 (empty_candidates_message_trips_the_answer
                          awaiting "alice.1" "p1"
                          {| remoteDescription := false; added := [] |}
                          _ _ _ _))).
  - reflexivity.
  - reflexivity.
  - reflexivity.
  - discriminate.
Defined.

End Signalling.

(** ** Leaving a call: [leave], [setJoined] *)

Module Leave.

(** A member view as [leave] sees it: its identity and whether it is the
    local member's. *)
Record MemberView := {
  viewId : nat;
  outgoing : bool
}.

(** What the call view does to the outside, in the order it does it. *)
Inductive Effect :=
| LogWarn (message : string)
| ClearIncoming                     (* clearIncoming(), by setJoined *)
| SendLeave                         (* manager.sendLeave() *)
| RemoveMemberView (view : nat)     (* removeMemberView(view) *)
| BindOutStreamReset.               (* bindOutStream({reset: true}) *)

Record CallView := {
  classJoined : bool;               (* $el has class joined *)
  _leaving : bool;
  _left : option Z;
  joinType : option string;
  memberViews : list MemberView;    (* the values of the Map, in order *)
  effects : list Effect             (* oldest first *)
}.

Definition isJoined (cv : CallView) : bool := classJoined cv.

Definition emit (e : list Effect) (cv : CallView) : CallView :=
  {| classJoined := classJoined cv; _leaving := _leaving cv;
     _left := _left cv; joinType := joinType cv;
     memberViews := memberViews cv; effects := effects cv ++ e |}.

Definition set_leaving (b : bool) (cv : CallView) : CallView :=
  {| classJoined := classJoined cv; _leaving := b;
     _left := _left cv; joinType := joinType cv;
     memberViews := memberViews cv; effects := effects cv |}.

(** [setJoined(false)] at time [now]:
    [this._left = this._left || Date.now()], [clearIncoming()], and the class
    [joined] is taken off. *)
Definition setJoined_false (now : Z) (cv : CallView) : CallView :=
  {| classJoined := false; _leaving := _leaving cv;
     _left := Join.orNow (_left cv) now; joinType := joinType cv;
     memberViews := memberViews cv;
     effects := effects cv ++ [ClearIncoming] |}.

(** The loop over [getMemberViews()]: the local member's view is skipped,
    every other view is removed. *)
Fixpoint removeRemote (views : list MemberView) (cv : CallView) : CallView :=
  match views with
  | [] => cv
  | view :: rest =>
      if outgoing view then removeRemote rest cv
      else
        removeRemote rest
          {| classJoined := classJoined cv; _leaving := _leaving cv;
             _left := _left cv; joinType := joinType cv;
             memberViews :=
               List.filter (fun v => negb (Nat.eqb (viewId v) (viewId view)))
                           (memberViews cv);
             effects := effects cv ++ [RemoveMemberView (viewId view)] |}
  end.

(** How a call of [leave] stands after its synchronous part. *)
Inductive Progress :=
| Ignored                       (* returned at once *)
| AwaitingSend.                 (* suspended at [await sendLeave] *)

(** [leave(options)] up to and including the call of [manager.sendLeave]. *)
Definition leave_begin (now : Z) (cv : CallView) : CallView * Progress :=
  if negb (isJoined cv) || _leaving cv then
    (emit [LogWarn "Ignoring leave request: already left/leaving or not joined"]
          cv, Ignored)
  else
    (emit [SendLeave] (setJoined_false now (set_leaving true cv)),
     AwaitingSend).

Inductive Settled := Fulfilled | Rejected.

Inductive Outcome := Returned | Thrown.

(** The rest of [leave] once the send has settled: the [try] body goes on
    when it was fulfilled, with [bound] telling how [bindOutStream] settles
    when it is called, and [finally] runs in every case. *)
Definition leave_resume (removing : bool) (sent bound : Settled)
    (cv : CallView) : CallView * Outcome :=
  match sent with
  | Rejected => (set_leaving false cv, Thrown)
  | Fulfilled =>
      let cv1 := removeRemote (memberViews cv) cv in
      let cv2 :=
        {| classJoined := classJoined cv1; _leaving := _leaving cv1;
           _left := _left cv1; joinType := None;
           memberViews := memberViews cv1; effects := effects cv1 |} in
      if removing then (set_leaving false cv2, Returned)
      else
        (set_leaving false (emit [BindOutStreamReset] cv2),
         match bound with Fulfilled => Returned | Rejected => Thrown end)
  end.

(** A whole call of [leave] with nothing else running while it waits. *)
Definition leave (removing : bool) (now : Z) (sent bound : Settled)
    (cv : CallView) : CallView * Outcome :=
  match leave_begin now cv with
  | (cv1, Ignored) => (cv1, Returned)
  | (cv1, AwaitingSend) => leave_resume removing sent bound cv1
  end.

(** Views have one identity each. *)
Definition distinctViews (cv : CallView) : Prop :=
  NoDup (map viewId (memberViews cv)).

Lemma removeRemote_spec views : forall cv,
  classJoined (removeRemote views cv) = classJoined cv
  /\ _leaving (removeRemote views cv) = _leaving cv
  /\ _left (removeRemote views cv) = _left cv
  /\ joinType (removeRemote views cv) = joinType cv
  /\ effects (removeRemote views cv)
     = effects cv
       ++ map (fun v => RemoveMemberView (viewId v))
              (List.filter (fun v => negb (outgoing v)) views)
  /\ memberViews (removeRemote views cv)
     = List.filter
         (fun v => negb (existsb (fun r => Nat.eqb (viewId v) (viewId r))
                           (List.filter (fun v => negb (outgoing v)) views)))
         (memberViews cv).
Proof.
  induction views as [|view rest IH]; intros cv; simpl.
  - rewrite app_nil_r. repeat split; try done.
    induction (memberViews cv) as [|v l IHl]; [done|]. simpl. by rewrite <- IHl.
  - destruct (outgoing view); simpl; [apply IH|].
    destruct (IH {| classJoined := classJoined cv; _leaving := _leaving cv;
                    _left := _left cv; joinType := joinType cv;
                    memberViews :=
                      List.filter
                        (fun v => negb (Nat.eqb (viewId v) (viewId view)))
                        (memberViews cv);
                    effects := effects cv ++ [RemoveMemberView (viewId view)] |})
      as (H1 & H2 & H3 & H4 & H5 & H6).
    simpl in *. repeat split; try done.
    + rewrite H5. by rewrite <- app_assoc.
    + rewrite H6. clear.
      induction (memberViews cv) as [|v l IHl]; [done|]. simpl.
      destruct (Nat.eqb (viewId v) (viewId view)); simpl; [done|].
      destruct (existsb _ _); simpl; by rewrite IHl.
Qed.

(** With distinct views, removing the remote ones leaves the local ones. *)
Lemma keep_local (views : list MemberView) :
  NoDup (map viewId views) ->
  List.filter
    (fun v => negb (existsb (fun r => Nat.eqb (viewId v) (viewId r))
                      (List.filter (fun v => negb (outgoing v)) views)))
    views
  = List.filter outgoing views.
Proof.
  intros Hnd. apply filter_ext_in. intros v Hin.
  destruct (outgoing v) eqn:Eo.
  - apply negb_true_iff. apply not_true_iff_false. intros H.
    apply existsb_exists in H as (r & Hr & Heq).
    apply List.filter_In in Hr as [Hr Hro]. apply Nat.eqb_eq in Heq.
    assert (v = r).
    { clear -Hnd Hin Hr Heq. induction views as [|x l IH]; [done|].
      simpl in Hnd. apply NoDup_cons in Hnd as [Hx Hl].
      destruct Hin as [->|Hin], Hr as [->|Hr]; try done.
      - exfalso. apply Hx, list_elem_of_In. rewrite Heq. by apply in_map.
      - exfalso. apply Hx, list_elem_of_In. rewrite <- Heq. by apply in_map.
      - by apply IH. }
    subst r. rewrite Eo in Hro. done.
  - apply negb_false_iff, existsb_exists. exists v. split.
    + apply List.filter_In. by rewrite Eo.
    + apply Nat.eqb_refl.
Qed.

(** X27 ([leave], [setJoined]).  [leave] does nothing but log when the view
    is not joined or is leaving already.  Otherwise the view is marked left
    (class [joined] off, time of leaving kept from the first time) before the
    leave announcement is sent; whether the announcement or the rebuilding of
    the outgoing stream succeeds or fails, the leaving flag is off when the
    call is over.  When the announcement fails the member views stay as they
    are; when it succeeds every remote member view is removed, in order, the
    local one stays, the join type is reset, and the outgoing stream is
    rebuilt unless the view is being removed. *)
Theorem leave_guarded_and_flag_cleared (removing : bool) (now : Z)
    (sent bound : Settled) (cv : CallView) :
  distinctViews cv ->
  let result := leave removing now sent bound cv in
  (negb (isJoined cv) || _leaving cv = true ->
   result
   = (emit [LogWarn "Ignoring leave request: already left/leaving or not joined"]
           cv, Returned))
  /\ (negb (isJoined cv) || _leaving cv = false ->
      _leaving result.1 = false
      /\ classJoined result.1 = false
      /\ _left result.1 = Join.orNow (_left cv) now
      /\ (sent = Rejected ->
          result.2 = Thrown
          /\ memberViews result.1 = memberViews cv
          /\ joinType result.1 = joinType cv
          /\ effects result.1 = effects cv ++ [ClearIncoming; SendLeave])
      /\ (sent = Fulfilled ->
          memberViews result.1 = List.filter outgoing (memberViews cv)
          /\ joinType result.1 = None
          /\ effects result.1
             = effects cv ++ [ClearIncoming; SendLeave]
               ++ map (fun v => RemoveMemberView (viewId v))
                      (List.filter (fun v => negb (outgoing v))
                                   (memberViews cv))
               ++ (if removing then [] else [BindOutStreamReset])
          /\ result.2 = (if removing then Returned
                         else match bound with
                              | Fulfilled => Returned
                              | Rejected => Thrown
                              end))).
Proof.
  intros Hnd result. unfold result, leave, leave_begin. split.
  - by intros ->.
  - intros ->. cbn [fst snd leave_resume].
    set (cv0 := emit [SendLeave] (setJoined_false now (set_leaving true cv))).
    destruct sent.
    + destruct (removeRemote_spec (memberViews cv0) cv0)
        as (R1 & R2 & R3 & R4 & R5 & R6).
      assert (Hkeep : memberViews (removeRemote (memberViews cv0) cv0)
                      = List.filter outgoing (memberViews cv)).
      { rewrite R6. by apply keep_local. }
      assert (He0 : effects cv0 = effects cv ++ [ClearIncoming; SendLeave]).
      { unfold cv0. simpl. by rewrite <- app_assoc. }
      assert (Hm0 : memberViews cv0 = memberViews cv) by done.
      destruct removing; unfold leave_resume;
        cbn [fst snd set_leaving emit _leaving classJoined
               _left memberViews joinType effects];
        rewrite R1, R3, R5, Hkeep, He0, Hm0, <- ?app_assoc, ?app_nil_r;
        repeat split; done.
    + unfold cv0. simpl. rewrite <- app_assoc. repeat split; done.
Qed.

(** A joined call with the local member and two remote ones. *)
Definition joinedCall : CallView :=
  {| classJoined := true; _leaving := false; _left := None;
     joinType := Some "video"%string;
     memberViews := [ {| viewId := 0; outgoing := true |};
                      {| viewId := 1; outgoing := false |};
                      {| viewId := 2; outgoing := false |} ];
     effects := [] |}.

Lemma leave_guarded_and_flag_cleared_witness :
  effects (leave false 9000 Fulfilled Fulfilled joinedCall).1
  = [ClearIncoming; SendLeave; RemoveMemberView 1; RemoveMemberView 2;
     BindOutStreamReset]
  /\ _leaving (leave false 9000 Rejected Fulfilled joinedCall).1 = false.
Proof.
  assert (Hnd : distinctViews joinedCall).
  { unfold distinctViews. simpl. repeat (apply NoDup_cons; split);
      try apply NoDup_nil_2; intros Hin; apply list_elem_of_In in Hin;
      simpl in Hin; intuition discriminate. }
  destruct (leave_guarded_and_flag_cleared false 9000 Fulfilled Fulfilled
              joinedCall Hnd) as [_ H1].
  destruct (leave_guarded_and_flag_cleared false 9000 Rejected Fulfilled
              joinedCall Hnd) as [_ H2].
  destruct (H1 eq_refl) as (_ & _ & _ & _ & Hok).
  destruct (H2 eq_refl) as (Hflag & _).
  destruct (Hok eq_refl) as (_ & _ & He & _).
  split; [exact He | exact Hflag].
Defined.

End Leave.

(** ** Capture devices: [getDevicesStream] *)

Module Devices.

(** [MediaDeviceInfo.kind] *)
Inductive MediaDeviceKind := audioinput | videoinput | audiooutput.

Definition MediaDeviceKind_eqb (a b : MediaDeviceKind) : bool :=
  match a, b with
  | audioinput, audioinput | videoinput, videoinput
  | audiooutput, audiooutput => true
  | _, _ => false
  end.

(** The [Set] of kinds, as the list of its members. *)
Definition Set_has (k : MediaDeviceKind) (s : list MediaDeviceKind) : bool :=
  existsb (MediaDeviceKind_eqb k) s.

Definition Set_delete (k : MediaDeviceKind) (s : list MediaDeviceKind)
  : list MediaDeviceKind :=
  List.filter (fun x => negb (MediaDeviceKind_eqb k x)) s.

Record Options := {
  videoOnly : bool;
  audioOnly : bool
}.

(** The argument of [getUserMedia]: whether it has the key [audio] (its value
    is [bestAudio] then) and the key [video] (with [bestVideo]). *)
Record MediaStreamConstraints := {
  audio : bool;
  video : bool
}.

Inductive Effect :=
| GetUserMedia (constraints : MediaStreamConstraints)
| LogWarn (message : string)
| SetCallStatus (html : string).

Definition DQ : string := String (ascii_of_nat 34) EmptyString.

(** [<i class="icon COLOUR warning sign"></i> ] *)
Definition warningSign (colour : string) : string :=
  "<i class=" +:+ DQ +:+ "icon " +:+ colour +:+ " warning sign" +:+ DQ
  +:+ "></i> ".

Definition videoNotAvailable : string :=
  warningSign "yellow" +:+ "Video device not available.".

Definition audioNotAvailable : string :=
  warningSign "yellow" +:+ "Audio device not available.".

Definition nothingAvailable : string :=
  warningSign "red" +:+ "Video or audio device not available.".

Section Browser.

(** The browser: its streams, [new MediaStream()], and how
    [md.getUserMedia] settles for given constraints ([None] when the promise
    is rejected). *)
Variable MediaStream : Type.
Variable newMediaStream : MediaStream.
Variable md_getUserMedia : MediaStreamConstraints -> option MediaStream.

(** The inner function [getUserMedia]: a rejection is logged and gives
    [undefined]. *)
Definition getUserMedia (constraints : MediaStreamConstraints)
  : option MediaStream * list Effect :=
  match md_getUserMedia constraints with
  | Some stream => (Some stream, [GetUserMedia constraints])
  | None =>
      (None, [GetUserMedia constraints;
              LogWarn "Could not get audio/video device:"])
  end.

(** [getDevicesStream(options)].  [md] is [navigator.mediaDevices] as the
    kinds its [enumerateDevices] lists, absent when the browser has no
    [mediaDevices]. *)
Definition getDevicesStream (md : option (list MediaDeviceKind))
    (options : Options) : MediaStream * list Effect :=
  let availDevices := match md with Some kinds => kinds | None => [] end in
  let availDevices :=
    if videoOnly options then Set_delete audioinput availDevices
    else if audioOnly options then Set_delete videoinput availDevices
    else availDevices in
  let result :=
    if Set_has audioinput availDevices && Set_has videoinput availDevices then
      getUserMedia {| audio := true; video := true |}
    else if Set_has audioinput availDevices then
      let r := getUserMedia {| audio := true; video := false |} in
      (r.1, r.2 ++ if bool_decide (is_Some r.1) && negb (audioOnly options)
                   then [SetCallStatus videoNotAvailable] else [])
    else if Set_has videoinput availDevices then
      let r := getUserMedia {| audio := false; video := true |} in
      (r.1, r.2 ++ if bool_decide (is_Some r.1) && negb (videoOnly options)
                   then [SetCallStatus audioNotAvailable] else [])
    else (None, []) in
  match result.1 with
  | Some stream => (stream, result.2)
  | None => (newMediaStream, result.2 ++ [SetCallStatus nothingAvailable])
  end.

Definition lists (md : option (list MediaDeviceKind)) (k : MediaDeviceKind)
  : bool :=
  match md with
  | Some kinds => Set_has k kinds
  | None => false
  end.

Definition isRequest (e : Effect) : bool :=
  match e with GetUserMedia _ => true | _ => false end.

Lemma Set_has_delete k k' s :
  Set_has k (Set_delete k' s)
  = Set_has k s && negb (MediaDeviceKind_eqb k' k).
Proof.
  unfold Set_has, Set_delete. induction s as [|x s IH]; [done|]. simpl.
  destruct (MediaDeviceKind_eqb k' x) eqn:E1; simpl; rewrite IH;
    destruct k, x, k'; simpl in *; try done;
    by destruct (existsb _ s).
Qed.

(** X28 ([getDevicesStream]).  The devices are asked for at most once, and
    only for kinds that are there and wanted: audio only when an audio input
    is listed and the call is not video-only, video only when a video input
    is listed and the call is video-only or not audio-only.  A stream comes
    back in every case: the one the browser grants, or, when nothing was
    asked for or the browser refuses, an empty one with the status
    "Video or audio device not available." as the last thing shown. *)
Theorem getDevicesStream_asks_only_for_listed_kinds
    (md : option (list MediaDeviceKind)) (options : Options) :
  let result := getDevicesStream md options in
  (length (List.filter isRequest result.2) <= 1)%nat
  /\ (forall c, GetUserMedia c ∈ result.2 ->
        (audio c = true ->
         lists md audioinput = true /\ videoOnly options = false)
        /\ (video c = true ->
            lists md videoinput = true
            /\ (videoOnly options = true \/ audioOnly options = false))
        /\ (audio c = true \/ video c = true))
  /\ ((exists c stream,
         md_getUserMedia c = Some stream
         /\ GetUserMedia c ∈ result.2
         /\ result.1 = stream
         /\ SetCallStatus nothingAvailable ∉ result.2)
      \/ (result.1 = newMediaStream
          /\ last result.2 = Some (SetCallStatus nothingAvailable)
          /\ forall c, GetUserMedia c ∈ result.2 -> md_getUserMedia c = None)).
Proof.
  intros result. unfold result, getDevicesStream.
  set (avail0 := match md with Some kinds => kinds | None => [] end).
  assert (Ha : forall k, Set_has k avail0 = lists md k).
  { intros k. unfold avail0, lists. by destruct md. }
  set (avail := if videoOnly options then Set_delete audioinput avail0
                else if audioOnly options then Set_delete videoinput avail0
                else avail0).
  assert (HA : Set_has audioinput avail
               = lists md audioinput && negb (videoOnly options)).
  { unfold avail. destruct (videoOnly options), (audioOnly options);
      rewrite ?Set_has_delete, Ha; simpl;
      by rewrite ?andb_true_r, ?andb_false_r. }
  assert (HV : Set_has videoinput avail
               = lists md videoinput
                 && (videoOnly options || negb (audioOnly options))).
  { unfold avail. destruct (videoOnly options), (audioOnly options);
      rewrite ?Set_has_delete, Ha; simpl;
      by rewrite ?andb_true_r, ?andb_false_r. }
  cbv zeta. rewrite HA, HV. clear HA HV avail Ha avail0.
  unfold getUserMedia.
  destruct (lists md audioinput) eqn:EA, (lists md videoinput) eqn:EV,
    (videoOnly options) eqn:EVO, (audioOnly options) eqn:EAO;
    cbn [andb orb negb fst snd];
    try match goal with
      | |- context [md_getUserMedia ?c] =>
          destruct (md_getUserMedia c) as [stream|] eqn:EG
      end;
    cbn [andb orb negb fst snd app bool_decide List.filter isRequest length];
    (split; [cbn; lia|]);
    (split;
     [ intros c Hc; cbn in Hc;
       repeat (apply elem_of_cons in Hc as [Hc|Hc];
               [try discriminate Hc; try (injection Hc as ->)|]);
       try (by apply not_elem_of_nil in Hc);
       cbn; intuition congruence
     | ]).
  all: try (left; eexists _, stream; split; [exact EG|];
            split; [cbn; apply list_elem_of_here|];
            split; [reflexivity|];
            cbn; intros Hc;
            repeat (apply elem_of_cons in Hc as [Hc|Hc];
                    [discriminate Hc|]);
            by apply not_elem_of_nil in Hc).
  all: right; split; [reflexivity|]; split; [reflexivity|];
    intros c Hc; cbn in Hc;
    repeat (apply elem_of_cons in Hc as [Hc|Hc];
            [try discriminate Hc; try (injection Hc as ->; exact EG)|]);
    by apply not_elem_of_nil in Hc.
Qed.

End Browser.

End Devices.

(** ** The compose field: [send], [onComposeInput], [onComposeKeyDown] *)

Module Compose.

Definition ENTER_KEY : Z := 13.
Definition UP_KEY : Z := 38.
Definition DOWN_KEY : Z := 40.

(** The compose view with its message field ([innerHTML] is the field's) and
    the [send] events it has triggered, as [(plain, html)], oldest first.
    The text selection, the focus and the file input are left out. *)
Record ComposeView := {
  sendHistory : list string;
  sendHistoryOfft : Z;
  editing : bool;
  innerHTML : string;
  triggered : list (string * string)
}.

(** [initialize], and the field empty as rendered. *)
Definition initialize : ComposeView :=
  {| sendHistory := []; sendHistoryOfft := 0; editing := false;
     innerHTML := EmptyString; triggered := [] |}.

(** How many times [```] is found in a text from left to right, a match
    never overlapping the one before: [text.split(/```/g)] has one piece more
    than that. *)
Fixpoint fences (skip : nat) (text : string) : nat :=
  match text with
  | EmptyString => O
  | String _ text' =>
      match skip with
      | S k => fences k text'
      | O =>
          if SDP.startsWith "```" text then S (fences 2 text')
          else fences 0 text'
      end
  end.

(** What a handler returns. *)
Inductive Returned := ReturnedFalse | ReturnedUndefined.

Section Browser.

(** The text the browser shows for a field with a given [innerHTML]
    ([el.innerText]), [String.prototype.trim], and the conversions defined
    elsewhere. *)
Variable innerText : string -> string.
Variable trim : string -> string.
Variable replace_colons : string -> string.
Variable forstadownConvert : string -> string.
Variable htmlSanitize : string -> string.

(** [send()], with nothing else running while the files are read;
    [hasFiles] is [this.fileInput.hasFiles()]. *)
Definition send (hasFiles : bool) (cv : ComposeView) : ComposeView :=
  let raw := innerHTML cv in
  let plain := replace_colons (trim (innerText raw)) in
  let html := forstadownConvert (replace_colons raw) in
  if (0 <? String.length plain + String.length html)%nat || hasFiles then
    {| sendHistory := sendHistory cv ++ [raw];
       sendHistoryOfft := 0;
       editing := false;
       innerHTML := EmptyString;
       triggered := triggered cv ++ [(plain, html)] |}
  else cv.

Definition setInnerHTML (html : string) (cv : ComposeView) : ComposeView :=
  {| sendHistory := sendHistory cv; sendHistoryOfft := sendHistoryOfft cv;
     editing := editing cv; innerHTML := html; triggered := triggered cv |}.

(** [onComposeInput(e)]: the browser has put [dirty] in the field. *)
Definition onComposeInput (dirty : string) (cv : ComposeView) : ComposeView :=
  let cv :=
    {| sendHistory := sendHistory cv; sendHistoryOfft := sendHistoryOfft cv;
       editing := true; innerHTML := dirty; triggered := triggered cv |} in
  let clean := htmlSanitize dirty in
  let cv := if negb (String.eqb clean dirty) then setInnerHTML clean cv
            else cv in
  let emoji := replace_colons clean in
  if negb (String.eqb emoji clean) then setInnerHTML emoji cv else cv.

(** [this.sendHistory[i]] written into the field: a missing element is
    [undefined], which the field shows as text. *)
Definition element (i : Z) (history : list string) : string :=
  if i <? 0 then "undefined"
  else
    match history !! Z.to_nat i with
    | Some raw => raw
    | None => "undefined"
    end.

(** [onComposeKeyDown(e)]; [modified] is
    [e.altKey || e.shiftKey || e.ctrlKey]. *)
Definition onComposeKeyDown (keyCode : Z) (modified hasFiles : bool)
    (cv : ComposeView) : ComposeView * Returned :=
  if negb (editing cv) && negb (length (sendHistory cv) =? 0)%nat
     && ((keyCode =? UP_KEY) || (keyCode =? DOWN_KEY)) then
    let offt := sendHistoryOfft cv + (if keyCode =? UP_KEY then 1 else -1) in
    let offt := Z.min (Z.max 0 offt) (Z.of_nat (length (sendHistory cv))) in
    ({| sendHistory := sendHistory cv;
        sendHistoryOfft := offt;
        editing := editing cv;
        innerHTML :=
          if offt =? 0 then EmptyString
          else element (Z.of_nat (length (sendHistory cv)) - offt)
                       (sendHistory cv);
        triggered := triggered cv |}, ReturnedFalse)
  else if (keyCode =? ENTER_KEY) && negb modified then
    if negb ((S (fences 0 (innerText (innerHTML cv))) mod 2 =? 0)%nat) then
      (send hasFiles cv, ReturnedFalse)
    else (cv, ReturnedUndefined)
  else (cv, ReturnedUndefined).

Inductive Event :=
| KeyDown (keyCode : Z) (modified hasFiles : bool)
| Input (dirty : string)
| SendClick (hasFiles : bool).

Definition step (cv : ComposeView) (e : Event) : ComposeView :=
  match e with
  | KeyDown keyCode modified hasFiles =>
      (onComposeKeyDown keyCode modified hasFiles cv).1
  | Input dirty => onComposeInput dirty cv
  | SendClick hasFiles => send hasFiles cv
  end.

Definition run (events : list Event) : ComposeView :=
  fold_left step events initialize.

(** A key pressed with no modifier and no file chosen. *)
Definition press (keyCode : Z) (cv : ComposeView) : ComposeView :=
  step cv (KeyDown keyCode false false).

(** The message sent [n] messages ago, [1] being the last. *)
Definition ago (n : Z) (cv : ComposeView) : option string :=
  if n <=? 0 then None else reverse (sendHistory cv) !! Z.to_nat (n - 1).

(** What the field holds when the offset stands at a place in the history. *)
Definition shows (cv : ComposeView) : Prop :=
  if sendHistoryOfft cv =? 0 then innerHTML cv = EmptyString
  else ago (sendHistoryOfft cv) cv = Some (innerHTML cv).

Lemma offset_in_history (events : list Event) :
  0 <= sendHistoryOfft (run events)
    <= Z.of_nat (length (sendHistory (run events))).
Proof.
  unfold run. induction events as [|e events IH] using rev_ind; [done|].
  rewrite fold_left_app. cbn [fold_left].
  set (cv := fold_left step events initialize) in *.
  destruct e as [keyCode modified hasFiles | dirty | hasFiles];
    cbn [step].
  - unfold onComposeKeyDown.
    destruct (negb (editing cv) && _ && _); cbn [fst sendHistoryOfft sendHistory];
      [lia|].
    destruct ((keyCode =? ENTER_KEY) && negb modified); [|exact IH].
    destruct (negb _); cbn [fst]; [|exact IH].
    unfold send. destruct (_ || hasFiles); [|exact IH].
    cbn [sendHistoryOfft sendHistory]. lia.
  - unfold onComposeInput, setInnerHTML.
    destruct (negb (String.eqb (htmlSanitize dirty) dirty)),
      (negb (String.eqb (replace_colons (htmlSanitize dirty))
                        (htmlSanitize dirty))); exact IH.
  - unfold send. destruct (_ || hasFiles); [|exact IH].
    cbn [sendHistoryOfft sendHistory]. lia.
Qed.

Lemma element_ago (history : list string) (n : Z) :
  0 < n <= Z.of_nat (length history) ->
  reverse history !! Z.to_nat (n - 1)
  = Some (element (Z.of_nat (length history) - n) history).
Proof.
  intros Hn. unfold element.
  replace (Z.of_nat (length history) - n <? 0) with false by (symmetry; lia).
  assert (Hlt : (Z.to_nat (Z.of_nat (length history) - n) < length history)%nat)
    by lia.
  destruct (lookup_lt_is_Some_2 history _ Hlt) as [raw Hraw].
  rewrite Hraw. apply reverse_lookup_Some. split; [|lia].
  rewrite <- Hraw. f_equal. lia.
Qed.

(** One arrow key on a view that is not editing and has a history. *)
Lemma press_arrow (keyCode : Z) (cv : ComposeView) :
  editing cv = false -> sendHistory cv <> [] ->
  keyCode = UP_KEY \/ keyCode = DOWN_KEY ->
  let cv' := press keyCode cv in
  sendHistory cv' = sendHistory cv
  /\ editing cv' = false
  /\ triggered cv' = triggered cv
  /\ sendHistoryOfft cv'
     = Z.min (Z.max 0 (sendHistoryOfft cv
                       + (if keyCode =? UP_KEY then 1 else -1)))
             (Z.of_nat (length (sendHistory cv)))
  /\ shows cv'.
Proof.
  intros He Hh Hk cv'. unfold cv', press, step, onComposeKeyDown.
  rewrite He. cbn [negb andb].
  replace (length (sendHistory cv) =? 0)%nat with false
    by (symmetry; apply Nat.eqb_neq; by destruct (sendHistory cv)).
  replace ((keyCode =? UP_KEY) || (keyCode =? DOWN_KEY)) with true
    by (symmetry; destruct Hk as [-> | ->]; reflexivity).
  cbn [negb andb fst sendHistory editing triggered sendHistoryOfft].
  repeat split; try done.
  unfold shows, ago. cbn [sendHistoryOfft innerHTML sendHistory].
  set (o := Z.min _ _).
  destruct (o =? 0) eqn:Eo; [done|].
  apply Z.eqb_neq in Eo.
  replace (o <=? 0) with false by (symmetry; unfold o in *; lia).
  apply element_ago. unfold o in *. lia.
Qed.

(** X29 ([onComposeKeyDown], [send], [onComposeInput]).  While nothing has
    been typed since the last message was sent, the arrow keys walk the
    history of sent messages and never leave it: after [k] presses of Up the
    field holds the message sent [min(n, o + k)] messages ago, [n] being the
    number of messages sent and [o] where the walk stood, so Up stops at the
    oldest message; after [k] presses of Down it holds the one
    [max(0, o - k)] messages ago, and is empty at zero.  The keys send
    nothing and leave the history as it is. *)
Theorem arrow_keys_walk_the_send_history (events : list Event) (k : nat) :
  let cv := run events in
  let n := Z.of_nat (length (sendHistory cv)) in
  let up := Nat.iter k (press UP_KEY) cv in
  let down := Nat.iter k (press DOWN_KEY) cv in
  editing cv = false -> sendHistory cv <> [] -> (0 < k)%nat ->
  sendHistoryOfft up = Z.min n (sendHistoryOfft cv + Z.of_nat k)
  /\ ago (sendHistoryOfft up) cv = Some (innerHTML up)
  /\ sendHistoryOfft down = Z.max 0 (sendHistoryOfft cv - Z.of_nat k)
  /\ (if sendHistoryOfft down =? 0 then innerHTML down = EmptyString
      else ago (sendHistoryOfft down) cv = Some (innerHTML down))
  /\ sendHistory up = sendHistory cv /\ sendHistory down = sendHistory cv
  /\ triggered up = triggered cv /\ triggered down = triggered cv.
Proof.
  intros cv n up down He Hh Hk.
  pose proof (offset_in_history events) as Hinv. fold cv in Hinv. fold n in Hinv.
  assert (Hn : 0 < n) by (unfold n; destruct (sendHistory cv); [done | cbn; lia]).
  assert (Hwalk : forall keyCode, keyCode = UP_KEY \/ keyCode = DOWN_KEY ->
            forall j, (0 < j)%nat ->
            let c := Nat.iter j (press keyCode) cv in
            sendHistory c = sendHistory cv /\ editing c = false
            /\ triggered c = triggered cv
            /\ sendHistoryOfft c
               = (if keyCode =? UP_KEY
                  then Z.min n (sendHistoryOfft cv + Z.of_nat j)
                  else Z.max 0 (sendHistoryOfft cv - Z.of_nat j))
            /\ shows c).
  { intros keyCode Hkey j Hj. cbv zeta. induction j as [|j IH]; [lia|].
    rewrite Nat.iter_succ. destruct j as [|j].
    - change (Nat.iter 0 (press keyCode) cv) with cv.
      destruct (press_arrow keyCode cv He Hh Hkey) as (P1 & P2 & P3 & P4 & P5).
      split; [exact P1|]. split; [exact P2|]. split; [exact P3|].
      split; [|exact P5]. rewrite P4. fold n.
      destruct Hkey as [-> | ->]; cbn [Z.eqb UP_KEY DOWN_KEY Pos.eqb]; lia.
    - destruct IH as (I1 & I2 & I3 & I4 & I5); [lia|].
      set (c := Nat.iter (S j) (press keyCode) cv) in *.
      assert (Hc : sendHistory c <> []) by (by rewrite I1).
      destruct (press_arrow keyCode c I2 Hc Hkey) as (P1 & P2 & P3 & P4 & P5).
      split; [congruence|]. split; [exact P2|]. split; [congruence|].
      split; [|exact P5]. rewrite P4, I4, I1. fold n.
      destruct Hkey as [-> | ->]; cbn [Z.eqb UP_KEY DOWN_KEY Pos.eqb]; lia. }
  destruct (Hwalk UP_KEY (or_introl eq_refl) k Hk) as (U1 & U2 & U3 & U4 & U5).
  destruct (Hwalk DOWN_KEY (or_intror eq_refl) k Hk) as (D1 & D2 & D3 & D4 & D5).
  fold up in U1, U2, U3, U4, U5. fold down in D1, D2, D3, D4, D5.
  cbn [Z.eqb UP_KEY DOWN_KEY Pos.eqb] in U4, D4.
  repeat split; try done.
  - unfold shows in U5. replace (sendHistoryOfft up =? 0) with false in U5
      by (symmetry; lia).
    unfold ago in *. by rewrite U1 in U5.
  - unfold shows in D5. destruct (sendHistoryOfft down =? 0); [done|].
    unfold ago in *. by rewrite D1 in D5.
Qed.

End Browser.

(** Two messages are sent, then Up is pressed three times and Down once. *)
Definition twoSent : list Event :=
  [Input "one"; SendClick false; Input "two"; KeyDown ENTER_KEY false false].

Lemma arrow_keys_walk_the_send_history_witness :
  Some "one"%string
  = Some (innerHTML (Nat.iter 3 (press id id id id id UP_KEY)
                              (run id id id id id twoSent)))
  /\ innerHTML (Nat.iter 1 (press id id id id id DOWN_KEY) (run id id id id id twoSent))
     = EmptyString.
Proof.
  destruct (arrow_keys_walk_the_send_history id id id id id twoSent 3
              eq_refl ltac:(discriminate) ltac:(lia))
    as (_ & Hup & _).
  destruct (arrow_keys_walk_the_send_history id id id id id twoSent 1
              eq_refl ltac:(discriminate) ltac:(lia))
    as (_ & _ & _ & Hdown & _).
  split.
  - exact Hup.
  - exact Hdown.
Defined.

End Compose.

(** ** Message markup (src/app/util.js): [F.util.forstadownConvert] *)

Module Forstadown.

Definition fence : string := "```".

(** The text up to the first fence in [s], when there is a fence: what the
    lazy group [([\s\S]*?)] takes when the closing fence is looked for in
    [s]. *)
Fixpoint untilFence (s : string) : option string :=
  if SDP.startsWith fence s then Some EmptyString
  else
    match s with
    | EmptyString => None
    | String c s' => option_map (String c) (untilFence s')
    end.

(** The match of [code_block] that starts at the first character of [s]: its
    group. *)
Definition matchAt (s : string) : option string :=
  match s with
  | String "`" (String "`" (String "`" rest)) => untilFence rest
  | _ => None
  end.

(** One call of the replacement function: [outer] is the whole match,
    [inner] its group, [offset] where it starts. *)
Record Match := {
  outer : string;
  inner : string;
  offset : Z
}.

(** The matches of the global expression [code_block] in a string, from left
    to right.  [s] is what is left of the string from [offset] on; after a
    match the search goes on behind it, so the characters of the match after
    its first are stepped over ([skip] counts them). *)
Fixpoint code_block (skip : nat) (offset : Z) (s : string) : list Match :=
  match s with
  | EmptyString => []
  | String _ s' =>
      match skip with
      | S k => code_block k (offset + 1) s'
      | O =>
          match matchAt s with
          | Some inner =>
              {| outer := fence +:+ inner +:+ fence;
                 inner := inner; offset := offset |}
              :: code_block (String.length inner + 5) (offset + 1) s'
          | None => code_block 0 (offset + 1) s'
          end
      end
  end.

Record Segment := {
  protected : bool;
  value : string
}.

(** [whole.slice(from, to)] for [0 <= from]. *)
Definition slice (from to : Z) (whole : string) : string :=
  String.substring (Z.to_nat from) (Z.to_nat (to - from)) whole.

(** The replacement function, on [pos] and [stack]. *)
Definition onMatch (whole : string) (st : Z * list Segment) (m : Match)
  : Z * list Segment :=
  let pos := st.1 in
  let stack := st.2 in
  let stack :=
    if pos - offset m >? 0
    then stack ++ [{| protected := false;
                      value := slice pos (offset m) whole |}]
    else stack in
  let pos := offset m + Z.of_nat (String.length (outer m)) in
  let stack :=
    if (String.length (inner m) =? 0)%nat then stack
    else stack ++ [{| protected := true;
                      value := "<code>" +:+ inner m +:+ "</code>" |}] in
  (pos, stack).

Fixpoint joinAll (buf : list string) : string :=
  match buf with
  | [] => EmptyString
  | x :: rest => x +:+ joinAll rest
  end.

Section Styles.

(** The loop over [styles]: the sixteen inline replacements, one after the
    other, on a piece of text. *)
Variable inlineStyles : string -> string.

Definition forstadownConvert (fd_str : string) : string :=
  let stack := (fold_left (onMatch fd_str) (code_block 0 0 fd_str) (0, [])).2 in
  let stack :=
    match stack with
    | [] => [{| protected := false; value := fd_str |}]
    | _ => stack
    end in
  joinAll (map (fun segment =>
                  if protected segment then value segment
                  else inlineStyles (value segment))
               stack).

(** The groups of the code blocks of a string that are not empty. *)
Definition codeOf (fd_str : string) : list string :=
  List.filter (fun i => negb (String.length i =? 0)%nat)
              (map inner (code_block 0 0 fd_str)).

(** Every match starts at or behind the end of the one before it. *)
Fixpoint inOrder (pos : Z) (ms : list Match) : Prop :=
  match ms with
  | [] => True
  | m :: rest =>
      pos <= offset m
      /\ inOrder (offset m + Z.of_nat (String.length (outer m))) rest
  end.

Lemma length_append (a b : string) :
  String.length (a +:+ b) = (String.length a + String.length b)%nat.
Proof.
  induction a as [|c a IH]; [done|].
  rewrite SDP.append_String. cbn. by rewrite IH.
Qed.

Lemma append_nothing (a : string) : a +:+ EmptyString = a.
Proof.
  induction a as [|c a IH]; [done|].
  rewrite SDP.append_String. by rewrite IH.
Qed.

Lemma code_block_inOrder (s : string) : forall skip start pos,
  pos <= start + Z.of_nat skip ->
  inOrder pos (code_block skip start s).
Proof.
  induction s as [|c s IH]; intros skip start pos Hpos; [done|].
  cbn [code_block]. destruct skip as [|k].
  - destruct (matchAt (String c s)) as [i|].
    + cbn [inOrder offset outer]. split; [lia|]. apply IH.
      rewrite !length_append. cbn. lia.
    + apply IH. lia.
  - apply IH. lia.
Qed.

Lemma fold_onMatch (whole : string) (ms : list Match) : forall pos stack,
  inOrder pos ms ->
  (fold_left (onMatch whole) ms (pos, stack)).2
  = stack
    ++ map (fun i => {| protected := true;
                        value := "<code>" +:+ i +:+ "</code>" |})
           (List.filter (fun i => negb (String.length i =? 0)%nat)
                        (map inner ms)).
Proof.
  induction ms as [|m ms IH]; intros pos stack Hord; simpl.
  - by rewrite app_nil_r.
  - destruct Hord as [Hpos Hord]. unfold onMatch at 2. cbn [fst snd].
    replace (pos - offset m >? 0) with false by (symmetry; lia).
    destruct (String.length (inner m) =? 0)%nat; simpl.
    + by apply IH.
    + rewrite IH by done. by rewrite <- app_assoc.
Qed.

Lemma join_protected (blocks : list string) :
  joinAll (map (fun segment =>
                  if protected segment then value segment
                  else inlineStyles (value segment))
               (map (fun i => {| protected := true;
                                 value := "<code>" +:+ i +:+ "</code>" |})
                    blocks))
  = joinAll (map (fun i => "<code>" +:+ i +:+ "</code>") blocks).
Proof.
  induction blocks as [|x blocks IH]; [done|].
  cbn [map joinAll protected value]. by rewrite <- IH.
Qed.

(** X30 ([F.util.forstadownConvert]).  When a message has a code block that
    is not empty, the converted message is the code blocks alone, each as
    [<code>...</code>] with its text untouched, in order: the text before,
    between and behind the blocks is not in it, since the test for text in
    front of a block never holds.  With no such block, the whole message goes
    through the inline replacements. *)
Theorem forstadownConvert_keeps_code_blocks_only (fd_str : string) :
  forstadownConvert fd_str
  = match codeOf fd_str with
    | [] => inlineStyles fd_str
    | blocks => joinAll (map (fun i => "<code>" +:+ i +:+ "</code>") blocks)
    end.
Proof.
  unfold forstadownConvert, codeOf.
  rewrite (fold_onMatch fd_str _ 0 []) by (by apply code_block_inOrder).
  cbn [app].
  destruct (List.filter _ (map inner (code_block 0 0 fd_str))) as [|i l].
  - cbn. apply append_nothing.
  - exact (join_protected (i :: l)).
Qed.

End Styles.

(** A message with text around a code block. *)
Lemma forstadownConvert_example (inlineStyles : string -> string) :
  forstadownConvert inlineStyles "see ```x = 1``` *now*" = "<code>x = 1</code>"%string.
Proof. reflexivity. Qed.

End Forstadown.
